(** * A shallow embedding of the Paint Shop Pro decoder (package psp)

    The development follows decoder.go function by function.  Go values are
    modelled as follows:
    - a byte is [Byte.byte]; [b2z] gives its value in 0..255;
    - uint16 and uint32 values are [Z] kept in range by construction, with the
      wrap-around written out where the source subtracts;
    - [int] is the 64-bit signed integer of the usual targets, a [Z] wrapped by
      [wrapInt] where a product can overflow;
    - the decoder struct is the record [decoder]; its methods are computations
      of the monad [M], a state monad over [decoder] whose second outcome is a
      Go panic;
    - the input is the list of bytes that the underlying reader delivers
      before it reports end of input; [r] is what is left of it. *)

From Stdlib Require Import ZArith List Lia Bool.
From Stdlib Require Import Strings.String Strings.Byte.
From stdpp Require Import base list.
Import ListNotations.

Local Open Scope Z_scope.

(** ** Bytes and little-endian scalars *)

Abbreviation byte := Byte.byte.

Definition b2z (b : byte) : Z := Z.of_N (Byte.to_N b).

Definition z2b (z : Z) : byte :=
  match Byte.of_N (Z.to_N (z mod 256)) with
  | Some b => b
  | None => Byte.x00
  end.

Definition len {A} (l : list A) : Z := Z.of_nat (length l).

(** [b[i]] on the contents of a slice: [None] is the index-out-of-range
    fault. *)
Definition at_ (b : list byte) (i : Z) : option byte :=
  if i <? 0 then None else b !! Z.to_nat i.

Definition decodeUint16 (b : list byte) : option Z :=
  match at_ b 0, at_ b 1 with
  | Some b0, Some b1 => Some (Z.lor (b2z b0) (Z.shiftl (b2z b1) 8))
  | _, _ => None
  end.

Definition decodeUint32 (b : list byte) : option Z :=
  match at_ b 0, at_ b 1, at_ b 2, at_ b 3 with
  | Some b0, Some b1, Some b2, Some b3 =>
      Some (Z.lor (Z.lor (Z.lor (b2z b0) (Z.shiftl (b2z b1) 8))
                         (Z.shiftl (b2z b2) 16))
                  (Z.shiftl (b2z b3) 24))
  | _, _, _, _ => None
  end.

Definition decodeUint64 (b : list byte) : option Z :=
  match at_ b 0, at_ b 1, at_ b 2, at_ b 3, at_ b 4, at_ b 5, at_ b 6, at_ b 7 with
  | Some b0, Some b1, Some b2, Some b3, Some b4, Some b5, Some b6, Some b7 =>
      Some (Z.lor (Z.lor (Z.lor (Z.lor (Z.lor (Z.lor (Z.lor
             (b2z b0) (Z.shiftl (b2z b1) 8)) (Z.shiftl (b2z b2) 16))
             (Z.shiftl (b2z b3) 24)) (Z.shiftl (b2z b4) 32))
             (Z.shiftl (b2z b5) 40)) (Z.shiftl (b2z b6) 48))
             (Z.shiftl (b2z b7) 56))
  | _, _, _, _, _, _, _, _ => None
  end.

(** int32(x) of a uint32. *)
Definition int32 (x : Z) : Z := if x <? 2 ^ 31 then x else x - 2 ^ 32.

(** Wrap-around of the 64-bit [int]. *)
Definition wrapInt (x : Z) : Z := (x + 2 ^ 63) mod 2 ^ 64 - 2 ^ 63.

(** uint32 subtraction. *)
Definition subU32 (x y : Z) : Z := (x - y) mod 2 ^ 32.

Definition bytes_of_string (s : string) : list byte := list_byte_of_string s.

Definition fileMagic : list byte :=
  bytes_of_string "Paint Shop Pro Image File" ++
  [Byte.x0a; Byte.x1a; Byte.x00; Byte.x00; Byte.x00; Byte.x00; Byte.x00].
Definition blockMagic : list byte := [Byte.x7e; Byte.x42; Byte.x4b; Byte.x00].
Definition chunkMagic : list byte := [Byte.x7e; Byte.x46; Byte.x4c; Byte.x00].

(** bytes.Equal *)
Fixpoint bytes_eqb (a b : list byte) : bool :=
  match a, b with
  | [], [] => true
  | x :: a', y :: b' => Byte.eqb x y && bytes_eqb a' b'
  | _, _ => false
  end.

(** ** Errors and panics *)

(** The values of Go's [error] that the decoder can raise.  [FormatError] and
    [UnsupportedError] are the package's own; the message of an
    [UnsupportedError] is [fmt.Sprintf] of a format and its arguments, kept
    unformatted.  The others come from io, bufio and compress/zlib. *)
Inductive error :=
| FormatError (msg : string)
| UnsupportedError (format : string) (args : list Z)
| ErrEOF
| ErrUnexpectedEOF
| ErrNegativeCount
| ErrZlib (code : Z).

(** Run-time faults: the panics whose value is a [runtime.Error]. *)
Inductive fault :=
| IndexOutOfRange
| SliceBounds
| NilDereference
| MakeSliceLen
| TypeAssertion.

(** What a panic carries.  [PFuel] is not a Go panic: it marks a loop of the
    model that ran out of its iteration bound, and the totality lemmas show
    that it never comes out of [Decode] or [DecodeConfig]. *)
Inductive panicval :=
| PErr (e : error)
| PRuntime (f : fault)
| PString (s : string)
| PFuel.

(** ** Images *)

Record Rectangle := mkRect { MinX : Z; MinY : Z; MaxX : Z; MaxY : Z }.

(** image.Rect: the corners are put in order. *)
Definition Rect (x0 y0 x1 y1 : Z) : Rectangle :=
  let '(x0, x1) := if x1 <? x0 then (x1, x0) else (x0, x1) in
  let '(y0, y1) := if y1 <? y0 then (y1, y0) else (y0, y1) in
  mkRect x0 y0 x1 y1.

Definition Dx (q : Rectangle) : Z := MaxX q - MinX q.
Definition Dy (q : Rectangle) : Z := MaxY q - MinY q.

Record RGBA := mkRGBA { R : byte; G : byte; B : byte; A : byte }.

Inductive colorModelT := GrayModel | Gray16Model | RGBAModel | RGBA64Model.

(** image.RGBA, image.RGBA64 and image.Gray16 share this shape. *)
Record pixbuf := mkPix { Pix : list byte; Stride : Z; Bounds : Rectangle }.

(** The image handed to the caller, with its pixel buffer read out. *)
Inductive Image :=
| ImRGBA (p : pixbuf)
| ImRGBA64 (p : pixbuf)
| ImGray16 (p : pixbuf)
| ImPaletted (p : pixbuf) (pal : list RGBA).

(** ** Decoder state *)

Record creatorT := mkCreator {
  title : list byte;
  creationDate : option Z;
  modificationDate : option Z;
  artist : list byte;
  copyright : list byte;
  description : list byte;
  appID : Z;
  appVersion : Z
}.

Record layerT := mkLayer {
  name : list byte;
  layerType : Z;
  rect : Rectangle;
  savedRect : Rectangle;
  opacity : byte;
  blendingMode : byte;
  visible : bool;
  transparencyProtected : bool;
  linkGroupID : byte;
  maskRectangle : Rectangle;
  savedMaskRectangle : Rectangle;
  maskLinked : bool;
  maskDisabled : bool;
  invertMaskOnBlend : bool;
  blendRangeCount : Z;
  bitmapCount : Z;
  channelCount : Z
}.

Record blockHeader := mkBlockHeader { id : Z; dataLen : Z; initLen : Z }.

Record chunkHeader := mkChunkHeader { fieldKeyword : Z; chunkLen : Z }.

(** One value per call of fmt.Printf, with the arguments printed. *)
Inductive event :=
| EvDecoder
| EvBlock (bh : blockHeader)
| EvChunk (ch : chunkHeader)
| EvLayer (l : layerT)
| EvChannel
| EvCompressedLen (n : Z)
| EvUncompressedLen (n : Z)
| EvBitmapType (t : Z)
| EvChannelType (t : Z).

(** The struct [decoder].  [r] is what the buffered reader has still to
    deliver.  [tmpBuf] is the array the field points to; its length and
    capacity are equal, since the field is only ever assigned the result of
    [make].  Two fields are the model's own: [tmpOld] keeps the arrays that
    [tmpBuf] pointed to before it was reallocated (an image may still alias
    one), and [stdout] the lines printed so far. *)
Record decoder := mkDecoder {
  r : list byte;
  versionMinor : Z;
  versionMajor : Z;
  width : Z;
  height : Z;
  res : Z;
  resMetric : Z;
  comp : Z;
  colorModel : option colorModelT;
  bitDepth : Z;
  planeCount : Z;
  colorCount : Z;
  grayscale : bool;
  totalImageSize : Z;
  activeLayer : Z;
  layerCount : Z;
  xDataTrnsIndex : Z;
  creator : creatorT;
  palette : option (list RGBA);
  tmpBuf : list byte;
  tmpOld : list (list byte);
  stdout : list event
}.

Definition set_r (d : decoder) (r' : list byte) : decoder :=
  mkDecoder r' (versionMinor d) (versionMajor d) (width d) (height d) (res
    d) (resMetric d) (comp d) (colorModel d) (bitDepth d) (planeCount d)
    (colorCount d) (grayscale d) (totalImageSize d) (activeLayer d)
    (layerCount d) (xDataTrnsIndex d) (creator d) (palette d) (tmpBuf d)
    (tmpOld d) (stdout d).

Definition set_tmpBuf (d : decoder) (tmpBuf' : list byte) : decoder :=
  mkDecoder (r d) (versionMinor d) (versionMajor d) (width d) (height d)
    (res d) (resMetric d) (comp d) (colorModel d) (bitDepth d) (planeCount
    d) (colorCount d) (grayscale d) (totalImageSize d) (activeLayer d)
    (layerCount d) (xDataTrnsIndex d) (creator d) (palette d) tmpBuf'
    (tmpOld d) (stdout d).

Definition set_tmp (d : decoder) (tmpBuf' : list byte) (tmpOld' : list (list
    byte)) : decoder :=
  mkDecoder (r d) (versionMinor d) (versionMajor d) (width d) (height d)
    (res d) (resMetric d) (comp d) (colorModel d) (bitDepth d) (planeCount
    d) (colorCount d) (grayscale d) (totalImageSize d) (activeLayer d)
    (layerCount d) (xDataTrnsIndex d) (creator d) (palette d) tmpBuf'
    tmpOld' (stdout d).

Definition set_version (d : decoder) (versionMajor' : Z) (versionMinor' : Z) :
    decoder :=
  mkDecoder (r d) versionMinor' versionMajor' (width d) (height d) (res d)
    (resMetric d) (comp d) (colorModel d) (bitDepth d) (planeCount d)
    (colorCount d) (grayscale d) (totalImageSize d) (activeLayer d)
    (layerCount d) (xDataTrnsIndex d) (creator d) (palette d) (tmpBuf d)
    (tmpOld d) (stdout d).

Definition set_attrs (d : decoder) (width' : Z) (height' : Z) (res' : Z)
    (resMetric' : Z) (comp' : Z) (bitDepth' : Z) (planeCount' : Z)
    (colorCount' : Z) (grayscale' : bool) (totalImageSize' : Z) (activeLayer'
    : Z) (layerCount' : Z) : decoder :=
  mkDecoder (r d) (versionMinor d) (versionMajor d) width' height' res'
    resMetric' comp' (colorModel d) bitDepth' planeCount' colorCount'
    grayscale' totalImageSize' activeLayer' layerCount' (xDataTrnsIndex d)
    (creator d) (palette d) (tmpBuf d) (tmpOld d) (stdout d).

Definition set_colorModel (d : decoder) (colorModel' : option colorModelT) :
    decoder :=
  mkDecoder (r d) (versionMinor d) (versionMajor d) (width d) (height d)
    (res d) (resMetric d) (comp d) colorModel' (bitDepth d) (planeCount d)
    (colorCount d) (grayscale d) (totalImageSize d) (activeLayer d)
    (layerCount d) (xDataTrnsIndex d) (creator d) (palette d) (tmpBuf d)
    (tmpOld d) (stdout d).

Definition set_creator (d : decoder) (creator' : creatorT) : decoder :=
  mkDecoder (r d) (versionMinor d) (versionMajor d) (width d) (height d)
    (res d) (resMetric d) (comp d) (colorModel d) (bitDepth d) (planeCount
    d) (colorCount d) (grayscale d) (totalImageSize d) (activeLayer d)
    (layerCount d) (xDataTrnsIndex d) creator' (palette d) (tmpBuf d)
    (tmpOld d) (stdout d).

Definition set_palette (d : decoder) (palette' : option (list RGBA)) : decoder
    :=
  mkDecoder (r d) (versionMinor d) (versionMajor d) (width d) (height d)
    (res d) (resMetric d) (comp d) (colorModel d) (bitDepth d) (planeCount
    d) (colorCount d) (grayscale d) (totalImageSize d) (activeLayer d)
    (layerCount d) (xDataTrnsIndex d) (creator d) palette' (tmpBuf d)
    (tmpOld d) (stdout d).

Definition set_stdout (d : decoder) (stdout' : list event) : decoder :=
  mkDecoder (r d) (versionMinor d) (versionMajor d) (width d) (height d)
    (res d) (resMetric d) (comp d) (colorModel d) (bitDepth d) (planeCount
    d) (colorCount d) (grayscale d) (totalImageSize d) (activeLayer d)
    (layerCount d) (xDataTrnsIndex d) (creator d) (palette d) (tmpBuf d)
    (tmpOld d) stdout'.

(** ** The monad of decoder methods *)

Inductive outcome (T : Type) :=
| Ok (a : T) (d : decoder)
| Panic (p : panicval) (d : decoder).
Arguments Ok {T} a d.
Arguments Panic {T} p d.

Definition M (T : Type) : Type := decoder -> outcome T.

Definition ret {T} (a : T) : M T := fun d => Ok a d.

Definition bind {T U} (m : M T) (f : T -> M U) : M U :=
  fun d => match m d with
           | Ok a d' => f a d'
           | Panic p d' => Panic p d'
           end.

Declare Scope go_scope.
Delimit Scope go_scope with go.
Notation "'let*' x ':=' m 'in' k" := (bind m (fun x => k))
  (at level 10, x name, m at level 100, k at level 200) : go_scope.
Notation "m '>>' k" := (bind m (fun _ => k))
  (at level 90, right associativity) : go_scope.
Local Open Scope go_scope.

Definition panic {T} (p : panicval) : M T := fun d => Panic p d.

(** d.error(err) *)
Definition error_ {T} (e : error) : M T := panic (PErr e).

Definition fault_ {T} (f : fault) : M T := panic (PRuntime f).

Definition gets {T} (f : decoder -> T) : M T := fun d => Ok (f d) d.

Definition modify (f : decoder -> decoder) : M unit := fun d => Ok tt (f d).

(** A value that faults when absent. *)
Definition orFault {T} (f : fault) (o : option T) : M T :=
  match o with
  | Some a => ret a
  | None => fault_ f
  end.

(** fmt.Printf *)
Definition printf (e : event) : M unit :=
  modify (fun d => set_stdout d (stdout d ++ [e])).

(** ** Slices of the scratch buffer *)

(** A slice over the array of [tmpBuf]: offset and length.  Its capacity is
    what is left of the array after the offset. *)
Record slice := mkSlice { soff : Z; slen : Z }.

(** The slice expression [s[lo:hi]]: the bounds are checked against the
    capacity. *)
Definition reslice (s : slice) (lo hi : Z) : M slice :=
  let* cap := gets (fun d => len (tmpBuf d) - soff s) in
  if (0 <=? lo) && (lo <=? hi) && (hi <=? cap)
  then ret (mkSlice (soff s + lo) (hi - lo))
  else fault_ SliceBounds.

(** [d.tmpBuf[lo:hi]] *)
Definition tmpSlice (lo hi : Z) : M slice :=
  let* n := gets (fun d => len (tmpBuf d)) in
  reslice (mkSlice 0 n) lo hi.

(** The bytes a slice shows. *)
Definition contents (s : slice) : M (list byte) :=
  gets (fun d => take (Z.to_nat (slen s)) (drop (Z.to_nat (soff s)) (tmpBuf d))).

(** The index expression [s[i]]: checked against the length. *)
Definition index (s : slice) (i : Z) : M byte :=
  if (0 <=? i) && (i <? slen s)
  then let* t := gets tmpBuf in orFault IndexOutOfRange (at_ t (soff s + i))
  else fault_ IndexOutOfRange.

(** The assignment [s[i] = b]. *)
Definition store (s : slice) (i : Z) (b : byte) : M unit :=
  if (0 <=? i) && (i <? slen s)
  then modify (fun d => set_tmpBuf d (<[Z.to_nat (soff s + i) := b]> (tmpBuf d)))
  else fault_ IndexOutOfRange.

(** [make([]byte, n)]: faults when the length is negative or above what the
    runtime allocates; memory is taken to be sufficient below that. *)
Definition maxAlloc : Z := 2 ^ 48.

Definition make (n : Z) : M (list byte) :=
  if (n <? 0) || (maxAlloc <? n) then fault_ MakeSliceLen
  else ret (replicate (Z.to_nat n) Byte.x00).

(** [d.tmpBuf = make([]byte, n)]: the old array is kept aside. *)
Definition growTmp (n : Z) : M unit :=
  let* a := make n in
  modify (fun d => set_tmp d a (tmpOld d ++ [tmpBuf d])).

(** ** Byte reader *)

(** d.skip: bufio's Discard answers a negative count with ErrNegativeCount,
    and a short stream with the reader's error after taking what is left. *)
Definition skip (n : Z) : M unit :=
  if n <? 0 then error_ ErrNegativeCount
  else if n =? 0 then ret tt
  else fun d =>
    if len (r d) <? n then Panic (PErr ErrEOF) (set_r d [])
    else Ok tt (set_r d (drop (Z.to_nat n) (r d))).

(** d.read: io.ReadFull into a slice.  A slice of length 0 is filled at once;
    an exhausted stream gives io.EOF, one that ends inside the slice gives
    io.ErrUnexpectedEOF after the bytes that were there are copied. *)
Definition read (s : slice) : M unit :=
  fun d =>
    if slen s <=? 0 then Ok tt d
    else if len (r d) <? slen s then
      match r d with
      | [] => Panic (PErr ErrEOF) d
      | _ => Panic (PErr ErrUnexpectedEOF)
               (set_tmpBuf (set_r d [])
                  (list_inserts (Z.to_nat (soff s)) (r d) (tmpBuf d)))
      end
    else
      Ok tt (set_tmpBuf (set_r d (drop (Z.to_nat (slen s)) (r d)))
               (list_inserts (Z.to_nat (soff s))
                  (take (Z.to_nat (slen s)) (r d)) (tmpBuf d))).

(** [d.read(d.tmpBuf[:n])], returning the slice. *)
Definition readTmp (n : Z) : M slice :=
  let* s := tmpSlice 0 n in
  read s >> ret s.

Definition readByte : M byte :=
  fun d => match r d with
           | [] => Panic (PErr ErrEOF) d
           | b :: q => Ok b (set_r d q)
           end.

Definition readUint16 : M Z :=
  let* s := readTmp 2 in
  let* b := contents s in
  orFault IndexOutOfRange (decodeUint16 b).

Definition readUint32 : M Z :=
  let* s := readTmp 4 in
  let* b := contents s in
  orFault IndexOutOfRange (decodeUint32 b).

(** A counted loop [for i := lo; i < hi; i += step] whose body threads a
    value.  [fuel] bounds the iterations. *)
Fixpoint forTo {S} (fuel : nat) (i hi step : Z) (body : Z -> S -> M S) (s : S)
  : M S :=
  if i <? hi then
    match fuel with
    | O => panic PFuel
    | Datatypes.S f =>
        let* s' := body i s in forTo f (i + step) hi step body s'
    end
  else ret s.

(** [decodeUint32(s[lo:hi])] *)
Definition u32at (s : slice) (lo hi : Z) : M Z :=
  let* t := reslice s lo hi in
  let* b := contents t in
  orFault IndexOutOfRange (decodeUint32 b).

Definition u16at (s : slice) (lo hi : Z) : M Z :=
  let* t := reslice s lo hi in
  let* b := contents t in
  orFault IndexOutOfRange (decodeUint16 b).

Definition u64at (s : slice) (lo hi : Z) : M Z :=
  let* t := reslice s lo hi in
  let* b := contents t in
  orFault IndexOutOfRange (decodeUint64 b).

Definition readRect : M Rectangle :=
  let* s := readTmp 16 in
  let* x0 := u32at s 0 4 in
  let* y0 := u32at s 4 8 in
  let* x1 := u32at s 8 12 in
  let* y1 := u32at s 12 16 in
  ret (Rect (int32 x0) (int32 y0) (int32 x1) (int32 y1)).

Definition readString (n : Z) : M (list byte) :=
  let* _ := (if 1024 <? n then error_ (FormatError "bad string length") else ret tt) in
  let* c := gets (fun d => len (tmpBuf d)) in
  let* _ := (if c <? n then growTmp n else ret tt) in
  let* s := readTmp n in
  contents s.

(** ** Block and chunk framing *)

Definition imageBlock : Z := 0.
Definition creatorBlock : Z := 1.
Definition colorBlock : Z := 2.
Definition layerStartBlock : Z := 3.
Definition layerBlock : Z := 4.
Definition channelBlock : Z := 5.
Definition extendedDataBlock : Z := 10.
Definition compositeImageBankBlock : Z := 16.

Definition dibImage : Z := 0.

Definition compressionNone : Z := 0.
Definition compressionRLE : Z := 1.
Definition compressionLZ77 : Z := 2.

(** [decodeUint16(d.tmpBuf[lo:hi])] and [decodeUint32(d.tmpBuf[lo:hi])] *)
Definition tmpU16 (lo hi : Z) : M Z :=
  let* t := tmpSlice lo hi in
  let* b := contents t in
  orFault IndexOutOfRange (decodeUint16 b).

Definition tmpU32 (lo hi : Z) : M Z :=
  let* t := tmpSlice lo hi in
  let* b := contents t in
  orFault IndexOutOfRange (decodeUint32 b).

Definition readBlockHeader : M blockHeader :=
  let* v := gets versionMajor in
  let* il_dl :=
    (if 3 <? v then
       let* _ := readTmp 10 in
       let* dl := tmpU32 6 10 in
       ret (3735928559, dl)
     else
       let* _ := readTmp 14 in
       let* il := tmpU32 6 10 in
       let* dl := tmpU32 10 14 in
       ret (il, dl)) in
  let* m := tmpSlice 0 4 in
  let* mb := contents m in
  if negb (bytes_eqb mb blockMagic) then error_ (FormatError "bad block magic")
  else
    let* i := tmpU16 4 6 in
    let bh := mkBlockHeader i (snd il_dl) (fst il_dl) in
    printf (EvBlock bh) >> ret bh.

Definition decodeChunkHeader (buf : slice) : M chunkHeader :=
  let* m := reslice buf 0 4 in
  let* mb := contents m in
  if negb (bytes_eqb mb chunkMagic) then error_ (FormatError "bad chunk magic")
  else
    let* k := u16at buf 4 6 in
    let* l := u32at buf 6 10 in
    let ch := mkChunkHeader k l in
    printf (EvChunk ch) >> ret ch.

Definition readChunkHeader : M chunkHeader :=
  let* s := readTmp 10 in
  decodeChunkHeader s.

(** ** Header decoder *)

Definition readHeader : M unit :=
  let* _ := readTmp 36 in
  let* m := tmpSlice 0 32 in
  let* mb := contents m in
  if negb (bytes_eqb mb fileMagic) then error_ (FormatError "not a PSP file")
  else
  let* vmaj := tmpU16 32 34 in
  let* vmin := tmpU16 34 36 in
  modify (fun d => set_version d vmaj vmin) >>
  (if vmaj <? 3
   then error_ (UnsupportedError "only major versions >= 3 are supported" [])
   else ret tt) >>
  let* bh := readBlockHeader in
  (if negb (id bh =? imageBlock)
   then error_ (FormatError "missing general image attributes block")
   else if (dataLen bh <? 38) || (64 <? dataLen bh)
   then error_ (FormatError "invalid length for general image attributes block")
   else ret tt) >>
  let* buf0 := readTmp (dataLen bh) in
  let* buf := (if 4 <=? vmaj then reslice buf0 4 (slen buf0) else ret buf0) in
  let* w := u32at buf 0 4 in
  let* h := u32at buf 4 8 in
  let* rs := u64at buf 8 16 in
  let* rm := index buf 16 in
  let* cp := u16at buf 17 19 in
  let* bd := u16at buf 19 21 in
  let* pc := u16at buf 21 23 in
  let* cc := u32at buf 23 27 in
  let* gs := index buf 27 in
  let* ts := u32at buf 28 32 in
  let* al := u32at buf 32 36 in
  let* lc := u16at buf 36 38 in
  modify (fun d => set_attrs d (int32 w) (int32 h) rs (b2z rm) cp bd pc cc
                     (b2z gs =? 1) ts (int32 al) lc) >>
  (if (cp =? compressionNone) || (cp =? compressionRLE) || (cp =? compressionLZ77)
   then ret tt
   else error_ (UnsupportedError "unsupported compression (%04x)" [cp])) >>
  (if (b2z gs =? 1) then
     if bd =? 8 then modify (fun d => set_colorModel d (Some GrayModel))
     else if bd =? 16 then modify (fun d => set_colorModel d (Some Gray16Model))
     else error_ (UnsupportedError "unsupported bit depth %d for grayscale image" [bd])
   else
     if bd =? 16 then modify (fun d => set_colorModel d (Some Gray16Model))
     else if (bd =? 8) || (bd =? 24)
     then modify (fun d => set_colorModel d (Some RGBAModel))
     else if (bd =? 48) || (bd =? 64)
     then modify (fun d => set_colorModel d (Some RGBA64Model))
     else error_ (UnsupportedError "unsupported bit depth %d" [bd])) >>
  printf EvDecoder.

Definition zeroCreator : creatorT := mkCreator [] None None [] [] [] 0 0.

(** [&decoder{r: bufio.NewReader(r), tmpBuf: make([]byte, 64)}] over a stream
    that delivers [input]. *)
Definition initDecoder (input : list byte) : decoder :=
  mkDecoder input 0 0 0 0 0 0 0 None 0 0 0 false 0 0 0 0 zeroCreator None
    (replicate 64 Byte.x00) [] [].

Definition newDecoder : M unit := readHeader.

(** ** Metadata decoders *)

Definition xDataTrnsIndexField : Z := 0.

Fixpoint decodeExtendedDataLoop (fuel : nat) (totalLen : Z) : M unit :=
  if 0 <? totalLen then
    match fuel with
    | O => panic PFuel
    | S f =>
        let* ch := readChunkHeader in
        let totalLen := totalLen - (10 + chunkLen ch) in
        skip (chunkLen ch) >>
        decodeExtendedDataLoop f totalLen
    end
  else ret tt.

Definition decodeExtendedDataBlock (totalLen : Z) : M unit :=
  fun d => decodeExtendedDataLoop (S (length (r d))) totalLen d.

Definition setTitle (c : creatorT) (v : list byte) : creatorT :=
  mkCreator v (creationDate c) (modificationDate c) (artist c) (copyright c)
    (description c) (appID c) (appVersion c).
Definition setCreationDate (c : creatorT) (v : Z) : creatorT :=
  mkCreator (title c) (Some v) (modificationDate c) (artist c) (copyright c)
    (description c) (appID c) (appVersion c).
Definition setModificationDate (c : creatorT) (v : Z) : creatorT :=
  mkCreator (title c) (creationDate c) (Some v) (artist c) (copyright c)
    (description c) (appID c) (appVersion c).
Definition setArtist (c : creatorT) (v : list byte) : creatorT :=
  mkCreator (title c) (creationDate c) (modificationDate c) v (copyright c)
    (description c) (appID c) (appVersion c).
Definition setCopyright (c : creatorT) (v : list byte) : creatorT :=
  mkCreator (title c) (creationDate c) (modificationDate c) (artist c) v
    (description c) (appID c) (appVersion c).
Definition setDescription (c : creatorT) (v : list byte) : creatorT :=
  mkCreator (title c) (creationDate c) (modificationDate c) (artist c)
    (copyright c) v (appID c) (appVersion c).
Definition setAppID (c : creatorT) (v : Z) : creatorT :=
  mkCreator (title c) (creationDate c) (modificationDate c) (artist c)
    (copyright c) (description c) v (appVersion c).
Definition setAppVersion (c : creatorT) (v : Z) : creatorT :=
  mkCreator (title c) (creationDate c) (modificationDate c) (artist c)
    (copyright c) (description c) (appID c) v.

(** [d.creator.f = v] *)
Definition setCreator {T} (f : creatorT -> T -> creatorT) (v : T) : M unit :=
  modify (fun d => set_creator d (f (creator d) v)).

(** The switch on the field keyword of a creator chunk. *)
Definition decodeCreatorField (ch : chunkHeader) : M unit :=
  let k := fieldKeyword ch in
  if k =? 0 then let* v := readString (chunkLen ch) in setCreator setTitle v
  else if k =? 1 then let* v := readUint32 in setCreator setCreationDate v
  else if k =? 2 then let* v := readUint32 in setCreator setModificationDate v
  else if k =? 3 then let* v := readString (chunkLen ch) in setCreator setArtist v
  else if k =? 4 then let* v := readString (chunkLen ch) in setCreator setCopyright v
  else if k =? 5 then let* v := readString (chunkLen ch) in setCreator setDescription v
  else if k =? 6 then let* v := readUint32 in setCreator setAppID v
  else if k =? 7 then let* v := readUint32 in setCreator setAppVersion v
  else skip (chunkLen ch).

Fixpoint decodeCreatorLoop (fuel : nat) (totalLen : Z) : M unit :=
  if 0 <? totalLen then
    match fuel with
    | O => panic PFuel
    | S f =>
        let* ch := readChunkHeader in
        let totalLen := totalLen - (10 + chunkLen ch) in
        decodeCreatorField ch >>
        decodeCreatorLoop f totalLen
    end
  else ret tt.

Definition decodeCreatorBlock (totalLen : Z) : M unit :=
  fun d => decodeCreatorLoop (S (length (r d))) totalLen d.

(** ** Palette decoder *)

(** The loop that fills the palette from the scratch buffer, entry [i]
    onwards. *)
Fixpoint paletteLoop (k : nat) (i : Z) (acc : list RGBA) : M (list RGBA) :=
  match k with
  | O => ret acc
  | S k' =>
      let* t := (let* n := gets (fun d => len (tmpBuf d)) in ret (mkSlice 0 n)) in
      let* cr := index t (i * 4 + 2) in
      let* cg := index t (i * 4 + 1) in
      let* cb := index t (i * 4) in
      paletteLoop k' (i + 1) (acc ++ [mkRGBA cr cg cb Byte.xff])
  end.

Definition decodeColorBlock (ln : Z) : M unit :=
  let* v := gets versionMajor in
  (if 4 <=? v then readUint32 >> ret tt else ret tt) >>
  let* nColors := readUint32 in
  let* c := gets (fun d => len (tmpBuf d)) in
  (if c <? nColors * 4 then growTmp (nColors * 4) else ret tt) >>
  let* _ := readTmp (nColors * 4) in
  let* p := paletteLoop (Z.to_nat nColors) 0 [] in
  modify (fun d => set_palette d (Some p)).

(** ** strings.TrimSpace *)

(** The width of the white space rune that [s] starts with, if it starts
    with one: the ASCII ones, and the UTF-8 encodings of U+0085, U+00A0,
    U+1680, U+2000 to U+200A, U+2028, U+2029, U+202F, U+205F and U+3000. *)
Definition isAsciiSpace (b : byte) : bool :=
  let z := b2z b in ((9 <=? z) && (z <=? 13)) || (z =? 32).

Definition spaceRune3 (b0 b1 b2 : Z) : bool :=
  ((b0 =? 225) && (b1 =? 154) && (b2 =? 128)) ||
  ((b0 =? 226) && (b1 =? 128) &&
     (((128 <=? b2) && (b2 <=? 138)) || (b2 =? 168) || (b2 =? 169) || (b2 =? 175))) ||
  ((b0 =? 226) && (b1 =? 129) && (b2 =? 159)) ||
  ((b0 =? 227) && (b1 =? 128) && (b2 =? 128)).

Definition spaceRune2 (b0 b1 : Z) : bool :=
  (b0 =? 194) && ((b1 =? 133) || (b1 =? 160)).

Definition leadingSpace (s : list byte) : option nat :=
  match s with
  | b0 :: q =>
      if isAsciiSpace b0 then Some 1%nat
      else match q with
           | b1 :: q' =>
               if spaceRune2 (b2z b0) (b2z b1) then Some 2%nat
               else match q' with
                    | b2 :: _ =>
                        if spaceRune3 (b2z b0) (b2z b1) (b2z b2) then Some 3%nat
                        else None
                    | [] => None
                    end
           | [] => None
           end
  | [] => None
  end.

(** The same for the rune that [s] ends with, on the reversed string. *)
Definition trailingSpace (rs : list byte) : option nat :=
  match rs with
  | b0 :: q =>
      if isAsciiSpace b0 then Some 1%nat
      else match q with
           | b1 :: q' =>
               if spaceRune2 (b2z b1) (b2z b0) then Some 2%nat
               else match q' with
                    | b2 :: _ =>
                        if spaceRune3 (b2z b2) (b2z b1) (b2z b0) then Some 3%nat
                        else None
                    | [] => None
                    end
           | [] => None
           end
  | [] => None
  end.

Fixpoint trimWith (f : list byte -> option nat) (fuel : nat) (s : list byte)
  : list byte :=
  match fuel with
  | O => s
  | S k => match f s with
           | Some w => trimWith f k (drop w s)
           | None => s
           end
  end.

Definition TrimLeft (s : list byte) : list byte :=
  trimWith leadingSpace (length s) s.

Definition TrimRight (s : list byte) : list byte :=
  rev (trimWith trailingSpace (length s) (rev s)).

Definition TrimSpace (s : list byte) : list byte := TrimRight (TrimLeft s).

(** ** Layer and channel pipeline *)

(** The pixel buffer of an image.Paletted is its own array, or, after
    [imgPaletted.Pix = buf], a slice of the array that [tmpBuf] pointed to
    when [gen] arrays had been put aside. *)
Inductive pixref :=
| PixOwn (p : list byte)
| PixTmp (gen : nat) (s : slice).

Record paletted := mkPaletted {
  PPix : pixref;
  PStride : Z;
  PBounds : Rectangle;
  PPalette : list RGBA
}.

(** Which of the four image variables [img] was assigned from; each of them
    is assigned together with [img], so [img] and the variable always point
    to the same image. *)
Inductive imgvar := VarRGBA | VarRGBA64 | VarGray16 | VarPaletted.

(** The local variables of decodeLayers. *)
Record locals := mkLocals {
  layer : layerT;
  img : option imgvar;
  imgRGBA : option pixbuf;
  imgRGBA64 : option pixbuf;
  imgGray16 : option pixbuf;
  imgPaletted : option paletted;
  layerBytes : Z;
  channel : Z
}.

Definition zeroRect : Rectangle := mkRect 0 0 0 0.

Definition zeroLayer : layerT :=
  mkLayer [] 0 zeroRect zeroRect Byte.x00 Byte.x00 false false Byte.x00
    zeroRect zeroRect false false false 0 0 0.

Definition zeroLocals : locals :=
  mkLocals zeroLayer None None None None None 0 0.

Definition maxInt : Z := 2 ^ 63 - 1.

(** image.pixelBufferLength: panics with a string when the product is
    negative or does not fit an int. *)
Definition pixelBufferLength (bpp : Z) (q : Rectangle) (kind : string) : M Z :=
  let total := bpp * Dx q * Dy q in
  if (Dx q <? 0) || (Dy q <? 0) || (maxInt <? total)
  then panic (PString ("image: New" ++ kind ++
                       " Rectangle has huge or negative dimensions"))
  else ret total.

Definition NewRGBA (q : Rectangle) : M pixbuf :=
  let* n := pixelBufferLength 4 q "RGBA" in
  let* p := make n in ret (mkPix p (4 * Dx q) q).

Definition NewRGBA64 (q : Rectangle) : M pixbuf :=
  let* n := pixelBufferLength 8 q "RGBA64" in
  let* p := make n in ret (mkPix p (8 * Dx q) q).

Definition NewGray16 (q : Rectangle) : M pixbuf :=
  let* n := pixelBufferLength 2 q "Gray16" in
  let* p := make n in ret (mkPix p (2 * Dx q) q).

Definition NewPaletted (q : Rectangle) (pal : list RGBA) : M paletted :=
  let* n := pixelBufferLength 1 q "Paletted" in
  let* p := make n in ret (mkPaletted (PixOwn p) (1 * Dx q) q pal).

(** [for i := lo; i < hi; i += step], with the iteration bound that a
    positive step needs. *)
Definition for_ {S} (lo hi step : Z) (body : Z -> S -> M S) (s : S) : M S :=
  forTo (Z.to_nat (hi - lo)) lo hi step body s.

(** [pix[i] = b] on a pixel buffer held in a local. *)
Definition setPix (pix : list byte) (i : Z) (b : byte) : M (list byte) :=
  if (0 <=? i) && (i <? len pix) then ret (<[Z.to_nat i := b]> pix)
  else fault_ IndexOutOfRange.

(** The loops that make a fresh RGBA image opaque. *)
Definition fillAlpha (pix : list byte) : M (list byte) :=
  for_ 3 (len pix) 4 (fun i p => setPix p i Byte.xff) pix.

Definition fillAlpha64 (pix : list byte) : M (list byte) :=
  for_ 6 (len pix) 8
    (fun i p => let* p := setPix p i Byte.xff in setPix p (i + 1) Byte.xff) pix.

(** The fields of a layer block, read into the variable [layer]. *)
Definition readLayer (l : layerT) : M layerT :=
  let* v := gets versionMajor in
  let* nm :=
    (if 4 <=? v then
       readUint32 >>
       let* nameLen := readUint16 in
       readString nameLen
     else
       let* s := readString 256 in ret (TrimSpace s)) in
  let* lt := readByte in
  let* rc := readRect in
  let* sr := readRect in
  let* op := readByte in
  let* bm := readByte in
  let* vis := readByte in
  let* tp := readByte in
  let* lg := readByte in
  let* mr := readRect in
  let* smr := readRect in
  let* ml := readByte in
  let* md := readByte in
  let* im := readByte in
  let* brc := readUint16 in
  skip (4 * 2 * 5) >>
  let* counts :=
    (if 10 <=? v then
       skip 5 >>
       let* pal := gets palette in
       let* bd := gets bitDepth in
       let* cc :=
         match pal with
         | Some _ => ret 1
         | None =>
             if (bd =? 1) || (bd =? 8) || (bd =? 16) then ret 1
             else if (bd =? 24) || (bd =? 48) then ret 3
             else if (bd =? 32) || (bd =? 64) then ret 4
             else error_ (FormatError "unknown channel count")
         end in
       ret (bitmapCount l, cc)
     else if 6 <=? v then
       skip 9 >>
       let* bc := readUint16 in
       let* cc := readUint16 in ret (bc, cc)
     else if 4 <=? v then
       skip 4 >>
       let* bc := readUint16 in
       let* cc := readUint16 in ret (bc, cc)
     else
       let* bc := readUint16 in
       let* cc := readUint16 in ret (bc, cc)) in
  let l' :=
    mkLayer nm (b2z lt) rc sr op bm (negb (b2z vis =? 0)) (negb (b2z tp =? 0))
      lg mr smr (negb (b2z ml =? 0)) (negb (b2z md =? 0)) (negb (b2z im =? 0))
      brc (fst counts) (snd counts) in
  printf (EvLayer l') >> ret l'.

(** [case layerBlock]. *)
Definition layerCase (lc : locals) : M locals :=
  let* l := readLayer (layer lc) in
  if channelCount l =? 0 then
    ret (mkLocals l (img lc) (imgRGBA lc) (imgRGBA64 lc) (imgGray16 lc)
           (imgPaletted lc) (layerBytes lc) (channel lc))
  else
    let area := wrapInt (Dx (savedRect l) * Dy (savedRect l)) in
    let* pal := gets palette in
    let* bd := gets bitDepth in
    match pal with
    | Some p =>
        let* im := NewPaletted (savedRect l) p in
        ret (mkLocals l (Some VarPaletted) (imgRGBA lc) (imgRGBA64 lc)
               (imgGray16 lc) (Some im)
               (if bd =? 1 then Z.quot area 8 else area) 0)
    | None =>
        if bd =? 16 then
          let* im := NewGray16 (savedRect l) in
          ret (mkLocals l (Some VarGray16) (imgRGBA lc) (imgRGBA64 lc)
                 (Some im) (imgPaletted lc) (wrapInt (area * 2)) 0)
        else if (bd =? 24) || (bd =? 32) then
          let* im := NewRGBA (savedRect l) in
          let* px := fillAlpha (Pix im) in
          ret (mkLocals l (Some VarRGBA)
                 (Some (mkPix px (Stride im) (Bounds im))) (imgRGBA64 lc)
                 (imgGray16 lc) (imgPaletted lc) area 0)
        else if (bd =? 48) || (bd =? 64) then
          let* im := NewRGBA64 (savedRect l) in
          let* px := fillAlpha64 (Pix im) in
          ret (mkLocals l (Some VarRGBA64) (imgRGBA lc)
                 (Some (mkPix px (Stride im) (Bounds im)))
                 (imgGray16 lc) (imgPaletted lc) (wrapInt (area * 2)) 0)
        else
          ret (mkLocals l (img lc) (imgRGBA lc) (imgRGBA64 lc) (imgGray16 lc)
                 (imgPaletted lc) (layerBytes lc) 0)
    end.

(** *** Decompressors *)

(** The run-length loop of [case compressionRLE]; it gives back [j]. *)
Fixpoint rleLoop (fuel : nat) (buf : slice) (n j : Z) : M Z :=
  if 0 <? n then
    match fuel with
    | O => panic PFuel
    | S f =>
        let* c := readByte in
        let run := b2z c in
        if 128 <? run then
          let* b := readByte in
          let n := n - 1 in
          let* j := for_ 0 (run - 128) 1
                      (fun _ j => store buf j b >> ret (j + 1)) j in
          rleLoop f buf (n - 1) j
        else
          let n := n - run in
          let* s := reslice buf j (j + run) in
          read s >>
          rleLoop f buf (n - 1) (j + run)
    end
  else ret j.

Definition rle (buf : slice) (compressedLayerLen : Z) : M Z :=
  fun d => rleLoop (S (length (r d))) buf compressedLayerLen 0 d.

(** What compress/zlib does with the window that the limited reader lets it
    see: how many bytes it took from the stream, what it wrote into the
    buffer, and the error of zlib.NewReader or io.ReadFull if there was
    one. *)
Record inflated := mkInflated {
  zused : Z;
  zout : list byte;
  zerr : option error
}.

Section Layers.

(** compress/zlib is outside the package: the decoder is stated over any
    behaviour of it.  Its arguments are the window and the length of the
    buffer to fill. *)
Variable inflate : list byte -> Z -> inflated.

(** [case compressionLZ77]. *)
Definition lz77 (buf : slice) (compressedLayerLen : Z) : M unit :=
  fun d =>
    let window := take (Z.to_nat (Z.min compressedLayerLen (len (r d)))) (r d) in
    let z := inflate window (slen buf) in
    let used := Z.to_nat (Z.min (zused z) (len window)) in
    let d' := set_tmpBuf (set_r d (drop used (r d)))
                (list_inserts (Z.to_nat (soff buf))
                   (take (Z.to_nat (slen buf)) (zout z)) (tmpBuf d)) in
    match zerr z with
    | Some e => Panic (PErr e) d'
    | None => Ok tt d'
    end.

(** *** Scatter *)

Definition scatterRGBA (channelType : Z) (buf : slice) (pix : list byte)
  : M (list byte) :=
  for_ (channelType - 1) (len pix) 4
    (fun i p => let* b := index buf (Z.quot i 4) in setPix p i b) pix.

Definition scatterRGBA64 (channelType : Z) (buf : slice) (pix : list byte)
  : M (list byte) :=
  for_ ((channelType - 1) * 2) (len pix) 8
    (fun i p =>
       let* b1 := index buf (2 * Z.quot i 8 + 1) in
       let* p := setPix p i b1 in
       let* b0 := index buf (2 * Z.quot i 8) in
       setPix p (i + 1) b0) pix.

Definition scatterGray16 (buf : slice) (pix : list byte) : M (list byte) :=
  for_ 0 (slen buf) 2
    (fun i p =>
       let* b1 := index buf (i + 1) in
       let* p := setPix p i b1 in
       let* b0 := index buf i in
       setPix p (i + 1) b0) pix.

(** [imgPaletted.Pix[i] = b], through the pointer [imgPaletted]. *)
Definition palStore (p : option paletted) (i : Z) (b : byte)
  : M (option paletted) :=
  match p with
  | None => fault_ NilDereference
  | Some im =>
      match PPix im with
      | PixOwn px =>
          let* px' := setPix px i b in
          ret (Some (mkPaletted (PixOwn px') (PStride im) (PBounds im)
                       (PPalette im)))
      | PixTmp gen s =>
          if (0 <=? i) && (i <? slen s) then
            modify (fun d =>
              if (gen =? length (tmpOld d))%nat
              then set_tmpBuf d (<[Z.to_nat (soff s + i) := b]> (tmpBuf d))
              else set_tmp d (tmpBuf d)
                     (alter (fun a => <[Z.to_nat (soff s + i) := b]> a)
                        gen (tmpOld d))) >>
            ret p
          else fault_ IndexOutOfRange
      end
  end.

(** The 1-bit case: each byte of [buf] gives eight pixels, high bit
    first. *)
Definition scatterBits (buf : slice) (p : option paletted)
  : M (option paletted) :=
  for_ 0 (slen buf) 1
    (fun i p =>
       let* b := index buf i in
       let* bp := for_ 0 8 1
                    (fun j (bp : byte * option paletted) =>
                       let* p' := palStore (snd bp) (i * 8 + j)
                                    (z2b (Z.shiftr (b2z (fst bp)) 7)) in
                       ret (z2b (Z.shiftl (b2z (fst bp)) 1), p'))
                    (b, p) in
       ret (snd bp)) p.

(** [imgPaletted.Pix = buf] *)
Definition palAlias (buf : slice) (p : option paletted) : M (option paletted) :=
  match p with
  | None => fault_ NilDereference
  | Some im =>
      let* gen := gets (fun d => length (tmpOld d)) in
      ret (Some (mkPaletted (PixTmp gen buf) (PStride im) (PBounds im)
                   (PPalette im)))
  end.

(** The bytes of a pixel buffer, read when the image is handed over. *)
Definition pixOf (d : decoder) (p : pixref) : list byte :=
  match p with
  | PixOwn px => px
  | PixTmp gen s =>
      let a := if (gen =? length (tmpOld d))%nat then tmpBuf d
               else default [] (tmpOld d !! gen) in
      take (Z.to_nat (slen s)) (drop (Z.to_nat (soff s)) a)
  end.

(** The value of [img]. *)
Definition imageOf (lc : locals) : M (option Image) :=
  match img lc with
  | None => ret None
  | Some VarRGBA => ret (ImRGBA <$> imgRGBA lc)
  | Some VarRGBA64 => ret (ImRGBA64 <$> imgRGBA64 lc)
  | Some VarGray16 => ret (ImGray16 <$> imgGray16 lc)
  | Some VarPaletted =>
      match imgPaletted lc with
      | None => ret None
      | Some im =>
          let* px := gets (fun d => pixOf d (PPix im)) in
          ret (Some (ImPaletted (mkPix px (PStride im) (PBounds im))
                       (PPalette im)))
      end
  end.

(** [channel++] and the test that ends decodeLayers. *)
Definition nextChannel (lc : locals)
  : M (locals + (option Image * layerT)) :=
  let lc' := mkLocals (layer lc) (img lc) (imgRGBA lc) (imgRGBA64 lc)
               (imgGray16 lc) (imgPaletted lc) (layerBytes lc)
               (wrapInt (channel lc + 1)) in
  if channel lc' =? channelCount (layer lc') then
    let* im := imageOf lc' in ret (inr (im, layer lc'))
  else ret (inl lc').

(** The scatter of a decompressed plane into the image. *)
Definition scatter (channelType : Z) (buf : slice) (lc : locals) : M locals :=
  match imgRGBA lc, imgRGBA64 lc, imgGray16 lc with
  | Some im, _, _ =>
      let* px := scatterRGBA channelType buf (Pix im) in
      ret (mkLocals (layer lc) (img lc)
             (Some (mkPix px (Stride im) (Bounds im))) (imgRGBA64 lc)
             (imgGray16 lc) (imgPaletted lc) (layerBytes lc) (channel lc))
  | None, Some im, _ =>
      let* px := scatterRGBA64 channelType buf (Pix im) in
      ret (mkLocals (layer lc) (img lc) (imgRGBA lc)
             (Some (mkPix px (Stride im) (Bounds im)))
             (imgGray16 lc) (imgPaletted lc) (layerBytes lc) (channel lc))
  | None, None, Some im =>
      let* px := scatterGray16 buf (Pix im) in
      ret (mkLocals (layer lc) (img lc) (imgRGBA lc) (imgRGBA64 lc)
             (Some (mkPix px (Stride im) (Bounds im)))
             (imgPaletted lc) (layerBytes lc) (channel lc))
  | None, None, None =>
      let* bd := gets bitDepth in
      let* p := (if bd =? 1 then scatterBits buf (imgPaletted lc)
                 else palAlias buf (imgPaletted lc)) in
      ret (mkLocals (layer lc) (img lc) (imgRGBA lc) (imgRGBA64 lc)
             (imgGray16 lc) p (layerBytes lc) (channel lc))
  end.

(** [case channelBlock]. *)
Definition channelCase (bh : blockHeader) (lc : locals)
  : M (locals + (option Image * layerT)) :=
  let* v := gets versionMajor in
  (if 4 <=? v then
     let* headerLen := readUint32 in
     if negb (headerLen =? 16)
     then error_ (FormatError "invalid channel block info len")
     else ret tt
   else ret tt) >>
  let* compressedLayerLen := readUint32 in
  let* uncompressedImageLen := readUint32 in
  let* bitmapType := readUint16 in
  let* channelType := readUint16 in
  if negb (bitmapType =? dibImage) then
    skip (subU32 (subU32 (dataLen bh) (4 * 3)) (2 * 2)) >>
    nextChannel lc
  else
    printf EvChannel >>
    printf (EvCompressedLen compressedLayerLen) >>
    printf (EvUncompressedLen uncompressedImageLen) >>
    printf (EvBitmapType bitmapType) >>
    printf (EvChannelType channelType) >>
    let* c := gets (fun d => len (tmpBuf d)) in
    (if c <? layerBytes lc then growTmp (layerBytes lc) else ret tt) >>
    let* buf := tmpSlice 0 (layerBytes lc) in
    let* cp := gets comp in
    (if cp =? compressionLZ77 then lz77 buf compressedLayerLen
     else if cp =? compressionRLE then rle buf compressedLayerLen >> ret tt
     else if cp =? compressionNone then read buf
     else ret tt) >>
    let* lc' := scatter channelType buf lc in
    nextChannel lc'.

(** One turn of the loop of decodeLayers: a block header and the switch on
    its id.  [inl] carries on with the locals, [inr] is the return. *)
Definition decodeLayersStep (lc : locals)
  : M (locals + (option Image * layerT)) :=
  let* bh := readBlockHeader in
  if id bh =? layerBlock then
    let* lc' := layerCase lc in ret (inl lc')
  else if id bh =? channelBlock then
    channelCase bh lc
  else if id bh =? 33 then
    skip (dataLen bh) >>
    let* n := readUint32 in
    skip (n - 4) >>
    ret (inl lc)
  else
    skip (dataLen bh) >>
    ret (inl lc).

Fixpoint decodeLayersLoop (fuel : nat) (lc : locals)
  : M (option Image * layerT) :=
  match fuel with
  | O => panic PFuel
  | S f =>
      let* x := decodeLayersStep lc in
      match x with
      | inl lc' => decodeLayersLoop f lc'
      | inr v => ret v
      end
  end.

Definition decodeLayers : M (option Image * layerT) :=
  fun d => decodeLayersLoop (S (length (r d))) zeroLocals d.

(** ** The block loop *)

(** One turn of the loop of decode: [Some] is the return. *)
Definition decodeStep : M (option (option Image)) :=
  let* bh := readBlockHeader in
  if id bh =? extendedDataBlock then
    decodeExtendedDataBlock (dataLen bh) >> ret None
  else if id bh =? creatorBlock then
    decodeCreatorBlock (dataLen bh) >> ret None
  else if id bh =? colorBlock then
    decodeColorBlock (dataLen bh) >> ret None
  else if id bh =? layerStartBlock then
    let* il := decodeLayers in ret (Some (fst il))
  else
    skip (dataLen bh) >> ret None.

Fixpoint decodeLoop (fuel : nat) : M (option Image) :=
  match fuel with
  | O => panic PFuel
  | S f =>
      let* x := decodeStep in
      match x with
      | None => decodeLoop f
      | Some im => ret im
      end
  end.

Definition decode : M (option Image) :=
  fun d => decodeLoop (S (length (r d))) d.

End Layers.

(** ** Panics at the package boundary *)

(** What a call of [Decode] or [DecodeConfig] does: it returns its two
    results, or a panic leaves it. *)
Inductive call (T : Type) :=
| Returns (v : T) (err : option error)
| Panics (p : panicval).
Arguments Returns {T} v err.
Arguments Panics {T} p.

(** [defer catchErrors(&err)] around a body.  The results are named, so they
    hold their zero values until the body returns; a panic skips that
    assignment.  catchErrors re-raises a runtime.Error, and stores any other
    recovered value in [err] through the assertion [r.(error)], which faults
    for a value that is no error. *)
Definition catchErrors {T} (zero : T) (body : outcome T) : call T :=
  match body with
  | Ok v _ => Returns v None
  | Panic (PRuntime f) _ => Panics (PRuntime f)
  | Panic (PErr e) _ => Returns zero (Some e)
  | Panic (PString _) _ => Panics (PRuntime TypeAssertion)
  | Panic PFuel _ => Panics PFuel
  end.

Record Config := mkConfig {
  ColorModel : option colorModelT;
  Width : Z;
  Height : Z
}.

Definition configOf (d : decoder) : Config :=
  mkConfig (colorModel d) (width d) (height d).

(** The body of DecodeConfig, run on a fresh decoder. *)
Definition runDecodeConfig (input : list byte) : outcome Config :=
  (newDecoder >> gets configOf) (initDecoder input).

Definition DecodeConfig (input : list byte) : call Config :=
  catchErrors (mkConfig None 0 0) (runDecodeConfig input).

(** The body of Decode: the decoder is made, then run. *)
Definition runDecode (inflate : list byte -> Z -> inflated) (input : list byte)
  : outcome (option Image) :=
  (newDecoder >> decode inflate) (initDecoder input).

Definition Decode (inflate : list byte -> Z -> inflated) (input : list byte)
  : call (option Image) :=
  catchErrors None (runDecode inflate input).

(** ** Test vectors *)

(** An inflater that finds no zlib header; for inputs that are not
    deflate-compressed. *)
Definition noInflate (w : list byte) (n : Z) : inflated :=
  mkInflated 0 [] (Some (ErrZlib 0)).

Definition le16 (z : Z) : list byte := [z2b z; z2b (z / 2 ^ 8)].
Definition le32 (z : Z) : list byte :=
  [z2b z; z2b (z / 2 ^ 8); z2b (z / 2 ^ 16); z2b (z / 2 ^ 24)].
Definition zeros (n : nat) : list byte := replicate n Byte.x00.

(** A block header as version [v] lays it out. *)
Definition blockHdr (v i l : Z) : list byte :=
  blockMagic ++ le16 i ++ (if 3 <? v then [] else le32 l) ++ le32 l.

(** The prefix of a file: signature, version and image-attributes block. *)
Definition fileHdr (v w h cp bd gs : Z) : list byte :=
  fileMagic ++ le16 v ++ le16 0 ++
  blockHdr v imageBlock (if 4 <=? v then 42 else 38) ++
  (if 4 <=? v then le32 42 else []) ++
  le32 w ++ le32 h ++ zeros 8 ++ [Byte.x01] ++ le16 cp ++ le16 bd ++ le16 1 ++
  le32 0 ++ [z2b gs] ++ le32 0 ++ le32 0 ++ le16 1.

Definition rectBytes (x0 y0 x1 y1 : Z) : list byte :=
  le32 x0 ++ le32 y0 ++ le32 x1 ++ le32 y1.

(** A layer block of a [w] by [h] layer with [cc] channels, as version [v]
    lays it out (versions 3 to 9). *)
Definition layerBlk (v w h cc : Z) (nm : list byte) : list byte :=
  let body :=
    (if 4 <=? v then le32 0 ++ le16 (len nm) ++ nm
     else nm ++ replicate (256 - length nm) Byte.x20) ++
    [Byte.x00] ++ rectBytes 0 0 w h ++ rectBytes 0 0 w h ++
    [Byte.xff; Byte.x00; Byte.x01; Byte.x00; Byte.x00] ++
    rectBytes 0 0 0 0 ++ rectBytes 0 0 0 0 ++
    [Byte.x00; Byte.x00; Byte.x00] ++ le16 0 ++ zeros 40 ++
    (if 6 <=? v then zeros 9 else if 4 <=? v then zeros 4 else []) ++
    le16 1 ++ le16 cc in
  blockHdr v layerBlock (len body) ++ body.

(** A channel block with bitmap role [bt], channel role [ct] and payload
    [data]. *)
Definition channelBlk (v bt ct ulen : Z) (data : list byte) : list byte :=
  let body :=
    (if 4 <=? v then le32 16 else []) ++
    le32 (len data) ++ le32 ulen ++ le16 bt ++ le16 ct ++ data in
  blockHdr v channelBlock (len body) ++ body.

(** ** The fuzzing entry point (fuzz.go) *)

(** What a call of [Fuzz] does: it returns an int, or a panic leaves it. *)
Inductive fuzzed :=
| FuzzReturns (n : Z)
| FuzzPanics (p : panicval).

(** Fuzz: DecodeConfig, then Decode, each over a reader of its own on the
    same bytes.  The configuration is not looked at. *)
Definition Fuzz (inflate : list byte -> Z -> inflated) (data : list byte)
  : fuzzed :=
  match DecodeConfig data with
  | Panics p => FuzzPanics p
  | Returns _ (Some _) => FuzzReturns 0
  | Returns _ None =>
      match Decode inflate data with
      | Panics p => FuzzPanics p
      | Returns img (Some _) =>
          match img with
          | Some _ => FuzzPanics (PString "img != nil on error")
          | None => FuzzReturns 0
          end
      | Returns _ None => FuzzReturns 1
      end
  end.

(** * Vocabulary of the properties *)

(** An entry of a palette block as it lies in the file, and the colour the
    decoder makes of it. *)
Definition entryBytes (e : byte * byte * byte * byte) : list byte :=
  let '(cb, cg, cr, pad) := e in [cb; cg; cr; pad].

Definition entryColor (e : byte * byte * byte * byte) : RGBA :=
  let '(cb, cg, cr, _) := e in mkRGBA cr cg cb Byte.xff.

(** A packet of the run-length scheme: a run of [k] copies of a byte, under
    the control byte [128 + k], or a literal string under the control byte
    that is its length. *)
Inductive packet :=
| Run (k : Z) (b : byte)
| Lit (bs : list byte).

Definition packetOk (p : packet) : Prop :=
  match p with
  | Run k _ => 1 <= k <= 127
  | Lit bs => len bs <= 128
  end.

Definition encode (p : packet) : list byte :=
  match p with
  | Run k b => [z2b (128 + k); b]
  | Lit bs => z2b (len bs) :: bs
  end.

Definition expand (p : packet) : list byte :=
  match p with
  | Run k b => replicate (Z.to_nat k) b
  | Lit bs => bs
  end.

(** The packets that the loop started with the count [n] goes through: it
    takes a packet as long as the count is positive, and takes the count
    down by the packet's length. *)
Fixpoint covers (n : Z) (ps : list packet) : Prop :=
  match ps with
  | [] => n <= 0
  | p :: ps' => 0 < n /\ covers (n - len (encode p)) ps'
  end.

(** [same d d']: the two states agree except in what is left of the stream,
    in the bytes of the scratch buffer and in what was printed. *)
Definition same (d d' : decoder) : Prop :=
  d' = set_stdout (set_tmpBuf (set_r d (r d')) (tmpBuf d')) (stdout d') /\
  length (tmpBuf d') = length (tmpBuf d).

(** [wp m d Q]: the step [m] succeeds from [d], with a result and a state
    that satisfy [Q]. *)
Definition wp {T} (m : M T) (d : decoder) (Q : T -> decoder -> Prop) : Prop :=
  exists v d', m d = Ok v d' /\ Q v d'.

(** The bytes of a channel block that come before the plane. *)
Definition channelInfo (v cl ul bt ct : Z) : list byte :=
  (if 4 <=? v then le32 16 else []) ++ le32 cl ++ le32 ul ++ le16 bt ++ le16 ct.

(** A chunk as it lies in the file: magic, keyword, length, data. *)
Definition chunkBytes (c : Z * list byte) : list byte :=
  chunkMagic ++ le16 (fst c) ++ le32 (len (snd c)) ++ snd c.

(** A chunk of the creator block whose data has the size that the decoder
    reads for its keyword. *)
Definition creatorChunkOk (c : Z * list byte) : Prop :=
  0 <= fst c < 2 ^ 16 /\ len (snd c) < 2 ^ 32 /\
  (if (fst c =? 1) || (fst c =? 2) || (fst c =? 6) || (fst c =? 7)
   then len (snd c) = 4
   else if (fst c =? 0) || (fst c =? 3) || (fst c =? 4) || (fst c =? 5)
   then len (snd c) <= 1024
   else True).

Definition chunkOk (c : Z * list byte) : Prop :=
  0 <= fst c < 2 ^ 16 /\ len (snd c) < 2 ^ 32.

(** [grown d d']: the version is kept and the scratch buffer is no
    shorter. *)
Definition grown (d d' : decoder) : Prop :=
  versionMajor d' = versionMajor d /\ len (tmpBuf d) <= len (tmpBuf d').

(** The blocks of a well-formed stream, with what they hold.  The first
    four are blocks of the top level, the others sub-blocks of the layer
    bank.  A layer block is given by its fields: [lead] the four bytes
    before the length of the name (version 4 and later), [nm] the name,
    [f1] the layer type and the rectangle, [x0 y0 x1 y1] the words of the
    saved rectangle, [f2] the bytes from the opacity to the blend ranges,
    [f3] the bytes between the blend ranges and the channel count, [cc]
    the channel count.  A channel block of the image bitmap holds its plane
    as it is ([KPlane]) or in run-length packets ([KPacked]). *)
Inductive blockKind :=
| KSkipped (i : Z) (body : list byte)
| KExtendedData (cs : list (Z * list byte))
| KCreator (cs : list (Z * list byte))
| KColor (tag : list byte) (es : list (byte * byte * byte * byte))
| KSubSkipped (i : Z) (body : list byte)
| KMask (cl ul bt ct : Z) (body : list byte)
| KLayer (lead nm f1 : list byte) (x0 y0 x1 y1 : Z) (f2 f3 : list byte)
    (cc : Z)
| KPlane (cl ul ct : Z) (data : list byte)
| KPacked (cl ul ct : Z) (ps : list packet)
| KQuirk33 (body : list byte) (n : Z) (extra : list byte).

Definition topLevel (k : blockKind) : bool :=
  match k with
  | KSkipped _ _ | KExtendedData _ | KCreator _ | KColor _ _ => true
  | _ => false
  end.

Definition blockId (k : blockKind) : Z :=
  match k with
  | KSkipped i _ => i
  | KExtendedData _ => extendedDataBlock
  | KCreator _ => creatorBlock
  | KColor _ _ => colorBlock
  | KSubSkipped i _ => i
  | KMask _ _ _ _ _ => channelBlock
  | KLayer _ _ _ _ _ _ _ _ _ _ => layerBlock
  | KPlane _ _ _ _ => channelBlock
  | KPacked _ _ _ _ => channelBlock
  | KQuirk33 _ _ _ => 33
  end.

(** The body of the block: the bytes that its header counts. *)
Definition blockBody (v : Z) (k : blockKind) : list byte :=
  match k with
  | KSkipped _ body => body
  | KExtendedData cs => flat_map chunkBytes cs
  | KCreator cs => flat_map chunkBytes cs
  | KColor tag es => tag ++ le32 (len es) ++ flat_map entryBytes es
  | KSubSkipped _ body => body
  | KMask cl ul bt ct body => channelInfo v cl ul bt ct ++ body
  | KLayer lead nm f1 x0 y0 x1 y1 f2 f3 cc =>
      lead ++ (if 4 <=? v then le16 (len nm) else []) ++ nm ++ f1 ++
      rectBytes x0 y0 x1 y1 ++ f2 ++ f3 ++
      (if 10 <=? v then [] else le16 cc)
  | KPlane cl ul ct data => channelInfo v cl ul dibImage ct ++ data
  | KPacked cl ul ct ps => channelInfo v cl ul dibImage ct ++ flat_map encode ps
  | KQuirk33 body _ _ => body
  end.

(** What the decoder takes from the stream after the body. *)
Definition blockTrailer (k : blockKind) : list byte :=
  match k with
  | KQuirk33 _ n extra => le32 n ++ extra
  | _ => []
  end.

(** The channel count that version 10 and later derive from the header
    instead of reading it, and the bytes that a pixel of the image takes
    which the decoder allocates for a layer. *)
Definition countOf (d : decoder) : option Z :=
  match palette d with
  | Some _ => Some 1
  | None =>
      let bd := bitDepth d in
      if (bd =? 1) || (bd =? 8) || (bd =? 16) then Some 1
      else if (bd =? 24) || (bd =? 48) then Some 3
      else if (bd =? 32) || (bd =? 64) then Some 4
      else None
  end.

Definition bytesPerPixel (d : decoder) : Z :=
  match palette d with
  | Some _ => 1
  | None =>
      let bd := bitDepth d in
      if bd =? 16 then 2
      else if (bd =? 24) || (bd =? 32) then 4
      else if (bd =? 48) || (bd =? 64) then 8
      else 0
  end.

(** [planeFits d lc ct]: the image that the locals hold takes a plane of
    [layerBytes lc] bytes in the channel role [ct].  The cases are those
    of the scatter: the image variable it finds first, and the loop it runs
    on it. *)
Definition planeFits (d : decoder) (lc : locals) (ct : Z) : Prop :=
  0 <= layerBytes lc <= maxAlloc /\
  match imgRGBA lc, imgRGBA64 lc, imgGray16 lc with
  | Some im, _, _ => 1 <= ct /\ len (Pix im) <= 4 * layerBytes lc
  | None, Some im, _ =>
      1 <= ct /\ len (Pix im) <= 4 * layerBytes lc /\ len (Pix im) mod 8 = 0
  | None, None, Some im =>
      layerBytes lc <= len (Pix im) /\ layerBytes lc mod 2 = 0
  | None, None, None =>
      match imgPaletted lc with
      | None => False
      | Some im =>
          bitDepth d = 1 ->
          exists px, PPix im = PixOwn px /\ 8 * layerBytes lc <= len px
      end
  end.

(** What makes a block of each kind well formed for the decoder in the
    state [d] with the locals [lc]: the fields have their sizes, the counts
    are those of what follows, and what the block asks the decoder to
    allocate can be allocated. *)
Definition blockOk (d : decoder) (lc : locals) (k : blockKind) : Prop :=
  let v := versionMajor d in
  match k with
  | KSkipped i _ =>
      0 <= i < 2 ^ 16 /\ i <> extendedDataBlock /\ i <> creatorBlock /\
      i <> colorBlock /\ i <> layerStartBlock
  | KExtendedData cs => Forall chunkOk cs
  | KCreator cs => Forall creatorChunkOk cs
  | KColor tag es =>
      length tag = (if 4 <=? v then 4%nat else 0%nat) /\ len es < 2 ^ 32
  | KSubSkipped i _ =>
      0 <= i < 2 ^ 16 /\ i <> layerBlock /\ i <> channelBlock /\ i <> 33
  | KMask cl ul bt ct _ =>
      4 <= v /\ 0 <= cl < 2 ^ 32 /\ 0 <= ul < 2 ^ 32 /\ 0 <= bt < 2 ^ 16 /\
      0 <= ct < 2 ^ 16 /\ bt <> dibImage
  | KLayer lead nm f1 x0 y0 x1 y1 f2 f3 cc =>
      16 <= len (tmpBuf d) /\
      length lead = (if 4 <=? v then 4%nat else 0%nat) /\
      (if 4 <=? v then len nm <= 1024 else len nm = 256) /\
      length f1 = 17%nat /\
      0 <= x0 < 2 ^ 32 /\ 0 <= y0 < 2 ^ 32 /\
      0 <= x1 < 2 ^ 32 /\ 0 <= y1 < 2 ^ 32 /\
      length f2 = 82%nat /\
      length f3 = (if 10 <=? v then 5%nat else if 6 <=? v then 11%nat
                   else if 4 <=? v then 6%nat else 2%nat) /\
      (if 10 <=? v then countOf d = Some cc else 0 <= cc < 2 ^ 16) /\
      (cc <> 0 ->
       let q := Rect (int32 x0) (int32 y0) (int32 x1) (int32 y1) in
       bytesPerPixel d * (Dx q * Dy q) <= maxAlloc)
  | KPlane cl ul ct data =>
      0 <= cl < 2 ^ 32 /\ 0 <= ul < 2 ^ 32 /\ 0 <= ct < 2 ^ 16 /\
      comp d = compressionNone /\ len data = layerBytes lc /\
      planeFits d lc ct
  | KPacked cl ul ct ps =>
      0 <= cl < 2 ^ 32 /\ 0 <= ul < 2 ^ 32 /\ 0 <= ct < 2 ^ 16 /\
      comp d = compressionRLE /\ Forall packetOk ps /\ covers cl ps /\
      len (flat_map expand ps) <= layerBytes lc /\
      planeFits d lc ct
  | KQuirk33 _ n extra => n < 2 ^ 32 /\ len extra = n - 4
  end.

(** A file with one layer of two channels, the first a transparency mask
    with four bytes of data, the second the red plane. *)
Definition maskFile (v : Z) : list byte :=
  fileHdr v 2 1 0 24 0 ++ blockHdr v layerStartBlock 0 ++
  layerBlk v 2 1 2 [] ++
  channelBlk v 1 0 4 [Byte.x01; Byte.x02; Byte.x03; Byte.x04] ++
  channelBlk v 0 1 2 [Byte.x09; Byte.x08].

(** [good R d o]: the outcome [o] of a step from [d] leaves a state related
    to [d] by [R], and is not the exhaustion of a loop's bound.  A step is
    safe when its outcome is good from every state. *)
Definition good (R : decoder -> decoder -> Prop) {T} (d : decoder)
    (o : outcome T) : Prop :=
  match o with
  | Ok _ d' => R d d'
  | Panic p d' => R d d' /\ p <> PFuel
  end.

Definition safe (R : decoder -> decoder -> Prop) {T} (m : M T) : Prop :=
  forall d, good R d (m d).

(** What is left of the stream is always the end of what was there. *)
Definition suffix (d d' : decoder) : Prop := exists c, r d = c ++ r d'.

(** What decode keeps of the decoder: the fields that readHeader set, and
    the lines already printed. *)
Definition kept (d d' : decoder) : Prop :=
  suffix d d' /\
  configOf d' = configOf d /\
  versionMajor d' = versionMajor d /\
  bitDepth d' = bitDepth d /\
  comp d' = comp d /\
  exists evs, stdout d' = stdout d ++ evs.

(** Every fourth byte from the fourth on is 255; every seventh and eighth
    byte of each group of eight is 255. *)
Definition opaque4 (pix : list byte) : Prop :=
  forall i, 0 <= i < len pix -> i mod 4 = 3 -> at_ pix i = Some Byte.xff.

Definition opaque8 (pix : list byte) : Prop :=
  forall i, 0 <= i < len pix -> i mod 8 = 6 \/ i mod 8 = 7 ->
            at_ pix i = Some Byte.xff.

(** The images of decodeLayers are opaque: the invariant of its loop. *)
Definition opaqueLocals (lc : locals) : Prop :=
  (forall im, imgRGBA lc = Some im -> opaque4 (Pix im)) /\
  (forall im, imgRGBA64 lc = Some im -> opaque8 (Pix im)).

Definition opaqueImage (im : option Image) : Prop :=
  match im with
  | Some (ImRGBA p) => opaque4 (Pix p)
  | Some (ImRGBA64 p) => opaque8 (Pix p)
  | _ => True
  end.

Definition opaqueStep (x : locals + (option Image * layerT)) : Prop :=
  match x with
  | inl lc => opaqueLocals lc
  | inr v => opaqueImage (fst v)
  end.

(** A 2 by 1 image of 24 bits in three planes. *)
Definition rgbFile : list byte :=
  fileHdr 4 2 1 0 24 0 ++ blockHdr 4 layerStartBlock 0 ++
  layerBlk 4 2 1 3 [Byte.x41; Byte.x42] ++
  channelBlk 4 0 1 2 [Byte.x01; Byte.x02] ++
  channelBlk 4 0 2 2 [Byte.x03; Byte.x04] ++
  channelBlk 4 0 3 2 [Byte.x05; Byte.x06].

(** The state in which Decode leaves the decoder on [rgbFile]. *)
Definition rgbFinal : decoder :=
  Eval vm_compute in
    match runDecode noInflate rgbFile with
    | Ok _ d => d
    | Panic _ d => d
    end.

(** The errors of a stream that ended. *)
Definition eofErr (e : error) : Prop := e = ErrEOF \/ e = ErrUnexpectedEOF.

(** The decoder over the first [t] bytes of its stream. *)
Definition trunc (t : nat) (d : decoder) : decoder := set_r d (take t (r d)).

(** How many bytes a step took. *)
Definition taken (d d' : decoder) : nat := length (r d) - length (r d').

(** A step that succeeds without looking at the stream: it does the same
    over any other stream.  [P] is what the step may rely on. *)
Definition pureAt (P : decoder -> Prop) {T} (m : M T) (d : decoder) : Prop :=
  P d -> forall a d', m d = Ok a d' ->
  P d' /\ r d' = r d /\ forall x, m (set_r d x) = Ok a (set_r d' x).

Definition pure_ (P : decoder -> Prop) {T} (m : M T) : Prop :=
  forall d, pureAt P m d.

(** A step that succeeds, run again over a stream cut at [t]: it does the
    same when the cut is behind what it took, and panics with the error of
    the ended stream when the cut is inside. *)
Definition cutAt (P : decoder -> Prop) {T} (m : M T) (d : decoder) : Prop :=
  P d -> forall a d', m d = Ok a d' ->
  P d' /\ (length (r d') <= length (r d))%nat /\
  forall t,
    ((taken d d' <= t)%nat ->
     m (trunc t d) = Ok a (trunc (t - taken d d') d')) /\
    ((t < taken d d')%nat ->
     exists e dx, m (trunc t d) = Panic (PErr e) dx /\ eofErr e).

Definition cut (P : decoder -> Prop) {T} (m : M T) : Prop :=
  forall d, cutAt P m d.

(** [errOnly Q o]: the outcome [o] is a result that satisfies [Q], or a
    panic whose value is an error; it is no run-time fault and no other
    panic. *)
Definition errOnly {T} (Q : T -> decoder -> Prop) (o : outcome T) : Prop :=
  match o with
  | Ok a d => Q a d
  | Panic (PErr _) _ => True
  | Panic _ _ => False
  end.

(** A step that succeeds, run again over a longer stream: it does the
    same, and leaves what was added. *)
Definition extAt (P : decoder -> Prop) {T} (m : M T) (d : decoder) : Prop :=
  P d -> forall a d', m d = Ok a d' ->
  P d' /\
  forall z, m (set_r d (r d ++ z)) = Ok a (set_r d' (r d' ++ z)).

Definition ext (P : decoder -> Prop) {T} (m : M T) : Prop :=
  forall d, extAt P m d.

(** The fields that readHeader sets: the version and the image
    attributes. *)
Definition attrs (d : decoder) :=
  (versionMajor d, versionMinor d, width d, height d, res d, resMetric d,
   comp d, colorModel d, bitDepth d, planeCount d, colorCount d, grayscale d,
   totalImageSize d, activeLayer d, layerCount d, xDataTrnsIndex d).

(** [attrsKept d d']: from [d] to [d'] the stream was read forward, lines
    were added to the output, and every field that readHeader sets is as it
    was. *)
Definition attrsKept (d d' : decoder) : Prop :=
  suffix d d' /\
  (exists evs, stdout d' = stdout d ++ evs) /\
  attrs d' = attrs d.

(** [inert d d']: as [attrsKept], and the creator data and the palette are
    as they were too. *)
Definition inert (d d' : decoder) : Prop :=
  attrsKept d d' /\ creator d' = creator d /\ palette d' = palette d.

(** What a chunk of the creator block, keyword and data, does to the
    creator data. *)
Definition applyChunk (c : creatorT) (ch : Z * list byte) : creatorT :=
  let n := match decodeUint32 (snd ch) with Some v => v | None => 0 end in
  if fst ch =? 0 then setTitle c (snd ch)
  else if fst ch =? 1 then setCreationDate c n
  else if fst ch =? 2 then setModificationDate c n
  else if fst ch =? 3 then setArtist c (snd ch)
  else if fst ch =? 4 then setCopyright c (snd ch)
  else if fst ch =? 5 then setDescription c (snd ch)
  else if fst ch =? 6 then setAppID c n
  else if fst ch =? 7 then setAppVersion c n
  else c.

(** The number that bytes spell, the first byte lowest. *)
Definition bytesValue (l : list byte) : Z :=
  fold_right (fun b acc => b2z b + 2 ^ 8 * acc) 0 l.




(** [steady d d']: the header fields that the layer bank goes by are kept,
    and the scratch buffer is no shorter. *)
Definition steady (d d' : decoder) : Prop :=
  versionMajor d' = versionMajor d /\ bitDepth d' = bitDepth d /\
  comp d' = comp d /\ palette d' = palette d /\
  len (tmpBuf d) <= len (tmpBuf d').

(** The decoder as readHeader leaves it on [input]. *)
Definition afterHeader (input : list byte) : decoder :=
  match newDecoder (initDecoder input) with
  | Ok _ d => d
  | Panic _ d => d
  end.

(** The locals after the layer block of a 2 by 1 layer of an RGBA image. *)
Definition rgbLocals : locals :=
  mkLocals zeroLayer (Some VarRGBA)
    (Some (mkPix [Byte.x00; Byte.x00; Byte.x00; Byte.xff;
                  Byte.x00; Byte.x00; Byte.x00; Byte.xff] 8 (mkRect 0 0 2 1)))
    None None None 2 0.

(** [oneKind d lc]: the locals hold no image of another kind than the one
    that the header selects, as is the case at the start of the layer bank
    and ever after. *)
Definition oneKind (d : decoder) (lc : locals) : Prop :=
  (bytesPerPixel d <> 4 -> imgRGBA lc = None) /\
  (bytesPerPixel d <> 8 -> imgRGBA64 lc = None) /\
  (bytesPerPixel d <> 2 -> imgGray16 lc = None).

(** A paletted file of version 4 with one layer of two channels: the plane
    01 00 of the image, then a transparency mask. *)
Definition palMaskFile : list byte :=
  fileHdr 4 2 1 0 8 0 ++
  blockHdr 4 colorBlock 16 ++ le32 8 ++ le32 2 ++
  [Byte.x10; Byte.x20; Byte.x30; Byte.x00; Byte.x40; Byte.x50; Byte.x60; Byte.x00] ++
  blockHdr 4 layerStartBlock 0 ++
  layerBlk 4 2 1 2 [Byte.x41; Byte.x42] ++
  channelBlk 4 0 0 2 [Byte.x01; Byte.x00] ++
  channelBlk 4 1 0 4 [Byte.x01; Byte.x02; Byte.x03; Byte.x04].

(** * Properties *)

(** ** Bytes *)

Lemma b2z_range (b : byte) : 0 <= b2z b < 256.
Proof.
  unfold b2z. pose proof (Byte.to_N_bounded b). lia.
Qed.

Lemma b2z_z2b (z : Z) : b2z (z2b z) = z mod 256.
Proof.
  unfold b2z, z2b.
  pose proof (Z.mod_pos_bound z 256 ltac:(lia)) as Hm.
  destruct (Byte.of_N (Z.to_N (z mod 256))) as [b|] eqn:E.
  - apply Byte.to_of_N in E. rewrite E. lia.
  - apply Byte.of_N_None_iff in E. lia.
Qed.

Lemma z2b_b2z (b : byte) : z2b (b2z b) = b.
Proof.
  unfold z2b, b2z. rewrite Z.mod_small by (pose proof (Byte.to_N_bounded b); lia).
  rewrite N2Z.id, Byte.of_to_N. reflexivity.
Qed.

Lemma bytes_eqb_eq (a b : list byte) : bytes_eqb a b = true <-> a = b.
Proof.
  revert b. induction a as [|x a IH]; intros [|y b]; simpl; try (split; congruence).
  rewrite andb_true_iff, IH. split.
  - intros [H1 H2]. apply Byte.byte_dec_bl in H1. congruence.
  - intros H. injection H as -> ->. split; [apply Byte.byte_dec_lb|]; reflexivity.
Qed.

Lemma bytes_eqb_refl (a : list byte) : bytes_eqb a a = true.
Proof. apply bytes_eqb_eq. reflexivity. Qed.

(** The bitwise or of a value and a shifted one is their sum. *)
Lemma lor_shiftl_add (a b k : Z) :
  0 <= k -> 0 <= a < 2 ^ k -> Z.lor a (Z.shiftl b k) = a + b * 2 ^ k.
Proof.
  intros Hk Ha.
  rewrite <- (Z.shiftl_mul_pow2 b k Hk).
  pose proof (Z.add_lor_land a (Z.shiftl b k)) as Hadd.
  cut (Z.land a (Z.shiftl b k) = 0); [lia|].
  apply Z.bits_inj'. intros n Hn.
  rewrite Z.land_spec, Z.bits_0.
  destruct (Z.lt_ge_cases n k).
  - rewrite (Z.shiftl_spec_low b k n) by lia. apply andb_false_r.
  - destruct (Z.eq_dec a 0) as [->|Hne]; [rewrite Z.bits_0; reflexivity|].
    rewrite (Z.bits_above_log2 a n); [reflexivity|lia|].
    apply Z.log2_lt_pow2; [lia|].
    apply Z.lt_le_trans with (2 ^ k); [lia|].
    apply Z.pow_le_mono_r; lia.
Qed.

Lemma decodeUint16_le16 (z : Z) :
  0 <= z < 2 ^ 16 -> decodeUint16 (le16 z) = Some z.
Proof.
  intros Hz. unfold decodeUint16, le16, at_. simpl. f_equal.
  rewrite !b2z_z2b.
  rewrite lor_shiftl_add by (try lia; apply Z.mod_pos_bound; lia).
  change (2 ^ 8) with 256.
  rewrite (Z.mod_small (z / 256)) by (split; [apply Z.div_pos; lia|apply Z.div_lt_upper_bound; lia]).
  pose proof (Z.div_mod z 256 ltac:(lia)). lia.
Qed.

Lemma decodeUint32_le32 (z : Z) :
  0 <= z < 2 ^ 32 -> decodeUint32 (le32 z) = Some z.
Proof.
  intros Hz. unfold decodeUint32, le32, at_. simpl. f_equal.
  rewrite !b2z_z2b.
  pose proof (Z.mod_pos_bound z 256 ltac:(lia)).
  pose proof (Z.mod_pos_bound (z / 2 ^ 8) 256 ltac:(lia)).
  pose proof (Z.mod_pos_bound (z / 2 ^ 16) 256 ltac:(lia)).
  pose proof (Z.mod_pos_bound (z / 2 ^ 24) 256 ltac:(lia)).
  rewrite (lor_shiftl_add (z mod 256)) by lia.
  rewrite (lor_shiftl_add _ _ 16) by lia.
  rewrite (lor_shiftl_add _ _ 24) by lia.
  change (2 ^ 8) with 256 in *. change (2 ^ 16) with 65536 in *.
  change (2 ^ 24) with 16777216 in *. change (2 ^ 32) with 4294967296 in *.
  pose proof (Z.div_mod z 256 ltac:(lia)).
  pose proof (Z.div_mod (z / 256) 256 ltac:(lia)).
  pose proof (Z.div_mod (z / 65536) 256 ltac:(lia)).
  assert (z / 256 / 256 = z / 65536) by (rewrite Z.div_div by lia; reflexivity).
  assert (z / 65536 / 256 = z / 16777216) by (rewrite Z.div_div by lia; reflexivity).
  assert (z / 16777216 < 256) by (apply Z.div_lt_upper_bound; lia).
  assert (0 <= z / 16777216) by (apply Z.div_pos; lia).
  rewrite (Z.mod_small (z / 16777216)) by lia.
  lia.
Qed.

Lemma decodeUint16_range (b : list byte) (z : Z) :
  decodeUint16 b = Some z -> 0 <= z < 2 ^ 16.
Proof.
  unfold decodeUint16. destruct (at_ b 0) as [b0|]; [|discriminate].
  destruct (at_ b 1) as [b1|]; [|discriminate].
  intros [= <-].
  pose proof (b2z_range b0). pose proof (b2z_range b1).
  rewrite lor_shiftl_add by lia. lia.
Qed.

Lemma decodeUint32_range (b : list byte) (z : Z) :
  decodeUint32 b = Some z -> 0 <= z < 2 ^ 32.
Proof.
  unfold decodeUint32. destruct (at_ b 0) as [b0|]; [|discriminate].
  destruct (at_ b 1) as [b1|]; [|discriminate].
  destruct (at_ b 2) as [b2|]; [|discriminate].
  destruct (at_ b 3) as [b3|]; [|discriminate].
  intros [= <-].
  pose proof (b2z_range b0). pose proof (b2z_range b1).
  pose proof (b2z_range b2). pose proof (b2z_range b3).
  rewrite (lor_shiftl_add (b2z b0)) by lia.
  rewrite (lor_shiftl_add _ _ 16) by lia.
  rewrite (lor_shiftl_add _ _ 24) by lia. lia.
Qed.

(** ** The monad *)

Lemma bind_Ok {T U} (m : M T) (f : T -> M U) d b d' :
  bind m f d = Ok b d' -> exists a d1, m d = Ok a d1 /\ f a d1 = Ok b d'.
Proof.
  unfold bind. destruct (m d) as [a d1|p d1]; [eauto|discriminate].
Qed.

Lemma bind_eq_Ok {T U} (m : M T) (f : T -> M U) d a d1 :
  m d = Ok a d1 -> bind m f d = f a d1.
Proof. unfold bind. intros ->. reflexivity. Qed.

Lemma bind_eq_Panic {T U} (m : M T) (f : T -> M U) d p d1 :
  m d = Panic p d1 -> bind m f d = Panic p d1.
Proof. unfold bind. intros ->. reflexivity. Qed.

Lemma bind_Panic {T U} (m : M T) (f : T -> M U) d p d' :
  bind m f d = Panic p d' ->
  m d = Panic p d' \/ exists a d1, m d = Ok a d1 /\ f a d1 = Panic p d'.
Proof.
  unfold bind. destruct (m d) as [a d1|q d1]; [eauto|].
  intros [= -> ->]. auto.
Qed.

(** Inversion of a successful run, one bind at a time. *)
Ltac inv_bind H :=
  let a := fresh "a" in
  let d1 := fresh "d" in
  let H1 := fresh "H" in
  apply bind_Ok in H; destruct H as (a & d1 & H1 & H).

Lemma set_r_id d : set_r d (r d) = d.
Proof. destruct d; reflexivity. Qed.

Lemma set_tmpBuf_id d : set_tmpBuf d (tmpBuf d) = d.
Proof. destruct d; reflexivity. Qed.

Lemma len_app {T} (a b : list T) : len (a ++ b) = len a + len b.
Proof. unfold len. rewrite length_app. lia. Qed.

Lemma len_nonneg {T} (a : list T) : 0 <= len a.
Proof. unfold len. lia. Qed.

(** ** The byte reader on a stream that holds the bytes asked for *)

Lemma tmpSlice_ok d lo hi :
  0 <= lo <= hi -> hi <= len (tmpBuf d) ->
  tmpSlice lo hi d = Ok (mkSlice lo (hi - lo)) d.
Proof.
  intros H1 H2. unfold tmpSlice, reslice, bind, gets, ret. simpl.
  replace (len (tmpBuf d) - 0) with (len (tmpBuf d)) by lia.
  destruct (Z.leb_spec 0 lo); [|lia].
  destruct (Z.leb_spec lo hi); [|lia].
  destruct (Z.leb_spec hi (len (tmpBuf d))); [|lia].
  reflexivity.
Qed.

Lemma read_ok d s bs rest :
  r d = bs ++ rest -> len bs = slen s ->
  read s d = Ok tt (set_tmpBuf (set_r d rest)
                      (list_inserts (Z.to_nat (soff s)) bs (tmpBuf d))).
Proof.
  intros Hr Hl. unfold read.
  destruct (Z.leb_spec (slen s) 0) as [Hz|Hz].
  - assert (bs = []) as -> by (destruct bs; [reflexivity|unfold len in Hl; simpl in Hl; lia]).
    simpl in Hr. rewrite <- Hr. simpl. rewrite set_r_id, set_tmpBuf_id. reflexivity.
  - rewrite Hr, len_app.
    destruct (Z.ltb_spec (len bs + len rest) (slen s)) as [Hlt|_];
      [pose proof (len_nonneg rest); lia|].
    rewrite <- Hl. unfold len. rewrite Nat2Z.id.
    rewrite drop_app_length, take_app_length. reflexivity.
Qed.

Lemma readTmp_ok d n bs rest :
  r d = bs ++ rest -> len bs = n -> n <= len (tmpBuf d) ->
  readTmp n d = Ok (mkSlice 0 n)
                  (set_tmpBuf (set_r d rest)
                     (bs ++ drop (length bs) (tmpBuf d))).
Proof.
  intros Hr Hl Hn. unfold readTmp.
  assert (0 <= n) by (subst n; apply len_nonneg).
  rewrite (bind_eq_Ok _ _ _ _ _ (tmpSlice_ok d 0 n ltac:(lia) Hn)).
  replace (n - 0) with n by lia.
  unfold bind at 1.
  rewrite (read_ok d (mkSlice 0 n) bs rest Hr Hl). simpl.
  unfold ret. f_equal. f_equal.
  rewrite <- (take_drop (length bs) (tmpBuf d)) at 1.
  apply list_inserts_0_r. rewrite length_take. unfold len in *. lia.
Qed.

Lemma skip_ok d n bs rest :
  r d = bs ++ rest -> len bs = n -> skip n d = Ok tt (set_r d rest).
Proof.
  intros Hr Hl. unfold skip.
  pose proof (len_nonneg bs).
  destruct (Z.ltb_spec n 0); [lia|].
  destruct (Z.eqb_spec n 0) as [Hz|Hz].
  - assert (bs = []) as -> by (destruct bs; [reflexivity|unfold len in Hl; simpl in Hl; lia]).
    simpl in Hr. rewrite <- Hr, set_r_id. reflexivity.
  - rewrite Hr, len_app.
    destruct (Z.ltb_spec (len bs + len rest) n) as [Hlt|_];
      [pose proof (len_nonneg rest); lia|].
    rewrite <- Hl. unfold len. rewrite Nat2Z.id, drop_app_length. reflexivity.
Qed.

Lemma readByte_ok d b rest : r d = b :: rest -> readByte d = Ok b (set_r d rest).
Proof. unfold readByte. intros ->. reflexivity. Qed.

Lemma contents_prefix d n bs t :
  tmpBuf d = bs ++ t -> len bs = n ->
  contents (mkSlice 0 n) d = Ok bs d.
Proof.
  intros Ht Hl. unfold contents, gets. simpl. rewrite Ht, <- Hl.
  unfold len. rewrite Nat2Z.id. change (Z.to_nat 0) with 0%nat.
  rewrite drop_0, take_app_length. reflexivity.
Qed.

Lemma tmpBuf_set_tmpBuf d t : tmpBuf (set_tmpBuf d t) = t.
Proof. reflexivity. Qed.

Lemma r_set_tmpBuf d t : r (set_tmpBuf d t) = r d.
Proof. reflexivity. Qed.

Lemma r_set_r d x : r (set_r d x) = x.
Proof. reflexivity. Qed.

Lemma readUint32_ok d bs rest z :
  r d = bs ++ rest -> length bs = 4%nat -> decodeUint32 bs = Some z ->
  4 <= len (tmpBuf d) ->
  readUint32 d = Ok z (set_tmpBuf (set_r d rest) (bs ++ drop 4 (tmpBuf d))).
Proof.
  intros Hr Hl Hz Ht. unfold readUint32.
  rewrite (bind_eq_Ok _ _ _ _ _ (readTmp_ok d 4 bs rest Hr ltac:(unfold len; lia) Ht)).
  rewrite Hl.
  erewrite (bind_eq_Ok (contents _));
    [|apply (contents_prefix _ 4 bs (drop 4 (tmpBuf d)));
      [reflexivity|unfold len; lia]].
  rewrite Hz. reflexivity.
Qed.

Lemma readUint16_ok d bs rest z :
  r d = bs ++ rest -> length bs = 2%nat -> decodeUint16 bs = Some z ->
  2 <= len (tmpBuf d) ->
  readUint16 d = Ok z (set_tmpBuf (set_r d rest) (bs ++ drop 2 (tmpBuf d))).
Proof.
  intros Hr Hl Hz Ht. unfold readUint16.
  rewrite (bind_eq_Ok _ _ _ _ _ (readTmp_ok d 2 bs rest Hr ltac:(unfold len; lia) Ht)).
  rewrite Hl.
  erewrite (bind_eq_Ok (contents _));
    [|apply (contents_prefix _ 2 bs (drop 2 (tmpBuf d)));
      [reflexivity|unfold len; lia]].
  rewrite Hz. reflexivity.
Qed.

Lemma decodeUint32_some (bs : list byte) :
  length bs = 4%nat -> exists z, decodeUint32 bs = Some z.
Proof.
  destruct bs as [|b0 [|b1 [|b2 [|b3 [|]]]]]; try discriminate.
  intros _. eexists. reflexivity.
Qed.

Lemma index_ok d s i b :
  0 <= i < slen s -> at_ (tmpBuf d) (soff s + i) = Some b ->
  index s i d = Ok b d.
Proof.
  intros Hi Hb. unfold index.
  destruct (Z.leb_spec 0 i); [|lia]. destruct (Z.ltb_spec i (slen s)); [|lia].
  simpl. unfold bind, gets. rewrite Hb. reflexivity.
Qed.

Lemma at_app_r (a b : list byte) (i : Z) :
  0 <= i -> at_ (a ++ b) (len a + i) = at_ b i.
Proof.
  intros Hi. unfold at_, len.
  destruct (Z.ltb_spec (Z.of_nat (length a) + i) 0); [lia|].
  destruct (Z.ltb_spec i 0); [lia|].
  rewrite lookup_app_r by lia. f_equal. lia.
Qed.

(** ** The palette decoder *)

Lemma len_entries es : len (flat_map entryBytes es) = 4 * len es.
Proof.
  unfold len. induction es as [|[[[cb cg] cr] pad] es IH]; simpl; [reflexivity|].
  simpl in IH. lia.
Qed.

Lemma paletteLoop_ok es : forall seen acc d t,
  tmpBuf d = flat_map entryBytes seen ++ flat_map entryBytes es ++ t ->
  paletteLoop (length es) (len seen) acc d = Ok (acc ++ map entryColor es) d.
Proof.
  induction es as [|e es IH]; intros seen acc d t Ht; simpl.
  - rewrite app_nil_r. reflexivity.
  - destruct e as [[[cb cg] cr] pad].
    assert (Hlen : len (tmpBuf d) = 4 * len seen + 4 + 4 * len es + len t).
    { rewrite Ht. change (flat_map entryBytes ((cb, cg, cr, pad) :: es))
        with ([cb; cg; cr; pad] ++ flat_map entryBytes es).
      rewrite !len_app, !len_entries. unfold len. simpl. lia. }
    pose proof (len_nonneg seen). pose proof (len_nonneg es). pose proof (len_nonneg t).
    unfold bind at 1. unfold bind at 1. unfold gets at 1. unfold ret at 1.
    assert (Hat : forall k x, 0 <= k ->
              at_ ([cb; cg; cr; pad] ++ flat_map entryBytes es ++ t) k = Some x ->
              index (mkSlice 0 (len (tmpBuf d))) (len seen * 4 + k) d = Ok x d).
    { intros k x Hk Hx. apply index_ok; simpl.
      - split; [lia|]. unfold at_ in Hx.
        destruct (k <? 0); [discriminate|]. apply lookup_lt_Some in Hx.
        rewrite !length_app in Hx. simpl in Hx.
        pose proof (len_entries es). unfold len in *. lia.
      - rewrite Ht. replace (len seen * 4 + k) with (len (flat_map entryBytes seen) + k)
          by (rewrite len_entries; lia).
        rewrite Z.add_0_l, at_app_r by lia. exact Hx. }
    rewrite (bind_eq_Ok _ _ _ _ _ (Hat 2 cr ltac:(lia) eq_refl)).
    rewrite (bind_eq_Ok _ _ _ _ _ (Hat 1 cg ltac:(lia) eq_refl)).
    replace (len seen * 4) with (len seen * 4 + 0) at 1 by lia.
    rewrite (bind_eq_Ok _ _ _ _ _ (Hat 0 cb ltac:(lia) eq_refl)).
    replace (len seen + 1) with (len (seen ++ [(cb, cg, cr, pad)]))
      by (rewrite len_app; reflexivity).
    rewrite (IH (seen ++ [(cb, cg, cr, pad)]) _ d t).
    + rewrite <- app_assoc. reflexivity.
    + rewrite Ht, flat_map_app. simpl. rewrite <- !app_assoc. reflexivity.
Qed.

Lemma paletteLoop_ok_0 es d t :
  tmpBuf d = flat_map entryBytes es ++ t ->
  paletteLoop (Z.to_nat (len es)) 0 [] d = Ok (map entryColor es) d.
Proof.
  intros Ht. unfold len at 1. rewrite Nat2Z.id.
  exact (paletteLoop_ok es [] [] d t Ht).
Qed.

(** decodeColorBlock on the bytes of a palette: it takes the tag of the
    later versions, the count and four bytes for each entry, and leaves the
    colours in the palette. *)
Lemma decodeColorBlock_entries d ln tag cnt es rest :
  4 <= len (tmpBuf d) ->
  length tag = (if 4 <=? versionMajor d then 4%nat else 0%nat) ->
  length cnt = 4%nat ->
  decodeUint32 cnt = Some (len es) ->
  r d = tag ++ cnt ++ flat_map entryBytes es ++ rest ->
  exists d', decodeColorBlock ln d = Ok tt d' /\
             palette d' = Some (map entryColor es) /\
             r d' = rest.
Proof.
  intros Ht Htag Hcnt Hn Hr. unfold decodeColorBlock.
  unfold bind at 1. unfold gets at 1.
  assert (exists d1, (if 4 <=? versionMajor d then readUint32 >> ret tt else ret tt) d
                     = Ok tt d1 /\ r d1 = cnt ++ flat_map entryBytes es ++ rest /\
                     4 <= len (tmpBuf d1) /\ len (tmpBuf d) <= len (tmpBuf d1))
    as (d1 & E1 & Hr1 & Ht1 & _).
  { destruct (4 <=? versionMajor d).
    - destruct (decodeUint32_some tag Htag) as [z Hz].
      eexists. rewrite (bind_eq_Ok _ _ _ _ _ (readUint32_ok d tag _ z Hr Htag Hz Ht)).
      split; [reflexivity|]. simpl.
      assert (len (tag ++ drop 4 (tmpBuf d)) = len (tmpBuf d)) as ->.
      { unfold len in *. rewrite length_app, length_drop. lia. }
      repeat split; lia.
    - destruct tag; [|discriminate]. eexists. split; [reflexivity|].
      repeat split; [exact Hr|lia..]. }
  rewrite (bind_eq_Ok _ _ _ _ _ E1).
  rewrite (bind_eq_Ok _ _ _ _ _ (readUint32_ok d1 cnt _ _ Hr1 Hcnt Hn Ht1)).
  set (d2 := set_tmpBuf _ _).
  assert (Hr2 : r d2 = flat_map entryBytes es ++ rest) by reflexivity.
  pose proof (decodeUint32_range _ _ Hn) as Hrange.
  unfold bind at 1. unfold gets at 1.
  assert (exists d3, (if len (tmpBuf d2) <? len es * 4
                      then growTmp (len es * 4) else ret tt) d2 = Ok tt d3 /\
                     r d3 = r d2 /\ len es * 4 <= len (tmpBuf d3))
    as (d3 & E3 & Hr3 & Ht3).
  { destruct (Z.ltb_spec (len (tmpBuf d2)) (len es * 4)).
    - unfold growTmp, make, bind, modify, fault_, ret.
      destruct (Z.ltb_spec (len es * 4) 0); [lia|].
      destruct (Z.ltb_spec maxAlloc (len es * 4));
        [unfold maxAlloc in *; lia|]. simpl.
      eexists. split; [reflexivity|]. split; [reflexivity|]. simpl.
      unfold len. rewrite length_replicate. lia.
    - eexists. split; [reflexivity|]. split; [reflexivity|lia]. }
  rewrite (bind_eq_Ok _ _ _ _ _ E3).
  rewrite Hr2 in Hr3.
  rewrite (bind_eq_Ok _ _ _ _ _
             (readTmp_ok d3 (len es * 4) _ rest Hr3
                ltac:(rewrite len_entries; lia) Ht3)).
  set (d4 := set_tmpBuf _ _).
  rewrite (bind_eq_Ok _ _ _ _ _ (paletteLoop_ok_0 es d4 _ eq_refl)).
  eexists. split; [reflexivity|]. split; reflexivity.
Qed.

(** C8: in a color-palette block, every entry (B, G, R, pad) of the input
    becomes the colour (R, G, B, 255): the fourth byte has no part in the
    palette, and every alpha is 255. *)
Theorem decodeColorBlock_palette d ln tag cnt es rest :
  4 <= len (tmpBuf d) ->
  length tag = (if 4 <=? versionMajor d then 4%nat else 0%nat) ->
  length cnt = 4%nat ->
  decodeUint32 cnt = Some (len es) ->
  r d = tag ++ cnt ++ flat_map entryBytes es ++ rest ->
  exists d', decodeColorBlock ln d = Ok tt d' /\
             palette d' = Some (map entryColor es) /\
             r d' = rest /\
             Forall (fun c => A c = Byte.xff) (map entryColor es).
Proof.
  intros Ht Htag Hcnt Hn Hr.
  destruct (decodeColorBlock_entries d ln tag cnt es rest Ht Htag Hcnt Hn Hr)
    as (d' & E & Hp & Hr').
  exists d'. repeat split; try assumption.
  apply Forall_map, Forall_forall. intros [[[cb cg] cr] pad] _. reflexivity.
Qed.

Lemma decodeColorBlock_palette_witness :
  exists d', decodeColorBlock 12
               (set_version
                  (initDecoder (le32 8 ++ le32 1 ++
                                [Byte.x01; Byte.x02; Byte.x03; Byte.x09]))
                  4 0) = Ok tt d' /\
             palette d' = Some [mkRGBA Byte.x03 Byte.x02 Byte.x01 Byte.xff] /\
             r d' = [] /\
             Forall (fun c => A c = Byte.xff)
               [mkRGBA Byte.x03 Byte.x02 Byte.x01 Byte.xff].
Proof.
  apply (decodeColorBlock_palette _ 12 (le32 8) (le32 1)
           [(Byte.x01, Byte.x02, Byte.x03, Byte.x09)] []).
  - vm_compute. discriminate.
  - reflexivity.
  - reflexivity.
  - reflexivity.
  - reflexivity.
Defined.

(** ** Errors at the package boundary *)

(** C10: when Decode returns an error, the image it returns is nil. *)
Theorem Decode_error_nil_image inflate input im e :
  Decode inflate input = Returns im (Some e) -> im = None.
Proof.
  unfold Decode, catchErrors.
  destruct (runDecode inflate input) as [v d|p d]; [discriminate|].
  destruct p; try discriminate. intros [= <- _]. reflexivity.
Qed.

Lemma Decode_error_nil_image_witness :
  Decode noInflate (take 300 rgbFile) = Returns None (Some ErrUnexpectedEOF) /\
  (None : option Image) = None.
Proof.
  split; [vm_compute; reflexivity|].
  apply (Decode_error_nil_image noInflate (take 300 rgbFile) None
           ErrUnexpectedEOF).
  vm_compute. reflexivity.
Defined.

(** ** Inversion of the byte reader *)

Tactic Notation "bind_inv" hyp(H) "as" ident(a) ident(d1) ident(H1) :=
  apply bind_Ok in H; destruct H as (a & d1 & H1 & H).

Lemma tmpSlice_inv d lo hi s d' :
  tmpSlice lo hi d = Ok s d' ->
  d' = d /\ s = mkSlice lo (hi - lo) /\ 0 <= lo <= hi /\ hi <= len (tmpBuf d).
Proof.
  unfold tmpSlice, reslice, bind, gets, ret, fault_, panic. simpl.
  replace (len (tmpBuf d) - 0) with (len (tmpBuf d)) by lia.
  destruct (Z.leb_spec 0 lo); simpl; [|discriminate].
  destruct (Z.leb_spec lo hi); simpl; [|discriminate].
  destruct (Z.leb_spec hi (len (tmpBuf d))); simpl; [|discriminate].
  intros [= <- <-]. repeat split; lia.
Qed.

Lemma read_inv d s d' :
  read s d = Ok tt d' ->
  (slen s <= 0 /\ d' = d) \/
  (0 < slen s <= len (r d) /\
   d' = set_tmpBuf (set_r d (drop (Z.to_nat (slen s)) (r d)))
          (list_inserts (Z.to_nat (soff s)) (take (Z.to_nat (slen s)) (r d))
             (tmpBuf d))).
Proof.
  unfold read. destruct (Z.leb_spec (slen s) 0).
  - intros [= <-]. auto.
  - destruct (Z.ltb_spec (len (r d)) (slen s)).
    + destruct (r d); discriminate.
    + intros [= <-]. right. split; [lia|reflexivity].
Qed.

Lemma readTmp_inv d n s d' :
  readTmp n d = Ok s d' ->
  s = mkSlice 0 n /\ 0 <= n <= len (r d) /\ n <= len (tmpBuf d) /\
  d' = set_tmpBuf (set_r d (drop (Z.to_nat n) (r d)))
         (take (Z.to_nat n) (r d) ++ drop (Z.to_nat n) (tmpBuf d)).
Proof.
  unfold readTmp. intros H. bind_inv H as s0 d0 H0.
  apply tmpSlice_inv in H0 as (-> & -> & Hlo & Hhi).
  bind_inv H as u d1 H1. injection H as <- <-. destruct u.
  replace (n - 0) with n in * by lia.
  split; [reflexivity|].
  assert (Hl : (length (take (Z.to_nat n) (r d)) <= length (tmpBuf d))%nat).
  { rewrite length_take. unfold len in *. lia. }
  apply read_inv in H1 as [[Hn ->]|[Hn ->]]; simpl in *.
  - assert (n = 0) as -> by lia. simpl. rewrite set_r_id, set_tmpBuf_id.
    pose proof (len_nonneg (r d)). repeat split; lia.
  - repeat split; try lia. f_equal.
    rewrite <- (take_drop (Z.to_nat n) (tmpBuf d)) at 1.
    rewrite list_inserts_0_r; [|rewrite !length_take; unfold len in *; lia].
    reflexivity.
Qed.

Lemma readByte_inv d b d' :
  readByte d = Ok b d' -> exists q, r d = b :: q /\ d' = set_r d q.
Proof.
  unfold readByte. destruct (r d) as [|x q]; [discriminate|].
  intros [= <- <-]. eauto.
Qed.

Lemma readString_inv d n s d' :
  readString n d = Ok s d' ->
  0 <= n <= 1024 /\ n <= len (r d) /\
  s = take (Z.to_nat n) (r d) /\ r d' = drop (Z.to_nat n) (r d).
Proof.
  unfold readString. intros H. bind_inv H as u0 d0 H0.
  destruct (Z.ltb_spec 1024 n) as [Hbig|Hbig]; [discriminate|].
  injection H0 as <- <-.
  bind_inv H as c d1 H1. injection H1 as <- <-. bind_inv H as u2 d2 H2.
  assert (r d2 = r d) as Hr.
  { destruct (len (tmpBuf d) <? n); [|injection H2 as _ <-; reflexivity].
    unfold growTmp in H2. bind_inv H2 as a3 d3 H3. unfold make in H3.
    destruct ((n <? 0) || (maxAlloc <? n)); [discriminate|].
    injection H3 as <- <-. injection H2 as _ <-. reflexivity. }
  bind_inv H as s4 d4 H4. apply readTmp_inv in H4 as (-> & Hn & Ht & ->).
  unfold contents, gets in H. injection H as <- <-. simpl.
  rewrite Hr in *. repeat split; try lia.
  change (Z.to_nat 0) with 0%nat. rewrite drop_0, take_app_length'; [reflexivity|].
  rewrite length_take. unfold len in *. lia.
Qed.

(** ** strings.TrimSpace *)

Lemma trimWith_stops f :
  f [] = None ->
  (forall s, f s = Some 0%nat -> False) ->
  forall fuel s, (length s <= fuel)%nat -> f (trimWith f fuel s) = None.
Proof.
  intros Hnil Hpos. induction fuel as [|k IH]; intros s Hs; simpl.
  - destruct s; [exact Hnil|simpl in Hs; lia].
  - destruct (f s) as [w|] eqn:E; [|exact E].
    apply IH. rewrite length_drop.
    destruct w; [exfalso; eauto|]. lia.
Qed.

Lemma trimWith_suffix f : forall fuel s,
  exists p, s = p ++ trimWith f fuel s.
Proof.
  induction fuel as [|k IH]; intros s; simpl.
  - exists []. reflexivity.
  - destruct (f s) as [w|]; [|exists []; reflexivity].
    destruct (IH (drop w s)) as [p Hp].
    exists (take w s ++ p). rewrite <- app_assoc, <- Hp, take_drop. reflexivity.
Qed.

Lemma leadingSpace_app a b w :
  leadingSpace a = Some w -> leadingSpace (a ++ b) = Some w.
Proof.
  destruct a as [|b0 [|b1 [|b2 a]]]; simpl; try discriminate.
  - destruct (isAsciiSpace b0); [trivial|discriminate].
  - destruct (isAsciiSpace b0); [trivial|].
    destruct (spaceRune2 (b2z b0) (b2z b1)); [trivial|discriminate].
  - trivial.
Qed.

Lemma TrimLeft_stops s : leadingSpace (TrimLeft s) = None.
Proof.
  apply trimWith_stops; [reflexivity| |lia].
  intros [|b0 [|b1 [|b2 q]]]; simpl; try discriminate;
    repeat match goal with |- context [if ?c then _ else _] => destruct c end;
    discriminate.
Qed.

Lemma TrimRight_stops s : trailingSpace (rev (TrimRight s)) = None.
Proof.
  unfold TrimRight. rewrite rev_involutive.
  apply trimWith_stops; [reflexivity| |rewrite length_rev; lia].
  intros [|b0 [|b1 [|b2 q]]]; simpl; try discriminate;
    repeat match goal with |- context [if ?c then _ else _] => destruct c end;
    discriminate.
Qed.

Lemma TrimRight_prefix s : exists q, s = TrimRight s ++ q.
Proof.
  unfold TrimRight.
  destruct (trimWith_suffix trailingSpace (length s) (rev s)) as [p Hp].
  exists (rev p). rewrite <- rev_app_distr, <- Hp, rev_involutive. reflexivity.
Qed.

(** What TrimSpace leaves starts with no white space and ends with none, and
    lies inside the string between the white space cut off at both ends. *)
Lemma TrimSpace_spec s :
  leadingSpace (TrimSpace s) = None /\
  trailingSpace (rev (TrimSpace s)) = None /\
  exists p q, s = p ++ TrimSpace s ++ q.
Proof.
  unfold TrimSpace. split; [|split].
  - destruct (TrimRight_prefix (TrimLeft s)) as [q Hq].
    destruct (leadingSpace (TrimRight (TrimLeft s))) as [w|] eqn:E; [|reflexivity].
    apply (leadingSpace_app _ q) in E. rewrite <- Hq, TrimLeft_stops in E.
    discriminate.
  - apply TrimRight_stops.
  - destruct (trimWith_suffix leadingSpace (length s) s) as [p Hp].
    destruct (TrimRight_prefix (TrimLeft s)) as [q Hq].
    exists p, q. rewrite <- Hq. exact Hp.
Qed.

(** ** Layer names *)

(** C9 as stated fails: the name of a layer of a version 3 file that starts
    with a blank loses it. *)
Lemma readLayer_trims_leading_space :
  let d := set_version
             (initDecoder
                (drop 14 (layerBlk 3 2 1 3 [Byte.x20; Byte.x41; Byte.x42])))
             3 0 in
  exists l d',
    readLayer zeroLayer d = Ok l d' /\
    take 3 (r d) = [Byte.x20; Byte.x41; Byte.x42] /\
    name l = [Byte.x41; Byte.x42] /\
    name l <> TrimRight (take 256 (r d)).
Proof.
  eexists _, _. split; [vm_compute; reflexivity|].
  split; [reflexivity|]. split; [reflexivity|].
  vm_compute. discriminate.
Qed.

(** C9, amended: in a file of major version below 4 the layer name is the
    first 256 bytes of the layer block with the white space cut off at both
    ends (strings.TrimSpace), and the layer type is the byte after them. *)
Theorem readLayer_legacy_name d l0 l d' :
  versionMajor d < 4 ->
  readLayer l0 d = Ok l d' ->
  exists raw t rest,
    r d = raw ++ t :: rest /\ length raw = 256%nat /\
    name l = TrimSpace raw /\
    layerType l = b2z t /\
    leadingSpace (name l) = None /\
    trailingSpace (rev (name l)) = None.
Proof.
  intros Hv H. unfold readLayer in H.
  bind_inv H as v d0 H0. injection H0 as <- <-.
  destruct (Z.leb_spec 4 (versionMajor d)) as [Hv4|Hv4]; [lia|].
  bind_inv H as nm d1 H1. bind_inv H1 as s d2 H2. injection H1 as <- <-.
  apply readString_inv in H2 as (_ & Hn & -> & Hr).
  bind_inv H as t d3 H3. apply readByte_inv in H3 as (rest & Hrest & ->).
  repeat inv_bind H. injection H as <- <-. simpl.
  exists (take 256 (r d)), t, rest.
  rewrite Hr in Hrest. change (Z.to_nat 256) with 256%nat in *.
  split; [rewrite <- Hrest; symmetry; apply take_drop|].
  split; [rewrite length_take; unfold len in Hn; lia|].
  split; [reflexivity|]. split; [reflexivity|].
  destruct (TrimSpace_spec (take 256 (r d))) as (? & ? & _). auto.
Qed.

Lemma readLayer_legacy_name_witness :
  exists raw t rest,
    r (set_version
         (initDecoder
            (drop 14 (layerBlk 3 2 1 3 [Byte.x20; Byte.x41; Byte.x42])))
         3 0) = raw ++ t :: rest /\ length raw = 256%nat /\
    [Byte.x41; Byte.x42] = TrimSpace raw /\
    0 = b2z t /\
    leadingSpace [Byte.x41; Byte.x42] = None /\
    trailingSpace (rev [Byte.x41; Byte.x42]) = None.
Proof.
  refine (readLayer_legacy_name _ zeroLayer
            (mkLayer [Byte.x41; Byte.x42] 0 _ _ _ _ _ _ _ _ _ _ _ _ _ _ _) _ _ _).
  - vm_compute. reflexivity.
  - vm_compute. reflexivity.
Defined.

(** ** The run-length decompressor *)

Lemma covers_le n ps : covers n ps -> n <= len (flat_map encode ps).
Proof.
  revert n. induction ps as [|p ps IH]; simpl; intros n Hc.
  - exact Hc.
  - destruct Hc as [_ Hc]. apply IH in Hc. rewrite len_app. lia.
Qed.

Lemma set_tmpBuf_set_tmpBuf d a b : set_tmpBuf (set_tmpBuf d a) b = set_tmpBuf d b.
Proof. reflexivity. Qed.

Lemma reslice_ok d s lo hi :
  0 <= lo <= hi -> hi <= len (tmpBuf d) - soff s ->
  reslice s lo hi d = Ok (mkSlice (soff s + lo) (hi - lo)) d.
Proof.
  intros H1 H2. unfold reslice, bind, gets, ret.
  destruct (Z.leb_spec 0 lo); [|lia].
  destruct (Z.leb_spec lo hi); [|lia].
  destruct (Z.leb_spec hi (len (tmpBuf d) - soff s)); [|lia].
  reflexivity.
Qed.

Lemma store_ok d s i b :
  0 <= i < slen s ->
  store s i b d = Ok tt (set_tmpBuf d (<[Z.to_nat (soff s + i) := b]> (tmpBuf d))).
Proof.
  intros Hi. unfold store.
  destruct (Z.leb_spec 0 i); [|lia]. destruct (Z.ltb_spec i (slen s)); [|lia].
  reflexivity.
Qed.

Lemma store_out d s i b :
  slen s <= i -> store s i b d = Panic (PRuntime IndexOutOfRange) d.
Proof.
  intros Hi. unfold store.
  destruct (Z.ltb_spec i (slen s)); [lia|]. rewrite andb_false_r. reflexivity.
Qed.

Lemma forTo_S {T} fuel i hi step (body : Z -> T -> M T) s :
  forTo (S fuel) i hi step body s =
  if i <? hi then bind (body i s) (fun s' => forTo fuel (i + step) hi step body s')
  else ret s.
Proof. reflexivity. Qed.

Lemma forTo_O {T} i hi step (body : Z -> T -> M T) s :
  forTo O i hi step body s = if i <? hi then panic PFuel else ret s.
Proof. reflexivity. Qed.

Lemma forTo_done {T} fuel i hi step (body : Z -> T -> M T) s :
  hi <= i -> forTo fuel i hi step body s = ret s.
Proof.
  intros H. destruct fuel; [rewrite forTo_O|rewrite forTo_S];
    (destruct (Z.ltb_spec i hi); [lia|reflexivity]).
Qed.

Lemma rleLoop_S fuel buf n j :
  rleLoop (S fuel) buf n j =
  if 0 <? n then
    let* c := readByte in
    let run := b2z c in
    if 128 <? run then
      let* b := readByte in
      let* j' := for_ 0 (run - 128) 1 (fun _ j => store buf j b >> ret (j + 1)) j in
      rleLoop fuel buf (n - 1 - 1) j'
    else
      let* s := reslice buf j (j + run) in
      read s >> rleLoop fuel buf (n - run - 1) (j + run)
  else ret j.
Proof. reflexivity. Qed.

Lemma rleLoop_done fuel buf n j : n <= 0 -> rleLoop fuel buf n j = ret j.
Proof.
  intros H. destruct fuel; simpl; (destruct (Z.ltb_spec 0 n); [lia|reflexivity]).
Qed.

(** The loop that writes a run. *)
Lemma fill_ok buf b k : forall fuel i j d,
  0 <= soff buf -> 0 <= j -> j + (k - i) <= slen buf ->
  (Z.to_nat (k - i) <= fuel)%nat ->
  forTo fuel i k 1 (fun _ j => store buf j b >> ret (j + 1)) j d =
  Ok (j + Z.max 0 (k - i))
     (set_tmpBuf d (list_inserts (Z.to_nat (soff buf + j))
                      (replicate (Z.to_nat (k - i)) b) (tmpBuf d))).
Proof.
  induction fuel as [|f IH]; intros i j d Hs Hj Hfit Hfuel.
  - rewrite forTo_done by lia.
    replace (Z.to_nat (k - i)) with 0%nat by lia. simpl.
    rewrite set_tmpBuf_id. unfold ret. f_equal. lia.
  - destruct (Z.lt_ge_cases i k) as [Hlt|Hge].
    + rewrite forTo_S. destruct (Z.ltb_spec i k); [|lia].
      assert (E : (store buf j b >> ret (j + 1)) d =
                  Ok (j + 1) (set_tmpBuf d (<[Z.to_nat (soff buf + j) := b]> (tmpBuf d)))).
      { rewrite (bind_eq_Ok _ _ _ _ _ (store_ok d buf j b ltac:(lia))). reflexivity. }
      rewrite (bind_eq_Ok _ _ _ _ _ E).
      rewrite IH by (simpl; lia). simpl.
      rewrite set_tmpBuf_set_tmpBuf. f_equal; [lia|]. f_equal.
      replace (Z.to_nat (k - i)) with (S (Z.to_nat (k - (i + 1)))) by lia.
      simpl. replace (Z.to_nat (soff buf + (j + 1))) with (S (Z.to_nat (soff buf + j))) by lia.
      symmetry. apply list_insert_inserts_lt. lia.
    + rewrite forTo_done by lia.
      replace (Z.to_nat (k - i)) with 0%nat by lia. simpl.
      rewrite set_tmpBuf_id. unfold ret. f_equal. lia.
Qed.

Lemma fill_overrun buf b k : forall fuel i j d,
  0 <= j -> i < k -> slen buf < j + (k - i) ->
  (Z.to_nat (k - i) <= fuel)%nat ->
  exists d', forTo fuel i k 1 (fun _ j => store buf j b >> ret (j + 1)) j d =
             Panic (PRuntime IndexOutOfRange) d'.
Proof.
  induction fuel as [|f IH]; intros i j d Hj Hlt Hover Hfuel; [lia|].
  rewrite forTo_S. destruct (Z.ltb_spec i k); [|lia].
  destruct (Z.lt_ge_cases j (slen buf)) as [Hin|Hout].
  - assert (E : (store buf j b >> ret (j + 1)) d =
                Ok (j + 1) (set_tmpBuf d (<[Z.to_nat (soff buf + j) := b]> (tmpBuf d)))).
    { rewrite (bind_eq_Ok _ _ _ _ _ (store_ok d buf j b ltac:(lia))). reflexivity. }
    rewrite (bind_eq_Ok _ _ _ _ _ E).
    apply IH; lia.
  - eexists. apply bind_eq_Panic. apply bind_eq_Panic. apply store_out. exact Hout.
Qed.

Lemma b2z_control_run k : 1 <= k <= 127 -> b2z (z2b (128 + k)) = 128 + k.
Proof. intros Hk. rewrite b2z_z2b, Z.mod_small; lia. Qed.

Lemma b2z_control_lit (bs : list byte) : len bs <= 128 -> b2z (z2b (len bs)) = len bs.
Proof.
  intros Hk. pose proof (len_nonneg bs). rewrite b2z_z2b, Z.mod_small; lia.
Qed.

(** The loop on a stream of packets that fit the buffer. *)
Lemma rleLoop_packets buf : forall ps fuel n j d rest,
  Forall packetOk ps ->
  covers n ps ->
  r d = flat_map encode ps ++ rest ->
  0 <= soff buf -> 0 <= j ->
  j + len (flat_map expand ps) <= slen buf ->
  soff buf + slen buf <= len (tmpBuf d) ->
  (length ps <= fuel)%nat ->
  rleLoop fuel buf n j d =
  Ok (j + len (flat_map expand ps))
     (set_tmpBuf (set_r d rest)
        (list_inserts (Z.to_nat (soff buf + j)) (flat_map expand ps) (tmpBuf d))).
Proof.
  induction ps as [|p ps IH]; intros fuel n j d rest Hok Hc Hr Hs Hj Hfit Hcap Hfuel.
  - simpl in *. subst rest. rewrite rleLoop_done by lia.
    rewrite set_r_id, set_tmpBuf_id. unfold ret. f_equal. unfold len. simpl. lia.
  - destruct fuel as [|f]; [simpl in Hfuel; lia|].
    simpl in Hc. destruct Hc as [Hn Hc].
    inversion Hok as [|? ? Hp Hps]; subst.
    simpl flat_map in *. rewrite len_app in Hfit.
    pose proof (len_nonneg (expand p)). pose proof (len_nonneg (flat_map expand ps)).
    rewrite rleLoop_S. destruct (Z.ltb_spec 0 n); [|lia].
    destruct p as [k b|bs]; simpl in Hp, Hr, Hc, Hfit, H.
    + rewrite (bind_eq_Ok _ _ _ _ _ (readByte_ok d _ _ Hr)).
      rewrite b2z_control_run by exact Hp. cbv zeta.
      destruct (Z.ltb_spec 128 (128 + k)); [|lia].
      rewrite (bind_eq_Ok _ _ _ _ _ (readByte_ok (set_r d _) b _ eq_refl)).
      replace (128 + k - 128) with k by lia.
      assert (Hlen : len (replicate (Z.to_nat k) b) = k)
        by (unfold len; rewrite length_replicate; lia).
      rewrite Hlen in Hfit.
      unfold for_.
      rewrite (bind_eq_Ok _ _ _ _ _
                 (fill_ok buf b k (Z.to_nat (k - 0)) 0 j _ Hs Hj ltac:(lia) ltac:(lia))).
      replace (k - 0) with k by lia.
      rewrite (IH f (n - 1 - 1) (j + Z.max 0 k) _ rest Hps);
        [ | | reflexivity | exact Hs | lia | lia | | simpl in Hfuel; lia].
      * simpl expand. rewrite len_app, Hlen. simpl.
        f_equal; [lia|]. f_equal.
        rewrite list_inserts_app_l, length_replicate. f_equal. lia.
      * replace (n - 1 - 1) with (n - len [z2b (128 + k); b]) by (unfold len; simpl; lia).
        exact Hc.
      * simpl. unfold len. rewrite length_inserts. fold (len (tmpBuf d)). lia.
    + rewrite (bind_eq_Ok _ _ _ _ _ (readByte_ok d _ _ Hr)).
      rewrite b2z_control_lit by exact Hp. cbv zeta.
      destruct (Z.ltb_spec 128 (len bs)); [lia|].
      rewrite (bind_eq_Ok _ _ _ _ _
                 (reslice_ok (set_r d _) buf j (j + len bs) ltac:(lia)
                    ltac:(simpl; lia))).
      replace (j + len bs - j) with (len bs) by lia.
      rewrite <- app_assoc.
      rewrite (bind_eq_Ok _ _ _ tt _
                 (read_ok (set_r d _) (mkSlice (soff buf + j) (len bs)) bs _
                    eq_refl eq_refl)).
      rewrite (IH f (n - len bs - 1) (j + len bs) _ rest Hps);
        [ | | reflexivity | exact Hs | lia | lia | | simpl in Hfuel; lia].
      * simpl. rewrite len_app. f_equal; [lia|]. f_equal.
        rewrite list_inserts_app_l. f_equal. unfold len. lia.
      * replace (n - len bs - 1) with (n - len (z2b (len bs) :: bs))
          by (unfold len; simpl; lia).
        exact Hc.
      * simpl. unfold len. rewrite length_inserts. fold (len (tmpBuf d)). lia.
Qed.

Lemma length_packets ps : (length ps <= length (flat_map encode ps))%nat.
Proof.
  induction ps as [|p ps IH]; simpl; [lia|].
  rewrite length_app. destruct p; simpl; lia.
Qed.

(** C2 as stated fails: with compressed_len = 1 and a run packet, two bytes
    of the stream are taken. *)
Lemma rle_takes_whole_packets :
  let d := initDecoder [Byte.x81; Byte.x07; Byte.x09] in
  exists j d', rle (mkSlice 0 4) 1 d = Ok j d' /\
               len (r d) - len (r d') = 2.
Proof.
  eexists _, _. split; vm_compute; reflexivity.
Qed.

(** C2, amended: on a stream of packets the decompressor takes whole packets
    while its count, which starts at compressed_len and goes down by the
    length of each packet, is positive.  It takes compressed_len bytes
    exactly when the packets end there, and more when the last packet runs
    past it.  It writes to the buffer, in order, [c - 128] copies of the
    next byte for a control byte [c > 128], and the next [c] bytes for any
    other control byte. *)
Theorem rle_packets buf ps compressedLayerLen d rest :
  Forall packetOk ps ->
  covers compressedLayerLen ps ->
  r d = flat_map encode ps ++ rest ->
  soff buf = 0 ->
  len (flat_map expand ps) <= slen buf <= len (tmpBuf d) ->
  exists d',
    rle buf compressedLayerLen d = Ok (len (flat_map expand ps)) d' /\
    r d' = rest /\
    compressedLayerLen <= len (r d) - len (r d') /\
    (compressedLayerLen = len (flat_map encode ps) ->
     len (r d) - len (r d') = compressedLayerLen) /\
    take (length (flat_map expand ps)) (tmpBuf d') = flat_map expand ps.
Proof.
  intros Hok Hc Hr Hoff Hfit. unfold rle.
  rewrite (rleLoop_packets buf ps _ compressedLayerLen 0 d rest Hok Hc Hr);
    try lia.
  - eexists. split; [reflexivity|]. simpl.
    split; [reflexivity|].
    rewrite Hr, len_app.
    split; [apply covers_le in Hc; lia|]. split; [lia|].
    rewrite Hoff. simpl.
    rewrite <- (take_drop (length (flat_map expand ps)) (tmpBuf d)).
    rewrite list_inserts_0_r, take_app_length; [reflexivity|].
    rewrite length_take. unfold len in *. lia.
  - rewrite Hr, length_app. pose proof (length_packets ps). lia.
Qed.

Lemma rle_packets_witness :
  exists d',
    rle (mkSlice 0 4) 5 (initDecoder [Byte.x83; Byte.x07; Byte.x01; Byte.x09; Byte.x00])
    = Ok 4 d' /\
    r d' = [] /\
    5 <= 5 - len (r d') /\
    (5 = 5 -> 5 - len (r d') = 5) /\
    take 4 (tmpBuf d') = [Byte.x07; Byte.x07; Byte.x07; Byte.x09].
Proof.
  refine (rle_packets (mkSlice 0 4)
            [Run 3 Byte.x07; Lit [Byte.x09]; Lit []] 5
            (initDecoder [Byte.x83; Byte.x07; Byte.x01; Byte.x09; Byte.x00])
            [] _ _ _ _ _).
  - repeat constructor; simpl; unfold len; simpl; lia.
  - simpl. unfold len. simpl. lia.
  - reflexivity.
  - reflexivity.
  - vm_compute. split; discriminate.
Defined.

(** The decompressor raises no error of the package: what stops it is the
    end of the stream or a run-time fault. *)
Lemma for_fill_no_error buf b : forall fuel i k j d p d',
  forTo fuel i k 1 (fun _ j => store buf j b >> ret (j + 1)) j d = Panic p d' ->
  p = PRuntime IndexOutOfRange \/ p = PFuel.
Proof.
  induction fuel as [|f IH]; intros i k j d p d' H.
  - rewrite forTo_O in H. destruct (i <? k); [|discriminate].
    injection H as <- _. auto.
  - rewrite forTo_S in H. destruct (i <? k); [|discriminate].
    apply bind_Panic in H as [H|(j1 & d1 & _ & H)]; [|eauto].
    apply bind_Panic in H as [H|(u & d1 & _ & H)]; [|discriminate].
    unfold store in H. destruct ((0 <=? j) && (j <? slen buf)); [discriminate|].
    injection H as <- _. auto.
Qed.

Lemma rleLoop_no_FormatError buf : forall fuel n j d msg d',
  rleLoop fuel buf n j d <> Panic (PErr (FormatError msg)) d'.
Proof.
  induction fuel as [|f IH]; intros n j d msg d' H.
  - simpl in H. destruct (0 <? n); discriminate.
  - rewrite rleLoop_S in H. destruct (0 <? n); [|discriminate].
    apply bind_Panic in H as [H|(c & d1 & _ & H)].
    { unfold readByte in H. destruct (r d); discriminate. }
    cbv zeta in H. destruct (128 <? b2z c).
    + apply bind_Panic in H as [H|(b & d2 & _ & H)].
      { unfold readByte in H. destruct (r d1); discriminate. }
      apply bind_Panic in H as [H|(j1 & d3 & _ & H)].
      { apply for_fill_no_error in H as [H|H]; discriminate. }
      exact (IH _ _ _ _ _ H).
    + apply bind_Panic in H as [H|(s & d2 & _ & H)].
      { unfold reslice, bind, gets in H.
        destruct ((0 <=? j) && (j <=? j + b2z c) &&
                  (j + b2z c <=? len (tmpBuf d1) - soff buf)); discriminate. }
      apply bind_Panic in H as [H|(u & d3 & _ & H)].
      { unfold read in H. destruct (slen s <=? 0); [discriminate|].
        destruct (len (r d2) <? slen s); [|discriminate].
        destruct (r d2); discriminate. }
      exact (IH _ _ _ _ _ H).
Qed.

(** C3 as stated fails.  A run that goes past the plane stops Decode with a
    run-time fault, which catchErrors raises again; a literal string that
    goes past the plane but not past the scratch buffer is accepted. *)
Lemma rle_overrun_is_no_FormatError :
  Decode noInflate
    (fileHdr 4 2 1 1 24 0 ++ blockHdr 4 layerStartBlock 0 ++
     layerBlk 4 2 1 3 [] ++
     channelBlk 4 0 1 2 [Byte.x83; Byte.x09]) = Panics (PRuntime IndexOutOfRange) /\
  Decode noInflate
    (fileHdr 4 2 1 1 24 0 ++ blockHdr 4 layerStartBlock 0 ++
     layerBlk 4 2 1 1 [] ++
     channelBlk 4 0 1 2 [Byte.x03; Byte.x09; Byte.x08; Byte.x07]) =
  Returns (Some (ImRGBA (mkPix [Byte.x09; Byte.x00; Byte.x00; Byte.xff;
                                Byte.x08; Byte.x00; Byte.x00; Byte.xff]
                           8 (mkRect 0 0 2 1)))) None.
Proof.
  split; vm_compute; reflexivity.
Qed.

(** C3, amended: the run-length decompressor raises no FormatError.  When a
    run would write past the end of the plane buffer, whose length is the
    byte count of the layer, decoding stops with the index-out-of-range
    fault; when a literal string would go past the capacity of the scratch
    buffer, it stops with the slice-bounds fault. *)
Theorem rle_overrun buf fuel n j d :
  (forall msg d', rleLoop fuel buf n j d <> Panic (PErr (FormatError msg)) d') /\
  (forall k b rest,
      0 < n -> 0 <= j -> 1 <= k <= 127 ->
      r d = encode (Run k b) ++ rest ->
      slen buf < j + k ->
      exists d', rleLoop (S fuel) buf n j d = Panic (PRuntime IndexOutOfRange) d') /\
  (forall bs rest,
      0 < n -> len bs <= 128 ->
      r d = encode (Lit bs) ++ rest ->
      len (tmpBuf d) - soff buf < j + len bs ->
      exists d', rleLoop (S fuel) buf n j d = Panic (PRuntime SliceBounds) d').
Proof.
  split; [|split].
  - intros msg d'. apply rleLoop_no_FormatError.
  - intros k b rest Hn Hj Hk Hr Hover. simpl in Hr.
    rewrite rleLoop_S. destruct (Z.ltb_spec 0 n); [|lia].
    rewrite (bind_eq_Ok _ _ _ _ _ (readByte_ok d _ _ Hr)).
    rewrite b2z_control_run by exact Hk. cbv zeta.
    destruct (Z.ltb_spec 128 (128 + k)); [|lia].
    rewrite (bind_eq_Ok _ _ _ _ _ (readByte_ok (set_r d _) b _ eq_refl)).
    replace (128 + k - 128) with k by lia.
    destruct (fill_overrun buf b k (Z.to_nat (k - 0)) 0 j (set_r (set_r d (b :: rest)) rest)
                Hj ltac:(lia) ltac:(lia) ltac:(lia)) as [d' Hd'].
    exists d'. apply bind_eq_Panic. exact Hd'.
  - intros bs rest Hn Hl Hr Hover. simpl in Hr.
    rewrite rleLoop_S. destruct (Z.ltb_spec 0 n); [|lia].
    rewrite (bind_eq_Ok _ _ _ _ _ (readByte_ok d _ _ Hr)).
    rewrite b2z_control_lit by exact Hl. cbv zeta.
    destruct (Z.ltb_spec 128 (len bs)); [lia|].
    eexists. apply bind_eq_Panic. unfold reslice, bind, gets. simpl.
    destruct (Z.leb_spec (j + len bs) (len (tmpBuf d) - soff buf)); [lia|].
    rewrite andb_false_r. reflexivity.
Qed.

Lemma rle_overrun_witness :
  (forall msg d',
      rleLoop 3 (mkSlice 0 2) 2 0 (initDecoder [Byte.x83; Byte.x09]) <>
      Panic (PErr (FormatError msg)) d') /\
  (exists d', rleLoop 4 (mkSlice 0 2) 2 0 (initDecoder [Byte.x83; Byte.x09]) =
              Panic (PRuntime IndexOutOfRange) d') /\
  (exists d', rleLoop 4 (mkSlice 60 2) 2 0
                (initDecoder [Byte.x05; Byte.x01; Byte.x02; Byte.x03; Byte.x04; Byte.x05]) =
              Panic (PRuntime SliceBounds) d').
Proof.
  split; [|split].
  - apply (rle_overrun (mkSlice 0 2) 3 2 0 (initDecoder [Byte.x83; Byte.x09])).
  - apply (proj1 (proj2 (rle_overrun (mkSlice 0 2) 3 2 0
                           (initDecoder [Byte.x83; Byte.x09])))
             3 Byte.x09 []); try reflexivity; simpl; lia.
  - apply (proj2 (proj2 (rle_overrun (mkSlice 60 2) 3 2 0
                           (initDecoder [Byte.x05; Byte.x01; Byte.x02; Byte.x03;
                                         Byte.x04; Byte.x05])))
             [Byte.x01; Byte.x02; Byte.x03; Byte.x04; Byte.x05] []);
      try reflexivity; vm_compute; try reflexivity; discriminate.
Defined.

(** ** Runs that differ in the reader only *)

Lemma same_refl d : same d d.
Proof. split; [destruct d; reflexivity|reflexivity]. Qed.

Lemma same_trans d1 d2 d3 : same d1 d2 -> same d2 d3 -> same d1 d3.
Proof.
  intros [E1 L1] [E2 L2]. split; [|congruence].
  rewrite E2 at 1. rewrite E1 at 1. reflexivity.
Qed.

Lemma same_set_r d x : same d (set_r d x).
Proof. split; [destruct d; reflexivity|reflexivity]. Qed.

Lemma same_set_tmpBuf d t : length t = length (tmpBuf d) -> same d (set_tmpBuf d t).
Proof. intros H. split; [destruct d; reflexivity|exact H]. Qed.

Lemma same_set_stdout d o : same d (set_stdout d o).
Proof. split; [destruct d; reflexivity|reflexivity]. Qed.

Lemma same_fields d d' :
  same d d' ->
  versionMajor d' = versionMajor d /\ versionMinor d' = versionMinor d /\
  width d' = width d /\ height d' = height d /\
  colorModel d' = colorModel d /\ comp d' = comp d /\
  bitDepth d' = bitDepth d /\ palette d' = palette d /\
  creator d' = creator d /\ tmpOld d' = tmpOld d /\
  len (tmpBuf d') = len (tmpBuf d).
Proof.
  intros [E L]. unfold len. rewrite L. rewrite E. repeat split; reflexivity.
Qed.

(** ** Inversion of the pure steps *)

Lemma gets_inv {T} (f : decoder -> T) d a d' :
  gets f d = Ok a d' -> a = f d /\ d' = d.
Proof. intros [= <- <-]. auto. Qed.

Lemma ret_inv {T} (x : T) d a d' : ret x d = Ok a d' -> a = x /\ d' = d.
Proof. intros [= <- <-]. auto. Qed.

Lemma modify_inv f d a d' : modify f d = Ok a d' -> d' = f d.
Proof. intros [= <-]. auto. Qed.

Lemma printf_inv e d a d' :
  printf e d = Ok a d' -> d' = set_stdout d (stdout d ++ [e]).
Proof. intros [= <-]. auto. Qed.

Lemma orFault_inv {T} f (o : option T) d a d' :
  orFault f o d = Ok a d' -> o = Some a /\ d' = d.
Proof. destruct o; [intros [= <- <-]; auto|discriminate]. Qed.

Lemma reslice_inv s lo hi d t d' :
  reslice s lo hi d = Ok t d' ->
  d' = d /\ t = mkSlice (soff s + lo) (hi - lo) /\
  0 <= lo <= hi /\ hi <= len (tmpBuf d) - soff s.
Proof.
  unfold reslice, bind, gets, ret, fault_, panic.
  destruct (Z.leb_spec 0 lo); simpl; [|discriminate].
  destruct (Z.leb_spec lo hi); simpl; [|discriminate].
  destruct (Z.leb_spec hi (len (tmpBuf d) - soff s)); simpl; [|discriminate].
  intros [= <- <-]. repeat split; lia.
Qed.

Lemma contents_inv s d b d' :
  contents s d = Ok b d' ->
  d' = d /\ b = take (Z.to_nat (slen s)) (drop (Z.to_nat (soff s)) (tmpBuf d)).
Proof. intros [= <- <-]. auto. Qed.

Lemma index_inv s i d b d' :
  index s i d = Ok b d' ->
  d' = d /\ 0 <= i < slen s /\ at_ (tmpBuf d) (soff s + i) = Some b.
Proof.
  unfold index.
  destruct (Z.leb_spec 0 i); simpl; [|discriminate].
  destruct (Z.ltb_spec i (slen s)); simpl; [|discriminate].
  unfold bind, gets. destruct (at_ (tmpBuf d) (soff s + i)); [|discriminate].
  intros [= <- <-]. repeat split; lia.
Qed.

Lemma u32at_inv s lo hi d z d' :
  u32at s lo hi d = Ok z d' ->
  d' = d /\ 0 <= lo <= hi /\ hi <= len (tmpBuf d) - soff s /\
  decodeUint32 (take (Z.to_nat (hi - lo)) (drop (Z.to_nat (soff s + lo)) (tmpBuf d)))
  = Some z.
Proof.
  unfold u32at. intros H.
  bind_inv H as t d1 H1. apply reslice_inv in H1 as (-> & -> & Hlo & Hhi).
  bind_inv H as b d2 H2. apply contents_inv in H2 as (-> & ->).
  apply orFault_inv in H as (H & ->). auto.
Qed.

Lemma u16at_inv s lo hi d z d' :
  u16at s lo hi d = Ok z d' ->
  d' = d /\ 0 <= lo <= hi /\ hi <= len (tmpBuf d) - soff s /\
  decodeUint16 (take (Z.to_nat (hi - lo)) (drop (Z.to_nat (soff s + lo)) (tmpBuf d)))
  = Some z.
Proof.
  unfold u16at. intros H.
  bind_inv H as t d1 H1. apply reslice_inv in H1 as (-> & -> & Hlo & Hhi).
  bind_inv H as b d2 H2. apply contents_inv in H2 as (-> & ->).
  apply orFault_inv in H as (H & ->). auto.
Qed.

Lemma u64at_inv s lo hi d z d' : u64at s lo hi d = Ok z d' -> d' = d.
Proof.
  unfold u64at. intros H.
  bind_inv H as t d1 H1. apply reslice_inv in H1 as (-> & -> & Hlo & Hhi).
  bind_inv H as b d2 H2. apply contents_inv in H2 as (-> & ->).
  apply orFault_inv in H as (H & ->). auto.
Qed.

Lemma tmpU32_inv lo hi d z d' :
  tmpU32 lo hi d = Ok z d' ->
  d' = d /\ 0 <= lo <= hi /\ hi <= len (tmpBuf d) /\
  decodeUint32 (take (Z.to_nat (hi - lo)) (drop (Z.to_nat lo) (tmpBuf d))) = Some z.
Proof.
  unfold tmpU32. intros H.
  bind_inv H as t d1 H1. apply tmpSlice_inv in H1 as (-> & -> & Hlo & Hhi).
  bind_inv H as b d2 H2. apply contents_inv in H2 as (-> & ->).
  apply orFault_inv in H as (H & ->). auto.
Qed.

Lemma tmpU16_inv lo hi d z d' :
  tmpU16 lo hi d = Ok z d' ->
  d' = d /\ 0 <= lo <= hi /\ hi <= len (tmpBuf d) /\
  decodeUint16 (take (Z.to_nat (hi - lo)) (drop (Z.to_nat lo) (tmpBuf d))) = Some z.
Proof.
  unfold tmpU16. intros H.
  bind_inv H as t d1 H1. apply tmpSlice_inv in H1 as (-> & -> & Hlo & Hhi).
  bind_inv H as b d2 H2. apply contents_inv in H2 as (-> & ->).
  apply orFault_inv in H as (H & ->). auto.
Qed.

(** A successful read of a block header: the bytes it took are there, the
    magic first, and the fields are decoded from them. *)
Lemma readBlockHeader_inv d bh d' :
  readBlockHeader d = Ok bh d' ->
  exists hdr,
    r d = hdr ++ r d' /\
    length hdr = (if 3 <? versionMajor d then 10%nat else 14%nat) /\
    take 4 hdr = blockMagic /\
    decodeUint16 (take 2 (drop 4 hdr)) = Some (id bh) /\
    decodeUint32 (drop (length hdr - 4) hdr) = Some (dataLen bh) /\
    same d d'.
Proof.
  unfold readBlockHeader. intros H.
  bind_inv H as v d0 H0. apply gets_inv in H0 as (-> & ->).
  bind_inv H as ildl d1 H1.
  bind_inv H as m d2 H2. apply tmpSlice_inv in H2 as (-> & -> & _ & Hm).
  bind_inv H as mb d3 H3. apply contents_inv in H3 as (-> & ->).
  destruct (bytes_eqb _ blockMagic) eqn:Emagic; [|discriminate]. simpl in H.
  apply bytes_eqb_eq in Emagic.
  bind_inv H as i d4 H4. apply tmpU16_inv in H4 as (-> & _ & _ & Hi).
  bind_inv H as u d5 H5. apply printf_inv in H5 as ->.
  apply ret_inv in H as (-> & ->). simpl.
  change (Z.to_nat (4 - 0)) with 4%nat in Emagic.
  change (Z.to_nat 0) with 0%nat in Emagic. rewrite drop_0 in Emagic.
  change (Z.to_nat (6 - 4)) with 2%nat in Hi. change (Z.to_nat 4) with 4%nat in Hi.
  destruct (3 <? versionMajor d).
  - bind_inv H1 as s d6 H6. apply readTmp_inv in H6 as (-> & Hn & Ht & ->).
    bind_inv H1 as dl d7 H7. apply tmpU32_inv in H7 as (-> & _ & _ & Hdl).
    apply ret_inv in H1 as (-> & ->). simpl in *.
    change (Z.to_nat 10) with 10%nat in *.
    change (Z.to_nat (10 - 6)) with 4%nat in Hdl. change (Z.to_nat 6) with 6%nat in Hdl.
    assert (Hl : length (take 10 (r d)) = 10%nat)
      by (rewrite length_take; unfold len in *; lia).
    exists (take 10 (r d)). rewrite take_drop, Hl.
    split; [reflexivity|]. split; [reflexivity|].
    rewrite take_app_le in Emagic by lia.
    rewrite drop_app_le, take_app_le in Hi by (rewrite ?length_drop; lia).
    rewrite drop_app_le, take_app_le in Hdl by (rewrite ?length_drop; lia).
    rewrite (take_ge (drop 6 _)) in Hdl by (rewrite length_drop; lia).
    repeat split; try assumption.
    simpl. rewrite length_app, length_drop. unfold len in *. lia.
  - bind_inv H1 as s d6 H6. apply readTmp_inv in H6 as (-> & Hn & Ht & ->).
    bind_inv H1 as il d7 H7. apply tmpU32_inv in H7 as (-> & _ & _ & Hil).
    bind_inv H1 as dl d8 H8. apply tmpU32_inv in H8 as (-> & _ & _ & Hdl).
    apply ret_inv in H1 as (-> & ->). simpl in *.
    change (Z.to_nat 14) with 14%nat in *.
    change (Z.to_nat (14 - 10)) with 4%nat in Hdl. change (Z.to_nat 10) with 10%nat in Hdl.
    assert (Hl : length (take 14 (r d)) = 14%nat)
      by (rewrite length_take; unfold len in *; lia).
    exists (take 14 (r d)). rewrite take_drop, Hl.
    split; [reflexivity|]. split; [reflexivity|].
    rewrite take_app_le in Emagic by lia.
    rewrite drop_app_le, take_app_le in Hi by (rewrite ?length_drop; lia).
    rewrite drop_app_le, take_app_le in Hdl by (rewrite ?length_drop; lia).
    rewrite (take_ge (drop 10 _)) in Hdl by (rewrite length_drop; lia).
    repeat split; try assumption.
    simpl. rewrite length_app, length_drop. unfold len in *. lia.
Qed.

(** Inversion of a run of pure steps: what is left of the stream is what
    the last reading step left. *)
Ltac inv_pure :=
  repeat match goal with
  | H : bind _ _ _ = Ok _ _ |- _ =>
      apply bind_Ok in H; destruct H as (? & ? & ? & H)
  | H : u32at _ _ _ _ = Ok _ ?d |- _ => apply u32at_inv in H as (? & _); subst d
  | H : u16at _ _ _ _ = Ok _ ?d |- _ => apply u16at_inv in H as (? & _); subst d
  | H : u64at _ _ _ _ = Ok _ ?d |- _ => apply u64at_inv in H; subst d
  | H : index _ _ _ = Ok _ ?d |- _ => apply index_inv in H as (? & _); subst d
  | H : contents _ _ = Ok ?a ?d |- _ =>
      apply contents_inv in H as (? & ?); subst d; try subst a
  | H : reslice _ _ _ _ = Ok ?a ?d |- _ =>
      apply reslice_inv in H as (? & ? & _); subst d; try subst a
  | H : ret _ _ = Ok ?a ?d |- _ => apply ret_inv in H as (? & ?); subst d; try subst a
  | H : gets _ _ = Ok ?a ?d |- _ => apply gets_inv in H as (? & ?); subst d; try subst a
  | H : modify _ _ = Ok _ ?d |- _ => apply modify_inv in H; subst d
  | H : printf _ _ = Ok _ ?d |- _ => apply printf_inv in H; subst d
  | H : error_ _ _ = Ok _ _ |- _ => discriminate H
  | H : (if ?c then _ else _) _ = Ok _ _ |- _ => destruct c eqn:?
  end.

(** A successful readHeader took the 36 bytes of signature and version, the
    header of the image-attributes block and the bytes of its body, as many
    as the header declares, and nothing more. *)
Lemma readHeader_inv d d' :
  readHeader d = Ok tt d' ->
  exists sig hdr body,
    r d = sig ++ hdr ++ body ++ r d' /\
    length sig = 36%nat /\
    take 32 sig = fileMagic /\
    decodeUint16 (take 2 (drop 32 sig)) = Some (versionMajor d') /\
    3 <= versionMajor d' /\
    length hdr = (if 3 <? versionMajor d' then 10%nat else 14%nat) /\
    take 4 hdr = blockMagic /\
    decodeUint16 (take 2 (drop 4 hdr)) = Some imageBlock /\
    decodeUint32 (drop (length hdr - 4) hdr) = Some (len body) /\
    38 <= len body <= 64.
Proof.
  unfold readHeader. intros H.
  bind_inv H as s0 d0 H0. apply readTmp_inv in H0 as (-> & Hn & Ht & ->).
  bind_inv H as m d1 H1. apply tmpSlice_inv in H1 as (-> & -> & _ & Hm).
  bind_inv H as mb d2 H2. apply contents_inv in H2 as (-> & ->).
  destruct (bytes_eqb _ fileMagic) eqn:Emagic; [|discriminate]. simpl in H.
  apply bytes_eqb_eq in Emagic.
  bind_inv H as vmaj d3 H3. apply tmpU16_inv in H3 as (-> & _ & _ & Hvmaj).
  bind_inv H as vmin d4 H4. apply tmpU16_inv in H4 as (-> & _ & _ & Hvmin).
  bind_inv H as u5 d5 H5. apply modify_inv in H5 as ->.
  bind_inv H as u6 d6 H6.
  destruct (Z.ltb_spec vmaj 3) as [Hv|Hv]; [discriminate|].
  apply ret_inv in H6 as (_ & ->).
  bind_inv H as bh d7 H7.
  apply readBlockHeader_inv in H7 as (hdr & Hhdr & Hlh & Hbm & Hid & Hdl & Hsame).
  bind_inv H as u8 d8 H8.
  destruct (Z.eqb_spec (id bh) imageBlock) as [Hib|Hib]; [|discriminate]. simpl in H8.
  destruct (Z.ltb_spec (dataLen bh) 38); [discriminate|].
  destruct (Z.ltb_spec 64 (dataLen bh)); [discriminate|]. simpl in H8.
  apply ret_inv in H8 as (_ & ->).
  bind_inv H as buf0 d9 H9. apply readTmp_inv in H9 as (-> & Hn9 & Ht9 & ->).
  assert (Hr : r d' = drop (Z.to_nat (dataLen bh)) (r d7)).
  { inv_pure; reflexivity. }
  assert (Hvm : versionMajor d' = vmaj).
  { apply same_fields in Hsame as (Hvm & _). simpl in Hvm.
    inv_pure; exact Hvm. }
  clear H. simpl in Hhdr, Hlh, Hvmaj, Emagic.
  change (Z.to_nat 36) with 36%nat in *. change (Z.to_nat (32 - 0)) with 32%nat in *.
  change (Z.to_nat 0) with 0%nat in *. change (Z.to_nat (34 - 32)) with 2%nat in *.
  change (Z.to_nat 32) with 32%nat in *.
  assert (Hl : length (take 36 (r d)) = 36%nat)
    by (rewrite length_take; unfold len in *; lia).
  rewrite drop_0, take_app_le in Emagic by lia.
  rewrite drop_app_le, take_app_le in Hvmaj by (rewrite ?length_drop; lia).
  exists (take 36 (r d)), hdr, (take (Z.to_nat (dataLen bh)) (r d7)).
  rewrite Hr, take_drop, <- Hhdr, take_drop, Hvm.
  assert (Hlb : len (take (Z.to_nat (dataLen bh)) (r d7)) = dataLen bh).
  { unfold len in *. rewrite length_take. lia. }
  rewrite Hlb, take_take. rewrite <- Hib.
  repeat split; try assumption; try lia.
  rewrite take_take in Emagic. exact Emagic.
Qed.

(** ** Runs on a stream that holds a given block *)

Lemma wp_bind {T U} (m : M T) (f : T -> M U) d Q :
  wp m d (fun a d1 => wp (f a) d1 Q) -> wp (bind m f) d Q.
Proof.
  intros (a & d1 & E & v & d' & E' & HQ).
  exists v, d'. rewrite (bind_eq_Ok _ _ _ _ _ E). auto.
Qed.

Lemma wp_ret {T} (a : T) d (Q : T -> decoder -> Prop) : Q a d -> wp (ret a) d Q.
Proof. intros H. exists a, d. auto. Qed.

Lemma wp_gets {T} (f : decoder -> T) d (Q : T -> decoder -> Prop) :
  Q (f d) d -> wp (gets f) d Q.
Proof. intros H. exists (f d), d. auto. Qed.

Lemma wp_printf e d (Q : unit -> decoder -> Prop) :
  (forall d', r d' = r d -> same d d' -> Q tt d') -> wp (printf e) d Q.
Proof.
  intros H. eexists tt, _. split; [reflexivity|].
  apply H; [reflexivity|apply same_set_stdout].
Qed.

Lemma wp_skip d n bs rest (Q : unit -> decoder -> Prop) :
  r d = bs ++ rest -> len bs = n ->
  (forall d', r d' = rest -> same d d' -> Q tt d') ->
  wp (skip n) d Q.
Proof.
  intros Hr Hl H. exists tt, (set_r d rest).
  split; [apply (skip_ok d n bs rest Hr Hl)|].
  apply H; [reflexivity|apply same_set_r].
Qed.

Lemma same_read d rest bs n :
  (n <= length (tmpBuf d))%nat -> length bs = n ->
  same d (set_tmpBuf (set_r d rest) (bs ++ drop n (tmpBuf d))).
Proof.
  intros Hn Hl. eapply same_trans; [apply (same_set_r d rest)|].
  apply same_set_tmpBuf. simpl. rewrite length_app, length_drop. lia.
Qed.

Lemma wp_readUint32 d z rest (Q : Z -> decoder -> Prop) :
  r d = le32 z ++ rest -> 0 <= z < 2 ^ 32 -> 4 <= len (tmpBuf d) ->
  (forall d', r d' = rest -> same d d' -> Q z d') ->
  wp readUint32 d Q.
Proof.
  intros Hr Hz Ht H. eexists z, _.
  split; [apply (readUint32_ok d (le32 z) rest z Hr eq_refl
                   (decodeUint32_le32 z Hz) Ht)|].
  apply H; [reflexivity|]. apply same_read; [unfold len in Ht; lia|reflexivity].
Qed.

Lemma wp_readUint16 d z rest (Q : Z -> decoder -> Prop) :
  r d = le16 z ++ rest -> 0 <= z < 2 ^ 16 -> 2 <= len (tmpBuf d) ->
  (forall d', r d' = rest -> same d d' -> Q z d') ->
  wp readUint16 d Q.
Proof.
  intros Hr Hz Ht H. eexists z, _.
  split; [apply (readUint16_ok d (le16 z) rest z Hr eq_refl
                   (decodeUint16_le16 z Hz) Ht)|].
  apply H; [reflexivity|]. apply same_read; [unfold len in Ht; lia|reflexivity].
Qed.

Lemma tmpU32_ok d lo z pre post :
  tmpBuf d = pre ++ le32 z ++ post -> len pre = lo -> 0 <= z < 2 ^ 32 ->
  tmpU32 lo (lo + 4) d = Ok z d.
Proof.
  intros Ht Hl Hz. unfold tmpU32.
  pose proof (len_nonneg pre).
  rewrite (bind_eq_Ok _ _ _ _ _ (tmpSlice_ok d lo (lo + 4) ltac:(lia)
            ltac:(rewrite Ht, !len_app; pose proof (len_nonneg post);
                  unfold len at 2; simpl; lia))).
  unfold bind, contents, gets. simpl.
  replace (lo + 4 - lo) with 4 by lia. rewrite Ht, <- Hl. unfold len.
  rewrite Nat2Z.id, drop_app_length.
  change (take (Z.to_nat 4) (le32 z ++ post)) with (le32 z).
  rewrite (decodeUint32_le32 z Hz). reflexivity.
Qed.

Lemma tmpU16_ok d lo z pre post :
  tmpBuf d = pre ++ le16 z ++ post -> len pre = lo -> 0 <= z < 2 ^ 16 ->
  tmpU16 lo (lo + 2) d = Ok z d.
Proof.
  intros Ht Hl Hz. unfold tmpU16.
  pose proof (len_nonneg pre).
  rewrite (bind_eq_Ok _ _ _ _ _ (tmpSlice_ok d lo (lo + 2) ltac:(lia)
            ltac:(rewrite Ht, !len_app; pose proof (len_nonneg post);
                  unfold len at 2; simpl; lia))).
  unfold bind, contents, gets. simpl.
  replace (lo + 2 - lo) with 2 by lia. rewrite Ht, <- Hl. unfold len.
  rewrite Nat2Z.id, drop_app_length.
  change (take (Z.to_nat 2) (le16 z ++ post)) with (le16 z).
  rewrite (decodeUint16_le16 z Hz). reflexivity.
Qed.

Lemma wp_readBlockHeader d i l rest (Q : blockHeader -> decoder -> Prop) :
  r d = blockHdr (versionMajor d) i l ++ rest ->
  0 <= i < 2 ^ 16 -> 0 <= l < 2 ^ 32 -> 14 <= len (tmpBuf d) ->
  (forall bh d', id bh = i -> dataLen bh = l -> r d' = rest -> same d d' ->
                 Q bh d') ->
  wp readBlockHeader d Q.
Proof.
  intros Hr Hi Hl Ht H. unfold readBlockHeader, blockHdr in *.
  apply wp_bind, wp_gets.
  destruct (3 <? versionMajor d).
  - rewrite !app_assoc in Hr.
    pose proof (readTmp_ok d 10 _ rest Hr eq_refl ltac:(lia)) as E.
    set (d1 := set_tmpBuf _ _) in E.
    assert (Ht1 : tmpBuf d1 = blockMagic ++ le16 i ++ le32 l ++ drop 10 (tmpBuf d))
      by reflexivity.
    apply wp_bind. unfold wp at 1. exists (3735928559, l), d1. split.
    { rewrite (bind_eq_Ok _ _ _ _ _ E).
      change 10 with (6 + 4) at 1.
      rewrite (bind_eq_Ok _ _ _ _ _
                 (tmpU32_ok d1 6 l (blockMagic ++ le16 i) (drop 10 (tmpBuf d))
                    ltac:(rewrite Ht1, <- !app_assoc; reflexivity) eq_refl Hl)).
      reflexivity. }
    apply wp_bind. exists (mkSlice 0 4), d1.
    split.
    { apply (tmpSlice_ok d1 0 4); [lia|].
      unfold d1, len. simpl. lia. }
    apply wp_bind. exists blockMagic, d1. split; [reflexivity|].
    rewrite bytes_eqb_refl. simpl.
    apply wp_bind. exists i, d1. split.
    { change 6 with (4 + 2).
      apply (tmpU16_ok d1 4 i blockMagic (le32 l ++ drop 10 (tmpBuf d)) Ht1 eq_refl Hi). }
    apply wp_bind, wp_printf. intros d2 Hr2 Hs2. apply wp_ret.
    apply H; try reflexivity; [exact Hr2|].
    eapply same_trans; [|exact Hs2].
    apply same_read; [simpl; unfold len in Ht; lia|reflexivity].
  - rewrite !app_assoc in Hr.
    pose proof (readTmp_ok d 14 _ rest Hr eq_refl ltac:(lia)) as E.
    set (d1 := set_tmpBuf _ _) in E.
    assert (Ht1 : tmpBuf d1 = blockMagic ++ le16 i ++ le32 l ++ le32 l ++ drop 14 (tmpBuf d))
      by reflexivity.
    apply wp_bind. unfold wp at 1. exists (l, l), d1. split.
    { rewrite (bind_eq_Ok _ _ _ _ _ E).
      change 10 with (6 + 4) at 1.
      rewrite (bind_eq_Ok _ _ _ _ _
                 (tmpU32_ok d1 6 l (blockMagic ++ le16 i) (le32 l ++ drop 14 (tmpBuf d))
                    ltac:(rewrite Ht1, <- !app_assoc; reflexivity) eq_refl Hl)).
      change 14 with (10 + 4) at 1.
      rewrite (bind_eq_Ok _ _ _ _ _
                 (tmpU32_ok d1 10 l (blockMagic ++ le16 i ++ le32 l) (drop 14 (tmpBuf d))
                    ltac:(rewrite Ht1, <- !app_assoc; reflexivity) eq_refl Hl)).
      reflexivity. }
    apply wp_bind. exists (mkSlice 0 4), d1.
    split.
    { apply (tmpSlice_ok d1 0 4); [lia|].
      unfold d1, len. simpl. lia. }
    apply wp_bind. exists blockMagic, d1. split; [reflexivity|].
    rewrite bytes_eqb_refl. simpl.
    apply wp_bind. exists i, d1. split.
    { change 6 with (4 + 2).
      apply (tmpU16_ok d1 4 i blockMagic (le32 l ++ le32 l ++ drop 14 (tmpBuf d)) Ht1 eq_refl Hi). }
    apply wp_bind, wp_printf. intros d2 Hr2 Hs2. apply wp_ret.
    apply H; try reflexivity; [exact Hr2|].
    eapply same_trans; [|exact Hs2].
    apply same_read; [simpl; unfold len in Ht; lia|reflexivity].
Qed.

Lemma nextChannel_total lc d : exists x, nextChannel lc d = Ok x d.
Proof.
  unfold nextChannel.
  destruct (_ =? _); [|eexists; reflexivity].
  unfold imageOf. cbn [img].
  destruct (img lc) as [[| | |]|]; try (eexists; reflexivity).
  cbn [imgPaletted]. destruct (imgPaletted lc); eexists; reflexivity.
Qed.

Lemma wp_nextChannel lc d (Q : locals + (option Image * layerT) -> decoder -> Prop) :
  (forall x, nextChannel lc d = Ok x d -> Q x d) -> wp (nextChannel lc) d Q.
Proof.
  intros H. destruct (nextChannel_total lc d) as [x E]. exists x, d. auto.
Qed.

Section Blocks.

Variable inflate : list byte -> Z -> inflated.

(** A block of the top level that decode has no case for is passed over by
    its declared length. *)
Lemma decodeStep_skips d i l body rest :
  r d = blockHdr (versionMajor d) i l ++ body ++ rest -> len body = l ->
  0 <= i < 2 ^ 16 -> l < 2 ^ 32 -> 14 <= len (tmpBuf d) ->
  i <> extendedDataBlock -> i <> creatorBlock -> i <> colorBlock ->
  i <> layerStartBlock ->
  wp (decodeStep inflate) d (fun x d' => x = None /\ r d' = rest /\ same d d').
Proof.
  intros Hr Hl Hi Hl32 Ht N1 N2 N3 N4. unfold decodeStep.
  pose proof (len_nonneg body).
  apply wp_bind. eapply wp_readBlockHeader; [exact Hr|exact Hi|lia|exact Ht|].
  intros bh d1 Hid Hdl Hr1 Hs1. rewrite Hid, Hdl.
  destruct (Z.eqb_spec i extendedDataBlock); [contradiction|].
  destruct (Z.eqb_spec i creatorBlock); [contradiction|].
  destruct (Z.eqb_spec i colorBlock); [contradiction|].
  destruct (Z.eqb_spec i layerStartBlock); [contradiction|].
  apply wp_bind. eapply wp_skip; [exact Hr1|exact Hl|].
  intros d2 Hr2 Hs2. apply wp_ret.
  split; [reflexivity|]. split; [exact Hr2|]. eapply same_trans; eassumption.
Qed.

(** The same for a sub-block inside the layer bank. *)
Lemma decodeLayersStep_skips lc d i l body rest :
  r d = blockHdr (versionMajor d) i l ++ body ++ rest -> len body = l ->
  0 <= i < 2 ^ 16 -> l < 2 ^ 32 -> 14 <= len (tmpBuf d) ->
  i <> layerBlock -> i <> channelBlock -> i <> 33 ->
  wp (decodeLayersStep inflate lc) d
     (fun x d' => x = inl lc /\ r d' = rest /\ same d d').
Proof.
  intros Hr Hl Hi Hl32 Ht N1 N2 N3. unfold decodeLayersStep.
  pose proof (len_nonneg body).
  apply wp_bind. eapply wp_readBlockHeader; [exact Hr|exact Hi|lia|exact Ht|].
  intros bh d1 Hid Hdl Hr1 Hs1. rewrite Hid, Hdl.
  destruct (Z.eqb_spec i layerBlock); [contradiction|].
  destruct (Z.eqb_spec i channelBlock); [contradiction|].
  destruct (Z.eqb_spec i 33); [contradiction|].
  apply wp_bind. eapply wp_skip; [exact Hr1|exact Hl|].
  intros d2 Hr2 Hs2. apply wp_ret.
  split; [reflexivity|]. split; [exact Hr2|]. eapply same_trans; eassumption.
Qed.

(** The sub-block of id 33: after its body the decoder reads a count [n]
    and passes over [n - 4] more bytes. *)
Lemma decodeLayersStep_33 lc d l body n extra rest :
  r d = blockHdr (versionMajor d) 33 l ++ body ++ le32 n ++ extra ++ rest ->
  len body = l -> l < 2 ^ 32 -> n < 2 ^ 32 -> len extra = n - 4 ->
  14 <= len (tmpBuf d) ->
  wp (decodeLayersStep inflate lc) d
     (fun x d' => x = inl lc /\ r d' = rest /\ same d d').
Proof.
  intros Hr Hl Hl32 Hn32 He Ht. unfold decodeLayersStep.
  pose proof (len_nonneg body). pose proof (len_nonneg extra).
  apply wp_bind. eapply wp_readBlockHeader; [exact Hr|lia|lia|exact Ht|].
  intros bh d1 Hid Hdl Hr1 Hs1. rewrite Hid, Hdl. simpl.
  pose proof (same_fields _ _ Hs1) as F1.
  apply wp_bind. eapply wp_skip; [exact Hr1|exact Hl|].
  intros d2 Hr2 Hs2. pose proof (same_fields _ _ Hs2) as F2.
  apply wp_bind. eapply wp_readUint32; [exact Hr2|lia|lia|].
  intros d3 Hr3 Hs3.
  apply wp_bind. eapply wp_skip; [exact Hr3|exact He|].
  intros d4 Hr4 Hs4. apply wp_ret.
  split; [reflexivity|]. split; [exact Hr4|].
  eauto using same_trans.
Qed.

(** A channel block that is not of the image bitmap, in a file of version 4
    or later: the rest of the block is passed over, the images are left as
    they are and the channel is counted. *)
Lemma decodeLayersStep_mask lc d l cl ul bt ct body rest :
  4 <= versionMajor d ->
  r d = blockHdr (versionMajor d) channelBlock l ++
        channelInfo (versionMajor d) cl ul bt ct ++ body ++ rest ->
  l = 16 + len body -> l < 2 ^ 32 ->
  0 <= cl < 2 ^ 32 -> 0 <= ul < 2 ^ 32 -> 0 <= bt < 2 ^ 16 -> 0 <= ct < 2 ^ 16 ->
  bt <> dibImage ->
  14 <= len (tmpBuf d) ->
  wp (decodeLayersStep inflate lc) d
     (fun x d' => nextChannel lc d' = Ok x d' /\ r d' = rest /\ same d d').
Proof.
  intros Hv Hr Hl Hl32 Hcl Hul Hbt Hct Hmask Ht.
  unfold decodeLayersStep, channelInfo in *.
  pose proof (len_nonneg body).
  destruct (Z.leb_spec 4 (versionMajor d)) as [_|]; [|lia].
  rewrite <- !app_assoc in Hr.
  apply wp_bind. eapply wp_readBlockHeader; [exact Hr|unfold channelBlock; lia|lia|exact Ht|].
  intros bh d1 Hid Hdl Hr1 Hs1. rewrite Hid. simpl.
  pose proof (same_fields _ _ Hs1) as (Hv1 & _ & _ & _ & _ & _ & _ & _ & _ & _ & Ht1).
  unfold channelCase.
  apply wp_bind, wp_gets. rewrite Hv1.
  destruct (Z.leb_spec 4 (versionMajor d)) as [_|]; [|lia].
  apply wp_bind, wp_bind. eapply wp_readUint32; [exact Hr1|lia|lia|].
  intros d2 Hr2 Hs2. simpl. apply wp_ret.
  pose proof (same_fields _ _ Hs2) as (_ & _ & _ & _ & _ & _ & _ & _ & _ & _ & Ht2).
  apply wp_bind. eapply wp_readUint32; [exact Hr2|lia|lia|].
  intros d3 Hr3 Hs3.
  pose proof (same_fields _ _ Hs3) as (_ & _ & _ & _ & _ & _ & _ & _ & _ & _ & Ht3).
  apply wp_bind. eapply wp_readUint32; [exact Hr3|lia|lia|].
  intros d4 Hr4 Hs4.
  pose proof (same_fields _ _ Hs4) as (_ & _ & _ & _ & _ & _ & _ & _ & _ & _ & Ht4).
  apply wp_bind. eapply wp_readUint16; [exact Hr4|lia|lia|].
  intros d5 Hr5 Hs5.
  pose proof (same_fields _ _ Hs5) as (_ & _ & _ & _ & _ & _ & _ & _ & _ & _ & Ht5).
  apply wp_bind. eapply wp_readUint16; [exact Hr5|lia|lia|].
  intros d6 Hr6 Hs6.
  destruct (Z.eqb_spec bt dibImage); [contradiction|]. simpl.
  apply wp_bind. eapply wp_skip; [exact Hr6| |].
  { rewrite Hdl. unfold subU32. rewrite (Z.mod_small (l - 4 * 3)) by lia.
    rewrite Z.mod_small by lia. lia. }
  intros d7 Hr7 Hs7. apply wp_nextChannel. intros x Hx.
  split; [exact Hx|]. split; [exact Hr7|]. eauto 10 using same_trans.
Qed.

(** The same block in a file of version 3: the decoder passes over 16 bytes
    less than the block holds, though it has read 12 of it, and leaves the
    last four bytes of the block in the stream. *)
Lemma decodeLayersStep_mask_legacy lc d l cl ul bt ct body tail rest :
  versionMajor d <= 3 ->
  r d = blockHdr (versionMajor d) channelBlock l ++
        channelInfo (versionMajor d) cl ul bt ct ++ body ++ tail ++ rest ->
  l = 12 + len body + 4 -> len tail = 4 -> l < 2 ^ 32 ->
  0 <= cl < 2 ^ 32 -> 0 <= ul < 2 ^ 32 -> 0 <= bt < 2 ^ 16 -> 0 <= ct < 2 ^ 16 ->
  bt <> dibImage ->
  14 <= len (tmpBuf d) ->
  wp (decodeLayersStep inflate lc) d
     (fun x d' => nextChannel lc d' = Ok x d' /\ r d' = tail ++ rest /\ same d d').
Proof.
  intros Hv Hr Hl Htail Hl32 Hcl Hul Hbt Hct Hmask Ht.
  unfold decodeLayersStep, channelInfo in *.
  pose proof (len_nonneg body).
  destruct (Z.leb_spec 4 (versionMajor d)) as [|_]; [lia|].
  rewrite <- !app_assoc in Hr. simpl in Hr.
  apply wp_bind. eapply wp_readBlockHeader; [exact Hr|unfold channelBlock; lia|lia|exact Ht|].
  intros bh d1 Hid Hdl Hr1 Hs1. rewrite Hid. simpl.
  pose proof (same_fields _ _ Hs1) as (Hv1 & _ & _ & _ & _ & _ & _ & _ & _ & _ & Ht1).
  unfold channelCase.
  apply wp_bind, wp_gets. rewrite Hv1.
  destruct (Z.leb_spec 4 (versionMajor d)) as [|_]; [lia|].
  apply wp_bind, wp_ret.
  apply wp_bind. eapply wp_readUint32; [exact Hr1|lia|lia|].
  intros d3 Hr3 Hs3.
  pose proof (same_fields _ _ Hs3) as (_ & _ & _ & _ & _ & _ & _ & _ & _ & _ & Ht3).
  apply wp_bind. eapply wp_readUint32; [exact Hr3|lia|lia|].
  intros d4 Hr4 Hs4.
  pose proof (same_fields _ _ Hs4) as (_ & _ & _ & _ & _ & _ & _ & _ & _ & _ & Ht4).
  apply wp_bind. eapply wp_readUint16; [exact Hr4|lia|lia|].
  intros d5 Hr5 Hs5.
  pose proof (same_fields _ _ Hs5) as (_ & _ & _ & _ & _ & _ & _ & _ & _ & _ & Ht5).
  apply wp_bind. eapply wp_readUint16; [exact Hr5|lia|lia|].
  intros d6 Hr6 Hs6.
  destruct (Z.eqb_spec bt dibImage); [contradiction|]. simpl.
  apply wp_bind. eapply wp_skip; [exact Hr6| |].
  { rewrite Hdl. unfold subU32. rewrite (Z.mod_small (l - 4 * 3)) by lia.
    rewrite Z.mod_small by lia. lia. }
  intros d7 Hr7 Hs7. apply wp_nextChannel. intros x Hx.
  split; [exact Hx|]. split; [exact Hr7|]. eauto 10 using same_trans.
Qed.

End Blocks.

(** ** Chunked blocks *)

Lemma grown_refl d : grown d d.
Proof. split; [reflexivity|lia]. Qed.

Lemma grown_trans d1 d2 d3 : grown d1 d2 -> grown d2 d3 -> grown d1 d3.
Proof. intros [E1 L1] [E2 L2]. split; [congruence|lia]. Qed.

Lemma same_grown d d' : same d d' -> grown d d'.
Proof.
  intros H. apply same_fields in H as (Hv & _ & _ & _ & _ & _ & _ & _ & _ & _ & Ht).
  split; [exact Hv|lia].
Qed.

Lemma wp_readChunkHeader d k l rest (Q : chunkHeader -> decoder -> Prop) :
  r d = chunkMagic ++ le16 k ++ le32 l ++ rest ->
  0 <= k < 2 ^ 16 -> 0 <= l < 2 ^ 32 -> 10 <= len (tmpBuf d) ->
  (forall d', r d' = rest -> same d d' -> Q (mkChunkHeader k l) d') ->
  wp readChunkHeader d Q.
Proof.
  intros Hr Hk Hl Ht H. unfold readChunkHeader.
  rewrite !app_assoc in Hr.
  pose proof (readTmp_ok d 10 _ rest Hr eq_refl ltac:(lia)) as E.
  set (d1 := set_tmpBuf _ _) in E.
  assert (Ht1 : tmpBuf d1 = chunkMagic ++ le16 k ++ le32 l ++ drop 10 (tmpBuf d))
    by reflexivity.
  assert (Hlen1 : len (tmpBuf d1) = len (tmpBuf d)).
  { unfold d1, len in *. simpl. rewrite length_drop. lia. }
  apply wp_bind. exists (mkSlice 0 10), d1. split; [exact E|].
  unfold decodeChunkHeader.
  apply wp_bind. exists (mkSlice 0 4), d1.
  split; [apply (reslice_ok d1 (mkSlice 0 10) 0 4); [lia|simpl soff; lia]|].
  apply wp_bind. exists chunkMagic, d1. split; [reflexivity|].
  rewrite bytes_eqb_refl. simpl.
  apply wp_bind. exists k, d1. split.
  { unfold u16at.
    rewrite (bind_eq_Ok _ _ _ _ _ (reslice_ok d1 (mkSlice 0 10) 4 6 ltac:(lia)
               ltac:(simpl soff; lia))).
    unfold bind, contents, gets. simpl soff. simpl slen.
    rewrite Ht1. change (take (Z.to_nat (6 - 4)) (drop (Z.to_nat (0 + 4)) _))
      with (le16 k).
    rewrite (decodeUint16_le16 k Hk). reflexivity. }
  apply wp_bind. exists l, d1. split.
  { unfold u32at.
    rewrite (bind_eq_Ok _ _ _ _ _ (reslice_ok d1 (mkSlice 0 10) 6 10 ltac:(lia)
               ltac:(simpl soff; lia))).
    unfold bind, contents, gets. simpl soff. simpl slen.
    rewrite Ht1. change (take (Z.to_nat (10 - 6)) (drop (Z.to_nat (0 + 6)) _))
      with (le32 l).
    rewrite (decodeUint32_le32 l Hl). reflexivity. }
  apply wp_bind, wp_printf. intros d2 Hr2 Hs2. apply wp_ret.
  apply H; [exact Hr2|].
  eapply same_trans; [|exact Hs2].
  apply same_read; [simpl; unfold len in Ht; lia|reflexivity].
Qed.

Lemma len_chunkBytes c : len (chunkBytes c) = 10 + len (snd c).
Proof. unfold chunkBytes. rewrite !len_app. unfold len. simpl. lia. Qed.

Lemma decodeExtendedDataLoop_chunks : forall cs fuel d rest,
  Forall chunkOk cs ->
  r d = flat_map chunkBytes cs ++ rest ->
  10 <= len (tmpBuf d) ->
  (length cs <= fuel)%nat ->
  wp (decodeExtendedDataLoop fuel (len (flat_map chunkBytes cs))) d
     (fun _ d' => r d' = rest /\ same d d').
Proof.
  induction cs as [|c cs IH]; intros fuel d rest Hok Hr Ht Hfuel.
  - simpl in *. destruct fuel; simpl; apply wp_ret; split; auto using same_refl.
  - destruct fuel as [|f]; [simpl in Hfuel; lia|].
    inversion Hok as [|? ? [Hk Hl] Hcs]; subst.
    change (flat_map chunkBytes (c :: cs))
      with (chunkBytes c ++ flat_map chunkBytes cs) in *.
    rewrite len_app, len_chunkBytes.
    pose proof (len_nonneg (snd c)). pose proof (len_nonneg (flat_map chunkBytes cs)).
    cbn [decodeExtendedDataLoop].
    destruct (Z.ltb_spec 0 (10 + len (snd c) + len (flat_map chunkBytes cs))); [|lia].
    unfold chunkBytes in Hr at 1. rewrite <- !app_assoc in Hr.
    apply wp_bind. eapply wp_readChunkHeader; [exact Hr|exact Hk|lia|exact Ht|].
    intros d1 Hr1 Hs1. simpl.
    apply wp_bind. eapply wp_skip; [exact Hr1|reflexivity|].
    intros d2 Hr2 Hs2.
    replace (10 + len (snd c) + len (flat_map chunkBytes cs) - (10 + len (snd c)))
      with (len (flat_map chunkBytes cs)) by lia.
    pose proof (same_trans _ _ _ Hs1 Hs2) as Hs.
    destruct (IH f d2 rest Hcs Hr2) as (v & d' & E & Hr' & Hs').
    { apply same_fields in Hs. lia. }
    { simpl in Hfuel. lia. }
    exists v, d'. split; [exact E|]. split; [exact Hr'|]. eauto using same_trans.
Qed.

Lemma length_chunks cs : (length cs <= length (flat_map chunkBytes cs))%nat.
Proof.
  induction cs as [|c cs IH]; [simpl; lia|].
  change (flat_map chunkBytes (c :: cs))
    with (chunkBytes c ++ flat_map chunkBytes cs).
  rewrite length_app.
  pose proof (len_chunkBytes c) as Hc. unfold len in Hc.
  change (length (c :: cs)) with (S (length cs)). lia.
Qed.

Lemma wp_readString d bs rest (Q : list byte -> decoder -> Prop) :
  r d = bs ++ rest -> len bs <= 1024 ->
  (forall d', r d' = rest -> grown d d' -> creator d' = creator d -> Q bs d') ->
  wp (readString (len bs)) d Q.
Proof.
  intros Hr Hl H. unfold readString.
  pose proof (len_nonneg bs).
  destruct (Z.ltb_spec 1024 (len bs)); [lia|].
  apply wp_bind, wp_ret. apply wp_bind, wp_gets.
  assert (exists d1, (if len (tmpBuf d) <? len bs then growTmp (len bs) else ret tt) d
                     = Ok tt d1 /\ r d1 = r d /\ grown d d1 /\
                     len bs <= len (tmpBuf d1) /\ creator d1 = creator d)
    as (d1 & E1 & Hr1 & Hg1 & Ht1 & Hc1).
  { destruct (Z.ltb_spec (len (tmpBuf d)) (len bs)).
    - unfold growTmp, make, bind, modify, fault_, ret.
      destruct (Z.ltb_spec (len bs) 0); [lia|].
      destruct (Z.ltb_spec maxAlloc (len bs)); [unfold maxAlloc in *; lia|]. simpl.
      eexists. split; [reflexivity|]. split; [reflexivity|].
      assert (Hlen : len (replicate (Z.to_nat (len bs)) Byte.x00) = len bs)
        by (unfold len; rewrite length_replicate; lia).
      split; [split; [reflexivity|simpl; rewrite Hlen; lia]|].
      split; [simpl; rewrite Hlen; lia|reflexivity].
    - exists d. repeat split; auto using grown_refl; lia. }
  apply wp_bind. exists tt, d1. split; [exact E1|].
  rewrite Hr in Hr1.
  apply wp_bind. eexists _, _.
  split; [apply (readTmp_ok d1 (len bs) bs rest Hr1 eq_refl Ht1)|].
  eexists bs, _. split.
  { unfold contents, gets. simpl. unfold len. rewrite Nat2Z.id.
    change (Z.to_nat 0) with 0%nat. rewrite drop_0, take_app_length. reflexivity. }
  apply H; [reflexivity| |exact Hc1].
  eapply grown_trans; [exact Hg1|]. apply same_grown, same_read; [|reflexivity].
  unfold len in Ht1. lia.
Qed.

Lemma wp_readUint32_any d bs rest (Q : Z -> decoder -> Prop) :
  r d = bs ++ rest -> length bs = 4%nat -> 4 <= len (tmpBuf d) ->
  (forall z d', r d' = rest -> same d d' -> Q z d') ->
  wp readUint32 d Q.
Proof.
  intros Hr Hl Ht H. destruct (decodeUint32_some bs Hl) as [z Hz].
  eexists z, _.
  split; [apply (readUint32_ok d bs rest z Hr Hl Hz Ht)|].
  apply H; [reflexivity|]. apply same_read; [unfold len in Ht; lia|exact Hl].
Qed.

Lemma grown_set_creator d c : grown d (set_creator d c).
Proof. split; [reflexivity|simpl; lia]. Qed.

Lemma wp_setCreator {T} (f : creatorT -> T -> creatorT) (v : T) d
      (Q : unit -> decoder -> Prop) :
  (forall d', r d' = r d -> grown d d' -> Q tt d') -> wp (setCreator f v) d Q.
Proof.
  intros H. eexists tt, _. split; [reflexivity|].
  apply H; [reflexivity|apply grown_set_creator].
Qed.

Lemma decodeCreatorField_chunk d c rest :
  creatorChunkOk c ->
  r d = snd c ++ rest -> 10 <= len (tmpBuf d) ->
  wp (decodeCreatorField (mkChunkHeader (fst c) (len (snd c)))) d
     (fun _ d' => r d' = rest /\ grown d d').
Proof.
  intros (Hk & Hl & Hsz) Hr Ht. unfold decodeCreatorField. simpl.
  assert (Hstr : len (snd c) <= 1024 -> forall f,
            wp (let* v := readString (len (snd c)) in setCreator f v) d
               (fun _ d' => r d' = rest /\ grown d d')).
  { intros Hs f. apply wp_bind. eapply wp_readString; [exact Hr|exact Hs|].
    intros d1 Hr1 Hg1 _. apply wp_setCreator. intros d2 Hr2 Hg2.
    split; [congruence|eauto using grown_trans]. }
  assert (Hint : len (snd c) = 4 -> forall f,
            wp (let* v := readUint32 in setCreator f v) d
               (fun _ d' => r d' = rest /\ grown d d')).
  { intros Hs f. apply wp_bind.
    eapply wp_readUint32_any; [exact Hr|unfold len in Hs; lia|lia|].
    intros z d1 Hr1 Hs1. apply wp_setCreator. intros d2 Hr2 Hg2.
    split; [congruence|eauto using grown_trans, same_grown]. }
  destruct (Z.eqb_spec (fst c) 0) as [E|_]; [try rewrite E in Hsz; simpl in Hsz; apply Hstr, Hsz|].
  destruct (Z.eqb_spec (fst c) 1) as [E|_]; [try rewrite E in Hsz; simpl in Hsz; apply Hint, Hsz|].
  destruct (Z.eqb_spec (fst c) 2) as [E|_]; [try rewrite E in Hsz; simpl in Hsz; apply Hint, Hsz|].
  destruct (Z.eqb_spec (fst c) 3) as [E|_]; [try rewrite E in Hsz; simpl in Hsz; apply Hstr, Hsz|].
  destruct (Z.eqb_spec (fst c) 4) as [E|_]; [try rewrite E in Hsz; simpl in Hsz; apply Hstr, Hsz|].
  destruct (Z.eqb_spec (fst c) 5) as [E|_]; [try rewrite E in Hsz; simpl in Hsz; apply Hstr, Hsz|].
  destruct (Z.eqb_spec (fst c) 6) as [E|_]; [try rewrite E in Hsz; simpl in Hsz; apply Hint, Hsz|].
  destruct (Z.eqb_spec (fst c) 7) as [E|_]; [try rewrite E in Hsz; simpl in Hsz; apply Hint, Hsz|].
  eapply wp_skip; [exact Hr|reflexivity|].
  intros d1 Hr1 Hs1. split; [exact Hr1|apply same_grown, Hs1].
Qed.

Lemma decodeCreatorLoop_chunks : forall cs fuel d rest,
  Forall creatorChunkOk cs ->
  r d = flat_map chunkBytes cs ++ rest ->
  10 <= len (tmpBuf d) ->
  (length cs <= fuel)%nat ->
  wp (decodeCreatorLoop fuel (len (flat_map chunkBytes cs))) d
     (fun _ d' => r d' = rest /\ grown d d').
Proof.
  induction cs as [|c cs IH]; intros fuel d rest Hok Hr Ht Hfuel.
  - simpl in *. destruct fuel; simpl; apply wp_ret; split; auto using grown_refl.
  - destruct fuel as [|f]; [simpl in Hfuel; lia|].
    inversion Hok as [|? ? Hc Hcs]; subst.
    pose proof Hc as (Hk & Hl & _).
    change (flat_map chunkBytes (c :: cs))
      with (chunkBytes c ++ flat_map chunkBytes cs) in *.
    rewrite len_app, len_chunkBytes.
    pose proof (len_nonneg (snd c)). pose proof (len_nonneg (flat_map chunkBytes cs)).
    cbn [decodeCreatorLoop].
    destruct (Z.ltb_spec 0 (10 + len (snd c) + len (flat_map chunkBytes cs))); [|lia].
    unfold chunkBytes in Hr at 1. rewrite <- !app_assoc in Hr.
    apply wp_bind. eapply wp_readChunkHeader; [exact Hr|exact Hk|lia|exact Ht|].
    intros d1 Hr1 Hs1. simpl chunkLen.
    pose proof (same_grown _ _ Hs1) as Hg1.
    apply wp_bind.
    destruct (decodeCreatorField_chunk d1 c _ Hc Hr1) as (u & d2 & E2 & Hr2 & Hg2).
    { destruct Hg1. lia. }
    exists u, d2. split; [exact E2|].
    replace (10 + len (snd c) + len (flat_map chunkBytes cs) - (10 + len (snd c)))
      with (len (flat_map chunkBytes cs)) by lia.
    pose proof (grown_trans _ _ _ Hg1 Hg2) as Hg.
    destruct (IH f d2 rest Hcs Hr2) as (v & d' & E & Hr' & Hg').
    { destruct Hg. lia. }
    { simpl in Hfuel. lia. }
    exists v, d'. split; [exact E|]. split; [exact Hr'|]. eauto using grown_trans.
Qed.

Section Blocks2.

Variable inflate : list byte -> Z -> inflated.

(** An extended-data block whose chunks fill its declared length. *)
Lemma decodeStep_extendedData d cs rest :
  Forall chunkOk cs ->
  r d = blockHdr (versionMajor d) extendedDataBlock (len (flat_map chunkBytes cs)) ++
        flat_map chunkBytes cs ++ rest ->
  len (flat_map chunkBytes cs) < 2 ^ 32 -> 14 <= len (tmpBuf d) ->
  wp (decodeStep inflate) d (fun x d' => x = None /\ r d' = rest /\ grown d d').
Proof.
  intros Hok Hr Hl Ht. unfold decodeStep.
  pose proof (len_nonneg (flat_map chunkBytes cs)).
  apply wp_bind.
  eapply wp_readBlockHeader; [exact Hr|unfold extendedDataBlock; lia|lia|exact Ht|].
  intros bh d1 Hid Hdl Hr1 Hs1. rewrite Hid, Hdl. simpl.
  pose proof (same_grown _ _ Hs1) as Hg1.
  apply wp_bind. unfold decodeExtendedDataBlock.
  destruct (decodeExtendedDataLoop_chunks cs (S (length (r d1))) d1 rest Hok Hr1)
    as (u & d2 & E & Hr2 & Hs2).
  { destruct Hg1. lia. }
  { rewrite Hr1, length_app. pose proof (length_chunks cs). lia. }
  exists u, d2. split; [exact E|]. apply wp_ret.
  split; [reflexivity|]. split; [exact Hr2|].
  eauto using grown_trans, same_grown.
Qed.

(** A creator block whose chunks fill its declared length. *)
Lemma decodeStep_creator d cs rest :
  Forall creatorChunkOk cs ->
  r d = blockHdr (versionMajor d) creatorBlock (len (flat_map chunkBytes cs)) ++
        flat_map chunkBytes cs ++ rest ->
  len (flat_map chunkBytes cs) < 2 ^ 32 -> 14 <= len (tmpBuf d) ->
  wp (decodeStep inflate) d (fun x d' => x = None /\ r d' = rest /\ grown d d').
Proof.
  intros Hok Hr Hl Ht. unfold decodeStep.
  pose proof (len_nonneg (flat_map chunkBytes cs)).
  apply wp_bind.
  eapply wp_readBlockHeader; [exact Hr|unfold creatorBlock; lia|lia|exact Ht|].
  intros bh d1 Hid Hdl Hr1 Hs1. rewrite Hid, Hdl. simpl.
  pose proof (same_grown _ _ Hs1) as Hg1.
  apply wp_bind. unfold decodeCreatorBlock.
  destruct (decodeCreatorLoop_chunks cs (S (length (r d1))) d1 rest Hok Hr1)
    as (u & d2 & E & Hr2 & Hs2).
  { destruct Hg1. lia. }
  { rewrite Hr1, length_app. pose proof (length_chunks cs). lia. }
  exists u, d2. split; [exact E|]. apply wp_ret.
  split; [reflexivity|]. split; [exact Hr2|].
  eauto using grown_trans.
Qed.

(** A color-palette block whose entries fill its declared length. *)
Lemma decodeStep_color d tag es rest :
  length tag = (if 4 <=? versionMajor d then 4%nat else 0%nat) ->
  len es < 2 ^ 32 ->
  r d = blockHdr (versionMajor d) colorBlock
          (len (tag ++ le32 (len es) ++ flat_map entryBytes es)) ++
        (tag ++ le32 (len es) ++ flat_map entryBytes es) ++ rest ->
  len (tag ++ le32 (len es) ++ flat_map entryBytes es) < 2 ^ 32 ->
  14 <= len (tmpBuf d) ->
  wp (decodeStep inflate) d (fun x d' => x = None /\ r d' = rest).
Proof.
  intros Htag Hn Hr Hl Ht. unfold decodeStep.
  pose proof (len_nonneg (tag ++ le32 (len es) ++ flat_map entryBytes es)).
  pose proof (len_nonneg es).
  apply wp_bind.
  eapply wp_readBlockHeader; [exact Hr|unfold colorBlock; lia|lia|exact Ht|].
  intros bh d1 Hid Hdl Hr1 Hs1. rewrite Hid. simpl.
  pose proof (same_fields _ _ Hs1) as (Hv1 & _ & _ & _ & _ & _ & _ & _ & _ & _ & Ht1).
  rewrite <- !app_assoc in Hr1.
  destruct (decodeColorBlock_entries d1 (dataLen bh) tag (le32 (len es)) es rest)
    as (d2 & E & _ & Hr2); try assumption.
  { lia. } { rewrite Hv1. exact Htag. } { reflexivity. }
  { apply decodeUint32_le32. lia. }
  apply wp_bind. exists tt, d2. split; [exact E|]. apply wp_ret. auto.
Qed.

End Blocks2.

(** ** Blocks and the stream position *)

(** C4 as stated fails for the sub-block of id 33: with a declared length of
    2 the decoder is 8 bytes past the header when it is done with it. *)
Lemma block33_advances_past_its_length :
  let d := set_version
             (initDecoder (blockHdr 4 33 2 ++ [Byte.x01; Byte.x02] ++
                           le32 6 ++ [Byte.x03; Byte.x04] ++ [Byte.x09]))
             4 0 in
  exists x d', decodeLayersStep noInflate zeroLocals d = Ok x d' /\
               r d' = [Byte.x09] /\
               len (r d) - 10 - len (r d') = 8.
Proof.
  eexists _, _. split; [vm_compute; reflexivity|]. split; reflexivity.
Qed.

(** C5 fails in version 3: after the mask channel the decoder stands four
    bytes before the next sub-block, takes the end of the mask for a block
    header and gives up, where the same file in version 4 decodes. *)
Theorem legacy_mask_channel_misaligns :
  Decode noInflate (maskFile 3) =
  Returns None (Some (FormatError "bad block magic")) /\
  Decode noInflate (maskFile 4) =
  Returns (Some (ImRGBA (mkPix [Byte.x09; Byte.x00; Byte.x00; Byte.xff;
                                Byte.x08; Byte.x00; Byte.x00; Byte.xff]
                           8 (mkRect 0 0 2 1)))) None.
Proof.
  split; vm_compute; reflexivity.
Qed.

(** ** What every step keeps *)

Lemma readChunkHeader_takes d ch d' :
  readChunkHeader d = Ok ch d' -> (length (r d') < length (r d))%nat.
Proof.
  unfold readChunkHeader. intros H. bind_inv H as s d1 H1.
  apply readTmp_inv in H1 as (-> & Hn & _ & ->).
  unfold decodeChunkHeader in H. inv_pure.
  simpl. rewrite length_drop. unfold len in Hn. lia.
Qed.

Lemma readBlockHeader_takes d bh d' :
  readBlockHeader d = Ok bh d' -> (length (r d') < length (r d))%nat.
Proof.
  intros H. apply readBlockHeader_inv in H as (hdr & Hr & Hl & _).
  rewrite Hr, length_app. destruct (3 <? versionMajor d); lia.
Qed.

Create HintDb safe.

Section Respect.

(** A relation between the state before a step and the state after it, that
    holds across the elementary changes of state.  The lemmas of this
    section carry it across every function of the decoder, and show on the
    way that no loop of the model runs out of its bound. *)
Variable R : decoder -> decoder -> Prop.

Hypothesis R_refl : forall d, R d d.
Hypothesis R_trans : forall d1 d2 d3, R d1 d2 -> R d2 d3 -> R d1 d3.
Hypothesis R_r : forall d n, R d (set_r d (drop n (r d))).
Hypothesis R_tmp : forall d t o, R d (set_tmp d t o).
Hypothesis R_stdout : forall d e, R d (set_stdout d (stdout d ++ [e])).
Hypothesis R_creator : forall d c, R d (set_creator d c).
Hypothesis R_palette : forall d p, R d (set_palette d p).
Hypothesis R_len : forall d d', R d d' -> (length (r d') <= length (r d))%nat.

Variable inflate : list byte -> Z -> inflated.

Local Abbreviation good := (good R).
Local Abbreviation safe := (safe R).

Lemma good_bind {T U} (m : M T) (k : T -> M U) d :
  good d (m d) ->
  (forall x d1, m d = Ok x d1 -> good d1 (k x d1)) ->
  good d (bind m k d).
Proof.
  intros Hm Hk. unfold bind. destruct (m d) as [x d1|p d1]; [|exact Hm].
  specialize (Hk x d1 eq_refl). simpl in Hm.
  destruct (k x d1) as [y d2|p d2]; simpl in *.
  - eauto.
  - destruct Hk. eauto.
Qed.

Lemma safe_ret {T} (a : T) : safe (ret a).
Proof. intros d. apply R_refl. Qed.

Lemma safe_bind {T U} (m : M T) (f : T -> M U) :
  safe m -> (forall a, safe (f a)) -> safe (bind m f).
Proof.
  intros Hm Hf d. apply good_bind; [apply Hm|]. intros x d1 _. apply Hf.
Qed.

Lemma safe_gets {T} (f : decoder -> T) : safe (gets f).
Proof. intros d. apply R_refl. Qed.

Lemma safe_panic {T} p : p <> PFuel -> safe (@panic T p).
Proof. intros H d. split; [apply R_refl|exact H]. Qed.

Lemma safe_error {T} e : safe (@error_ T e).
Proof. apply safe_panic. discriminate. Qed.

Lemma safe_fault {T} f : safe (@fault_ T f).
Proof. apply safe_panic. discriminate. Qed.

Lemma safe_orFault {T} f (o : option T) : safe (orFault f o).
Proof. destruct o; [apply safe_ret|apply safe_fault]. Qed.

Lemma safe_modify f : (forall d, R d (f d)) -> safe (modify f).
Proof. intros H d. apply H. Qed.

Lemma safe_printf e : safe (printf e).
Proof. apply safe_modify. intros d. apply R_stdout. Qed.

Lemma R_tmpBuf d t : R d (set_tmpBuf d t).
Proof. exact (R_tmp d t (tmpOld d)). Qed.

Lemma R_r_nil d : R d (set_r d []).
Proof.
  pose proof (R_r d (length (r d))) as H. rewrite drop_all in H. exact H.
Qed.

Lemma safe_reslice s lo hi : safe (reslice s lo hi).
Proof.
  unfold reslice. apply safe_bind; [apply safe_gets|]. intros c.
  destruct (_ && _); [apply safe_ret|apply safe_fault].
Qed.

Lemma safe_tmpSlice lo hi : safe (tmpSlice lo hi).
Proof.
  unfold tmpSlice. apply safe_bind; [apply safe_gets|]. intros n.
  apply safe_reslice.
Qed.

Lemma safe_contents s : safe (contents s).
Proof. apply safe_gets. Qed.

Lemma safe_index s i : safe (index s i).
Proof.
  unfold index. destruct (_ && _); [|apply safe_fault].
  apply safe_bind; [apply safe_gets|]. intros t. apply safe_orFault.
Qed.

Lemma safe_store s i b : safe (store s i b).
Proof.
  unfold store. destruct (_ && _); [|apply safe_fault].
  apply safe_modify. intros d. apply R_tmpBuf.
Qed.

Lemma safe_make n : safe (make n).
Proof. unfold make. destruct (_ || _); [apply safe_fault|apply safe_ret]. Qed.

Lemma safe_skip n : safe (skip n).
Proof.
  unfold skip. destruct (n <? 0); [apply safe_error|].
  destruct (n =? 0); [apply safe_ret|].
  intros d. destruct (len (r d) <? n).
  - split; [apply R_r_nil|discriminate].
  - apply R_r.
Qed.

Lemma safe_read s : safe (read s).
Proof.
  intros d. unfold read. destruct (slen s <=? 0); [apply R_refl|].
  destruct (len (r d) <? slen s).
  - destruct (r d) eqn:E; (split; [|discriminate]); [apply R_refl|].
    eapply R_trans; [apply R_r_nil|]. apply R_tmpBuf.
  - eapply R_trans; [apply R_r|]. apply R_tmpBuf.
Qed.

Lemma safe_readByte : safe readByte.
Proof.
  intros d. unfold readByte. destruct (r d) as [|b q] eqn:E.
  - split; [apply R_refl|discriminate].
  - pose proof (R_r d 1) as H. rewrite E in H. exact H.
Qed.

Hint Resolve safe_ret safe_gets safe_error safe_fault safe_orFault safe_printf
  safe_reslice safe_tmpSlice safe_contents safe_index safe_store safe_make
  safe_skip safe_read safe_readByte : safe.

(** One step of a proof that a function is safe: the shape of the function
    decides. *)
Ltac safe_step :=
  match goal with
  | |- safe (bind _ _) => apply safe_bind; [|intros]
  | |- safe (panic (PString _)) => apply safe_panic; discriminate
  | |- safe (if ?c then _ else _) => destruct c
  | |- safe (match ?x with _ => _ end) => destruct x
  | |- safe _ => solve [eauto with safe]
  end.

Ltac safe_tac := repeat safe_step.

Lemma safe_growTmp n : safe (growTmp n).
Proof.
  unfold growTmp. apply safe_bind; [apply safe_make|]. intros a.
  apply safe_modify. intros d. apply R_tmp.
Qed.

Lemma safe_readTmp n : safe (readTmp n).
Proof. unfold readTmp. safe_tac. Qed.

Hint Resolve safe_growTmp safe_readTmp : safe.

Lemma safe_readUint16 : safe readUint16.
Proof. unfold readUint16. safe_tac. Qed.

Lemma safe_readUint32 : safe readUint32.
Proof. unfold readUint32. safe_tac. Qed.

Lemma safe_u16at s lo hi : safe (u16at s lo hi).
Proof. unfold u16at. safe_tac. Qed.

Lemma safe_u32at s lo hi : safe (u32at s lo hi).
Proof. unfold u32at. safe_tac. Qed.

Lemma safe_u64at s lo hi : safe (u64at s lo hi).
Proof. unfold u64at. safe_tac. Qed.

Lemma safe_tmpU16 lo hi : safe (tmpU16 lo hi).
Proof. unfold tmpU16. safe_tac. Qed.

Lemma safe_tmpU32 lo hi : safe (tmpU32 lo hi).
Proof. unfold tmpU32. safe_tac. Qed.

Hint Resolve safe_readUint16 safe_readUint32 safe_u16at safe_u32at safe_u64at
  safe_tmpU16 safe_tmpU32 : safe.

Lemma safe_readRect : safe readRect.
Proof. unfold readRect. safe_tac. Qed.

Lemma safe_readString n : safe (readString n).
Proof. unfold readString. safe_tac. Qed.

Lemma safe_readBlockHeader : safe readBlockHeader.
Proof. unfold readBlockHeader. safe_tac. Qed.

Lemma safe_decodeChunkHeader s : safe (decodeChunkHeader s).
Proof. unfold decodeChunkHeader. safe_tac. Qed.

Hint Resolve safe_readRect safe_readString safe_readBlockHeader
  safe_decodeChunkHeader : safe.

Lemma safe_readChunkHeader : safe readChunkHeader.
Proof. unfold readChunkHeader. safe_tac. Qed.

Hint Resolve safe_readChunkHeader : safe.

(** A counted loop with a positive step ends within its bound. *)
Lemma safe_forTo {T} (body : Z -> T -> M T) hi step :
  1 <= step -> (forall i s, safe (body i s)) ->
  forall fuel i s, (Z.to_nat (hi - i) <= fuel)%nat ->
                   safe (forTo fuel i hi step body s).
Proof.
  intros Hstep Hbody. induction fuel as [|f IH]; intros i s Hfuel.
  - rewrite forTo_done by lia. apply safe_ret.
  - rewrite forTo_S. destruct (Z.ltb_spec i hi); [|apply safe_ret].
    apply safe_bind; [apply Hbody|]. intros s'. apply IH. lia.
Qed.

Lemma safe_for_ {T} (body : Z -> T -> M T) lo hi step s :
  1 <= step -> (forall i s, safe (body i s)) -> safe (for_ lo hi step body s).
Proof. intros Hstep Hbody. apply safe_forTo; [exact Hstep|exact Hbody|lia]. Qed.

(** A loop that takes a chunk or block header on every turn ends within
    the length of the stream. *)
Lemma safe_decodeExtendedDataLoop : forall fuel totalLen d,
  (length (r d) < fuel)%nat -> good d (decodeExtendedDataLoop fuel totalLen d).
Proof.
  induction fuel as [|f IH]; intros totalLen d Hfuel; [lia|].
  cbn [decodeExtendedDataLoop]. destruct (0 <? totalLen); [|apply R_refl].
  apply good_bind; [apply safe_readChunkHeader|]. intros ch d1 E1.
  apply readChunkHeader_takes in E1.
  apply good_bind; [apply safe_skip|]. intros u d2 E2.
  pose proof (safe_skip (chunkLen ch) d1) as H2. rewrite E2 in H2.
  apply R_len in H2. apply IH. lia.
Qed.

Lemma safe_decodeExtendedDataBlock totalLen : safe (decodeExtendedDataBlock totalLen).
Proof. intros d. apply safe_decodeExtendedDataLoop. lia. Qed.

Lemma safe_setCreator {T} (f : creatorT -> T -> creatorT) v : safe (setCreator f v).
Proof. apply safe_modify. intros d. apply R_creator. Qed.

Hint Resolve safe_setCreator : safe.

Lemma safe_decodeCreatorField ch : safe (decodeCreatorField ch).
Proof. unfold decodeCreatorField. cbv zeta. safe_tac. Qed.

Lemma safe_decodeCreatorLoop : forall fuel totalLen d,
  (length (r d) < fuel)%nat -> good d (decodeCreatorLoop fuel totalLen d).
Proof.
  induction fuel as [|f IH]; intros totalLen d Hfuel; [lia|].
  cbn [decodeCreatorLoop]. destruct (0 <? totalLen); [|apply R_refl].
  apply good_bind; [apply safe_readChunkHeader|]. intros ch d1 E1.
  apply readChunkHeader_takes in E1.
  apply good_bind; [apply safe_decodeCreatorField|]. intros u d2 E2.
  pose proof (safe_decodeCreatorField ch d1) as H2. rewrite E2 in H2.
  apply R_len in H2. apply IH. lia.
Qed.

Lemma safe_decodeCreatorBlock totalLen : safe (decodeCreatorBlock totalLen).
Proof. intros d. apply safe_decodeCreatorLoop. lia. Qed.

Lemma safe_paletteLoop : forall k i acc, safe (paletteLoop k i acc).
Proof.
  induction k as [|k IH]; intros i acc; cbn [paletteLoop]; [apply safe_ret|].
  safe_tac.
Qed.

Hint Resolve safe_paletteLoop : safe.

Lemma safe_decodeColorBlock ln : safe (decodeColorBlock ln).
Proof.
  unfold decodeColorBlock. safe_tac.
  apply safe_modify. intros d. apply R_palette.
Qed.

Hint Resolve safe_decodeExtendedDataBlock safe_decodeCreatorBlock
  safe_decodeColorBlock : safe.

Lemma safe_pixelBufferLength bpp q kind : safe (pixelBufferLength bpp q kind).
Proof. unfold pixelBufferLength. cbv zeta. safe_tac. Qed.

Hint Resolve safe_pixelBufferLength : safe.

Lemma safe_NewRGBA q : safe (NewRGBA q).
Proof. unfold NewRGBA. safe_tac. Qed.

Lemma safe_NewRGBA64 q : safe (NewRGBA64 q).
Proof. unfold NewRGBA64. safe_tac. Qed.

Lemma safe_NewGray16 q : safe (NewGray16 q).
Proof. unfold NewGray16. safe_tac. Qed.

Lemma safe_NewPaletted q pal : safe (NewPaletted q pal).
Proof. unfold NewPaletted. safe_tac. Qed.

Lemma safe_setPix pix i b : safe (setPix pix i b).
Proof. unfold setPix. safe_tac. Qed.

Hint Resolve safe_NewRGBA safe_NewRGBA64 safe_NewGray16 safe_NewPaletted
  safe_setPix : safe.

Lemma safe_fillAlpha pix : safe (fillAlpha pix).
Proof. unfold fillAlpha. apply safe_for_; [lia|]. intros. safe_tac. Qed.

Lemma safe_fillAlpha64 pix : safe (fillAlpha64 pix).
Proof. unfold fillAlpha64. apply safe_for_; [lia|]. intros. safe_tac. Qed.

Hint Resolve safe_fillAlpha safe_fillAlpha64 : safe.

Lemma safe_readLayer l : safe (readLayer l).
Proof. unfold readLayer. cbv zeta. safe_tac. Qed.

Hint Resolve safe_readLayer : safe.

Lemma safe_layerCase lc : safe (layerCase lc).
Proof. unfold layerCase. cbv zeta. safe_tac. Qed.

Lemma safe_rleLoop buf : forall fuel n j d,
  (length (r d) < fuel)%nat -> good d (rleLoop fuel buf n j d).
Proof.
  induction fuel as [|f IH]; intros n j d Hfuel; [lia|].
  rewrite rleLoop_S. destruct (0 <? n); [|apply R_refl].
  apply good_bind; [apply safe_readByte|]. intros c d1 E1.
  apply readByte_inv in E1 as (q & Hq & ->). cbv zeta.
  assert (Hlt : (length q < length (r d))%nat) by (rewrite Hq; simpl; lia).
  destruct (128 <? b2z c).
  - apply good_bind; [apply safe_readByte|]. intros b d2 E2.
    pose proof (safe_readByte (set_r d q)) as H2. rewrite E2 in H2.
    apply R_len in H2. simpl in H2.
    assert (Hfill : safe (for_ 0 (b2z c - 128) 1
                            (fun _ j => store buf j b >> ret (j + 1)) j))
      by (apply safe_for_; [lia|]; intros; safe_tac).
    apply good_bind; [apply Hfill|]. intros j' d3 E3.
    specialize (Hfill d2). rewrite E3 in Hfill. apply R_len in Hfill.
    apply IH. lia.
  - apply good_bind; [apply safe_reslice|]. intros s d2 E2.
    apply reslice_inv in E2 as (-> & _).
    apply good_bind; [apply safe_read|]. intros u d3 E3.
    pose proof (safe_read s (set_r d q)) as H3. rewrite E3 in H3.
    apply R_len in H3. simpl in H3. apply IH. lia.
Qed.

Lemma safe_rle buf n : safe (rle buf n).
Proof. intros d. apply safe_rleLoop. lia. Qed.

Lemma safe_lz77 buf n : safe (lz77 inflate buf n).
Proof.
  intros d. unfold lz77. cbv zeta.
  assert (H : forall k t, R d (set_tmpBuf (set_r d (drop k (r d))) t))
    by (intros; eapply R_trans; [apply R_r|apply R_tmpBuf]).
  destruct (zerr _); [split; [apply H|discriminate]|apply H].
Qed.

Lemma safe_scatterRGBA ct buf pix : safe (scatterRGBA ct buf pix).
Proof. unfold scatterRGBA. apply safe_for_; [lia|]. intros. safe_tac. Qed.

Lemma safe_scatterRGBA64 ct buf pix : safe (scatterRGBA64 ct buf pix).
Proof. unfold scatterRGBA64. apply safe_for_; [lia|]. intros. safe_tac. Qed.

Lemma safe_scatterGray16 buf pix : safe (scatterGray16 buf pix).
Proof. unfold scatterGray16. apply safe_for_; [lia|]. intros. safe_tac. Qed.

Lemma safe_palStore p i b : safe (palStore p i b).
Proof.
  unfold palStore. safe_tac.
  apply safe_modify. intros d. destruct (_ =? _)%nat; [apply R_tmpBuf|apply R_tmp].
Qed.

Hint Resolve safe_palStore : safe.

Lemma safe_scatterBits buf p : safe (scatterBits buf p).
Proof.
  unfold scatterBits. apply safe_for_; [lia|]. intros. safe_tac.
  apply safe_for_; [lia|]. intros. safe_tac.
Qed.

Lemma safe_palAlias buf p : safe (palAlias buf p).
Proof. unfold palAlias. safe_tac. Qed.

Lemma safe_imageOf lc : safe (imageOf lc).
Proof. unfold imageOf. safe_tac. Qed.

Hint Resolve safe_rle safe_lz77 safe_scatterRGBA safe_scatterRGBA64
  safe_scatterGray16 safe_scatterBits safe_palAlias safe_imageOf : safe.

Lemma safe_nextChannel lc : safe (nextChannel lc).
Proof. unfold nextChannel. cbv zeta. safe_tac. Qed.

Lemma safe_scatter ct buf lc : safe (scatter ct buf lc).
Proof. unfold scatter. safe_tac. Qed.

Hint Resolve safe_nextChannel safe_scatter safe_layerCase : safe.

Lemma safe_channelCase bh lc : safe (channelCase inflate bh lc).
Proof. unfold channelCase. safe_tac. Qed.

Hint Resolve safe_channelCase : safe.

Lemma safe_decodeLayersStep lc : safe (decodeLayersStep inflate lc).
Proof. unfold decodeLayersStep. safe_tac. Qed.

Lemma decodeLayersStep_takes lc d x d' :
  decodeLayersStep inflate lc d = Ok x d' -> (length (r d') < length (r d))%nat.
Proof.
  unfold decodeLayersStep. intros H. bind_inv H as bh d1 H1.
  apply readBlockHeader_takes in H1.
  match type of H with ?m d1 = _ =>
    assert (Hm : safe m) by safe_tac; specialize (Hm d1); rewrite H in Hm end.
  apply R_len in Hm. lia.
Qed.

Lemma safe_decodeLayersLoop : forall fuel lc d,
  (length (r d) < fuel)%nat -> good d (decodeLayersLoop inflate fuel lc d).
Proof.
  induction fuel as [|f IH]; intros lc d Hfuel; [lia|].
  cbn [decodeLayersLoop].
  apply good_bind; [apply safe_decodeLayersStep|]. intros x d1 E1.
  apply decodeLayersStep_takes in E1.
  destruct x as [lc'|v]; [|apply R_refl].
  apply IH. lia.
Qed.

Lemma safe_decodeLayers : safe (decodeLayers inflate).
Proof. intros d. apply safe_decodeLayersLoop. lia. Qed.

Hint Resolve safe_decodeLayers : safe.

Lemma safe_decodeStep : safe (decodeStep inflate).
Proof. unfold decodeStep. safe_tac. Qed.

Lemma decodeStep_takes d x d' :
  decodeStep inflate d = Ok x d' -> (length (r d') < length (r d))%nat.
Proof.
  unfold decodeStep. intros H. bind_inv H as bh d1 H1.
  apply readBlockHeader_takes in H1.
  match type of H with ?m d1 = _ =>
    assert (Hm : safe m) by safe_tac; specialize (Hm d1); rewrite H in Hm end.
  apply R_len in Hm. lia.
Qed.

Lemma safe_decodeLoop : forall fuel d,
  (length (r d) < fuel)%nat -> good d (decodeLoop inflate fuel d).
Proof.
  induction fuel as [|f IH]; intros d Hfuel; [lia|].
  cbn [decodeLoop].
  apply good_bind; [apply safe_decodeStep|]. intros x d1 E1.
  apply decodeStep_takes in E1.
  destruct x as [im|]; [apply R_refl|].
  apply IH. lia.
Qed.

Lemma safe_decode : safe (decode inflate).
Proof. intros d. apply safe_decodeLoop. lia. Qed.

Lemma safe_readHeader :
  (forall d a b, R d (set_version d a b)) ->
  (forall d w h rs rm cp bd pc cc gs ts al lc,
      R d (set_attrs d w h rs rm cp bd pc cc gs ts al lc)) ->
  (forall d c, R d (set_colorModel d c)) ->
  safe readHeader.
Proof.
  intros Hv Ha Hc. unfold readHeader. safe_tac;
    apply safe_modify; intros d; auto.
Qed.

End Respect.

Lemma suffix_refl d : suffix d d.
Proof. exists []. reflexivity. Qed.

Lemma suffix_eq d d' : r d' = r d -> suffix d d'.
Proof. intros H. exists []. rewrite H. reflexivity. Qed.

Lemma suffix_trans d1 d2 d3 : suffix d1 d2 -> suffix d2 d3 -> suffix d1 d3.
Proof.
  intros [c1 H1] [c2 H2]. exists (c1 ++ c2). rewrite H1, H2, app_assoc. reflexivity.
Qed.

Lemma suffix_len d d' : suffix d d' -> (length (r d') <= length (r d))%nat.
Proof. intros [c H]. rewrite H, length_app. lia. Qed.

Lemma suffix_set_r d n : suffix d (set_r d (drop n (r d))).
Proof. exists (take n (r d)). symmetry. apply take_drop. Qed.

Lemma kept_refl d : kept d d.
Proof.
  repeat split; try reflexivity; [apply suffix_refl|].
  exists []. symmetry. apply app_nil_r.
Qed.

Lemma kept_trans d1 d2 d3 : kept d1 d2 -> kept d2 d3 -> kept d1 d3.
Proof.
  intros (S1 & C1 & V1 & B1 & P1 & e1 & O1) (S2 & C2 & V2 & B2 & P2 & e2 & O2).
  repeat split; try congruence; [eauto using suffix_trans|].
  exists (e1 ++ e2). rewrite O2, O1, app_assoc. reflexivity.
Qed.

Lemma kept_simple d d' :
  suffix d d' -> configOf d' = configOf d -> versionMajor d' = versionMajor d ->
  bitDepth d' = bitDepth d -> comp d' = comp d -> stdout d' = stdout d ->
  kept d d'.
Proof.
  intros. repeat split; try assumption.
  exists []. rewrite app_nil_r. assumption.
Qed.

(** decode keeps the configuration, and none of its loops runs out of its
    bound. *)
Lemma decode_kept inflate d : good kept d (decode inflate d).
Proof.
  apply safe_decode.
  - apply kept_refl.
  - apply kept_trans.
  - intros. apply kept_simple; try reflexivity. apply suffix_set_r.
  - intros. apply kept_simple; try reflexivity. apply suffix_eq. reflexivity.
  - intros. repeat split; try reflexivity; [apply suffix_eq; reflexivity|].
    eexists. reflexivity.
  - intros. apply kept_simple; try reflexivity. apply suffix_eq. reflexivity.
  - intros. apply kept_simple; try reflexivity. apply suffix_eq. reflexivity.
  - intros d1 d2 H. apply suffix_len, H.
Qed.

Lemma readHeader_suffix d : good suffix d (readHeader d).
Proof.
  apply safe_readHeader;
    first [ apply suffix_trans
          | apply suffix_set_r
          | apply suffix_len
          | intros; apply suffix_eq; reflexivity ].
Qed.

(** ** Decode and DecodeConfig *)

(** No loop of the model runs out of its bound: the calls return or panic
    as the source does. *)
Lemma DecodeConfig_total input : DecodeConfig input <> Panics PFuel.
Proof.
  unfold DecodeConfig, runDecodeConfig, newDecoder, bind.
  pose proof (readHeader_suffix (initDecoder input)) as H.
  destruct (readHeader (initDecoder input)) as [u d|p d]; simpl; [discriminate|].
  destruct H as [_ Hp]. destruct p; try discriminate. congruence.
Qed.

Lemma Decode_total inflate input : Decode inflate input <> Panics PFuel.
Proof.
  unfold Decode, runDecode, newDecoder, bind.
  pose proof (readHeader_suffix (initDecoder input)) as H.
  destruct (readHeader (initDecoder input)) as [u d|p d]; simpl.
  - pose proof (decode_kept inflate d) as H2.
    destruct (decode inflate d) as [im d'|p d']; simpl; [discriminate|].
    destruct H2 as [_ Hp]. destruct p; try discriminate. congruence.
  - destruct H as [_ Hp]. destruct p; try discriminate. congruence.
Qed.


(** ** Alpha of the RGBA images *)

(** An invariant of a counted loop holds when the loop is left. *)
Lemma forTo_invariant {T} (P : Z -> T -> Prop) (body : Z -> T -> M T) hi step :
  (forall i s d s' d', i < hi -> P i s -> body i s d = Ok s' d' -> P (i + step) s') ->
  forall fuel i s d s' d',
    P i s -> forTo fuel i hi step body s d = Ok s' d' ->
    exists i', hi <= i' /\ P i' s'.
Proof.
  intros Hbody. induction fuel as [|f IH]; intros i s d s' d' HP H.
  - rewrite forTo_O in H. destruct (Z.ltb_spec i hi); [discriminate|].
    injection H as <- _. eauto.
  - rewrite forTo_S in H. destruct (Z.ltb_spec i hi).
    + bind_inv H as s1 d1 H1. eauto.
    + injection H as <- _. eauto.
Qed.

Lemma setPix_inv pix i b d p d' :
  setPix pix i b d = Ok p d' ->
  0 <= i < len pix /\ p = <[Z.to_nat i := b]> pix /\ d' = d.
Proof.
  unfold setPix. destruct (Z.leb_spec 0 i); simpl; [|discriminate].
  destruct (Z.ltb_spec i (len pix)); simpl; [|discriminate].
  intros [= <- <-]. repeat split; lia.
Qed.

Lemma len_insert (pix : list byte) k b : len (<[k := b]> pix) = len pix.
Proof. unfold len. rewrite length_insert. reflexivity. Qed.

Lemma at_insert_ne (pix : list byte) i k b :
  0 <= i -> 0 <= k -> i <> k -> at_ (<[Z.to_nat k := b]> pix) i = at_ pix i.
Proof.
  intros Hi Hk Hne. unfold at_. destruct (i <? 0); [reflexivity|].
  apply list_lookup_insert_ne. lia.
Qed.

Lemma at_insert_eq (pix : list byte) i b :
  0 <= i < len pix -> at_ (<[Z.to_nat i := b]> pix) i = Some b.
Proof.
  intros Hi. unfold at_. destruct (Z.ltb_spec i 0); [lia|].
  apply list_lookup_insert_eq. unfold len in Hi. lia.
Qed.

Lemma fillAlpha_opaque pix d px d' :
  fillAlpha pix d = Ok px d' -> opaque4 px.
Proof.
  unfold fillAlpha, for_. intros H.
  apply (forTo_invariant
           (fun i s => len s = len pix /\ i mod 4 = 3 /\ 0 <= i /\
                       forall k, 0 <= k < len s -> k < i -> k mod 4 = 3 ->
                                 at_ s k = Some Byte.xff)) in H.
  - destruct H as (i' & Hi' & Hl & _ & _ & Hk).
    intros k Hk1 Hk2. apply Hk; [exact Hk1|lia|exact Hk2].
  - intros i s d0 s' d0' Hi (Hl & Hm & H0 & Hk) Hb.
    apply setPix_inv in Hb as (Hr & -> & _). rewrite len_insert.
    split; [exact Hl|]. split; [|split; [lia|]].
    + rewrite <- Hm. rewrite <- (Z.mod_add i 1 4) by lia. f_equal; lia.
    + intros k Hk1 Hk2 Hk3.
      destruct (Z.eq_dec k i) as [->|Hne]; [apply at_insert_eq; lia|].
      rewrite at_insert_ne by lia. apply Hk; [lia| |exact Hk3].
      assert (k mod 4 = i mod 4) by lia.
      pose proof (Z.div_mod k 4 ltac:(lia)). pose proof (Z.div_mod i 4 ltac:(lia)).
      lia.
  - split; [reflexivity|]. split; [reflexivity|]. split; [lia|].
    intros k Hk1 Hk2 Hk3.
    pose proof (Z.div_mod k 4 ltac:(lia)). lia.
Qed.

Lemma fillAlpha64_opaque pix d px d' :
  fillAlpha64 pix d = Ok px d' -> opaque8 px.
Proof.
  unfold fillAlpha64, for_. intros H.
  apply (forTo_invariant
           (fun i s => len s = len pix /\ i mod 8 = 6 /\ 0 <= i /\
                       forall k, 0 <= k < len s -> k < i ->
                                 k mod 8 = 6 \/ k mod 8 = 7 ->
                                 at_ s k = Some Byte.xff)) in H.
  - destruct H as (i' & Hi' & Hl & _ & _ & Hk).
    intros k Hk1 Hk2. apply Hk; [exact Hk1|lia|exact Hk2].
  - intros i s d0 s' d0' Hi (Hl & Hm & H0 & Hk) Hb.
    bind_inv Hb as p1 d1 H1.
    apply setPix_inv in H1 as (Hr1 & -> & _).
    apply setPix_inv in Hb as (Hr2 & -> & _).
    rewrite len_insert in Hr2. rewrite !len_insert.
    split; [exact Hl|]. split; [|split; [lia|]].
    + rewrite <- Hm. rewrite <- (Z.mod_add i 1 8) by lia. f_equal; lia.
    + intros k Hk1 Hk2 Hk3.
      destruct (Z.eq_dec k (i + 1)) as [->|Hne1];
        [apply at_insert_eq; rewrite len_insert; lia|].
      rewrite at_insert_ne by lia.
      destruct (Z.eq_dec k i) as [->|Hne]; [apply at_insert_eq; lia|].
      rewrite at_insert_ne by lia. apply Hk; [lia| |exact Hk3].
      pose proof (Z.div_mod k 8 ltac:(lia)). pose proof (Z.div_mod i 8 ltac:(lia)).
      pose proof (Z.mod_pos_bound k 8 ltac:(lia)).
      lia.
  - split; [reflexivity|]. split; [reflexivity|]. split; [lia|].
    intros k Hk1 Hk2 Hk3.
    pose proof (Z.div_mod k 8 ltac:(lia)). lia.
Qed.

(** The scatter of a colour plane leaves the alpha bytes alone. *)
Lemma scatterRGBA_opaque ct buf pix d px d' :
  1 <= ct <= 3 -> opaque4 pix ->
  scatterRGBA ct buf pix d = Ok px d' -> opaque4 px.
Proof.
  unfold scatterRGBA, for_. intros Hct Hop H.
  apply (forTo_invariant
           (fun i s => len s = len pix /\ i mod 4 = ct - 1 /\ opaque4 s)) in H.
  - destruct H as (i' & _ & _ & _ & Ho). exact Ho.
  - intros i s d0 s' d0' Hi (Hl & Hm & Ho) Hb.
    bind_inv Hb as b d1 H1. apply setPix_inv in Hb as (Hr & -> & _).
    rewrite len_insert. split; [exact Hl|]. split.
    + rewrite <- Hm. rewrite <- (Z.mod_add i 1 4) by lia. f_equal; lia.
    + intros k Hk1 Hk2. rewrite len_insert in Hk1.
      assert (k <> i) by (intros ->; lia).
      rewrite at_insert_ne by lia. apply Ho; assumption.
  - split; [reflexivity|]. split; [apply Z.mod_small; lia|exact Hop].
Qed.

Lemma scatterRGBA64_opaque ct buf pix d px d' :
  1 <= ct <= 3 -> opaque8 pix ->
  scatterRGBA64 ct buf pix d = Ok px d' -> opaque8 px.
Proof.
  unfold scatterRGBA64, for_. intros Hct Hop H.
  apply (forTo_invariant
           (fun i s => len s = len pix /\ i mod 8 = (ct - 1) * 2 /\ 0 <= i /\
                       opaque8 s)) in H.
  - destruct H as (i' & _ & _ & _ & _ & Ho). exact Ho.
  - intros i s d0 s' d0' Hi (Hl & Hm & H0 & Ho) Hb.
    bind_inv Hb as b1 d1 H1. bind_inv Hb as p1 d2 H2.
    bind_inv Hb as b0 d3 H3.
    apply setPix_inv in H2 as (Hr1 & -> & _).
    apply setPix_inv in Hb as (Hr2 & -> & _).
    rewrite !len_insert. split; [exact Hl|]. split; [|split; [lia|]].
    + rewrite <- Hm. rewrite <- (Z.mod_add i 1 8) by lia. f_equal; lia.
    + intros k Hk1 Hk2. rewrite !len_insert in Hk1.
      assert (Hi1 : (i + 1) mod 8 = (ct - 1) * 2 + 1).
      { pose proof (Z.div_mod i 8 ltac:(lia)).
        replace (i + 1) with ((ct - 1) * 2 + 1 + (i / 8) * 8) by lia.
        rewrite Z.mod_add by lia. apply Z.mod_small. lia. }
      assert (k <> i) by (intros ->; lia).
      assert (k <> i + 1) by (intros ->; lia).
      rewrite at_insert_ne by lia. rewrite at_insert_ne by lia.
      apply Ho; assumption.
  - split; [reflexivity|]. split; [apply Z.mod_small; lia|]. split; [lia|exact Hop].
Qed.

Lemma opaqueLocals_zero : opaqueLocals zeroLocals.
Proof. split; intros im H; discriminate. Qed.

Lemma nextChannel_opaque lc d x d' :
  nextChannel lc d = Ok x d' -> opaqueLocals lc -> opaqueStep x.
Proof.
  unfold nextChannel. cbv zeta. intros H [H4 H8].
  destruct (_ =? _).
  - bind_inv H as im d1 H1. injection H as <- _. simpl.
    unfold imageOf in H1. cbn [img imgRGBA imgRGBA64 imgGray16 imgPaletted] in H1.
    destruct (img lc) as [[| | |]|].
    + injection H1 as <- _. destruct (imgRGBA lc) eqn:E; simpl; auto.
    + injection H1 as <- _. destruct (imgRGBA64 lc) eqn:E; simpl; auto.
    + injection H1 as <- _. destruct (imgGray16 lc); simpl; auto.
    + destruct (imgPaletted lc); [bind_inv H1 as px d2 H2|];
        injection H1 as <- _; simpl; auto.
    + injection H1 as <- _. simpl. auto.
  - injection H as <- _. simpl. split; assumption.
Qed.

Lemma NewRGBA_inv q d im d' : NewRGBA q d = Ok im d' -> d' = d.
Proof.
  unfold NewRGBA, pixelBufferLength, make. intros H.
  bind_inv H as n d1 H1. destruct (_ || _) in H1; [discriminate|].
  injection H1 as <- <-. bind_inv H as p d2 H2.
  destruct (_ || _) in H2; [discriminate|]. injection H2 as <- <-.
  injection H as _ <-. reflexivity.
Qed.

Lemma layerCase_opaque lc d lc' d' :
  layerCase lc d = Ok lc' d' -> opaqueLocals lc -> opaqueLocals lc'.
Proof.
  unfold layerCase. cbv zeta. intros H [H4 H8].
  bind_inv H as l d1 H1.
  destruct (channelCount l =? 0); [injection H as <- _; split; assumption|].
  bind_inv H as pal d2 H2. bind_inv H as bd d3 H3.
  destruct pal as [p|].
  { bind_inv H as im d4 H4'. injection H as <- _. split; assumption. }
  destruct (bd =? 16).
  { bind_inv H as im d4 H4'. injection H as <- _. split; assumption. }
  destruct ((bd =? 24) || (bd =? 32)).
  { bind_inv H as im d4 H4'. bind_inv H as px d5 H5. injection H as <- _.
    split; [|assumption]. cbn [imgRGBA]. intros im' [= <-]. cbn [Pix].
    eapply fillAlpha_opaque, H5. }
  destruct ((bd =? 48) || (bd =? 64)).
  { bind_inv H as im d4 H4'. bind_inv H as px d5 H5. injection H as <- _.
    split; [assumption|]. cbn [imgRGBA64]. intros im' [= <-]. cbn [Pix].
    eapply fillAlpha64_opaque, H5. }
  injection H as <- _. split; assumption.
Qed.

Lemma scatter_opaque ct buf lc d lc' d' :
  1 <= ct <= 3 ->
  scatter ct buf lc d = Ok lc' d' -> opaqueLocals lc -> opaqueLocals lc'.
Proof.
  unfold scatter. intros Hct H [H4 H8].
  destruct (imgRGBA lc) as [im|] eqn:E4.
  { bind_inv H as px d1 H1. injection H as <- _.
    split; [|assumption]. cbn [imgRGBA]. intros im' [= <-]. cbn [Pix].
    eapply scatterRGBA_opaque; [exact Hct| |exact H1]. auto. }
  destruct (imgRGBA64 lc) as [im|] eqn:E8.
  { bind_inv H as px d1 H1. injection H as <- _.
    split; cbn [imgRGBA imgRGBA64]; [try rewrite E4; discriminate|].
    intros im' [= <-]. cbn [Pix].
    eapply scatterRGBA64_opaque; [exact Hct| |exact H1]. auto. }
  destruct (imgGray16 lc) as [im|].
  { bind_inv H as px d1 H1. injection H as <- _.
    split; cbn [imgRGBA imgRGBA64]; try rewrite E4; try rewrite E8; discriminate. }
  bind_inv H as bd d1 H1. bind_inv H as p d2 H2. injection H as <- _.
  split; cbn [imgRGBA imgRGBA64]; try rewrite E4; try rewrite E8; discriminate.
Qed.

(** The hypotheses of the section Respect, for [kept]. *)
Ltac kept_side :=
  first [ apply kept_refl
        | apply kept_trans
        | apply suffix_len
        | (let K := fresh in intros ? ? K; apply suffix_len, K)
        | (intros; apply kept_simple; try reflexivity;
           first [apply suffix_set_r | apply suffix_eq; reflexivity])
        | (intros; repeat split; try reflexivity;
           [apply suffix_eq; reflexivity | eexists; reflexivity]) ].

Lemma kept_stdout d d' e : kept d d' -> In e (stdout d) -> In e (stdout d').
Proof.
  intros (_ & _ & _ & _ & _ & evs & H) Hin. rewrite H. apply in_or_app. auto.
Qed.

Lemma channelCase_opaque inflate bh lc d x d' :
  channelCase inflate bh lc d = Ok x d' ->
  opaqueLocals lc ->
  (forall ct, In (EvChannelType ct) (stdout d') -> 1 <= ct <= 3) ->
  opaqueStep x.
Proof.
  unfold channelCase. intros H Hlc Hev.
  bind_inv H as v d1 H1. bind_inv H as u2 d2 H2.
  bind_inv H as cl d3 H3. bind_inv H as ul d4 H4.
  bind_inv H as bt d5 H5. bind_inv H as ct d6 H6.
  destruct (negb (bt =? dibImage)).
  { bind_inv H as u7 d7 H7. eapply nextChannel_opaque; eassumption. }
  bind_inv H as u7 d7 H7. bind_inv H as u8 d8 H8. bind_inv H as u9 d9 H9.
  bind_inv H as u10 d10 H10. bind_inv H as u11 d11 H11.
  apply printf_inv in H11.
  assert (Hin : In (EvChannelType ct) (stdout d11)).
  { rewrite H11. simpl. apply in_or_app. right. left. reflexivity. }
  bind_inv H as c d12 H12. apply gets_inv in H12 as (_ & ->).
  bind_inv H as u13 d13 H13.
  assert (K13 : kept d11 d13).
  { destruct (c <? layerBytes lc).
    - assert (S : good kept d11 (growTmp (layerBytes lc) d11)) by (apply safe_growTmp; kept_side).
      unfold good in S. rewrite H13 in S. exact S.
    - injection H13 as _ <-. apply kept_refl. }
  bind_inv H as buf d14 H14. apply tmpSlice_inv in H14 as (-> & _).
  bind_inv H as cp d15 H15. apply gets_inv in H15 as (_ & ->).
  bind_inv H as u16 d16 H16.
  assert (K16 : kept d13 d16).
  { destruct (cp =? compressionLZ77).
    - assert (S : good kept d13 (lz77 inflate buf cl d13)) by (apply safe_lz77; kept_side).
      unfold good in S. rewrite H16 in S. exact S.
    - destruct (cp =? compressionRLE).
      + bind_inv H16 as j dj Hj. injection H16 as _ <-.
        assert (S : good kept d13 (rle buf cl d13)) by (apply safe_rle; kept_side).
        unfold good in S. rewrite Hj in S. exact S.
      + destruct (cp =? compressionNone).
        * assert (S : good kept d13 (read buf d13)) by (apply safe_read; kept_side).
          unfold good in S. rewrite H16 in S. exact S.
        * injection H16 as _ <-. apply kept_refl. }
  bind_inv H as lc2 d17 H17.
  assert (K17 : kept d16 d17).
  { assert (S : good kept d16 (scatter ct buf lc d16)) by (apply safe_scatter; kept_side).
    unfold good in S. rewrite H17 in S. exact S. }
  assert (K18 : kept d17 d').
  { assert (S : good kept d17 (nextChannel lc2 d17)) by (apply safe_nextChannel; kept_side).
    unfold good in S. rewrite H in S. exact S. }
  assert (Hct : 1 <= ct <= 3).
  { apply Hev. eauto using kept_stdout. }
  eapply nextChannel_opaque; [exact H|].
  eapply scatter_opaque; eassumption.
Qed.

Lemma decodeLayersStep_opaque inflate lc d x d' :
  decodeLayersStep inflate lc d = Ok x d' ->
  opaqueLocals lc ->
  (forall ct, In (EvChannelType ct) (stdout d') -> 1 <= ct <= 3) ->
  opaqueStep x.
Proof.
  unfold decodeLayersStep. intros H Hlc Hev.
  bind_inv H as bh d1 H1.
  destruct (id bh =? layerBlock).
  { bind_inv H as lc' d2 H2. injection H as <- _.
    eapply layerCase_opaque; eassumption. }
  destruct (id bh =? channelBlock).
  { eapply channelCase_opaque; eassumption. }
  destruct (id bh =? 33).
  - bind_inv H as u2 d2 H2. bind_inv H as n d3 H3. bind_inv H as u4 d4 H4.
    injection H as <- _. exact Hlc.
  - bind_inv H as u2 d2 H2. injection H as <- _. exact Hlc.
Qed.

Lemma decodeLayersLoop_opaque inflate : forall fuel lc d v d',
  (length (r d) < fuel)%nat ->
  decodeLayersLoop inflate fuel lc d = Ok v d' ->
  opaqueLocals lc ->
  (forall ct, In (EvChannelType ct) (stdout d') -> 1 <= ct <= 3) ->
  opaqueImage (fst v).
Proof.
  induction fuel as [|f IH]; intros lc d v d' Hfuel H Hlc Hev; [lia|].
  cbn [decodeLayersLoop] in H. bind_inv H as x d1 H1.
  assert (Htake : (length (r d1) < length (r d))%nat).
  { eapply (decodeLayersStep_takes kept); [..|exact H1]; kept_side. }
  destruct x as [lc'|w].
  - assert (K : good kept d1 (decodeLayersLoop inflate f lc' d1))
      by (apply safe_decodeLayersLoop; [kept_side..|lia]).
    unfold good in K. rewrite H in K.
    eapply IH; [|exact H| |exact Hev]; [lia|].
    apply (decodeLayersStep_opaque inflate lc d (inl lc') d1 H1 Hlc).
    intros ct Hin. apply Hev. eauto using kept_stdout.
  - injection H as <- <-.
    exact (decodeLayersStep_opaque inflate lc d (inr w) d1 H1 Hlc Hev).
Qed.

Lemma decodeLoop_opaque inflate : forall fuel d im d',
  decodeLoop inflate fuel d = Ok im d' ->
  (forall ct, In (EvChannelType ct) (stdout d') -> 1 <= ct <= 3) ->
  opaqueImage im.
Proof.
  induction fuel as [|f IH]; intros d im d' H Hev; [discriminate|].
  cbn [decodeLoop] in H. bind_inv H as x d1 H1.
  destruct x as [im'|]; [|eauto].
  injection H as <- <-.
  unfold decodeStep in H1. bind_inv H1 as bh d2 H2.
  destruct (id bh =? extendedDataBlock);
    [bind_inv H1 as u d3 H3; discriminate|].
  destruct (id bh =? creatorBlock);
    [bind_inv H1 as u d3 H3; discriminate|].
  destruct (id bh =? colorBlock);
    [bind_inv H1 as u d3 H3; discriminate|].
  destruct (id bh =? layerStartBlock);
    [|bind_inv H1 as u d3 H3; discriminate].
  bind_inv H1 as il d3 H3. injection H1 as <- <-.
  unfold decodeLayers in H3.
  eapply decodeLayersLoop_opaque; [|exact H3| |exact Hev];
    [lia|apply opaqueLocals_zero].
Qed.

(** C7: when Decode succeeds with an RGBA or RGBA64 image and every channel
    it scattered had the role red, green or blue (the roles it printed are 1,
    2 or 3), every alpha byte of the image is 255: the bytes written when
    the image was made are not written again. *)
Theorem rgb_alpha_stays_opaque inflate input im d' :
  runDecode inflate input = Ok im d' ->
  (forall ct, In (EvChannelType ct) (stdout d') -> 1 <= ct <= 3) ->
  Decode inflate input = Returns im None /\
  match im with
  | Some (ImRGBA p) =>
      forall i, 0 <= i < len (Pix p) -> i mod 4 = 3 ->
                at_ (Pix p) i = Some Byte.xff
  | Some (ImRGBA64 p) =>
      forall i, 0 <= i < len (Pix p) -> i mod 8 = 6 \/ i mod 8 = 7 ->
                at_ (Pix p) i = Some Byte.xff
  | _ => True
  end.
Proof.
  intros H Hev. split; [unfold Decode; rewrite H; reflexivity|].
  unfold runDecode, newDecoder in H. bind_inv H as u d1 H1.
  exact (decodeLoop_opaque inflate _ d1 im d' H Hev).
Qed.

Lemma rgb_alpha_stays_opaque_witness :
  Decode noInflate rgbFile =
  Returns (Some (ImRGBA (mkPix [Byte.x01; Byte.x03; Byte.x05; Byte.xff;
                                Byte.x02; Byte.x04; Byte.x06; Byte.xff]
                           8 (mkRect 0 0 2 1)))) None /\
  forall i, 0 <= i < 8 -> i mod 4 = 3 ->
            at_ [Byte.x01; Byte.x03; Byte.x05; Byte.xff;
                 Byte.x02; Byte.x04; Byte.x06; Byte.xff] i = Some Byte.xff.
Proof.
  refine (rgb_alpha_stays_opaque noInflate rgbFile
            (Some (ImRGBA (mkPix [Byte.x01; Byte.x03; Byte.x05; Byte.xff;
                                  Byte.x02; Byte.x04; Byte.x06; Byte.xff]
                             8 (mkRect 0 0 2 1))))
            rgbFinal _ _).
  - vm_compute. reflexivity.
  - intros ct Hin. unfold rgbFinal, stdout in Hin.
    repeat (destruct Hin as [Hin|Hin]; [try discriminate Hin|]);
      try (injection Hin as <-; lia); contradiction.
Defined.

(** ** Truncated streams *)

(** The length of the stream does not matter to a loop whose bound is
    above it. *)
Ltac suffix_side :=
  first [ apply suffix_refl
        | apply suffix_trans
        | apply suffix_set_r
        | apply suffix_len
        | (intros; apply suffix_eq; reflexivity) ].

Lemma good_suffix_len {T} d (o : outcome T) a d' :
  good suffix d o -> o = Ok a d' -> (length (r d') <= length (r d))%nat.
Proof. intros H ->. apply suffix_len, H. Qed.

Lemma bind_ext {A B} (m : M A) (f g : A -> M B) d :
  (forall a d1, m d = Ok a d1 -> f a d1 = g a d1) -> bind m f d = bind m g d.
Proof. unfold bind. destruct (m d); auto. Qed.

Lemma decodeExtendedDataLoop_fuel : forall f1 f2 totalLen d,
  (length (r d) < f1)%nat -> (length (r d) < f2)%nat ->
  decodeExtendedDataLoop f1 totalLen d = decodeExtendedDataLoop f2 totalLen d.
Proof.
  induction f1 as [|f1 IH]; intros [|f2] totalLen d H1 H2; try lia.
  cbn [decodeExtendedDataLoop]. destruct (0 <? totalLen); [|reflexivity].
  apply bind_ext. intros ch d1 E1. apply readChunkHeader_takes in E1.
  apply bind_ext. intros u d2 E2.
  assert (length (r d2) <= length (r d1))%nat
    by (eapply good_suffix_len; [|exact E2]; apply safe_skip; suffix_side).
  apply IH; lia.
Qed.

Lemma decodeCreatorLoop_fuel : forall f1 f2 totalLen d,
  (length (r d) < f1)%nat -> (length (r d) < f2)%nat ->
  decodeCreatorLoop f1 totalLen d = decodeCreatorLoop f2 totalLen d.
Proof.
  induction f1 as [|f1 IH]; intros [|f2] totalLen d H1 H2; try lia.
  cbn [decodeCreatorLoop]. destruct (0 <? totalLen); [|reflexivity].
  apply bind_ext. intros ch d1 E1. apply readChunkHeader_takes in E1.
  apply bind_ext. intros u d2 E2.
  assert (length (r d2) <= length (r d1))%nat
    by (eapply good_suffix_len; [|exact E2]; apply safe_decodeCreatorField; suffix_side).
  apply IH; lia.
Qed.

Lemma rleLoop_fuel buf : forall f1 f2 n j d,
  (length (r d) < f1)%nat -> (length (r d) < f2)%nat ->
  rleLoop f1 buf n j d = rleLoop f2 buf n j d.
Proof.
  induction f1 as [|f1 IH]; intros [|f2] n j d H1 H2; try lia.
  rewrite !rleLoop_S. destruct (0 <? n); [|reflexivity].
  apply bind_ext. intros c d1 E1.
  apply readByte_inv in E1 as (q & Hq & ->).
  assert (Hlt : (length q < length (r d))%nat) by (rewrite Hq; simpl; lia).
  cbv zeta. destruct (128 <? b2z c).
  - apply bind_ext. intros b d2 E2.
    assert (length (r d2) <= length q)%nat
      by (eapply (good_suffix_len (set_r d q)); [|exact E2];
          apply safe_readByte; suffix_side).
    apply bind_ext. intros j' d3 E3.
    assert (length (r d3) <= length (r d2))%nat.
    { eapply good_suffix_len; [|exact E3].
      apply safe_for_; [suffix_side..|lia|].
      intros. apply safe_bind; [suffix_side..| |].
      - apply safe_store; suffix_side.
      - intros. apply safe_ret; suffix_side. }
    apply IH; lia.
  - apply bind_ext. intros s d2 E2.
    apply reslice_inv in E2 as (-> & _).
    apply bind_ext. intros u d3 E3.
    assert (length (r d3) <= length q)%nat
      by (eapply (good_suffix_len (set_r d q)); [|exact E3];
          apply safe_read; suffix_side).
    apply IH; lia.
Qed.

Lemma decodeLayersLoop_fuel inflate : forall f1 f2 lc d,
  (length (r d) < f1)%nat -> (length (r d) < f2)%nat ->
  decodeLayersLoop inflate f1 lc d = decodeLayersLoop inflate f2 lc d.
Proof.
  induction f1 as [|f1 IH]; intros [|f2] lc d H1 H2; try lia.
  cbn [decodeLayersLoop]. apply bind_ext. intros [lc'|v] d1 E1; try reflexivity.
  assert (length (r d1) < length (r d))%nat
    by (eapply (decodeLayersStep_takes suffix); [..|exact E1]; suffix_side).
  apply IH; lia.
Qed.

Lemma decodeLoop_fuel inflate : forall f1 f2 d,
  (length (r d) < f1)%nat -> (length (r d) < f2)%nat ->
  decodeLoop inflate f1 d = decodeLoop inflate f2 d.
Proof.
  induction f1 as [|f1 IH]; intros [|f2] d H1 H2; try lia.
  cbn [decodeLoop]. apply bind_ext. intros [im|] d1 E1; try reflexivity.
  assert (length (r d1) < length (r d))%nat
    by (eapply (decodeStep_takes suffix); [..|exact E1]; suffix_side).
  apply IH; lia.
Qed.

Lemma trunc_all d t : (length (r d) <= t)%nat -> trunc t d = d.
Proof.
  intros H. unfold trunc. rewrite take_ge by exact H. destruct d; reflexivity.
Qed.

Create HintDb pure.
Create HintDb cut.

Section Cut.

Variable P : decoder -> Prop.

Hypothesis P_r : forall d x, P d -> P (set_r d x).
Hypothesis P_tmp : forall d t o, P d -> P (set_tmp d t o).
Hypothesis P_stdout : forall d o, P d -> P (set_stdout d o).
Hypothesis P_creator : forall d c, P d -> P (set_creator d c).
Hypothesis P_palette : forall d p, P d -> P (set_palette d p).

Lemma pureAt_bind {T U} (m : M T) (f : T -> M U) d :
  pureAt P m d ->
  (forall a d1, m d = Ok a d1 -> P d1 -> pureAt P (f a) d1) ->
  pureAt P (bind m f) d.
Proof.
  intros Hm Hf HP b d2 E. bind_inv E as a d1 E1.
  destruct (Hm HP a d1 E1) as (HP1 & Hr1 & Hx1).
  destruct (Hf a d1 E1 HP1 HP1 b d2 E) as (HP2 & Hr2 & Hx2).
  split; [exact HP2|]. split; [congruence|].
  intros x. unfold bind. rewrite Hx1. apply Hx2.
Qed.

Lemma pure_bind {T U} (m : M T) (f : T -> M U) :
  pure_ P m -> (forall a, pure_ P (f a)) -> pure_ P (bind m f).
Proof. intros Hm Hf d. apply pureAt_bind; [apply Hm|]. intros. apply Hf. Qed.

Lemma pure_ret {T} (a : T) : pure_ P (ret a).
Proof. intros d HP b d' E. apply ret_inv in E as (-> & ->). auto. Qed.

Lemma pure_gets {T} (f : decoder -> T) :
  (forall d x, f (set_r d x) = f d) -> pure_ P (gets f).
Proof.
  intros Hf d HP b d' E. apply gets_inv in E as (-> & ->).
  repeat split; [exact HP|]. intros x. unfold gets. rewrite Hf. reflexivity.
Qed.

Lemma pure_panic {T} p : pure_ P (@panic T p).
Proof. intros d HP b d' E. discriminate E. Qed.

Lemma pure_error {T} e : pure_ P (@error_ T e).
Proof. apply pure_panic. Qed.

Lemma pure_fault {T} f : pure_ P (@fault_ T f).
Proof. apply pure_panic. Qed.

Lemma pure_orFault {T} f (o : option T) : pure_ P (orFault f o).
Proof. destruct o; [apply pure_ret|apply pure_fault]. Qed.

Lemma pure_modify f :
  (forall d x, f (set_r d x) = set_r (f d) x) ->
  (forall d, r (f d) = r d) ->
  (forall d, P d -> P (f d)) ->
  pure_ P (modify f).
Proof.
  intros Hx Hr Hp d HP b d' E. destruct b. apply modify_inv in E as ->.
  split; [auto|]. split; [auto|]. intros x. unfold modify. rewrite Hx.
  reflexivity.
Qed.

Lemma P_tmpBuf d t : P d -> P (set_tmpBuf d t).
Proof. intros H. exact (P_tmp d t (tmpOld d) H). Qed.

Lemma pure_printf e : pure_ P (printf e).
Proof. apply pure_modify; [reflexivity|reflexivity|]. intros. apply P_stdout. auto. Qed.

Hint Resolve pure_ret pure_error pure_fault pure_orFault pure_printf : pure.

(** One step of a proof that a function keeps off the stream. *)
Ltac pure_step :=
  match goal with
  | |- pure_ _ (bind _ _) => apply pure_bind; [|intros]
  | |- pure_ _ (gets _) => apply pure_gets; reflexivity
  | |- pure_ _ (panic _) => apply pure_panic
  | |- pure_ _ (if ?c then _ else _) => destruct c
  | |- pure_ _ (match ?x with _ => _ end) => destruct x
  | |- pure_ _ _ => solve [eauto with pure]
  end.

Ltac pure_tac := repeat pure_step.

Lemma pure_reslice s lo hi : pure_ P (reslice s lo hi).
Proof. unfold reslice. pure_tac. Qed.

Lemma pure_tmpSlice lo hi : pure_ P (tmpSlice lo hi).
Proof. unfold tmpSlice. pure_tac. apply pure_reslice. Qed.

Lemma pure_contents s : pure_ P (contents s).
Proof. apply pure_gets. reflexivity. Qed.

Lemma pure_index s i : pure_ P (index s i).
Proof. unfold index. pure_tac. Qed.

Lemma pure_store s i b : pure_ P (store s i b).
Proof.
  unfold store. pure_tac.
  apply pure_modify; [reflexivity|reflexivity|]. intros. apply P_tmpBuf. auto.
Qed.

Lemma pure_make n : pure_ P (make n).
Proof. unfold make. pure_tac. Qed.

Lemma pure_growTmp n : pure_ P (growTmp n).
Proof.
  unfold growTmp. apply pure_bind; [apply pure_make|]. intros a.
  apply pure_modify; [reflexivity|reflexivity|]. intros. apply P_tmp. auto.
Qed.

Hint Resolve pure_reslice pure_tmpSlice pure_contents pure_index pure_store
  pure_make pure_growTmp : pure.

Lemma pure_u16at s lo hi : pure_ P (u16at s lo hi).
Proof. unfold u16at. pure_tac. Qed.

Lemma pure_u32at s lo hi : pure_ P (u32at s lo hi).
Proof. unfold u32at. pure_tac. Qed.

Lemma pure_u64at s lo hi : pure_ P (u64at s lo hi).
Proof. unfold u64at. pure_tac. Qed.

Lemma pure_tmpU16 lo hi : pure_ P (tmpU16 lo hi).
Proof. unfold tmpU16. pure_tac. Qed.

Lemma pure_tmpU32 lo hi : pure_ P (tmpU32 lo hi).
Proof. unfold tmpU32. pure_tac. Qed.

Hint Resolve pure_u16at pure_u32at pure_u64at pure_tmpU16 pure_tmpU32 : pure.

Lemma pure_decodeChunkHeader s : pure_ P (decodeChunkHeader s).
Proof. unfold decodeChunkHeader. pure_tac. Qed.

Lemma pure_forTo {T} (body : Z -> T -> M T) hi step :
  (forall i s, pure_ P (body i s)) ->
  forall fuel i s, pure_ P (forTo fuel i hi step body s).
Proof.
  intros Hbody. induction fuel as [|f IH]; intros i s.
  - rewrite forTo_O. destruct (i <? hi); [apply pure_panic|apply pure_ret].
  - rewrite forTo_S. destruct (i <? hi); [|apply pure_ret].
    apply pure_bind; [apply Hbody|]. intros s'. apply IH.
Qed.

Lemma pure_for_ {T} (body : Z -> T -> M T) lo hi step s :
  (forall i s, pure_ P (body i s)) -> pure_ P (for_ lo hi step body s).
Proof. intros Hbody. apply pure_forTo. exact Hbody. Qed.

Lemma pure_setCreator {T} (f : creatorT -> T -> creatorT) v :
  pure_ P (setCreator f v).
Proof.
  apply pure_modify; [reflexivity|reflexivity|]. intros. apply P_creator. auto.
Qed.

Lemma pure_paletteLoop : forall k i acc, pure_ P (paletteLoop k i acc).
Proof.
  induction k as [|k IH]; intros i acc; cbn [paletteLoop]; [apply pure_ret|].
  pure_tac.
Qed.

Lemma pure_pixelBufferLength bpp q kind : pure_ P (pixelBufferLength bpp q kind).
Proof. unfold pixelBufferLength. cbv zeta. pure_tac. Qed.

Hint Resolve pure_decodeChunkHeader pure_setCreator pure_paletteLoop
  pure_pixelBufferLength : pure.

Lemma pure_NewRGBA q : pure_ P (NewRGBA q).
Proof. unfold NewRGBA. pure_tac. Qed.

Lemma pure_NewRGBA64 q : pure_ P (NewRGBA64 q).
Proof. unfold NewRGBA64. pure_tac. Qed.

Lemma pure_NewGray16 q : pure_ P (NewGray16 q).
Proof. unfold NewGray16. pure_tac. Qed.

Lemma pure_NewPaletted q pal : pure_ P (NewPaletted q pal).
Proof. unfold NewPaletted. pure_tac. Qed.

Lemma pure_setPix pix i b : pure_ P (setPix pix i b).
Proof. unfold setPix. pure_tac. Qed.

Hint Resolve pure_NewRGBA pure_NewRGBA64 pure_NewGray16 pure_NewPaletted
  pure_setPix : pure.

Lemma pure_fillAlpha pix : pure_ P (fillAlpha pix).
Proof. unfold fillAlpha. apply pure_for_. intros. pure_tac. Qed.

Lemma pure_fillAlpha64 pix : pure_ P (fillAlpha64 pix).
Proof. unfold fillAlpha64. apply pure_for_. intros. pure_tac. Qed.

Lemma pure_scatterRGBA ct buf pix : pure_ P (scatterRGBA ct buf pix).
Proof. unfold scatterRGBA. apply pure_for_. intros. pure_tac. Qed.

Lemma pure_scatterRGBA64 ct buf pix : pure_ P (scatterRGBA64 ct buf pix).
Proof. unfold scatterRGBA64. apply pure_for_. intros. pure_tac. Qed.

Lemma pure_scatterGray16 buf pix : pure_ P (scatterGray16 buf pix).
Proof. unfold scatterGray16. apply pure_for_. intros. pure_tac. Qed.

Lemma pure_palStore p i b : pure_ P (palStore p i b).
Proof.
  unfold palStore. pure_tac.
  apply pure_modify; [|intros d; destruct (_ =? _)%nat; reflexivity|].
  - intros d x. simpl. destruct (_ =? _)%nat; reflexivity.
  - intros d HP. destruct (_ =? _)%nat; [apply P_tmpBuf|apply P_tmp]; exact HP.
Qed.

Hint Resolve pure_fillAlpha pure_fillAlpha64 pure_palStore : pure.

Lemma pure_scatterBits buf p : pure_ P (scatterBits buf p).
Proof.
  unfold scatterBits. apply pure_for_. intros. pure_tac.
  apply pure_for_. intros. pure_tac.
Qed.

Lemma pure_palAlias buf p : pure_ P (palAlias buf p).
Proof. unfold palAlias. pure_tac. Qed.

Lemma pure_imageOf lc : pure_ P (imageOf lc).
Proof. unfold imageOf. pure_tac. Qed.

Hint Resolve pure_scatterRGBA pure_scatterRGBA64 pure_scatterGray16
  pure_scatterBits pure_palAlias pure_imageOf : pure.

Lemma pure_nextChannel lc : pure_ P (nextChannel lc).
Proof. unfold nextChannel. cbv zeta. pure_tac. Qed.

Lemma pure_scatter ct buf lc : pure_ P (scatter ct buf lc).
Proof. unfold scatter. pure_tac. Qed.

Hint Resolve pure_nextChannel pure_scatter : pure.

Lemma cut_of_pure {T} (m : M T) : pure_ P m -> cut P m.
Proof.
  intros H d HP a d' E. destruct (H d HP a d' E) as (HP' & Hr & Hx).
  split; [exact HP'|]. split; [rewrite Hr; lia|].
  unfold taken. rewrite Hr. intros t. split; [|lia]. intros _.
  unfold trunc. rewrite Hx, Hr.
  replace (t - (length (r d) - length (r d)))%nat with t by lia. reflexivity.
Qed.

Lemma cutAt_bind {T U} (m : M T) (f : T -> M U) d :
  cutAt P m d ->
  (forall a d1, m d = Ok a d1 -> P d1 -> cutAt P (f a) d1) ->
  cutAt P (bind m f) d.
Proof.
  intros Hm Hf HP b d2 E. bind_inv E as a d1 E1.
  destruct (Hm HP a d1 E1) as (HP1 & Hl1 & Ht1).
  destruct (Hf a d1 E1 HP1 HP1 b d2 E) as (HP2 & Hl2 & Ht2).
  split; [exact HP2|]. split; [lia|]. intros t. unfold taken in *.
  destruct (Ht1 t) as [Hok1 Hko1].
  destruct (le_lt_dec (length (r d) - length (r d1)) t) as [L|L].
  - specialize (Hok1 L).
    destruct (Ht2 (t - (length (r d) - length (r d1)))%nat) as [Hok2 Hko2].
    split; intros Ht; unfold bind; rewrite Hok1.
    + rewrite Hok2 by lia. do 2 f_equal. lia.
    + apply Hko2. lia.
  - destruct (Hko1 L) as (e & dx & Ee & He). split; [lia|]. intros _.
    exists e, dx. unfold bind. rewrite Ee. auto.
Qed.

Lemma cut_bind {T U} (m : M T) (f : T -> M U) :
  cut P m -> (forall a, cut P (f a)) -> cut P (bind m f).
Proof. intros Hm Hf d. apply cutAt_bind; [apply Hm|]. intros. apply Hf. Qed.

Lemma cut_skip n : cut P (skip n).
Proof.
  intros d HP a d' E. unfold skip in E |- *.
  destruct (Z.ltb_spec n 0) as [Hn|Hn]; [discriminate|].
  destruct (Z.eqb_spec n 0) as [Hz|Hz].
  { revert d HP a d' E. apply (cut_of_pure (ret tt)), pure_ret. }
  cbv beta in E. destruct (Z.ltb_spec (len (r d)) n) as [Hs|Hs]; [discriminate|].
  injection E as <- <-. unfold len in Hs.
  split; [apply P_r, HP|]. unfold taken. simpl. rewrite length_drop.
  split; [lia|]. intros t. split; intros Ht.
  - destruct (Z.ltb_spec (len (take t (r d))) n) as [Hs'|Hs'].
    { unfold len in Hs'. rewrite length_take in Hs'. lia. }
    f_equal. unfold trunc, set_r. simpl. f_equal.
    rewrite take_drop_commute. f_equal. f_equal. lia.
  - destruct (Z.ltb_spec (len (take t (r d))) n) as [Hs'|Hs'].
    + eexists _, _. split; [reflexivity|]. left. reflexivity.
    + unfold len in Hs'. rewrite length_take in Hs'. lia.
Qed.

Lemma cut_read s : cut P (read s).
Proof.
  intros d HP a d' E. unfold read in E |- *.
  destruct (Z.leb_spec (slen s) 0) as [Hn|Hn].
  { revert d HP a d' E. apply (cut_of_pure (ret tt)), pure_ret. }
  destruct (Z.ltb_spec (len (r d)) (slen s)) as [Hs|Hs];
    [destruct (r d); discriminate|].
  injection E as <- <-. unfold len in Hs.
  split; [apply P_tmpBuf, P_r, HP|]. unfold taken. simpl. rewrite length_drop.
  split; [lia|]. intros t. split; intros Ht.
  - destruct (Z.ltb_spec (len (take t (r d))) (slen s)) as [Hs'|Hs'].
    { unfold len in Hs'. rewrite length_take in Hs'. lia. }
    f_equal. unfold trunc, set_tmpBuf, set_r. simpl. f_equal.
    + rewrite take_drop_commute. f_equal. f_equal. lia.
    + f_equal. rewrite take_take. f_equal. lia.
  - destruct (Z.ltb_spec (len (take t (r d))) (slen s)) as [Hs'|Hs'].
    + destruct (take t (r d)); eexists _, _; (split; [reflexivity|]);
        [left|right]; reflexivity.
    + unfold len in Hs'. rewrite length_take in Hs'. lia.
Qed.

Lemma cut_readByte : cut P readByte.
Proof.
  intros d HP a d' E. apply readByte_inv in E as (q & Hq & ->).
  split; [apply P_r, HP|]. unfold taken. simpl. rewrite Hq. simpl.
  split; [lia|]. intros t. split; intros Ht.
  - unfold readByte, trunc. simpl. rewrite Hq.
    destruct t as [|t]; [lia|]. simpl. do 3 f_equal. lia.
  - assert (t = 0)%nat as -> by lia. unfold readByte, trunc. simpl.
    eexists _, _. split; [reflexivity|]. left. reflexivity.
Qed.

Hint Resolve cut_skip cut_read cut_readByte : cut.

(** One step of a proof that a function stands a cut of the stream. *)
Ltac cut_step :=
  match goal with
  | |- cut _ (bind _ _) => apply cut_bind; [|intros]
  | |- cut _ (if ?c then _ else _) => destruct c
  | |- cut _ (match ?x with _ => _ end) => destruct x
  | |- cut _ _ => solve [eauto with cut]
  | |- cut _ _ => apply cut_of_pure; solve [pure_tac]
  end.

Ltac cut_tac := repeat cut_step.

Lemma cut_readTmp n : cut P (readTmp n).
Proof. unfold readTmp. cut_tac. Qed.

Hint Resolve cut_readTmp : cut.

Lemma cut_readUint16 : cut P readUint16.
Proof. unfold readUint16. cut_tac. Qed.

Lemma cut_readUint32 : cut P readUint32.
Proof. unfold readUint32. cut_tac. Qed.

Lemma cut_readRect : cut P readRect.
Proof. unfold readRect. cut_tac. Qed.

Lemma cut_readString n : cut P (readString n).
Proof. unfold readString. cut_tac. Qed.

Lemma cut_readBlockHeader : cut P readBlockHeader.
Proof. unfold readBlockHeader. cut_tac. Qed.

Lemma cut_readChunkHeader : cut P readChunkHeader.
Proof. unfold readChunkHeader. cut_tac. Qed.

Hint Resolve cut_readUint16 cut_readUint32 cut_readRect cut_readString
  cut_readBlockHeader cut_readChunkHeader : cut.

(** A loop bounded by the length of the stream stands the cut, as its
    bound stays above the stream that is left. *)
Lemma cut_fuel {T} (loop : nat -> M T) (m : M T) :
  (forall d, m d = loop (S (length (r d))) d) ->
  (forall f1 f2 d, (length (r d) < f1)%nat -> (length (r d) < f2)%nat ->
                   loop f1 d = loop f2 d) ->
  (forall fuel, cut P (loop fuel)) ->
  cut P m.
Proof.
  intros Hm Hfuel Hcut d HP a d' E. rewrite Hm in E.
  destruct (Hcut _ d HP a d' E) as (HP' & Hl & Ht).
  split; [exact HP'|]. split; [exact Hl|]. intros t.
  rewrite Hm.
  rewrite (Hfuel _ (S (length (r d))) (trunc t d));
    [apply Ht| |]; simpl; rewrite length_take; lia.
Qed.

Lemma cut_decodeExtendedDataLoop :
  forall fuel totalLen, cut P (decodeExtendedDataLoop fuel totalLen).
Proof.
  induction fuel as [|f IH]; intros totalLen; cbn [decodeExtendedDataLoop].
  - cut_tac.
  - cut_tac.
Qed.

Lemma cut_decodeExtendedDataBlock totalLen : cut P (decodeExtendedDataBlock totalLen).
Proof.
  apply (cut_fuel (fun f => decodeExtendedDataLoop f totalLen)).
  - reflexivity.
  - intros. apply decodeExtendedDataLoop_fuel; assumption.
  - intros. apply cut_decodeExtendedDataLoop.
Qed.

Lemma cut_decodeCreatorField ch : cut P (decodeCreatorField ch).
Proof. unfold decodeCreatorField. cbv zeta. cut_tac. Qed.

Hint Resolve cut_decodeCreatorField : cut.

Lemma cut_decodeCreatorLoop :
  forall fuel totalLen, cut P (decodeCreatorLoop fuel totalLen).
Proof.
  induction fuel as [|f IH]; intros totalLen; cbn [decodeCreatorLoop].
  - cut_tac.
  - cut_tac.
Qed.

Lemma cut_decodeCreatorBlock totalLen : cut P (decodeCreatorBlock totalLen).
Proof.
  apply (cut_fuel (fun f => decodeCreatorLoop f totalLen)).
  - reflexivity.
  - intros. apply decodeCreatorLoop_fuel; assumption.
  - intros. apply cut_decodeCreatorLoop.
Qed.

Lemma cut_decodeColorBlock ln : cut P (decodeColorBlock ln).
Proof.
  unfold decodeColorBlock. cut_tac.
  apply cut_of_pure, pure_modify; [reflexivity|reflexivity|].
  intros. apply P_palette. assumption.
Qed.

Hint Resolve cut_decodeExtendedDataBlock cut_decodeCreatorBlock
  cut_decodeColorBlock : cut.

Lemma cut_readLayer l : cut P (readLayer l).
Proof. unfold readLayer. cbv zeta. cut_tac. Qed.

Hint Resolve cut_readLayer : cut.

Lemma cut_layerCase lc : cut P (layerCase lc).
Proof. unfold layerCase. cbv zeta. cut_tac. Qed.

Lemma cut_rleLoop buf : forall fuel n j, cut P (rleLoop fuel buf n j).
Proof.
  induction fuel as [|f IH]; intros n j.
  - cbn [rleLoop]. cut_tac.
  - rewrite rleLoop_S.
    destruct (0 <? n); [|apply cut_of_pure, pure_ret].
    apply cut_bind; [apply cut_readByte|]. intros c. cbv zeta.
    destruct (128 <? b2z c).
    + apply cut_bind; [apply cut_readByte|]. intros b.
      apply cut_bind; [|intros; apply IH].
      apply cut_of_pure, pure_for_. intros. pure_tac.
    + cut_tac.
Qed.

Lemma cut_rle buf n : cut P (rle buf n).
Proof.
  apply (cut_fuel (fun f => rleLoop f buf n 0)).
  - reflexivity.
  - intros. apply rleLoop_fuel; assumption.
  - intros. apply cut_rleLoop.
Qed.

Hint Resolve cut_layerCase cut_rle : cut.

Section NotDeflate.

Variable inflate : list byte -> Z -> inflated.

(** The data of the channels is not deflate-compressed. *)
Hypothesis P_comp : forall d, P d -> comp d <> compressionLZ77.

Lemma cut_gets_comp {T} (k : Z -> M T) :
  (forall cp, cp <> compressionLZ77 -> cut P (k cp)) ->
  cut P (bind (gets comp) k).
Proof.
  intros Hk d. apply cutAt_bind; [apply cut_of_pure, pure_gets; reflexivity|].
  intros cp d1 E HP. apply gets_inv in E as (-> & ->).
  apply Hk, P_comp, HP.
Qed.

Lemma cut_channelCase bh lc : cut P (channelCase inflate bh lc).
Proof.
  unfold channelCase.
  repeat first
    [ apply cut_gets_comp; intros cp Hcp;
      destruct (Z.eqb_spec cp compressionLZ77); [contradiction|]
    | cut_step ].
Qed.

Hint Resolve cut_channelCase : cut.

Lemma cut_decodeLayersStep lc : cut P (decodeLayersStep inflate lc).
Proof. unfold decodeLayersStep. cut_tac. Qed.

Hint Resolve cut_decodeLayersStep : cut.

Lemma cut_decodeLayersLoop :
  forall fuel lc, cut P (decodeLayersLoop inflate fuel lc).
Proof. induction fuel as [|f IH]; intros lc; cbn [decodeLayersLoop]; cut_tac. Qed.

Lemma cut_decodeLayers : cut P (decodeLayers inflate).
Proof.
  apply (cut_fuel (fun f => decodeLayersLoop inflate f zeroLocals)).
  - reflexivity.
  - intros. apply decodeLayersLoop_fuel; assumption.
  - intros. apply cut_decodeLayersLoop.
Qed.

Hint Resolve cut_decodeLayers : cut.

Lemma cut_decodeStep : cut P (decodeStep inflate).
Proof. unfold decodeStep. cut_tac. Qed.

Hint Resolve cut_decodeStep : cut.

Lemma cut_decodeLoop : forall fuel, cut P (decodeLoop inflate fuel).
Proof. induction fuel as [|f IH]; cbn [decodeLoop]; cut_tac. Qed.

Lemma cut_decode : cut P (decode inflate).
Proof.
  apply (cut_fuel (decodeLoop inflate)).
  - reflexivity.
  - intros. apply decodeLoop_fuel; assumption.
  - intros. apply cut_decodeLoop.
Qed.

End NotDeflate.

Lemma cut_readHeader :
  (forall d a b, P d -> P (set_version d a b)) ->
  (forall d w h rs rm cp bd pc cc gs ts al lc,
      P d -> P (set_attrs d w h rs rm cp bd pc cc gs ts al lc)) ->
  (forall d c, P d -> P (set_colorModel d c)) ->
  cut P readHeader.
Proof.
  intros Hv Ha Hc. unfold readHeader. cut_tac;
    apply cut_of_pure, pure_modify; solve [reflexivity | auto].
Qed.

End Cut.

(** Decode over a stream cut at [t]. *)
Lemma runDecode_cut inflate input im d' :
  runDecode inflate input = Ok im d' ->
  comp d' <> compressionLZ77 ->
  forall t,
    ((length input - length (r d') <= t)%nat ->
     runDecode inflate (take t input) =
     Ok im (trunc (t - (length input - length (r d'))) d')) /\
    ((t < length input - length (r d'))%nat ->
     exists e dx, runDecode inflate (take t input) = Panic (PErr e) dx /\ eofErr e).
Proof.
  intros E Hcomp. unfold runDecode, newDecoder in *.
  pose (Q := fun d : decoder => comp d = comp d').
  assert (HQ : cut Q (decode inflate)).
  { apply cut_decode; unfold Q; try (intros; assumption).
    intros d ->. exact Hcomp. }
  assert (HT : cut (fun _ => True) readHeader) by (apply cut_readHeader; auto).
  bind_inv E as u d1 E1.
  assert (Hk : kept d1 d') by
    (pose proof (decode_kept inflate d1) as K; rewrite E in K; exact K).
  assert (HQ1 : Q d1) by (unfold Q; symmetry; apply Hk).
  destruct (HT _ I u d1 E1) as (_ & Hl1 & Ht1).
  destruct (HQ d1 HQ1 im d' E) as (_ & Hl2 & Ht2).
  unfold taken in *. simpl in Hl1, Ht1.
  intros t. destruct (Ht1 t) as [Hok1 Hko1].
  change (trunc t (initDecoder input)) with (initDecoder (take t input)) in *.
  destruct (le_lt_dec (length input - length (r d1)) t) as [L|L].
  - specialize (Hok1 L).
    destruct (Ht2 (t - (length input - length (r d1)))%nat) as [Hok2 Hko2].
    split; intros Ht; unfold bind; rewrite Hok1.
    + rewrite Hok2 by lia. do 2 f_equal. lia.
    + apply Hko2. lia.
  - destruct (Hko1 L) as (e & dx & Ee & He). split; [lia|]. intros _.
    exists e, dx. unfold bind. rewrite Ee. auto.
Qed.

(** C1, as stated, fails.  On the empty stream Decode returns io.EOF, and
    on the first 20 bytes of a file it returns io.ErrUnexpectedEOF: the
    errors of the reader are passed on as they are, and neither is a
    FormatError.  A channel block met before any layer block makes Decode
    write through the nil image: catchErrors raises that runtime fault
    again, and it leaves Decode as a panic. *)
Lemma Decode_truncated_is_no_FormatError :
  Decode noInflate [] = Returns None (Some ErrEOF) /\
  Decode noInflate (take 20 rgbFile) = Returns None (Some ErrUnexpectedEOF) /\
  Decode noInflate (fileHdr 4 2 1 0 24 0 ++ blockHdr 4 layerStartBlock 0 ++
                    channelBlk 4 0 1 0 [])
  = Panics (PRuntime NilDereference).
Proof. repeat split; vm_compute; reflexivity. Qed.

(** C1, amended: when Decode succeeds on a stream whose channels are not
    deflate-compressed, Decode on that stream cut at any offset inside what
    it read returns normally, with a nil image and the reader's error for a
    stream that ended, io.EOF or io.ErrUnexpectedEOF; no runtime fault and
    no other panic leaves it. *)
Theorem Decode_truncated inflate input im d' t :
  runDecode inflate input = Ok im d' ->
  comp d' <> compressionLZ77 ->
  (t < length input - length (r d'))%nat ->
  exists e, Decode inflate (take t input) = Returns None (Some e) /\
            (e = ErrEOF \/ e = ErrUnexpectedEOF).
Proof.
  intros E Hcomp Ht.
  destruct (runDecode_cut inflate input im d' E Hcomp t) as [_ Hko].
  destruct (Hko Ht) as (e & dx & Ee & He).
  exists e. split; [|exact He]. unfold Decode. rewrite Ee. reflexivity.
Qed.

Lemma Decode_truncated_witness :
  runDecode noInflate rgbFile =
  Ok (Some (ImRGBA (mkPix [Byte.x01; Byte.x03; Byte.x05; Byte.xff;
                          Byte.x02; Byte.x04; Byte.x06; Byte.xff]
                     8 (mkRect 0 0 2 1)))) rgbFinal /\
  exists e, Decode noInflate (take 150 rgbFile) = Returns None (Some e) /\
            (e = ErrEOF \/ e = ErrUnexpectedEOF).
Proof.
  assert (H : runDecode noInflate rgbFile =
              Ok (Some (ImRGBA (mkPix [Byte.x01; Byte.x03; Byte.x05; Byte.xff;
                                      Byte.x02; Byte.x04; Byte.x06; Byte.xff]
                                 8 (mkRect 0 0 2 1)))) rgbFinal)
    by (vm_compute; reflexivity).
  split; [exact H|].
  apply (Decode_truncated _ _ _ _ 150%nat H).
  - vm_compute. discriminate.
  - vm_compute. lia.
Defined.

(** * Further properties *)

(** ** Little-endian scalars *)

(** The value of the three decoders, by cases on the slice. *)
Lemma decodeUint_value (b : list byte) :
  decodeUint16 b =
    match b with
    | b0 :: b1 :: _ => Some (b2z b0 + 2 ^ 8 * b2z b1)
    | _ => None
    end /\
  decodeUint32 b =
    match b with
    | b0 :: b1 :: b2 :: b3 :: _ =>
        Some (b2z b0 + 2 ^ 8 * b2z b1 + 2 ^ 16 * b2z b2 + 2 ^ 24 * b2z b3)
    | _ => None
    end /\
  decodeUint64 b =
    match b with
    | b0 :: b1 :: b2 :: b3 :: b4 :: b5 :: b6 :: b7 :: _ =>
        Some (b2z b0 + 2 ^ 8 * b2z b1 + 2 ^ 16 * b2z b2 + 2 ^ 24 * b2z b3 +
              2 ^ 32 * b2z b4 + 2 ^ 40 * b2z b5 + 2 ^ 48 * b2z b6 +
              2 ^ 56 * b2z b7)
    | _ => None
    end.
Proof.
  destruct b as [|b0 [|b1 t]]; try (repeat split; reflexivity).
  pose proof (b2z_range b0). pose proof (b2z_range b1).
  split.
  { unfold decodeUint16. cbn [at_ Z.ltb Z.compare Z.to_nat lookup list_lookup].
    simpl. rewrite lor_shiftl_add by lia. f_equal. lia. }
  destruct t as [|b2 [|b3 t]]; try (repeat split; reflexivity).
  pose proof (b2z_range b2). pose proof (b2z_range b3).
  split.
  { unfold decodeUint32. simpl.
    rewrite (lor_shiftl_add (b2z b0)) by lia.
    rewrite (lor_shiftl_add (_ + _) _ 16) by lia.
    rewrite (lor_shiftl_add (_ + _) _ 24) by lia. f_equal. lia. }
  destruct t as [|b4 [|b5 [|b6 [|b7 t]]]]; try reflexivity.
  pose proof (b2z_range b4). pose proof (b2z_range b5).
  pose proof (b2z_range b6). pose proof (b2z_range b7).
  unfold decodeUint64. simpl.
  rewrite (lor_shiftl_add (b2z b0)) by lia.
  rewrite (lor_shiftl_add (_ + _) _ 16) by lia.
  rewrite (lor_shiftl_add (_ + _) _ 24) by lia.
  rewrite (lor_shiftl_add (_ + _) _ 32) by lia.
  rewrite (lor_shiftl_add (_ + _) _ 40) by lia.
  rewrite (lor_shiftl_add (_ + _) _ 48) by lia.
  rewrite (lor_shiftl_add (_ + _) _ 56) by lia.
  f_equal. lia.
Qed.

(** decodeUint16, decodeUint32 and decodeUint64 fault on a slice shorter
    than 2, 4 and 8 bytes ([None] is the index fault), and otherwise give
    the little-endian value of the first 2, 4 and 8 bytes, whatever
    follows them. *)
Theorem decodeUint_little_endian (b : list byte) :
  decodeUint16 b =
    match b with
    | b0 :: b1 :: _ => Some (b2z b0 + 2 ^ 8 * b2z b1)
    | _ => None
    end /\
  decodeUint32 b =
    match b with
    | b0 :: b1 :: b2 :: b3 :: _ =>
        Some (b2z b0 + 2 ^ 8 * b2z b1 + 2 ^ 16 * b2z b2 + 2 ^ 24 * b2z b3)
    | _ => None
    end /\
  decodeUint64 b =
    match b with
    | b0 :: b1 :: b2 :: b3 :: b4 :: b5 :: b6 :: b7 :: _ =>
        Some (b2z b0 + 2 ^ 8 * b2z b1 + 2 ^ 16 * b2z b2 + 2 ^ 24 * b2z b3 +
              2 ^ 32 * b2z b4 + 2 ^ 40 * b2z b5 + 2 ^ 48 * b2z b6 +
              2 ^ 56 * b2z b7)
    | _ => None
    end.
Proof. exact (decodeUint_value b). Qed.

Lemma b2z_inj (x y : byte) : b2z x = b2z y -> x = y.
Proof.
  unfold b2z. intros H. apply N2Z.inj in H.
  pose proof (Byte.of_to_N x) as Hx. rewrite H, Byte.of_to_N in Hx.
  congruence.
Qed.

(** Little-endian bytes give different numbers when they differ. *)
Lemma bytes_value_inj : forall l1 l2 : list byte,
  length l1 = length l2 -> bytesValue l1 = bytesValue l2 -> l1 = l2.
Proof.
  induction l1 as [|x l1 IH]; intros [|y l2] Hl H; try discriminate;
    [reflexivity|].
  cbn [bytesValue fold_right] in H. fold (bytesValue l1) in H.
  fold (bytesValue l2) in H.
  pose proof (b2z_range x). pose proof (b2z_range y).
  assert (b2z x = b2z y /\ bytesValue l1 = bytesValue l2) as [Hx Ht] by lia.
  f_equal; [apply b2z_inj, Hx|]. apply IH; [simpl in Hl; lia|exact Ht].
Qed.

(** Two slices with the same decodeUint16, decodeUint32 or decodeUint64
    start with the same 2, 4 or 8 bytes: the decoders lose nothing of the
    bytes they read. *)
Theorem decodeUint_injective (a b : list byte) (v : Z) :
  (decodeUint16 a = Some v -> decodeUint16 b = Some v -> take 2 a = take 2 b) /\
  (decodeUint32 a = Some v -> decodeUint32 b = Some v -> take 4 a = take 4 b) /\
  (decodeUint64 a = Some v -> decodeUint64 b = Some v -> take 8 a = take 8 b).
Proof.
  destruct (decodeUint_value a) as (A16 & A32 & A64).
  destruct (decodeUint_value b) as (B16 & B32 & B64).
  rewrite A16, A32, A64, B16, B32, B64. clear.
  split; [|split].
  - destruct a as [|a0 [|a1 a]]; try discriminate.
    destruct b as [|b0 [|b1 b]]; try discriminate.
    intros [= <-] [= H]. simpl.
    apply (bytes_value_inj [a0; a1] [b0; b1] eq_refl).
    cbn [bytesValue fold_right]. lia.
  - destruct a as [|a0 [|a1 [|a2 [|a3 a]]]]; try discriminate.
    destruct b as [|b0 [|b1 [|b2 [|b3 b]]]]; try discriminate.
    intros [= <-] [= H]. simpl.
    apply (bytes_value_inj [a0; a1; a2; a3] [b0; b1; b2; b3] eq_refl).
    cbn [bytesValue fold_right]. lia.
  - destruct a as [|a0 [|a1 [|a2 [|a3 [|a4 [|a5 [|a6 [|a7 a]]]]]]]];
      try discriminate.
    destruct b as [|b0 [|b1 [|b2 [|b3 [|b4 [|b5 [|b6 [|b7 b]]]]]]]];
      try discriminate.
    intros [= <-] [= H]. simpl.
    apply (bytes_value_inj [a0; a1; a2; a3; a4; a5; a6; a7]
             [b0; b1; b2; b3; b4; b5; b6; b7] eq_refl).
    cbn [bytesValue fold_right]. lia.
Qed.

Lemma decodeUint_injective_witness :
  take 4 [Byte.x01; Byte.x02; Byte.x03; Byte.x04; Byte.x05] =
  take 4 [Byte.x01; Byte.x02; Byte.x03; Byte.x04; Byte.x09].
Proof.
  apply (proj1 (proj2 (decodeUint_injective
                         [Byte.x01; Byte.x02; Byte.x03; Byte.x04; Byte.x05]
                         [Byte.x01; Byte.x02; Byte.x03; Byte.x04; Byte.x09]
                         67305985))); reflexivity.
Defined.

(** ** What the header rejects *)

Lemma read_short s d :
  0 < slen s -> len (r d) < slen s ->
  exists dx, read s d = Panic (PErr (match r d with
                                     | [] => ErrEOF
                                     | _ => ErrUnexpectedEOF
                                     end)) dx.
Proof.
  intros Hs Hl. unfold read.
  destruct (Z.leb_spec (slen s) 0); [lia|].
  destruct (Z.ltb_spec (len (r d)) (slen s)); [|lia].
  destruct (r d); eexists; reflexivity.
Qed.

Lemma readHeader_short input :
  (length input < 36)%nat ->
  exists dx, readHeader (initDecoder input) =
             Panic (PErr (match input with
                          | [] => ErrEOF
                          | _ => ErrUnexpectedEOF
                          end)) dx.
Proof.
  intros H. unfold readHeader.
  destruct (read_short (mkSlice 0 (36 - 0)) (initDecoder input))
    as [dx E]; [simpl; lia|simpl; unfold len; lia|].
  exists dx. apply bind_eq_Panic. unfold readTmp.
  rewrite (bind_eq_Ok _ _ _ _ _ (tmpSlice_ok (initDecoder input) 0 36 ltac:(lia)
                                   ltac:(change (36 <= 64); lia))).
  apply bind_eq_Panic, E.
Qed.

(** A stream of fewer than 36 bytes is answered with the error of the
    reader, whatever it holds: io.EOF when it is empty, io.ErrUnexpectedEOF
    otherwise.  The signature is not looked at. *)
Theorem short_stream_is_eof inflate input :
  (length input < 36)%nat ->
  let e := match input with [] => ErrEOF | _ => ErrUnexpectedEOF end in
  DecodeConfig input = Returns (mkConfig None 0 0) (Some e) /\
  Decode inflate input = Returns None (Some e).
Proof.
  intros H e. destruct (readHeader_short input H) as [dx E].
  unfold DecodeConfig, Decode, runDecodeConfig, runDecode, newDecoder.
  rewrite !(bind_eq_Panic _ _ _ _ _ E). split; reflexivity.
Qed.

Lemma short_stream_is_eof_witness :
  DecodeConfig [Byte.x50; Byte.x61] =
    Returns (mkConfig None 0 0) (Some ErrUnexpectedEOF) /\
  Decode noInflate [Byte.x50; Byte.x61] = Returns None (Some ErrUnexpectedEOF).
Proof.
  apply (short_stream_is_eof noInflate [Byte.x50; Byte.x61]). simpl. lia.
Defined.

(** The state after the first read of readHeader, on a stream of 36 bytes
    or more. *)
Lemma readHeader_first_read input :
  (36 <= length input)%nat ->
  readTmp 36 (initDecoder input) =
  Ok (mkSlice 0 36)
     (set_tmpBuf (set_r (initDecoder input) (drop 36 input))
        (take 36 input ++ replicate 28 Byte.x00)).
Proof.
  intros H.
  rewrite (readTmp_ok (initDecoder input) 36 (take 36 input) (drop 36 input)).
  - rewrite length_take, Nat.min_l by exact H. reflexivity.
  - simpl. symmetry. apply take_drop.
  - unfold len. rewrite length_take. lia.
  - change (36 <= 64). lia.
Qed.

(** A stream of 36 bytes or more that does not start with the 32 bytes of
    the signature is no PSP file: both calls return that FormatError. *)
Theorem wrong_signature_is_FormatError inflate input :
  (36 <= length input)%nat ->
  take 32 input <> fileMagic ->
  DecodeConfig input =
    Returns (mkConfig None 0 0) (Some (FormatError "not a PSP file")) /\
  Decode inflate input = Returns None (Some (FormatError "not a PSP file")).
Proof.
  intros H Hm.
  assert (E : exists dx, readHeader (initDecoder input) =
                         Panic (PErr (FormatError "not a PSP file")) dx).
  { unfold readHeader.
    rewrite (bind_eq_Ok _ _ _ _ _ (readHeader_first_read input H)).
    set (d1 := set_tmpBuf _ _).
    assert (Ht : len (tmpBuf d1) = 64)
      by (unfold d1, len; cbn [tmpBuf set_tmpBuf];
          rewrite length_app, length_take, length_replicate; lia).
    rewrite (bind_eq_Ok _ _ _ _ _ (tmpSlice_ok d1 0 32 ltac:(lia) ltac:(lia))).
    unfold bind at 1. unfold contents, gets. cbn [slen soff].
    change (Z.to_nat (32 - 0)) with 32%nat. change (Z.to_nat 0) with 0%nat.
    rewrite drop_0. unfold d1. cbn [tmpBuf set_tmpBuf].
    rewrite take_app_le by (rewrite length_take; lia).
    rewrite take_take. change (Nat.min 32 36) with 32%nat.
    destruct (bytes_eqb (take 32 input) fileMagic) eqn:Eb.
    - apply bytes_eqb_eq in Eb. contradiction.
    - eexists. reflexivity. }
  destruct E as [dx E].
  unfold DecodeConfig, Decode, runDecodeConfig, runDecode, newDecoder.
  rewrite !(bind_eq_Panic _ _ _ _ _ E). split; reflexivity.
Qed.

Lemma wrong_signature_is_FormatError_witness :
  DecodeConfig (replicate 40 Byte.x41) =
    Returns (mkConfig None 0 0) (Some (FormatError "not a PSP file")) /\
  Decode noInflate (replicate 40 Byte.x41) =
    Returns None (Some (FormatError "not a PSP file")).
Proof.
  apply (wrong_signature_is_FormatError noInflate (replicate 40 Byte.x41)).
  - simpl. lia.
  - vm_compute. discriminate.
Defined.

(** A file with the signature and a major version below 3 is answered with
    the UnsupportedError of readHeader, whatever follows the version. *)
Theorem old_version_is_UnsupportedError inflate v0 v1 m0 m1 rest :
  b2z v0 + 2 ^ 8 * b2z v1 < 3 ->
  let input := fileMagic ++ [v0; v1; m0; m1] ++ rest in
  let e := UnsupportedError "only major versions >= 3 are supported" [] in
  DecodeConfig input = Returns (mkConfig None 0 0) (Some e) /\
  Decode inflate input = Returns None (Some e).
Proof.
  intros Hv input e.
  assert (Hlen : (36 <= length input)%nat)
    by (unfold input; rewrite !length_app; simpl; lia).
  assert (E : exists dx, readHeader (initDecoder input) = Panic (PErr e) dx).
  { unfold readHeader.
    rewrite (bind_eq_Ok _ _ _ _ _ (readHeader_first_read input Hlen)).
    change (take 36 input) with (fileMagic ++ [v0; v1; m0; m1]).
    unfold bind, tmpSlice, reslice, gets, contents, tmpU16, orFault, modify,
      ret. simpl.
    pose proof (b2z_range v0).
    rewrite (lor_shiftl_add (b2z v0) (b2z v1) 8) by lia.
    destruct (Z.ltb_spec (b2z v0 + b2z v1 * 2 ^ 8) 3); [|lia].
    eexists. reflexivity. }
  destruct E as [dx E].
  unfold DecodeConfig, Decode, runDecodeConfig, runDecode, newDecoder.
  rewrite !(bind_eq_Panic _ _ _ _ _ E). split; reflexivity.
Qed.

Lemma old_version_is_UnsupportedError_witness :
  DecodeConfig (fileMagic ++ [Byte.x02; Byte.x00; Byte.x00; Byte.x00] ++ []) =
    Returns (mkConfig None 0 0)
      (Some (UnsupportedError "only major versions >= 3 are supported" [])) /\
  Decode noInflate (fileMagic ++ [Byte.x02; Byte.x00; Byte.x00; Byte.x00] ++ []) =
    Returns None
      (Some (UnsupportedError "only major versions >= 3 are supported" [])).
Proof.
  apply (old_version_is_UnsupportedError noInflate Byte.x02 Byte.x00 Byte.x00
           Byte.x00 []).
  vm_compute. reflexivity.
Defined.

(** ** What the header accepts *)

Lemma readHeader_attrs d d' :
  readHeader d = Ok tt d' ->
  (comp d' = compressionNone \/ comp d' = compressionRLE \/
   comp d' = compressionLZ77) /\
  ((grayscale d' = true /\ bitDepth d' = 8 /\ colorModel d' = Some GrayModel) \/
   (bitDepth d' = 16 /\ colorModel d' = Some Gray16Model) \/
   (grayscale d' = false /\ (bitDepth d' = 8 \/ bitDepth d' = 24) /\
    colorModel d' = Some RGBAModel) \/
   (grayscale d' = false /\ (bitDepth d' = 48 \/ bitDepth d' = 64) /\
    colorModel d' = Some RGBA64Model)).
Proof.
  unfold readHeader. intros H. inv_pure; simpl.
  all: repeat match goal with
       | H : (_ || _) = true |- _ => rewrite !orb_true_iff in H
       | H : (_ =? _) = true |- _ => apply Z.eqb_eq in H
       | H : _ \/ _ |- _ => rewrite ?Z.eqb_eq in H
       end.
  all: unfold compressionNone, compressionRLE, compressionLZ77.
  all: intuition (subst; auto).
  all: repeat match goal with
       | H : (_ =? _) = true |- _ => apply Z.eqb_eq in H
       end.
  all: unfold compressionNone, compressionRLE, compressionLZ77 in *; lia.
Qed.

(** When DecodeConfig returns without an error, the major version is 3 or
    more, the compression is one of the three known, and the colour model
    is never nil: it is the one that the grayscale flag and the bit depth
    of the header select, and the bit depth is 8, 16, 24, 48 or 64. *)
Theorem DecodeConfig_colour_model input cfg :
  DecodeConfig input = Returns cfg None ->
  exists d,
    runDecodeConfig input = Ok cfg d /\ cfg = configOf d /\
    3 <= versionMajor d /\
    (comp d = compressionNone \/ comp d = compressionRLE \/
     comp d = compressionLZ77) /\
    ((grayscale d = true /\ bitDepth d = 8 /\
      ColorModel cfg = Some GrayModel) \/
     (bitDepth d = 16 /\ ColorModel cfg = Some Gray16Model) \/
     (grayscale d = false /\ (bitDepth d = 8 \/ bitDepth d = 24) /\
      ColorModel cfg = Some RGBAModel) \/
     (grayscale d = false /\ (bitDepth d = 48 \/ bitDepth d = 64) /\
      ColorModel cfg = Some RGBA64Model)).
Proof.
  unfold DecodeConfig, runDecodeConfig, newDecoder, bind, gets.
  destruct (readHeader (initDecoder input)) as [[] d|p d] eqn:E; simpl.
  - intros [= <-]. exists d. split; [reflexivity|]. split; [reflexivity|].
    destruct (readHeader_inv _ _ E)
      as (sig & hdr & body & _ & _ & _ & _ & Hv & _).
    split; [exact Hv|]. exact (readHeader_attrs _ _ E).
  - destruct p as [e|f|s|]; discriminate.
Qed.

Lemma DecodeConfig_colour_model_witness :
  exists d,
    runDecodeConfig rgbFile = Ok (mkConfig (Some RGBAModel) 2 1) d /\
    mkConfig (Some RGBAModel) 2 1 = configOf d /\
    3 <= versionMajor d /\
    (comp d = compressionNone \/ comp d = compressionRLE \/
     comp d = compressionLZ77) /\
    ((grayscale d = true /\ bitDepth d = 8 /\
      ColorModel (mkConfig (Some RGBAModel) 2 1) = Some GrayModel) \/
     (bitDepth d = 16 /\
      ColorModel (mkConfig (Some RGBAModel) 2 1) = Some Gray16Model) \/
     (grayscale d = false /\ (bitDepth d = 8 \/ bitDepth d = 24) /\
      ColorModel (mkConfig (Some RGBAModel) 2 1) = Some RGBAModel) \/
     (grayscale d = false /\ (bitDepth d = 48 \/ bitDepth d = 64) /\
      ColorModel (mkConfig (Some RGBAModel) 2 1) = Some RGBA64Model)).
Proof.
  apply (DecodeConfig_colour_model rgbFile (mkConfig (Some RGBAModel) 2 1)).
  vm_compute. reflexivity.
Defined.

(** ** DecodeConfig raises no run-time fault *)

Lemma errOnly_bind {T U} (m : M T) (f : T -> M U) d
      (Q1 : T -> decoder -> Prop) (Q : U -> decoder -> Prop) :
  errOnly Q1 (m d) ->
  (forall a d1, Q1 a d1 -> errOnly Q (f a d1)) ->
  errOnly Q (bind m f d).
Proof.
  unfold bind. destruct (m d) as [a d1|p d1]; simpl; [auto|].
  destruct p; auto.
Qed.

(** A read changes neither the length of the scratch buffer nor the
    version, and fails with an error only. *)
Lemma errOnly_read s d :
  errOnly (fun _ d' => len (tmpBuf d') = len (tmpBuf d) /\
                       versionMajor d' = versionMajor d) (read s d).
Proof.
  unfold read. destruct (slen s <=? 0); [simpl; auto|].
  destruct (len (r d) <? slen s).
  - destruct (r d); exact I.
  - simpl. unfold len. rewrite length_inserts. auto.
Qed.

Lemma errOnly_readTmp n d (Q : slice -> decoder -> Prop) :
  0 <= n <= len (tmpBuf d) ->
  (forall d', len (tmpBuf d') = len (tmpBuf d) ->
              versionMajor d' = versionMajor d -> Q (mkSlice 0 n) d') ->
  errOnly Q (readTmp n d).
Proof.
  intros Hn HQ. unfold readTmp.
  rewrite (bind_eq_Ok _ _ _ _ _ (tmpSlice_ok d 0 n ltac:(lia) ltac:(lia))).
  replace (n - 0) with n by lia.
  eapply errOnly_bind; [apply errOnly_read|].
  intros _ d1 [Ht Hv]. simpl. auto.
Qed.

Lemma slice_length (l : list byte) (o k : Z) :
  0 <= o -> 0 <= k -> o + k <= len l ->
  len (take (Z.to_nat k) (drop (Z.to_nat o) l)) = k.
Proof.
  intros Ho Hk Hl. unfold len in *. rewrite length_take, length_drop. lia.
Qed.

Lemma decodeUint16_total (b : list byte) :
  2 <= len b -> exists v, decodeUint16 b = Some v.
Proof.
  intros H. destruct (decodeUint_value b) as (-> & _).
  destruct b as [|b0 [|b1 t]]; unfold len in H; simpl in H; try lia. eauto.
Qed.

Lemma decodeUint32_total (b : list byte) :
  4 <= len b -> exists v, decodeUint32 b = Some v.
Proof.
  intros H. destruct (decodeUint_value b) as (_ & -> & _).
  destruct b as [|b0 [|b1 [|b2 [|b3 t]]]]; unfold len in H; simpl in H;
    try lia. eauto.
Qed.

Lemma decodeUint64_total (b : list byte) :
  8 <= len b -> exists v, decodeUint64 b = Some v.
Proof.
  intros H. destruct (decodeUint_value b) as (_ & _ & ->).
  destruct b as [|b0 [|b1 [|b2 [|b3 [|b4 [|b5 [|b6 [|b7 t]]]]]]]];
    unfold len in H; simpl in H; try lia. eauto.
Qed.

Lemma u16at_total s lo hi d :
  0 <= soff s -> 0 <= lo -> lo + 2 <= hi -> soff s + hi <= len (tmpBuf d) ->
  exists v, u16at s lo hi d = Ok v d.
Proof.
  intros Hs Hlo Hhi Hc. unfold u16at.
  rewrite (bind_eq_Ok _ _ _ _ _ (reslice_ok d s lo hi ltac:(lia) ltac:(lia))).
  unfold bind, contents, gets. cbn [soff slen].
  destruct (decodeUint16_total
              (take (Z.to_nat (hi - lo)) (drop (Z.to_nat (soff s + lo)) (tmpBuf d))))
    as [v ->]; [rewrite slice_length; lia|]. eexists. reflexivity.
Qed.

Lemma u32at_total s lo hi d :
  0 <= soff s -> 0 <= lo -> lo + 4 <= hi -> soff s + hi <= len (tmpBuf d) ->
  exists v, u32at s lo hi d = Ok v d.
Proof.
  intros Hs Hlo Hhi Hc. unfold u32at.
  rewrite (bind_eq_Ok _ _ _ _ _ (reslice_ok d s lo hi ltac:(lia) ltac:(lia))).
  unfold bind, contents, gets. cbn [soff slen].
  destruct (decodeUint32_total
              (take (Z.to_nat (hi - lo)) (drop (Z.to_nat (soff s + lo)) (tmpBuf d))))
    as [v ->]; [rewrite slice_length; lia|]. eexists. reflexivity.
Qed.

Lemma u64at_total s lo hi d :
  0 <= soff s -> 0 <= lo -> lo + 8 <= hi -> soff s + hi <= len (tmpBuf d) ->
  exists v, u64at s lo hi d = Ok v d.
Proof.
  intros Hs Hlo Hhi Hc. unfold u64at.
  rewrite (bind_eq_Ok _ _ _ _ _ (reslice_ok d s lo hi ltac:(lia) ltac:(lia))).
  unfold bind, contents, gets. cbn [soff slen].
  destruct (decodeUint64_total
              (take (Z.to_nat (hi - lo)) (drop (Z.to_nat (soff s + lo)) (tmpBuf d))))
    as [v ->]; [rewrite slice_length; lia|]. eexists. reflexivity.
Qed.

Lemma tmpU16_total lo hi d :
  0 <= lo -> lo + 2 <= hi -> hi <= len (tmpBuf d) ->
  exists v, tmpU16 lo hi d = Ok v d.
Proof.
  intros Hlo Hhi Hc. unfold tmpU16.
  rewrite (bind_eq_Ok _ _ _ _ _ (tmpSlice_ok d lo hi ltac:(lia) ltac:(lia))).
  unfold bind, contents, gets. cbn [soff slen].
  destruct (decodeUint16_total
              (take (Z.to_nat (hi - lo)) (drop (Z.to_nat lo) (tmpBuf d))))
    as [v ->]; [rewrite slice_length; lia|]. eexists. reflexivity.
Qed.

Lemma tmpU32_total lo hi d :
  0 <= lo -> lo + 4 <= hi -> hi <= len (tmpBuf d) ->
  exists v, tmpU32 lo hi d = Ok v d.
Proof.
  intros Hlo Hhi Hc. unfold tmpU32.
  rewrite (bind_eq_Ok _ _ _ _ _ (tmpSlice_ok d lo hi ltac:(lia) ltac:(lia))).
  unfold bind, contents, gets. cbn [soff slen].
  destruct (decodeUint32_total
              (take (Z.to_nat (hi - lo)) (drop (Z.to_nat lo) (tmpBuf d))))
    as [v ->]; [rewrite slice_length; lia|]. eexists. reflexivity.
Qed.

Lemma index_total s i d :
  0 <= soff s -> 0 <= i < slen s -> soff s + i < len (tmpBuf d) ->
  exists b, index s i d = Ok b d.
Proof.
  intros Hs Hi Hc.
  destruct (lookup_lt_is_Some_2 (tmpBuf d) (Z.to_nat (soff s + i)))
    as [b Hb]; [unfold len in Hc; lia|].
  exists b. apply index_ok; [exact Hi|].
  unfold at_. destruct (Z.ltb_spec (soff s + i) 0); [lia|exact Hb].
Qed.

(** A step that cannot fail, at the head of a computation. *)
Tactic Notation "ok_step" constr(lem) "as" ident(v) :=
  let E := fresh "E" in
  destruct lem as [v E]; [try lia..|];
  rewrite (bind_eq_Ok _ _ _ _ _ E); clear E.

Lemma errOnly_readBlockHeader d (Q : blockHeader -> decoder -> Prop) :
  14 <= len (tmpBuf d) ->
  (forall bh d', len (tmpBuf d') = len (tmpBuf d) ->
                 versionMajor d' = versionMajor d -> Q bh d') ->
  errOnly Q (readBlockHeader d).
Proof.
  intros Ht HQ. unfold readBlockHeader.
  rewrite (bind_eq_Ok (gets versionMajor) _ d _ d eq_refl).
  apply (errOnly_bind _ _ _
           (fun _ d1 => len (tmpBuf d1) = len (tmpBuf d) /\
                        versionMajor d1 = versionMajor d)).
  - destruct (3 <? versionMajor d).
    + apply (errOnly_bind _ _ _
               (fun _ d1 => len (tmpBuf d1) = len (tmpBuf d) /\
                            versionMajor d1 = versionMajor d)).
      * apply errOnly_readTmp; [lia|auto].
      * intros _ d1 [Ht1 Hv1].
        ok_step (tmpU32_total 6 10 d1) as dl. simpl. auto.
    + apply (errOnly_bind _ _ _
               (fun _ d1 => len (tmpBuf d1) = len (tmpBuf d) /\
                            versionMajor d1 = versionMajor d)).
      * apply errOnly_readTmp; [lia|auto].
      * intros _ d1 [Ht1 Hv1].
        ok_step (tmpU32_total 6 10 d1) as il.
        ok_step (tmpU32_total 10 14 d1) as dl. simpl. auto.
  - intros ildl d1 [Ht1 Hv1].
    rewrite (bind_eq_Ok _ _ _ _ _ (tmpSlice_ok d1 0 4 ltac:(lia) ltac:(lia))).
    rewrite (bind_eq_Ok (contents _) _ d1 _ d1 eq_refl).
    destruct (negb _); [exact I|].
    ok_step (tmpU16_total 4 6 d1) as i. cbv zeta.
    rewrite (bind_eq_Ok (printf _) _ d1 tt _ eq_refl).
    simpl. apply HQ; simpl; assumption.
Qed.

(** readHeader on a decoder with the scratch buffer of newDecoder: it
    returns, or panics with an error. *)
Lemma errOnly_readHeader d :
  len (tmpBuf d) = 64 -> errOnly (fun _ _ => True) (readHeader d).
Proof.
  intros Ht. unfold readHeader.
  apply (errOnly_bind _ _ _ (fun _ d' => len (tmpBuf d') = 64)).
  { apply errOnly_readTmp; [lia|]. intros d' Ht' _. lia. }
  intros s0 d0 Ht0.
  rewrite (bind_eq_Ok _ _ _ _ _ (tmpSlice_ok d0 0 32 ltac:(lia) ltac:(lia))).
  rewrite (bind_eq_Ok (contents _) _ d0 _ d0 eq_refl).
  destruct (negb _); [exact I|].
  ok_step (tmpU16_total 32 34 d0) as vmaj.
  ok_step (tmpU16_total 34 36 d0) as vmin.
  rewrite (bind_eq_Ok (modify _) _ d0 tt _ eq_refl).
  set (d1 := set_version d0 vmaj vmin).
  assert (Ht1 : len (tmpBuf d1) = 64) by exact Ht0.
  destruct (vmaj <? 3); [exact I|].
  rewrite (bind_eq_Ok (ret tt) _ d1 tt d1 eq_refl).
  apply (errOnly_bind _ _ _ (fun _ d' => len (tmpBuf d') = 64)).
  { apply errOnly_readBlockHeader; [lia|]. intros bh d' Ht' _. lia. }
  intros bh d2 Ht2.
  destruct (negb (id bh =? imageBlock)); [exact I|].
  destruct (Z.ltb_spec (dataLen bh) 38) as [|Hlo]; [exact I|].
  destruct (Z.ltb_spec 64 (dataLen bh)) as [|Hhi]; [exact I|].
  simpl orb. cbv iota.
  rewrite (bind_eq_Ok (ret tt) _ d2 tt d2 eq_refl).
  apply (errOnly_bind _ _ _ (fun s d' => s = mkSlice 0 (dataLen bh) /\
                                        len (tmpBuf d') = 64)).
  { apply errOnly_readTmp; [lia|]. intros d' Ht' _. split; [reflexivity|lia]. }
  intros buf0 d3 [-> Ht3].
  assert (exists buf, (if 4 <=? vmaj
                       then reslice (mkSlice 0 (dataLen bh)) 4
                              (slen (mkSlice 0 (dataLen bh)))
                       else ret (mkSlice 0 (dataLen bh))) d3
                      = Ok buf d3 /\ 0 <= soff buf <= 4 /\ 38 <= soff buf + slen buf)
    as (buf & Ebuf & Hoff & Hlen).
  { destruct (4 <=? vmaj).
    - rewrite reslice_ok by (simpl; lia). eexists. split; [reflexivity|].
      simpl. lia.
    - eexists. split; [reflexivity|]. simpl. lia. }
  rewrite (bind_eq_Ok _ _ _ _ _ Ebuf).
  ok_step (u32at_total buf 0 4 d3) as w.
  ok_step (u32at_total buf 4 8 d3) as h.
  ok_step (u64at_total buf 8 16 d3) as rs.
  ok_step (index_total buf 16 d3) as rm.
  ok_step (u16at_total buf 17 19 d3) as cp.
  ok_step (u16at_total buf 19 21 d3) as bd.
  ok_step (u16at_total buf 21 23 d3) as pc.
  ok_step (u32at_total buf 23 27 d3) as cc.
  ok_step (index_total buf 27 d3) as gs.
  ok_step (u32at_total buf 28 32 d3) as ts.
  ok_step (u32at_total buf 32 36 d3) as al.
  ok_step (u16at_total buf 36 38 d3) as lc.
  rewrite (bind_eq_Ok (modify _) _ d3 tt _ eq_refl).
  destruct (_ || _); [|exact I].
  rewrite (bind_eq_Ok (ret tt) _ _ tt _ eq_refl).
  destruct (b2z gs =? 1).
  - destruct (bd =? 8); [exact I|]. destruct (bd =? 16); exact I.
  - destruct (bd =? 16); [exact I|]. destruct (_ || _); [exact I|].
    destruct (_ || _); exact I.
Qed.

(** DecodeConfig never panics: whatever the stream holds, it returns a
    configuration or an error.  No slice or index expression of readHeader
    leaves the 64 bytes of the scratch buffer. *)
Theorem DecodeConfig_never_panics input :
  exists cfg err, DecodeConfig input = Returns cfg err.
Proof.
  unfold DecodeConfig, runDecodeConfig, newDecoder, bind.
  pose proof (errOnly_readHeader (initDecoder input) eq_refl) as H.
  destruct (readHeader (initDecoder input)) as [[] d|p d]; simpl.
  - eauto.
  - destruct p; try contradiction. eauto.
Qed.

(** ** Fuzz *)

(** Fuzz does what Decode does: it returns 1 when Decode returns an image
    without error, 0 when Decode returns an error, and panics exactly when
    Decode panics, which is with a run-time fault.  The call of DecodeConfig
    changes nothing of this, and the panic of Fuzz's own, for an image
    beside an error, never happens. *)
Theorem Fuzz_follows_Decode inflate data :
  match Decode inflate data with
  | Returns _ None => Fuzz inflate data = FuzzReturns 1
  | Returns _ (Some _) => Fuzz inflate data = FuzzReturns 0
  | Panics p => Fuzz inflate data = FuzzPanics p /\ exists f, p = PRuntime f
  end.
Proof.
  unfold Fuzz, DecodeConfig, Decode, runDecodeConfig, runDecode, newDecoder,
    bind.
  pose proof (errOnly_readHeader (initDecoder data) eq_refl) as H.
  destruct (readHeader (initDecoder data)) as [[] d|p d]; simpl.
  - pose proof (decode_kept inflate d) as K.
    destruct (decode inflate d) as [im d'|p d']; simpl; [reflexivity|].
    destruct K as [_ Hp].
    destruct p as [e|f|s|]; simpl; try (split; [reflexivity|eauto]);
      [reflexivity|congruence].
  - destruct p; try contradiction. reflexivity.
Qed.

(** ** Longer streams *)

Create HintDb ext.

Section Ext.

Variable P : decoder -> Prop.

Hypothesis P_r : forall d x, P d -> P (set_r d x).
Hypothesis P_tmp : forall d t o, P d -> P (set_tmp d t o).
Hypothesis P_stdout : forall d o, P d -> P (set_stdout d o).
Hypothesis P_creator : forall d c, P d -> P (set_creator d c).
Hypothesis P_palette : forall d p, P d -> P (set_palette d p).

Hint Resolve pure_ret pure_error pure_fault pure_orFault pure_printf
  pure_reslice pure_tmpSlice pure_contents pure_index pure_store pure_make
  pure_growTmp pure_u16at pure_u32at pure_u64at pure_tmpU16 pure_tmpU32
  pure_decodeChunkHeader pure_setCreator pure_paletteLoop
  pure_pixelBufferLength pure_NewRGBA pure_NewRGBA64 pure_NewGray16
  pure_NewPaletted pure_setPix pure_fillAlpha pure_fillAlpha64 pure_palStore
  pure_scatterRGBA pure_scatterRGBA64 pure_scatterGray16 pure_scatterBits
  pure_palAlias pure_imageOf pure_nextChannel pure_scatter : pure.

Ltac pure_step' :=
  match goal with
  | |- pure_ _ (bind _ _) => apply pure_bind; [|intros]
  | |- pure_ _ (gets _) => apply pure_gets; reflexivity
  | |- pure_ _ (panic _) => apply pure_panic
  | |- pure_ _ (if ?c then _ else _) => destruct c
  | |- pure_ _ (match ?x with _ => _ end) => destruct x
  | |- pure_ _ _ => solve [eauto with pure]
  end.

Ltac pure_tac' := repeat pure_step'.

Lemma ext_of_pure {T} (m : M T) : pure_ P m -> ext P m.
Proof.
  intros H d HP a d' E. destruct (H d HP a d' E) as (HP' & Hr & Hx).
  split; [exact HP'|]. intros z. rewrite Hx, Hr. reflexivity.
Qed.

Lemma extAt_bind {T U} (m : M T) (f : T -> M U) d :
  extAt P m d ->
  (forall a d1, m d = Ok a d1 -> P d1 -> extAt P (f a) d1) ->
  extAt P (bind m f) d.
Proof.
  intros Hm Hf HP b d2 E. bind_inv E as a d1 E1.
  destruct (Hm HP a d1 E1) as (HP1 & Hz1).
  destruct (Hf a d1 E1 HP1 HP1 b d2 E) as (HP2 & Hz2).
  split; [exact HP2|]. intros z. unfold bind. rewrite Hz1.
  specialize (Hz2 z). exact Hz2.
Qed.

Lemma ext_bind {T U} (m : M T) (f : T -> M U) :
  ext P m -> (forall a, ext P (f a)) -> ext P (bind m f).
Proof. intros Hm Hf d. apply extAt_bind; [apply Hm|]. intros. apply Hf. Qed.

Lemma ext_skip n : ext P (skip n).
Proof.
  intros d HP a d' E. unfold skip in E |- *.
  destruct (Z.ltb_spec n 0) as [Hn|Hn]; [discriminate|].
  destruct (Z.eqb_spec n 0) as [Hz|Hz].
  { revert d HP a d' E. apply (ext_of_pure (ret tt)), pure_ret. }
  cbv beta in E. destruct (Z.ltb_spec (len (r d)) n) as [Hs|Hs]; [discriminate|].
  injection E as <- <-. unfold len in Hs.
  split; [apply P_r, HP|]. intros z. simpl.
  destruct (Z.ltb_spec (len (r d ++ z)) n) as [Hs'|Hs'].
  { unfold len in Hs'. rewrite length_app in Hs'. lia. }
  rewrite drop_app_le by lia. reflexivity.
Qed.

Lemma ext_read s : ext P (read s).
Proof.
  intros d HP a d' E. unfold read in E |- *.
  destruct (Z.leb_spec (slen s) 0) as [Hn|Hn].
  { revert d HP a d' E. apply (ext_of_pure (ret tt)), pure_ret. }
  destruct (Z.ltb_spec (len (r d)) (slen s)) as [Hs|Hs];
    [destruct (r d); discriminate|].
  injection E as <- <-. unfold len in Hs.
  split; [apply P_tmpBuf; [exact P_tmp|]; apply P_r, HP|]. intros z. simpl.
  destruct (Z.ltb_spec (len (r d ++ z)) (slen s)) as [Hs'|Hs'].
  { unfold len in Hs'. rewrite length_app in Hs'. lia. }
  rewrite drop_app_le, take_app_le by lia. reflexivity.
Qed.

Lemma ext_readByte : ext P readByte.
Proof.
  intros d HP a d' E. apply readByte_inv in E as (q & Hq & ->).
  split; [apply P_r, HP|]. intros z. unfold readByte. simpl. rewrite Hq.
  reflexivity.
Qed.

Hint Resolve ext_skip ext_read ext_readByte : ext.


(** One step of a proof that a function stands a longer stream. *)
Ltac ext_step :=
  match goal with
  | |- ext _ (bind _ _) => apply ext_bind; [|intros]
  | |- ext _ (if ?c then _ else _) => destruct c
  | |- ext _ (match ?x with _ => _ end) => destruct x
  | |- ext _ _ => solve [eauto with ext]
  | |- ext _ _ => apply ext_of_pure; solve [pure_tac']
  end.

Ltac ext_tac := repeat ext_step.

Lemma ext_readTmp n : ext P (readTmp n).
Proof. unfold readTmp. ext_tac. Qed.

Hint Resolve ext_readTmp : ext.

Lemma ext_readUint16 : ext P readUint16.
Proof. unfold readUint16. ext_tac. Qed.

Lemma ext_readUint32 : ext P readUint32.
Proof. unfold readUint32. ext_tac. Qed.

Lemma ext_readRect : ext P readRect.
Proof. unfold readRect. ext_tac. Qed.

Lemma ext_readString n : ext P (readString n).
Proof. unfold readString. ext_tac. Qed.

Lemma ext_readBlockHeader : ext P readBlockHeader.
Proof. unfold readBlockHeader. ext_tac. Qed.

Lemma ext_readChunkHeader : ext P readChunkHeader.
Proof. unfold readChunkHeader. ext_tac. Qed.

Hint Resolve ext_readUint16 ext_readUint32 ext_readRect ext_readString
  ext_readBlockHeader ext_readChunkHeader : ext.

(** A loop bounded by the length of the stream does the same under any
    bound above it. *)
Lemma ext_fuel {T} (loop : nat -> M T) (m : M T) :
  (forall d, m d = loop (S (length (r d))) d) ->
  (forall f1 f2 d, (length (r d) < f1)%nat -> (length (r d) < f2)%nat ->
                   loop f1 d = loop f2 d) ->
  (forall fuel, ext P (loop fuel)) ->
  ext P m.
Proof.
  intros Hm Hfuel Hext d HP a d' E. rewrite Hm in E.
  destruct (Hext (S (length (r d) + length (r d))) d HP a d') as (HP' & Hz).
  { rewrite <- E. apply Hfuel; lia. }
  split; [exact HP'|]. intros z. rewrite Hm.
  destruct (Hext (S (length (r (set_r d (r d ++ z))))) d HP a d') as (_ & Hz').
  { rewrite <- E. apply Hfuel; simpl; rewrite ?length_app; lia. }
  apply Hz'.
Qed.

Lemma ext_decodeExtendedDataLoop :
  forall fuel totalLen, ext P (decodeExtendedDataLoop fuel totalLen).
Proof.
  induction fuel as [|f IH]; intros totalLen; cbn [decodeExtendedDataLoop].
  - ext_tac.
  - ext_tac.
Qed.

Lemma ext_decodeExtendedDataBlock totalLen : ext P (decodeExtendedDataBlock totalLen).
Proof.
  apply (ext_fuel (fun f => decodeExtendedDataLoop f totalLen)).
  - reflexivity.
  - intros. apply decodeExtendedDataLoop_fuel; assumption.
  - intros. apply ext_decodeExtendedDataLoop.
Qed.

Lemma ext_decodeCreatorField ch : ext P (decodeCreatorField ch).
Proof. unfold decodeCreatorField. cbv zeta. ext_tac. Qed.

Hint Resolve ext_decodeCreatorField : ext.

Lemma ext_decodeCreatorLoop :
  forall fuel totalLen, ext P (decodeCreatorLoop fuel totalLen).
Proof.
  induction fuel as [|f IH]; intros totalLen; cbn [decodeCreatorLoop].
  - ext_tac.
  - ext_tac.
Qed.

Lemma ext_decodeCreatorBlock totalLen : ext P (decodeCreatorBlock totalLen).
Proof.
  apply (ext_fuel (fun f => decodeCreatorLoop f totalLen)).
  - reflexivity.
  - intros. apply decodeCreatorLoop_fuel; assumption.
  - intros. apply ext_decodeCreatorLoop.
Qed.

Lemma ext_decodeColorBlock ln : ext P (decodeColorBlock ln).
Proof.
  unfold decodeColorBlock. ext_tac.
  apply ext_of_pure, pure_modify; [reflexivity|reflexivity|].
  intros. apply P_palette. assumption.
Qed.

Hint Resolve ext_decodeExtendedDataBlock ext_decodeCreatorBlock
  ext_decodeColorBlock : ext.

Lemma ext_readLayer l : ext P (readLayer l).
Proof. unfold readLayer. cbv zeta. ext_tac. Qed.

Hint Resolve ext_readLayer : ext.

Lemma ext_layerCase lc : ext P (layerCase lc).
Proof. unfold layerCase. cbv zeta. ext_tac. Qed.

Lemma ext_rleLoop buf : forall fuel n j, ext P (rleLoop fuel buf n j).
Proof.
  induction fuel as [|f IH]; intros n j.
  - cbn [rleLoop]. ext_tac.
  - rewrite rleLoop_S.
    destruct (0 <? n); [|apply ext_of_pure, pure_ret].
    apply ext_bind; [apply ext_readByte|]. intros c. cbv zeta.
    destruct (128 <? b2z c).
    + apply ext_bind; [apply ext_readByte|]. intros b.
      apply ext_bind; [|intros; apply IH].
      apply ext_of_pure, pure_for_. intros. pure_tac'.
    + ext_tac.
Qed.

Lemma ext_rle buf n : ext P (rle buf n).
Proof.
  apply (ext_fuel (fun f => rleLoop f buf n 0)).
  - reflexivity.
  - intros. apply rleLoop_fuel; assumption.
  - intros. apply ext_rleLoop.
Qed.

Hint Resolve ext_layerCase ext_rle : ext.

Section ExtNotDeflate.

Variable inflate : list byte -> Z -> inflated.

(** The data of the channels is not deflate-compressed. *)
Hypothesis P_comp : forall d, P d -> comp d <> compressionLZ77.

Lemma ext_gets_comp {T} (k : Z -> M T) :
  (forall cp, cp <> compressionLZ77 -> ext P (k cp)) ->
  ext P (bind (gets comp) k).
Proof.
  intros Hk d. apply extAt_bind; [apply ext_of_pure, pure_gets; reflexivity|].
  intros cp d1 E HP. apply gets_inv in E as (-> & ->).
  apply Hk, P_comp, HP.
Qed.

Lemma ext_channelCase bh lc : ext P (channelCase inflate bh lc).
Proof.
  unfold channelCase.
  repeat first
    [ apply ext_gets_comp; intros cp Hcp;
      destruct (Z.eqb_spec cp compressionLZ77); [contradiction|]
    | ext_step ].
Qed.

Hint Resolve ext_channelCase : ext.

Lemma ext_decodeLayersStep lc : ext P (decodeLayersStep inflate lc).
Proof. unfold decodeLayersStep. ext_tac. Qed.

Hint Resolve ext_decodeLayersStep : ext.

Lemma ext_decodeLayersLoop :
  forall fuel lc, ext P (decodeLayersLoop inflate fuel lc).
Proof. induction fuel as [|f IH]; intros lc; cbn [decodeLayersLoop]; ext_tac. Qed.

Lemma ext_decodeLayers : ext P (decodeLayers inflate).
Proof.
  apply (ext_fuel (fun f => decodeLayersLoop inflate f zeroLocals)).
  - reflexivity.
  - intros. apply decodeLayersLoop_fuel; assumption.
  - intros. apply ext_decodeLayersLoop.
Qed.

Hint Resolve ext_decodeLayers : ext.

Lemma ext_decodeStep : ext P (decodeStep inflate).
Proof. unfold decodeStep. ext_tac. Qed.

Hint Resolve ext_decodeStep : ext.

Lemma ext_decodeLoop : forall fuel, ext P (decodeLoop inflate fuel).
Proof. induction fuel as [|f IH]; cbn [decodeLoop]; ext_tac. Qed.

Lemma ext_decode : ext P (decode inflate).
Proof.
  apply (ext_fuel (decodeLoop inflate)).
  - reflexivity.
  - intros. apply decodeLoop_fuel; assumption.
  - intros. apply ext_decodeLoop.
Qed.

End ExtNotDeflate.

Lemma ext_readHeader :
  (forall d a b, P d -> P (set_version d a b)) ->
  (forall d w h rs rm cp bd pc cc gs ts al lc,
      P d -> P (set_attrs d w h rs rm cp bd pc cc gs ts al lc)) ->
  (forall d c, P d -> P (set_colorModel d c)) ->
  ext P readHeader.
Proof.
  intros Hv Ha Hc. unfold readHeader. ext_tac;
    apply ext_of_pure, pure_modify; solve [reflexivity | auto].
Qed.

End Ext.


Lemma runDecode_ext inflate input im d' :
  runDecode inflate input = Ok im d' ->
  comp d' <> compressionLZ77 ->
  forall z, runDecode inflate (input ++ z) = Ok im (set_r d' (r d' ++ z)).
Proof.
  intros E Hcomp z. unfold runDecode, newDecoder in *.
  pose (Q := fun d : decoder => comp d = comp d').
  assert (HQ : ext Q (decode inflate)).
  { apply ext_decode; unfold Q; try (intros; assumption).
    intros d ->. exact Hcomp. }
  assert (HT : ext (fun _ => True) readHeader) by (apply ext_readHeader; auto).
  bind_inv E as u d1 E1.
  assert (Hk : kept d1 d') by
    (pose proof (decode_kept inflate d1) as K; rewrite E in K; exact K).
  assert (HQ1 : Q d1) by (unfold Q; symmetry; apply Hk).
  destruct (HT _ I u d1 E1) as (_ & Hz1).
  destruct (HQ d1 HQ1 im d' E) as (_ & Hz2).
  unfold bind.
  change (initDecoder (input ++ z))
    with (set_r (initDecoder input) (r (initDecoder input) ++ z)).
  rewrite Hz1. apply Hz2.
Qed.

(** Decode reads the stream up to the end of the layer bank and no
    further, and what it returns depends on those bytes only: when it
    succeeds on a stream whose channels are not deflate-compressed, it
    returns the same image on every stream that starts with the bytes it
    read, be it shorter or longer. *)
Theorem Decode_depends_on_prefix inflate input input' im d' :
  runDecode inflate input = Ok im d' ->
  comp d' <> compressionLZ77 ->
  take (length input - length (r d')) input' =
  take (length input - length (r d')) input ->
  Decode inflate input' = Returns im None.
Proof.
  intros E Hcomp Hp.
  set (c := (length input - length (r d'))%nat) in *.
  destruct (runDecode_cut inflate input im d' E Hcomp c) as [Hok _].
  specialize (Hok (Nat.le_refl _)).
  pose proof (runDecode_ext inflate _ _ _ Hok Hcomp (drop c input')) as Hx.
  rewrite <- Hp, take_drop in Hx.
  unfold Decode. rewrite Hx. reflexivity.
Qed.

Lemma Decode_depends_on_prefix_witness :
  Decode noInflate (rgbFile ++ [Byte.x07; Byte.x08]) =
  Returns (Some (ImRGBA (mkPix [Byte.x01; Byte.x03; Byte.x05; Byte.xff;
                                Byte.x02; Byte.x04; Byte.x06; Byte.xff]
                           8 (mkRect 0 0 2 1)))) None.
Proof.
  apply (Decode_depends_on_prefix noInflate rgbFile
           (rgbFile ++ [Byte.x07; Byte.x08]) _ rgbFinal).
  - vm_compute. reflexivity.
  - vm_compute. discriminate.
  - vm_compute. reflexivity.
Defined.

(** ** What the loops keep *)

Lemma attrsKept_refl d : attrsKept d d.
Proof.
  split; [apply suffix_refl|]. split; [exists []; symmetry; apply app_nil_r|].
  reflexivity.
Qed.

Lemma attrsKept_trans d1 d2 d3 :
  attrsKept d1 d2 -> attrsKept d2 d3 -> attrsKept d1 d3.
Proof.
  intros (S1 & (e1 & O1) & E1) (S2 & (e2 & O2) & E2).
  split; [eauto using suffix_trans|].
  split; [exists (e1 ++ e2); rewrite O2, O1, app_assoc; reflexivity|].
  rewrite E2. exact E1.
Qed.

Lemma attrsKept_simple d d' :
  suffix d d' -> stdout d' = stdout d -> attrs d' = attrs d -> attrsKept d d'.
Proof.
  intros Hs Ho Ha. split; [exact Hs|]. split; [|exact Ha].
  exists []. rewrite app_nil_r. exact Ho.
Qed.

Lemma decode_attrsKept inflate d : good attrsKept d (decode inflate d).
Proof.
  apply safe_decode.
  - apply attrsKept_refl.
  - apply attrsKept_trans.
  - intros. apply attrsKept_simple; try reflexivity. apply suffix_set_r.
  - intros. apply attrsKept_simple; try reflexivity. apply suffix_eq. reflexivity.
  - intros. split; [apply suffix_eq; reflexivity|].
    split; [eexists; reflexivity|reflexivity].
  - intros. apply attrsKept_simple; try reflexivity. apply suffix_eq. reflexivity.
  - intros. apply attrsKept_simple; try reflexivity. apply suffix_eq. reflexivity.
  - intros d1 d2 H. apply suffix_len, H.
Qed.

(** decode never writes a field that readHeader set: from its start to its
    return or its panic, the version, the dimensions, the compression, the
    bit depth and the other image attributes stay, the stream is only read
    forward, and lines are only added to the output. *)
Theorem decode_keeps_attributes inflate d :
  match decode inflate d with
  | Ok _ d' => attrsKept d d'
  | Panic _ d' => attrsKept d d'
  end.
Proof.
  pose proof (decode_attrsKept inflate d) as H.
  destruct (decode inflate d) as [im d'|p d']; [exact H|apply H].
Qed.

Lemma inert_refl d : inert d d.
Proof. split; [apply attrsKept_refl|]. split; reflexivity. Qed.

Lemma inert_trans d1 d2 d3 : inert d1 d2 -> inert d2 d3 -> inert d1 d3.
Proof.
  intros (K1 & C1 & P1) (K2 & C2 & P2).
  split; [eauto using attrsKept_trans|]. split; congruence.
Qed.

(** An extended-data block leaves no trace in the decoder: whatever the
    block holds, and whether decodeExtendedDataBlock returns or panics, the
    image attributes, the creator data and the palette are as before; the
    stream was read forward and lines were added to the output. *)
Theorem extended_data_is_inert totalLen d :
  match decodeExtendedDataBlock totalLen d with
  | Ok _ d' => inert d d'
  | Panic _ d' => inert d d'
  end.
Proof.
  assert (H : good inert d (decodeExtendedDataBlock totalLen d)).
  { apply safe_decodeExtendedDataBlock.
    - apply inert_refl.
    - apply inert_trans.
    - intros. split; [|split; reflexivity].
      apply attrsKept_simple; try reflexivity. apply suffix_set_r.
    - intros. split; [|split; reflexivity].
      apply attrsKept_simple; try reflexivity. apply suffix_eq. reflexivity.
    - intros. split; [|split; reflexivity].
      split; [apply suffix_eq; reflexivity|].
      split; [eexists; reflexivity|reflexivity].
    - intros d1 d2 K. apply suffix_len, K. }
  destruct (decodeExtendedDataBlock totalLen d) as [u d'|p d'];
    [exact H|apply H].
Qed.

(** Every turn of the block loops of decode and decodeLayers takes a block
    header from the stream, so the loops end on every stream: neither
    Decode nor DecodeConfig is stopped by the bound that the model puts on
    its loops. *)
Theorem block_loops_end inflate :
  (forall d x d', decodeStep inflate d = Ok x d' ->
                  (length (r d') < length (r d))%nat) /\
  (forall lc d x d', decodeLayersStep inflate lc d = Ok x d' ->
                     (length (r d') < length (r d))%nat) /\
  (forall input, Decode inflate input <> Panics PFuel) /\
  (forall input, DecodeConfig input <> Panics PFuel).
Proof.
  split; [|split; [|split]].
  - intros d x d' E.
    eapply (decodeStep_takes suffix); [..|exact E]; suffix_side.
  - intros lc d x d' E.
    eapply (decodeLayersStep_takes suffix); [..|exact E]; suffix_side.
  - intros input. apply Decode_total.
  - intros input. apply DecodeConfig_total.
Qed.

Lemma block_loops_end_witness :
  (length (r rgbFinal) < length (r (initDecoder rgbFile)))%nat.
Proof.
  pose (d1 := match readHeader (initDecoder rgbFile) with
              | Ok _ d => d
              | Panic _ d => d
              end).
  apply Nat.lt_le_trans with (length (r d1)); [|vm_compute; lia].
  apply (proj1 (block_loops_end noInflate) d1
           (Some (Some (ImRGBA (mkPix [Byte.x01; Byte.x03; Byte.x05; Byte.xff;
                                      Byte.x02; Byte.x04; Byte.x06; Byte.xff]
                                  8 (mkRect 0 0 2 1))))) rgbFinal).
  vm_compute. reflexivity.
Defined.

(** ** The creator block *)

Lemma decodeCreatorField_sets d c rest :
  creatorChunkOk c ->
  r d = snd c ++ rest -> 10 <= len (tmpBuf d) ->
  wp (decodeCreatorField (mkChunkHeader (fst c) (len (snd c)))) d
     (fun _ d' => r d' = rest /\ grown d d' /\
                  creator d' = applyChunk (creator d) c).
Proof.
  intros (Hk & Hl & Hsz) Hr Ht. unfold decodeCreatorField, applyChunk.
  cbn [fieldKeyword chunkLen]. cbv zeta.
  assert (Hstr : len (snd c) <= 1024 -> forall f,
            wp (let* v := readString (len (snd c)) in setCreator f v) d
               (fun _ d' => r d' = rest /\ grown d d' /\
                            creator d' = f (creator d) (snd c))).
  { intros Hs f. apply wp_bind. eapply wp_readString; [exact Hr|exact Hs|].
    intros d1 Hr1 Hg1 Hc1. eexists tt, _. split; [reflexivity|].
    split; [exact Hr1|]. split.
    - eapply grown_trans; [exact Hg1|apply grown_set_creator].
    - simpl. rewrite Hc1. reflexivity. }
  assert (Hint : len (snd c) = 4 -> forall f,
            wp (let* v := readUint32 in setCreator f v) d
               (fun _ d' => r d' = rest /\ grown d d' /\
                            creator d' =
                            f (creator d)
                              (match decodeUint32 (snd c) with
                               | Some v => v
                               | None => 0
                               end))).
  { intros Hs f.
    assert (Hl4 : length (snd c) = 4%nat) by (unfold len in Hs; lia).
    destruct (decodeUint32_some (snd c) Hl4) as [z Hz]. rewrite Hz.
    apply wp_bind. eexists z, _.
    split; [apply (readUint32_ok d (snd c) rest z Hr Hl4 Hz); lia|].
    eexists tt, _. split; [reflexivity|]. split; [reflexivity|]. split.
    - eapply grown_trans; [|apply grown_set_creator].
      apply same_grown, same_read; [unfold len in Ht; lia|exact Hl4].
    - reflexivity. }
  destruct (Z.eqb_spec (fst c) 0) as [E|_]; [try rewrite E in Hsz; simpl in Hsz; apply Hstr, Hsz|].
  destruct (Z.eqb_spec (fst c) 1) as [E|_]; [try rewrite E in Hsz; simpl in Hsz; apply Hint, Hsz|].
  destruct (Z.eqb_spec (fst c) 2) as [E|_]; [try rewrite E in Hsz; simpl in Hsz; apply Hint, Hsz|].
  destruct (Z.eqb_spec (fst c) 3) as [E|_]; [try rewrite E in Hsz; simpl in Hsz; apply Hstr, Hsz|].
  destruct (Z.eqb_spec (fst c) 4) as [E|_]; [try rewrite E in Hsz; simpl in Hsz; apply Hstr, Hsz|].
  destruct (Z.eqb_spec (fst c) 5) as [E|_]; [try rewrite E in Hsz; simpl in Hsz; apply Hstr, Hsz|].
  destruct (Z.eqb_spec (fst c) 6) as [E|_]; [try rewrite E in Hsz; simpl in Hsz; apply Hint, Hsz|].
  destruct (Z.eqb_spec (fst c) 7) as [E|_]; [try rewrite E in Hsz; simpl in Hsz; apply Hint, Hsz|].
  eapply wp_skip; [exact Hr|reflexivity|].
  intros d1 Hr1 Hs1. split; [exact Hr1|]. split; [apply same_grown, Hs1|].
  apply same_fields in Hs1. apply Hs1.
Qed.

Lemma decodeCreatorLoop_sets : forall cs fuel d rest,
  Forall creatorChunkOk cs ->
  r d = flat_map chunkBytes cs ++ rest ->
  10 <= len (tmpBuf d) ->
  (length cs <= fuel)%nat ->
  wp (decodeCreatorLoop fuel (len (flat_map chunkBytes cs))) d
     (fun _ d' => r d' = rest /\ grown d d' /\
                  creator d' = fold_left applyChunk cs (creator d)).
Proof.
  induction cs as [|c cs IH]; intros fuel d rest Hok Hr Ht Hfuel.
  - simpl in *. destruct fuel; simpl; apply wp_ret; repeat split;
      auto using grown_refl; lia.
  - destruct fuel as [|f]; [simpl in Hfuel; lia|].
    inversion Hok as [|? ? Hc Hcs]; subst.
    pose proof Hc as (Hk & Hl & _).
    change (flat_map chunkBytes (c :: cs))
      with (chunkBytes c ++ flat_map chunkBytes cs) in *.
    rewrite len_app, len_chunkBytes.
    pose proof (len_nonneg (snd c)). pose proof (len_nonneg (flat_map chunkBytes cs)).
    cbn [decodeCreatorLoop].
    destruct (Z.ltb_spec 0 (10 + len (snd c) + len (flat_map chunkBytes cs))); [|lia].
    unfold chunkBytes in Hr at 1. rewrite <- !app_assoc in Hr.
    apply wp_bind. eapply wp_readChunkHeader; [exact Hr|exact Hk|lia|exact Ht|].
    intros d1 Hr1 Hs1. simpl chunkLen.
    pose proof (same_grown _ _ Hs1) as Hg1.
    assert (Hc1 : creator d1 = creator d) by (apply same_fields in Hs1; apply Hs1).
    apply wp_bind.
    destruct (decodeCreatorField_sets d1 c _ Hc Hr1) as (u & d2 & E2 & Hr2 & Hg2 & Hc2).
    { destruct Hg1. lia. }
    exists u, d2. split; [exact E2|].
    replace (10 + len (snd c) + len (flat_map chunkBytes cs) - (10 + len (snd c)))
      with (len (flat_map chunkBytes cs)) by lia.
    pose proof (grown_trans _ _ _ Hg1 Hg2) as Hg.
    destruct (IH f d2 rest Hcs Hr2) as (v & d' & E & Hr' & Hg' & Hc').
    { destruct Hg. lia. }
    { simpl in Hfuel. lia. }
    exists v, d'. split; [exact E|]. split; [exact Hr'|].
    split; [eauto using grown_trans|].
    simpl. rewrite Hc', Hc2, Hc1. reflexivity.
Qed.

(** A creator block made of chunks with the data sizes that the decoder
    reads (four bytes for the dates, the application id and version, at
    most 1024 for the strings) is read to its end, and leaves in the
    creator data what its chunks say, taken in order: a later chunk of a
    keyword replaces an earlier one, and a chunk of an unknown keyword is
    passed over. *)
Theorem decodeCreatorBlock_sets_fields d cs rest :
  Forall creatorChunkOk cs ->
  r d = flat_map chunkBytes cs ++ rest ->
  10 <= len (tmpBuf d) ->
  exists d', decodeCreatorBlock (len (flat_map chunkBytes cs)) d = Ok tt d' /\
             r d' = rest /\
             creator d' = fold_left applyChunk cs (creator d).
Proof.
  intros Hok Hr Ht. unfold decodeCreatorBlock.
  destruct (decodeCreatorLoop_sets cs (S (length (r d))) d rest Hok Hr Ht)
    as ([] & d' & E & Hr' & _ & Hc).
  { rewrite Hr, length_app. pose proof (length_chunks cs). lia. }
  exists d'. auto.
Qed.

Lemma decodeCreatorBlock_sets_fields_witness :
  exists d',
    decodeCreatorBlock 37
      (initDecoder (chunkBytes (0, [Byte.x41; Byte.x42]) ++
                    chunkBytes (6, [Byte.x01; Byte.x00; Byte.x00; Byte.x00]) ++
                    chunkBytes (0, [Byte.x43]) ++ [Byte.x09])) = Ok tt d' /\
    r d' = [Byte.x09] /\
    creator d' = mkCreator [Byte.x43] None None [] [] [] 1 0.
Proof.
  apply (decodeCreatorBlock_sets_fields
           (initDecoder (chunkBytes (0, [Byte.x41; Byte.x42]) ++
                         chunkBytes (6, [Byte.x01; Byte.x00; Byte.x00; Byte.x00]) ++
                         chunkBytes (0, [Byte.x43]) ++ [Byte.x09]))
           [(0, [Byte.x41; Byte.x42]);
            (6, [Byte.x01; Byte.x00; Byte.x00; Byte.x00]);
            (0, [Byte.x43])] [Byte.x09]).
  - repeat constructor; vm_compute; try reflexivity; discriminate.
  - reflexivity.
  - vm_compute. discriminate.
Defined.

(** ** Counts that go below zero *)

(** A step that succeeds, before a continuation that panics. *)
Lemma bind_wp_panic {T U} (m : M T) (f : T -> M U) d p :
  wp m d (fun a d1 => exists dx, f a d1 = Panic p dx) ->
  exists dx, bind m f d = Panic p dx.
Proof.
  intros (a & d1 & E & dx & Ef). exists dx.
  rewrite (bind_eq_Ok _ _ _ _ _ E). exact Ef.
Qed.

(** In the layer bank, the count that follows a sub-block of id 33 is
    taken to include its own four bytes: when it is below 4, the decoder
    asks the reader to discard a negative number of bytes, and the turn
    ends with the reader's error for a negative count, no FormatError. *)
Theorem block33_count_below_4 inflate lc d l body n rest :
  r d = blockHdr (versionMajor d) 33 l ++ body ++ le32 n ++ rest ->
  len body = l -> l < 2 ^ 32 -> 0 <= n < 4 ->
  14 <= len (tmpBuf d) ->
  exists dx, decodeLayersStep inflate lc d = Panic (PErr ErrNegativeCount) dx.
Proof.
  intros Hr Hl Hl32 Hn Ht. unfold decodeLayersStep.
  pose proof (len_nonneg body).
  apply bind_wp_panic.
  eapply wp_readBlockHeader; [exact Hr|lia|lia|exact Ht|].
  intros bh d1 Hid Hdl Hr1 Hs1. rewrite Hid, Hdl. simpl.
  pose proof (same_fields _ _ Hs1) as F1.
  apply bind_wp_panic. eapply wp_skip; [exact Hr1|exact Hl|].
  intros d2 Hr2 Hs2. pose proof (same_fields _ _ Hs2) as F2.
  apply bind_wp_panic. eapply wp_readUint32; [exact Hr2|lia|lia|].
  intros d3 Hr3 Hs3.
  unfold bind, skip. destruct (Z.ltb_spec (n - 4) 0); [|lia].
  eexists. reflexivity.
Qed.

Lemma block33_count_below_4_witness :
  exists dx,
    decodeLayersStep noInflate zeroLocals
      (set_version
         (initDecoder (blockHdr 4 33 2 ++ [Byte.x01; Byte.x02] ++ le32 3 ++ []))
         4 0)
    = Panic (PErr ErrNegativeCount) dx.
Proof.
  apply (block33_count_below_4 noInflate zeroLocals
           (set_version
              (initDecoder (blockHdr 4 33 2 ++ [Byte.x01; Byte.x02] ++ le32 3 ++ []))
              4 0)
           2 [Byte.x01; Byte.x02] 3 []).
  - reflexivity.
  - reflexivity.
  - lia.
  - lia.
  - vm_compute. discriminate.
Defined.

(** ** The planes of an image *)

(** A counted loop whose body succeeds under an invariant, without touching
    the decoder, runs to its end. *)
Lemma forTo_total {T} (P : Z -> T -> Prop) (body : Z -> T -> M T) hi step d :
  1 <= step ->
  (forall i s, i < hi -> P i s -> exists s', body i s d = Ok s' d /\ P (i + step) s') ->
  forall fuel i s, (Z.to_nat (hi - i) <= fuel)%nat -> P i s ->
    exists i' s', forTo fuel i hi step body s d = Ok s' d /\ hi <= i' /\ P i' s'.
Proof.
  intros Hstep Hbody. induction fuel as [|f IH]; intros i s Hfuel HP.
  - rewrite forTo_done by lia. exists i, s. split; [reflexivity|]. split; [lia|exact HP].
  - rewrite forTo_S. destruct (Z.ltb_spec i hi) as [Hi|Hi].
    + destruct (Hbody i s Hi HP) as (s1 & E1 & HP1).
      rewrite (bind_eq_Ok _ _ _ _ _ E1). apply IH; [lia|exact HP1].
    + exists i, s. split; [reflexivity|]. split; [lia|exact HP].
Qed.

Lemma setPix_ok pix i b d :
  0 <= i < len pix -> setPix pix i b d = Ok (<[Z.to_nat i := b]> pix) d.
Proof.
  intros Hi. unfold setPix.
  destruct (Z.leb_spec 0 i); [|lia]. destruct (Z.ltb_spec i (len pix)); [|lia].
  reflexivity.
Qed.

Lemma index_some s i d :
  0 <= soff s -> 0 <= i < slen s -> soff s + i < len (tmpBuf d) ->
  exists b, index s i d = Ok b d /\ at_ (tmpBuf d) (soff s + i) = Some b.
Proof.
  intros Hs Hi Hc. destruct (index_total s i d Hs Hi Hc) as [b E].
  exists b. split; [exact E|]. apply index_inv in E. apply E.
Qed.

(** The scatter of a plane into an RGBA image: byte [k / 4] of the plane
    goes to byte [k] of the pixels for every [k] of the component
    [ct - 1], and the other components stay.  The plane is read from the
    scratch buffer, which is not changed. *)
Theorem scatterRGBA_interleaves ct buf pix d :
  1 <= ct <= 4 -> 0 <= soff buf -> len pix <= 4 * slen buf ->
  soff buf + slen buf <= len (tmpBuf d) ->
  exists px,
    scatterRGBA ct buf pix d = Ok px d /\ len px = len pix /\
    forall k, 0 <= k < len pix ->
      at_ px k = if k mod 4 =? ct - 1
                 then at_ (tmpBuf d) (soff buf + k / 4)
                 else at_ pix k.
Proof.
  intros Hct Hoff Hlen Hcap. unfold scatterRGBA, for_.
  destruct (forTo_total
              (fun i s => len s = len pix /\ ct - 1 <= i /\ i mod 4 = ct - 1 /\
                          forall k, 0 <= k < len pix ->
                            at_ s k = if (k mod 4 =? ct - 1) && (k <? i)
                                      then at_ (tmpBuf d) (soff buf + k / 4)
                                      else at_ pix k)
              (fun i p => let* b := index buf (Z.quot i 4) in setPix p i b)
              (len pix) 4 d ltac:(lia))
    with (fuel := Z.to_nat (len pix - (ct - 1))) (i := ct - 1) (s := pix)
    as (i' & px & E & Hi' & Hl & _ & _ & Hk).
  - intros i s Hi (Hl & Hlo & Hm & Hk).
    pose proof (Z.div_mod i 4 ltac:(lia)). pose proof (Z.mod_pos_bound i 4 ltac:(lia)).
    rewrite Z.quot_div_nonneg by lia.
    destruct (index_some buf (i / 4) d) as (b & Eb & Hb); [lia|lia|lia|].
    exists (<[Z.to_nat i := b]> s).
    rewrite (bind_eq_Ok _ _ _ _ _ Eb). split; [apply setPix_ok; lia|].
    rewrite len_insert. split; [exact Hl|]. split; [lia|].
    split; [rewrite <- Hm, <- (Z.mod_add i 1 4) by lia; f_equal; lia|].
    intros k Hkr.
    pose proof (Z.div_mod k 4 ltac:(lia)). pose proof (Z.mod_pos_bound k 4 ltac:(lia)).
    destruct (Z.eq_dec k i) as [->|Hne].
    + rewrite at_insert_eq by lia.
      destruct (Z.eqb_spec (i mod 4) (ct - 1)); [|lia].
      destruct (Z.ltb_spec i (i + 4)); [|lia]. simpl. symmetry. exact Hb.
    + rewrite at_insert_ne by lia. rewrite (Hk k Hkr).
      destruct (Z.eqb_spec (k mod 4) (ct - 1)); [|reflexivity].
      destruct (Z.ltb_spec k i), (Z.ltb_spec k (i + 4)); try reflexivity; lia.
  - lia.
  - split; [reflexivity|]. split; [lia|]. split; [apply Z.mod_small; lia|].
    intros k Hkr. pose proof (Z.mod_pos_bound k 4 ltac:(lia)).
    pose proof (Z.div_mod k 4 ltac:(lia)).
    destruct (Z.eqb_spec (k mod 4) (ct - 1)); [|reflexivity].
    destruct (Z.ltb_spec k (ct - 1)); [|reflexivity].
    pose proof (Z.div_pos k 4 ltac:(lia) ltac:(lia)). lia.
  - exists px. split; [exact E|]. split; [exact Hl|]. intros k Hkr.
    rewrite (Hk k Hkr). destruct (Z.ltb_spec k i'); [|lia].
    rewrite andb_true_r. reflexivity.
Qed.

Lemma scatterRGBA_interleaves_witness :
  exists px,
    scatterRGBA 2 (mkSlice 0 2) (replicate 8 Byte.x00)
      (set_tmpBuf (initDecoder []) [Byte.x0a; Byte.x0b]) =
    Ok px (set_tmpBuf (initDecoder []) [Byte.x0a; Byte.x0b]) /\
    len px = len (replicate 8 Byte.x00) /\
    forall k, 0 <= k < len (replicate 8 Byte.x00) ->
      at_ px k = if k mod 4 =? 2 - 1
                 then at_ (tmpBuf (set_tmpBuf (initDecoder [])
                                     [Byte.x0a; Byte.x0b])) (0 + k / 4)
                 else at_ (replicate 8 Byte.x00) k.
Proof.
  apply (scatterRGBA_interleaves 2 (mkSlice 0 2) (replicate 8 Byte.x00)
           (set_tmpBuf (initDecoder []) [Byte.x0a; Byte.x0b])).
  - lia.
  - simpl. lia.
  - vm_compute. discriminate.
  - vm_compute. discriminate.
Defined.

(** The scatter of a plane of 16-bit samples into an RGBA64 image: the
    samples lie low byte first in the plane and high byte first in the
    pixels.  Sample [k / 8] of the plane goes to the two bytes of the
    component [ct - 1] of pixel [k / 8]; the other components stay. *)
Theorem scatterRGBA64_swaps_bytes ct buf pix d :
  1 <= ct <= 4 -> 0 <= soff buf -> len pix mod 8 = 0 ->
  len pix <= 4 * slen buf -> soff buf + slen buf <= len (tmpBuf d) ->
  exists px,
    scatterRGBA64 ct buf pix d = Ok px d /\ len px = len pix /\
    forall k, 0 <= k < len pix ->
      at_ px k = if k mod 8 =? 2 * (ct - 1)
                 then at_ (tmpBuf d) (soff buf + (2 * (k / 8) + 1))
                 else if k mod 8 =? 2 * (ct - 1) + 1
                 then at_ (tmpBuf d) (soff buf + 2 * (k / 8))
                 else at_ pix k.
Proof.
  intros Hct Hoff Hmod Hlen Hcap. unfold scatterRGBA64, for_.
  pose proof (Z.div_mod (len pix) 8 ltac:(lia)) as Hdm.
  destruct (forTo_total
              (fun i s => len s = len pix /\ (ct - 1) * 2 <= i /\
                          i mod 8 = (ct - 1) * 2 /\
                          forall k, 0 <= k < len pix ->
                            at_ s k =
                            if (k mod 8 =? 2 * (ct - 1)) && (k <? i)
                            then at_ (tmpBuf d) (soff buf + (2 * (k / 8) + 1))
                            else if (k mod 8 =? 2 * (ct - 1) + 1) && (k <? i)
                            then at_ (tmpBuf d) (soff buf + 2 * (k / 8))
                            else at_ pix k)
              (fun i p =>
                 let* b1 := index buf (2 * Z.quot i 8 + 1) in
                 let* p := setPix p i b1 in
                 let* b0 := index buf (2 * Z.quot i 8) in
                 setPix p (i + 1) b0)
              (len pix) 8 d ltac:(lia))
    with (fuel := Z.to_nat (len pix - (ct - 1) * 2)) (i := (ct - 1) * 2) (s := pix)
    as (i' & px & E & Hi' & Hl & _ & _ & Hk).
  - intros i s Hi (Hl & Hlo & Hm & Hk).
    pose proof (Z.div_mod i 8 ltac:(lia)). pose proof (Z.mod_pos_bound i 8 ltac:(lia)).
    rewrite Z.quot_div_nonneg by lia.
    destruct (index_some buf (2 * (i / 8) + 1) d) as (b1 & Eb1 & Hb1); [lia|lia|lia|].
    destruct (index_some buf (2 * (i / 8)) d) as (b0 & Eb0 & Hb0); [lia|lia|lia|].
    exists (<[Z.to_nat (i + 1) := b0]> (<[Z.to_nat i := b1]> s)).
    rewrite (bind_eq_Ok _ _ _ _ _ Eb1).
    rewrite (bind_eq_Ok _ _ _ _ _ (setPix_ok s i b1 d ltac:(lia))).
    rewrite (bind_eq_Ok _ _ _ _ _ Eb0).
    split; [apply setPix_ok; rewrite len_insert; lia|].
    rewrite !len_insert. split; [exact Hl|]. split; [lia|].
    split; [rewrite <- Hm, <- (Z.mod_add i 1 8) by lia; f_equal; lia|].
    intros k Hkr.
    pose proof (Z.div_mod k 8 ltac:(lia)). pose proof (Z.mod_pos_bound k 8 ltac:(lia)).
    destruct (Z.eq_dec k (i + 1)) as [->|Hne1].
    + rewrite at_insert_eq by (rewrite len_insert; lia).
      assert (Hq : (i + 1) / 8 = i / 8).
      { symmetry. apply (Z.div_unique (i + 1) 8 (i / 8) (i mod 8 + 1)); lia. }
      assert (Hr : (i + 1) mod 8 = i mod 8 + 1).
      { symmetry. apply (Z.mod_unique (i + 1) 8 (i / 8) (i mod 8 + 1)); lia. }
      rewrite Hq, Hr.
      destruct (Z.eqb_spec (i mod 8 + 1) (2 * (ct - 1))); [lia|].
      destruct (Z.eqb_spec (i mod 8 + 1) (2 * (ct - 1) + 1)); [|lia].
      destruct (Z.ltb_spec (i + 1) (i + 8)); [|lia]. simpl. symmetry. exact Hb0.
    + rewrite at_insert_ne by lia.
      destruct (Z.eq_dec k i) as [->|Hne].
      * rewrite at_insert_eq by lia.
        destruct (Z.eqb_spec (i mod 8) (2 * (ct - 1))); [|lia].
        destruct (Z.ltb_spec i (i + 8)); [|lia]. simpl. symmetry. exact Hb1.
      * rewrite at_insert_ne by lia. rewrite (Hk k Hkr).
        destruct (Z.eqb_spec (k mod 8) (2 * (ct - 1)));
          destruct (Z.eqb_spec (k mod 8) (2 * (ct - 1) + 1));
          destruct (Z.ltb_spec k i), (Z.ltb_spec k (i + 8));
          try reflexivity; lia.
  - lia.
  - split; [reflexivity|]. split; [lia|]. split; [apply Z.mod_small; lia|].
    intros k Hkr. pose proof (Z.mod_pos_bound k 8 ltac:(lia)).
    pose proof (Z.div_mod k 8 ltac:(lia)).
    pose proof (Z.div_pos k 8 ltac:(lia) ltac:(lia)).
    destruct (Z.eqb_spec (k mod 8) (2 * (ct - 1)));
      destruct (Z.eqb_spec (k mod 8) (2 * (ct - 1) + 1));
      destruct (Z.ltb_spec k ((ct - 1) * 2)); try reflexivity; lia.
  - exists px. split; [exact E|]. split; [exact Hl|]. intros k Hkr.
    rewrite (Hk k Hkr). destruct (Z.ltb_spec k i'); [|lia].
    rewrite !andb_true_r. reflexivity.
Qed.

Lemma scatterRGBA64_swaps_bytes_witness :
  exists px,
    scatterRGBA64 1 (mkSlice 0 2) (replicate 8 Byte.x00)
      (set_tmpBuf (initDecoder []) [Byte.x0a; Byte.x0b]) =
    Ok px (set_tmpBuf (initDecoder []) [Byte.x0a; Byte.x0b]) /\
    len px = len (replicate 8 Byte.x00) /\
    forall k, 0 <= k < len (replicate 8 Byte.x00) ->
      at_ px k = if k mod 8 =? 2 * (1 - 1)
                 then at_ (tmpBuf (set_tmpBuf (initDecoder [])
                                     [Byte.x0a; Byte.x0b]))
                        (0 + (2 * (k / 8) + 1))
                 else if k mod 8 =? 2 * (1 - 1) + 1
                 then at_ (tmpBuf (set_tmpBuf (initDecoder [])
                                     [Byte.x0a; Byte.x0b]))
                        (0 + 2 * (k / 8))
                 else at_ (replicate 8 Byte.x00) k.
Proof.
  apply (scatterRGBA64_swaps_bytes 1 (mkSlice 0 2) (replicate 8 Byte.x00)
           (set_tmpBuf (initDecoder []) [Byte.x0a; Byte.x0b])).
  - lia.
  - simpl. lia.
  - reflexivity.
  - vm_compute. discriminate.
  - vm_compute. discriminate.
Defined.

(** The scatter of a plane into a Gray16 image: the plane fills the pixels
    from the start, each pair of bytes swapped, low byte first in the
    plane and high byte first in the pixels; what lies behind the length
    of the plane stays. *)
Theorem scatterGray16_swaps_bytes buf pix d :
  0 <= soff buf -> 0 <= slen buf -> slen buf mod 2 = 0 -> slen buf <= len pix ->
  soff buf + slen buf <= len (tmpBuf d) ->
  exists px,
    scatterGray16 buf pix d = Ok px d /\ len px = len pix /\
    forall k, 0 <= k < len pix ->
      at_ px k = if k <? slen buf
                 then if k mod 2 =? 0
                      then at_ (tmpBuf d) (soff buf + (k + 1))
                      else at_ (tmpBuf d) (soff buf + (k - 1))
                 else at_ pix k.
Proof.
  intros Hoff Hnn Hmod Hlen Hcap. unfold scatterGray16, for_.
  pose proof (Z.div_mod (slen buf) 2 ltac:(lia)) as Hdm.
  destruct (forTo_total
              (fun i s => len s = len pix /\ 0 <= i <= slen buf /\ i mod 2 = 0 /\
                          forall k, 0 <= k < len pix ->
                            at_ s k =
                            if k <? i
                            then if k mod 2 =? 0
                                 then at_ (tmpBuf d) (soff buf + (k + 1))
                                 else at_ (tmpBuf d) (soff buf + (k - 1))
                            else at_ pix k)
              (fun i p =>
                 let* b1 := index buf (i + 1) in
                 let* p := setPix p i b1 in
                 let* b0 := index buf i in
                 setPix p (i + 1) b0)
              (slen buf) 2 d ltac:(lia))
    with (fuel := Z.to_nat (slen buf - 0)) (i := 0) (s := pix)
    as (i' & px & E & Hi' & Hl & Hi0 & Him & Hk).
  - intros i s Hi (Hl & Hlo & Hm & Hk).
    pose proof (Z.div_mod i 2 ltac:(lia)).
    destruct (index_some buf (i + 1) d) as (b1 & Eb1 & Hb1); [lia|lia|lia|].
    destruct (index_some buf i d) as (b0 & Eb0 & Hb0); [lia|lia|lia|].
    exists (<[Z.to_nat (i + 1) := b0]> (<[Z.to_nat i := b1]> s)).
    rewrite (bind_eq_Ok _ _ _ _ _ Eb1).
    rewrite (bind_eq_Ok _ _ _ _ _ (setPix_ok s i b1 d ltac:(lia))).
    rewrite (bind_eq_Ok _ _ _ _ _ Eb0).
    split; [apply setPix_ok; rewrite len_insert; lia|].
    rewrite !len_insert. split; [exact Hl|]. split; [lia|].
    split; [rewrite <- Hm, <- (Z.mod_add i 1 2) by lia; f_equal; lia|].
    intros k Hkr.
    pose proof (Z.div_mod k 2 ltac:(lia)). pose proof (Z.mod_pos_bound k 2 ltac:(lia)).
    destruct (Z.eq_dec k (i + 1)) as [->|Hne1].
    + rewrite at_insert_eq by (rewrite len_insert; lia).
      destruct (Z.ltb_spec (i + 1) (i + 2)); [|lia].
      destruct (Z.eqb_spec ((i + 1) mod 2) 0); [lia|].
      replace (i + 1 - 1) with i by lia. symmetry. exact Hb0.
    + rewrite at_insert_ne by lia.
      destruct (Z.eq_dec k i) as [->|Hne].
      * rewrite at_insert_eq by lia.
        destruct (Z.ltb_spec i (i + 2)); [|lia].
        destruct (Z.eqb_spec (i mod 2) 0); [|lia]. symmetry. exact Hb1.
      * rewrite at_insert_ne by lia. rewrite (Hk k Hkr).
        destruct (Z.ltb_spec k i), (Z.ltb_spec k (i + 2)); try reflexivity; lia.
  - lia.
  - split; [reflexivity|]. split; [lia|]. split; [reflexivity|].
    intros k Hkr. destruct (Z.ltb_spec k 0); [lia|reflexivity].
  - exists px. split; [exact E|]. split; [exact Hl|]. intros k Hkr.
    rewrite (Hk k Hkr).
    destruct (Z.ltb_spec k i'), (Z.ltb_spec k (slen buf)); try reflexivity; lia.
Qed.

Lemma scatterGray16_swaps_bytes_witness :
  exists px,
    scatterGray16 (mkSlice 0 2) (replicate 4 Byte.x00)
      (set_tmpBuf (initDecoder []) [Byte.x0a; Byte.x0b]) =
    Ok px (set_tmpBuf (initDecoder []) [Byte.x0a; Byte.x0b]) /\
    len px = len (replicate 4 Byte.x00) /\
    forall k, 0 <= k < len (replicate 4 Byte.x00) ->
      at_ px k = if k <? slen (mkSlice 0 2)
                 then if k mod 2 =? 0
                      then at_ (tmpBuf (set_tmpBuf (initDecoder [])
                                          [Byte.x0a; Byte.x0b])) (0 + (k + 1))
                      else at_ (tmpBuf (set_tmpBuf (initDecoder [])
                                          [Byte.x0a; Byte.x0b])) (0 + (k - 1))
                 else at_ (replicate 4 Byte.x00) k.
Proof.
  apply (scatterGray16_swaps_bytes (mkSlice 0 2) (replicate 4 Byte.x00)
           (set_tmpBuf (initDecoder []) [Byte.x0a; Byte.x0b])).
  - simpl. lia.
  - simpl. lia.
  - reflexivity.
  - vm_compute. discriminate.
  - vm_compute. discriminate.
Defined.

(** ** The configuration and the header *)






(** ** Layer blocks and image channels *)

(** A read of [n] bytes at the head of a field of the stream. *)
Lemma peel (bs rest : list byte) (n : Z) :
  0 <= n <= len bs ->
  bs ++ rest = take (Z.to_nat n) bs ++ (drop (Z.to_nat n) bs ++ rest) /\
  len (take (Z.to_nat n) bs) = n.
Proof.
  intros Hn. split.
  - rewrite app_assoc, take_drop. reflexivity.
  - unfold len in *. rewrite length_take. lia.
Qed.

Lemma len_drop (bs : list byte) (n : Z) :
  0 <= n -> len (drop (Z.to_nat n) bs) = Z.max 0 (len bs - n).
Proof. intros Hn. unfold len. rewrite length_drop. lia. Qed.

Lemma wp_skip_peel d n bs rest (Q : unit -> decoder -> Prop) :
  r d = bs ++ rest -> 0 <= n <= len bs ->
  (forall u d', r d' = drop (Z.to_nat n) bs ++ rest -> same d d' -> Q u d') ->
  wp (skip n) d Q.
Proof.
  intros Hr Hn H. destruct (peel bs rest n Hn) as [E L]. rewrite E in Hr.
  eapply wp_skip; [exact Hr|exact L|apply H].
Qed.

Lemma wp_readByte_peel d bs rest (Q : byte -> decoder -> Prop) :
  r d = bs ++ rest -> 1 <= len bs ->
  (forall b d', r d' = drop 1 bs ++ rest -> same d d' -> Q b d') ->
  wp readByte d Q.
Proof.
  intros Hr Hn H. destruct bs as [|b bs]; [unfold len in Hn; simpl in Hn; lia|].
  exists b, (set_r d (bs ++ rest)). split; [apply readByte_ok, Hr|].
  apply H; [reflexivity|apply same_set_r].
Qed.

Lemma wp_readUint16_any d bs rest (Q : Z -> decoder -> Prop) :
  r d = bs ++ rest -> length bs = 2%nat -> 2 <= len (tmpBuf d) ->
  (forall z d', r d' = rest -> same d d' -> Q z d') ->
  wp readUint16 d Q.
Proof.
  intros Hr Hl Ht H.
  destruct (decodeUint16_total bs) as [z Hz]; [unfold len; lia|].
  eexists z, _.
  split; [apply (readUint16_ok d bs rest z Hr Hl Hz Ht)|].
  apply H; [reflexivity|]. apply same_read; [unfold len in Ht; lia|exact Hl].
Qed.

Lemma wp_readUint16_peel d bs rest (Q : Z -> decoder -> Prop) :
  r d = bs ++ rest -> 2 <= len bs -> 2 <= len (tmpBuf d) ->
  (forall z d', r d' = drop 2 bs ++ rest -> same d d' -> Q z d') ->
  wp readUint16 d Q.
Proof.
  intros Hr Hn Ht H.
  destruct (peel bs rest 2 ltac:(lia)) as [E L]. rewrite E in Hr.
  eapply wp_readUint16_any; [exact Hr|unfold len in L; lia|exact Ht|exact H].
Qed.

Lemma wp_readUint32_peel d bs rest (Q : Z -> decoder -> Prop) :
  r d = bs ++ rest -> 4 <= len bs -> 4 <= len (tmpBuf d) ->
  (forall z d', r d' = drop 4 bs ++ rest -> same d d' -> Q z d') ->
  wp readUint32 d Q.
Proof.
  intros Hr Hn Ht H.
  destruct (peel bs rest 4 ltac:(lia)) as [E L]. rewrite E in Hr.
  eapply wp_readUint32_any; [exact Hr|unfold len in L; lia|exact Ht|exact H].
Qed.

(** A word of a slice whose bytes are known. *)
Lemma u32at_ok d s lo z pre post :
  soff s = 0 -> tmpBuf d = pre ++ le32 z ++ post -> len pre = lo ->
  0 <= z < 2 ^ 32 ->
  u32at s lo (lo + 4) d = Ok z d.
Proof.
  intros Hs Ht Hl Hz. unfold u32at.
  pose proof (len_nonneg pre). pose proof (len_nonneg post).
  rewrite (bind_eq_Ok _ _ _ _ _ (reslice_ok d s lo (lo + 4) ltac:(lia)
            ltac:(rewrite Ht, Hs, !len_app; unfold len at 2; simpl; lia))).
  unfold bind, contents, gets. simpl. rewrite Hs.
  replace (lo + 4 - lo) with 4 by lia. rewrite Ht, <- Hl. unfold len.
  rewrite Z.add_0_l, Nat2Z.id, drop_app_length.
  change (take (Z.to_nat 4) (le32 z ++ post)) with (le32 z).
  rewrite (decodeUint32_le32 z Hz). reflexivity.
Qed.

Lemma readRect_ok d x0 y0 x1 y1 rest :
  r d = rectBytes x0 y0 x1 y1 ++ rest ->
  0 <= x0 < 2 ^ 32 -> 0 <= y0 < 2 ^ 32 -> 0 <= x1 < 2 ^ 32 -> 0 <= y1 < 2 ^ 32 ->
  16 <= len (tmpBuf d) ->
  exists d', readRect d = Ok (Rect (int32 x0) (int32 y0) (int32 x1) (int32 y1)) d' /\
             r d' = rest /\ same d d'.
Proof.
  intros Hr H0 H1 H2 H3 Ht. unfold readRect.
  rewrite (bind_eq_Ok _ _ _ _ _
             (readTmp_ok d 16 (rectBytes x0 y0 x1 y1) rest Hr eq_refl Ht)).
  set (d1 := set_tmpBuf (set_r d rest) _).
  assert (Hb : tmpBuf d1 = le32 x0 ++ le32 y0 ++ le32 x1 ++ le32 y1 ++
                            drop 16 (tmpBuf d)) by reflexivity.
  rewrite (bind_eq_Ok _ _ _ _ _
             (u32at_ok d1 (mkSlice 0 16) 0 x0 [] _ eq_refl Hb eq_refl H0)).
  rewrite (bind_eq_Ok _ _ _ _ _
             (u32at_ok d1 (mkSlice 0 16) 4 y0 (le32 x0) _ eq_refl Hb eq_refl H1)).
  rewrite (bind_eq_Ok _ _ _ _ _
             (u32at_ok d1 (mkSlice 0 16) 8 x1 (le32 x0 ++ le32 y0) _ eq_refl
                ltac:(rewrite Hb, <- !app_assoc; reflexivity) eq_refl H2)).
  rewrite (bind_eq_Ok _ _ _ _ _
             (u32at_ok d1 (mkSlice 0 16) 12 y1 (le32 x0 ++ le32 y0 ++ le32 x1) _
                eq_refl ltac:(rewrite Hb, <- !app_assoc; reflexivity) eq_refl H3)).
  exists d1. split; [reflexivity|]. split; [reflexivity|].
  apply (same_read d rest (rectBytes x0 y0 x1 y1) 16);
    [unfold len in Ht; lia|reflexivity].
Qed.

Lemma wp_readRect_any d bs rest (Q : Rectangle -> decoder -> Prop) :
  r d = bs ++ rest -> length bs = 16%nat -> 16 <= len (tmpBuf d) ->
  (forall q d', r d' = rest -> same d d' -> Q q d') ->
  wp readRect d Q.
Proof.
  intros Hr Hl Ht H. unfold readRect.
  apply wp_bind. eexists _, _.
  split; [apply (readTmp_ok d 16 bs rest Hr ltac:(unfold len; lia) Ht)|].
  set (d1 := set_tmpBuf (set_r d rest) _).
  assert (Ht1 : len (tmpBuf d1) = len (tmpBuf d)).
  { unfold d1, len in *. rewrite tmpBuf_set_tmpBuf, length_app, length_drop. lia. }
  destruct (u32at_total (mkSlice 0 16) 0 4 d1) as [a Ea]; cbn [soff]; try lia.
  destruct (u32at_total (mkSlice 0 16) 4 8 d1) as [b Eb]; cbn [soff]; try lia.
  destruct (u32at_total (mkSlice 0 16) 8 12 d1) as [c Ec]; cbn [soff]; try lia.
  destruct (u32at_total (mkSlice 0 16) 12 16 d1) as [e Ee]; cbn [soff]; try lia.
  apply wp_bind. exists a, d1. split; [exact Ea|].
  apply wp_bind. exists b, d1. split; [exact Eb|].
  apply wp_bind. exists c, d1. split; [exact Ec|].
  apply wp_bind. exists e, d1. split; [exact Ee|].
  apply wp_ret. apply H; [reflexivity|].
  apply same_read; [unfold len in Ht; lia|reflexivity].
Qed.

Lemma wp_readRect_peel d bs rest (Q : Rectangle -> decoder -> Prop) :
  r d = bs ++ rest -> 16 <= len bs -> 16 <= len (tmpBuf d) ->
  (forall q d', r d' = drop 16 bs ++ rest -> same d d' -> Q q d') ->
  wp readRect d Q.
Proof.
  intros Hr Hn Ht H.
  destruct (peel bs rest 16 ltac:(lia)) as [E L]. rewrite E in Hr.
  eapply wp_readRect_any; [exact Hr|unfold len in L; lia|exact Ht|exact H].
Qed.

Lemma steady_refl d : steady d d.
Proof. unfold steady. repeat split; lia. Qed.

Lemma steady_trans d1 d2 d3 : steady d1 d2 -> steady d2 d3 -> steady d1 d3.
Proof.
  unfold steady. intros (A1 & A2 & A3 & A4 & A5) (B1 & B2 & B3 & B4 & B5).
  repeat split; try congruence. lia.
Qed.

Lemma same_steady d d' : same d d' -> steady d d'.
Proof.
  intros H. apply same_fields in H
    as (H1 & _ & _ & _ & _ & H2 & H3 & H4 & _ & _ & H5).
  unfold steady. repeat split; try assumption. lia.
Qed.

Lemma steady_same d0 d d' : steady d0 d -> same d d' -> steady d0 d'.
Proof. intros H1 H2. eapply steady_trans; [exact H1|apply same_steady, H2]. Qed.

Lemma steady_len d d' n : steady d d' -> n <= len (tmpBuf d) -> n <= len (tmpBuf d').
Proof. intros (_ & _ & _ & _ & H) Hn. lia. Qed.

Lemma wp_readString_steady d bs rest (Q : list byte -> decoder -> Prop) :
  r d = bs ++ rest -> len bs <= 1024 ->
  (forall d', r d' = rest -> steady d d' -> Q bs d') ->
  wp (readString (len bs)) d Q.
Proof.
  intros Hr Hl H. unfold readString.
  pose proof (len_nonneg bs).
  destruct (Z.ltb_spec 1024 (len bs)); [lia|].
  apply wp_bind, wp_ret. apply wp_bind, wp_gets.
  assert (exists d1, (if len (tmpBuf d) <? len bs then growTmp (len bs) else ret tt) d
                     = Ok tt d1 /\ r d1 = r d /\ steady d d1 /\
                     len bs <= len (tmpBuf d1))
    as (d1 & E1 & Hr1 & Hg1 & Ht1).
  { destruct (Z.ltb_spec (len (tmpBuf d)) (len bs)).
    - unfold growTmp, make, bind, modify, fault_, ret.
      destruct (Z.ltb_spec (len bs) 0); [lia|].
      destruct (Z.ltb_spec maxAlloc (len bs)); [unfold maxAlloc in *; lia|]. simpl.
      eexists. split; [reflexivity|]. split; [reflexivity|].
      assert (Hlen : len (replicate (Z.to_nat (len bs)) Byte.x00) = len bs)
        by (unfold len; rewrite length_replicate; lia).
      split; [unfold steady; simpl; rewrite Hlen; repeat split; lia|].
      simpl; rewrite Hlen; lia.
    - exists d. repeat split; auto using steady_refl; lia. }
  apply wp_bind. exists tt, d1. split; [exact E1|].
  rewrite Hr in Hr1.
  apply wp_bind. eexists _, _.
  split; [apply (readTmp_ok d1 (len bs) bs rest Hr1 eq_refl Ht1)|].
  eexists bs, _. split.
  { unfold contents, gets. simpl. unfold len. rewrite Nat2Z.id.
    change (Z.to_nat 0) with 0%nat. rewrite drop_0, take_app_length. reflexivity. }
  apply H; [reflexivity|].
  eapply steady_same; [exact Hg1|]. apply same_read; [|reflexivity].
  unfold len in Ht1. lia.
Qed.

Lemma same_len d d' n : same d d' -> n <= len (tmpBuf d) -> n <= len (tmpBuf d').
Proof. intros [_ L] Hn. unfold len in *. lia. Qed.

(** One read of a chain of reads: the stream, what is kept of the state and
    the size of the scratch buffer are carried to the next. *)
Ltac peel_side :=
  first [ assumption
        | unfold len in *; rewrite ?length_drop, ?length_app; simpl; lia ].

Ltac peel_step lem :=
  apply wp_bind;
  match goal with
  | Hr : r ?d = _ ++ _, Hst : steady ?d0 ?d, Ht : 16 <= len (tmpBuf ?d)
    |- wp _ ?d _ =>
      eapply lem; [exact Hr | ..];
      [ peel_side ..
      | let x := fresh "x" in
        let d' := fresh "d" in
        let Hr' := fresh "Hr" in
        let Hs := fresh "Hs" in
        let Hst' := fresh "Hst" in
        let Ht' := fresh "Ht" in
        intros x d' Hr' Hs;
        pose proof (steady_same _ _ _ Hst Hs) as Hst';
        pose proof (same_len _ _ 16 Hs Ht) as Ht';
        clear Hr Hst Ht Hs;
        rename Hr' into HR; rename Hst' into HST; rename Ht' into HT ]
  end.

(** The end of a layer block: the channel count, read or derived. *)
Lemma readLayer_counts d0 d (l0 : layerT) f3 cc rest :
  steady d0 d -> 16 <= len (tmpBuf d) ->
  length f3 = (if 10 <=? versionMajor d0 then 5%nat
               else if 6 <=? versionMajor d0 then 11%nat
               else if 4 <=? versionMajor d0 then 6%nat else 2%nat) ->
  (if 10 <=? versionMajor d0 then countOf d0 = Some cc else 0 <= cc < 2 ^ 16) ->
  r d = f3 ++ (if 10 <=? versionMajor d0 then [] else le16 cc) ++ rest ->
  wp (if 10 <=? versionMajor d0
      then skip 5 >>
           let* pal := gets palette in
           let* bd := gets bitDepth in
           let* cc0 :=
             match pal with
             | Some _ => ret 1
             | None =>
                 if (bd =? 1) || (bd =? 8) || (bd =? 16) then ret 1
                 else if (bd =? 24) || (bd =? 48) then ret 3
                 else if (bd =? 32) || (bd =? 64) then ret 4
                 else error_ (FormatError "unknown channel count")
             end in
           ret (bitmapCount l0, cc0)
      else if 6 <=? versionMajor d0
      then skip 9 >>
           let* bc := readUint16 in let* cc0 := readUint16 in ret (bc, cc0)
      else if 4 <=? versionMajor d0
      then skip 4 >>
           let* bc := readUint16 in let* cc0 := readUint16 in ret (bc, cc0)
      else let* bc := readUint16 in let* cc0 := readUint16 in ret (bc, cc0))
     d (fun c dc => r dc = rest /\ steady d0 dc /\ snd c = cc).
Proof.
  intros HST HT Hf3 Hcc HR.
  assert (Htail : forall dd (bc : Z), r dd = le16 cc ++ rest -> steady d0 dd ->
            16 <= len (tmpBuf dd) -> 0 <= cc < 2 ^ 16 ->
            wp (let* cc0 := readUint16 in ret (bc, cc0)) dd
               (fun c dc => r dc = rest /\ steady d0 dc /\ snd c = cc)).
  { intros dd bc Hr' Hst' Ht' Hc. apply wp_bind.
    eapply wp_readUint16; [exact Hr'|exact Hc|lia|].
    intros d' Hr'' Hs''. apply wp_ret.
    split; [exact Hr''|]. split; [eauto using steady_same|reflexivity]. }
  destruct (Z.leb_spec 10 (versionMajor d0)) as [Hv|Hv].
  - peel_step wp_skip_peel.
    rewrite drop_ge, app_nil_l in HR by lia. simpl in HR.
    apply wp_bind, wp_gets. apply wp_bind, wp_gets.
    pose proof HST as (Sv & Sb & Sc & Sp & Sl).
    unfold countOf in Hcc. rewrite Sp, Sb.
    destruct (palette d0).
    + injection Hcc as <-. apply wp_bind, wp_ret, wp_ret. auto.
    + destruct ((bitDepth d0 =? 1) || (bitDepth d0 =? 8) || (bitDepth d0 =? 16)).
      { injection Hcc as <-. apply wp_bind, wp_ret, wp_ret. auto. }
      destruct ((bitDepth d0 =? 24) || (bitDepth d0 =? 48)).
      { injection Hcc as <-. apply wp_bind, wp_ret, wp_ret. auto. }
      destruct ((bitDepth d0 =? 32) || (bitDepth d0 =? 64)); [|discriminate].
      injection Hcc as <-. apply wp_bind, wp_ret, wp_ret. auto.
  - destruct (Z.leb_spec 6 (versionMajor d0)) as [Hv6|Hv6];
      [|destruct (Z.leb_spec 4 (versionMajor d0)) as [Hv4|Hv4]].
    + peel_step wp_skip_peel. peel_step wp_readUint16_peel.
      rewrite !drop_drop, drop_ge, app_nil_l in HR by lia.
      apply Htail; assumption.
    + peel_step wp_skip_peel. peel_step wp_readUint16_peel.
      rewrite !drop_drop, drop_ge, app_nil_l in HR by lia.
      apply Htail; assumption.
    + peel_step wp_readUint16_peel.
      rewrite ?drop_drop, drop_ge, app_nil_l in HR by lia.
      apply Htail; assumption.
Qed.

Lemma readLayer_fields d l0 lead nm f1 x0 y0 x1 y1 f2 f3 cc rest :
  16 <= len (tmpBuf d) ->
  length lead = (if 4 <=? versionMajor d then 4%nat else 0%nat) ->
  (if 4 <=? versionMajor d then len nm <= 1024 else len nm = 256) ->
  length f1 = 17%nat ->
  0 <= x0 < 2 ^ 32 -> 0 <= y0 < 2 ^ 32 -> 0 <= x1 < 2 ^ 32 -> 0 <= y1 < 2 ^ 32 ->
  length f2 = 82%nat ->
  length f3 = (if 10 <=? versionMajor d then 5%nat
               else if 6 <=? versionMajor d then 11%nat
               else if 4 <=? versionMajor d then 6%nat else 2%nat) ->
  (if 10 <=? versionMajor d then countOf d = Some cc else 0 <= cc < 2 ^ 16) ->
  r d = lead ++ (if 4 <=? versionMajor d then le16 (len nm) else []) ++ nm ++
        f1 ++ rectBytes x0 y0 x1 y1 ++ f2 ++ f3 ++
        (if 10 <=? versionMajor d then [] else le16 cc) ++ rest ->
  wp (readLayer l0) d
     (fun l d' =>
        r d' = rest /\ steady d d' /\
        savedRect l = Rect (int32 x0) (int32 y0) (int32 x1) (int32 y1) /\
        channelCount l = cc).
Proof.
  intros Ht Hlead Hnm Hf1 H0 H1 H2 H3 Hf2 Hf3 Hcc Hr.
  unfold readLayer. apply wp_bind, wp_gets.
  pose proof (steady_refl d) as Hst.
  (* the name *)
  apply wp_bind.
  assert (Hname :
    wp (if 4 <=? versionMajor d
        then readUint32 >> (let* nameLen := readUint16 in readString nameLen)
        else let* s := readString 256 in ret (TrimSpace s)) d
       (fun _ d1 => r d1 = f1 ++ rectBytes x0 y0 x1 y1 ++ f2 ++ f3 ++
                           (if 10 <=? versionMajor d then [] else le16 cc) ++ rest /\
                    steady d d1)).
  { destruct (Z.leb_spec 4 (versionMajor d)) as [Hv|Hv].
    - peel_step wp_readUint32_any.
      pose proof (len_nonneg nm).
      apply wp_bind. eapply wp_readUint16; [exact HR|lia|lia|].
      intros d1 Hr1 Hs1.
      eapply wp_readString_steady; [exact Hr1|exact Hnm|].
      intros d' Hr' Hs'. split; [exact Hr'|].
      eauto using steady_trans, steady_same.
    - assert (lead = []) as -> by (destruct lead; [reflexivity|discriminate]).
      simpl in Hr. apply wp_bind. rewrite <- Hnm.
      eapply wp_readString_steady; [exact Hr|lia|].
      intros d' Hr' Hs'. apply wp_ret. split; [exact Hr'|exact Hs']. }
  destruct Hname as (nm' & d1 & E1 & HR & HST).
  exists nm', d1. split; [exact E1|].
  pose proof (steady_len _ _ 16 HST Ht) as HT. clear E1 Hr Hst Hnm Hlead.
  peel_step wp_readByte_peel. peel_step wp_readRect_peel.
  rewrite drop_drop, drop_ge, app_nil_l in HR by lia.
  apply wp_bind.
  destruct (readRect_ok _ x0 y0 x1 y1 _ HR H0 H1 H2 H3 HT) as (d3 & E3 & Hr3 & Hs3).
  eexists; exists d3. split; [exact E3|].
  pose proof (steady_same _ _ _ HST Hs3) as Hst3.
  pose proof (same_len _ _ 16 Hs3 HT) as Ht3.
  clear HR HST HT Hs3 E3. rename Hr3 into HR. rename Hst3 into HST. rename Ht3 into HT.
  do 5 peel_step wp_readByte_peel.
  do 2 peel_step wp_readRect_peel.
  do 3 peel_step wp_readByte_peel.
  peel_step wp_readUint16_peel.
  peel_step wp_skip_peel.
  rewrite !drop_drop, drop_ge, app_nil_l in HR by lia.
  apply wp_bind.
  destruct (readLayer_counts d _ l0 f3 cc rest HST HT Hf3 Hcc HR)
    as (c & dc & Ec & Hrc & Hstc & Hc).
  exists c, dc. split; [exact Ec|].
  apply wp_bind, wp_printf. intros dp Hrp Hsp. apply wp_ret. simpl.
  split; [congruence|]. split; [eauto using steady_same|auto].
Qed.

(** *** The images of a layer *)

Lemma Dx_Rect a b c e : 0 <= Dx (Rect a b c e).
Proof.
  unfold Rect, Dx. destruct (Z.ltb_spec c a), (Z.ltb_spec e b); simpl; lia.
Qed.

Lemma Dy_Rect a b c e : 0 <= Dy (Rect a b c e).
Proof.
  unfold Rect, Dy. destruct (Z.ltb_spec c a), (Z.ltb_spec e b); simpl; lia.
Qed.

Lemma pixelBufferLength_ok bpp q kind d :
  0 <= Dx q -> 0 <= Dy q -> bpp * (Dx q * Dy q) <= maxAlloc ->
  pixelBufferLength bpp q kind d = Ok (bpp * (Dx q * Dy q)) d.
Proof.
  intros Hx Hy Ha. unfold pixelBufferLength.
  destruct (Z.ltb_spec (Dx q) 0); [lia|]. destruct (Z.ltb_spec (Dy q) 0); [lia|].
  rewrite <- Z.mul_assoc.
  destruct (Z.ltb_spec maxInt (bpp * (Dx q * Dy q)));
    [unfold maxInt, maxAlloc in *; lia|].
  reflexivity.
Qed.

Lemma make_ok n d :
  0 <= n <= maxAlloc -> make n d = Ok (replicate (Z.to_nat n) Byte.x00) d.
Proof.
  intros Hn. unfold make.
  destruct (Z.ltb_spec n 0); [lia|]. destruct (Z.ltb_spec maxAlloc n); [lia|].
  reflexivity.
Qed.

Lemma len_replicate (n : Z) (b : byte) : 0 <= n -> len (replicate (Z.to_nat n) b) = n.
Proof. intros Hn. unfold len. rewrite length_replicate. lia. Qed.

Lemma fillAlpha_ok pix d : exists px, fillAlpha pix d = Ok px d /\ len px = len pix.
Proof.
  unfold fillAlpha, for_.
  destruct (forTo_total (fun i s => 3 <= i /\ len s = len pix)
              (fun i p => setPix p i Byte.xff) (len pix) 4 d ltac:(lia))
    with (fuel := Z.to_nat (len pix - 3)) (i := 3) (s := pix)
    as (i' & px & E & _ & _ & Hl).
  - intros i s Hi [Hlo Hl]. exists (<[Z.to_nat i := Byte.xff]> s).
    split; [apply setPix_ok; lia|]. rewrite len_insert. split; [lia|exact Hl].
  - lia.
  - split; [lia|reflexivity].
  - exists px. auto.
Qed.

Lemma fillAlpha64_ok pix d :
  len pix mod 8 = 0 ->
  exists px, fillAlpha64 pix d = Ok px d /\ len px = len pix.
Proof.
  intros Hm. unfold fillAlpha64, for_.
  pose proof (Z.div_mod (len pix) 8 ltac:(lia)) as Hdm.
  destruct (forTo_total (fun i s => 6 <= i /\ i mod 8 = 6 /\ len s = len pix)
              (fun i p => let* p := setPix p i Byte.xff in setPix p (i + 1) Byte.xff)
              (len pix) 8 d ltac:(lia))
    with (fuel := Z.to_nat (len pix - 6)) (i := 6) (s := pix)
    as (i' & px & E & _ & _ & _ & Hl).
  - intros i s Hi (Hlo & Hmi & Hl).
    pose proof (Z.div_mod i 8 ltac:(lia)).
    exists (<[Z.to_nat (i + 1) := Byte.xff]> (<[Z.to_nat i := Byte.xff]> s)).
    rewrite (bind_eq_Ok _ _ _ _ _ (setPix_ok s i Byte.xff d ltac:(lia))).
    split; [apply setPix_ok; rewrite len_insert; lia|].
    rewrite !len_insert. split; [lia|]. split; [|exact Hl].
    replace (i + 8) with (i + 1 * 8) by lia. rewrite Z.mod_add by lia. exact Hmi.
  - lia.
  - split; [lia|]. split; reflexivity.
  - exists px. auto.
Qed.

(** *** The scatter of a plane that fits *)

Lemma scatterRGBA_ok ct buf pix d :
  1 <= ct -> 0 <= soff buf -> len pix <= 4 * slen buf ->
  soff buf + slen buf <= len (tmpBuf d) ->
  exists px, scatterRGBA ct buf pix d = Ok px d /\ len px = len pix.
Proof.
  intros Hct Hoff Hlen Hcap. unfold scatterRGBA, for_.
  destruct (forTo_total (fun i s => ct - 1 <= i /\ len s = len pix)
              (fun i p => let* b := index buf (Z.quot i 4) in setPix p i b)
              (len pix) 4 d ltac:(lia))
    with (fuel := Z.to_nat (len pix - (ct - 1))) (i := ct - 1) (s := pix)
    as (i' & px & E & _ & _ & Hl).
  - intros i s Hi (Hlo & Hl).
    pose proof (Z.div_mod i 4 ltac:(lia)). pose proof (Z.mod_pos_bound i 4 ltac:(lia)).
    rewrite Z.quot_div_nonneg by lia.
    destruct (index_total buf (i / 4) d) as (b & Eb); [lia|lia|lia|].
    exists (<[Z.to_nat i := b]> s).
    rewrite (bind_eq_Ok _ _ _ _ _ Eb). split; [apply setPix_ok; lia|].
    rewrite len_insert. split; [lia|exact Hl].
  - lia.
  - split; [lia|reflexivity].
  - exists px. auto.
Qed.

Lemma scatterRGBA64_ok ct buf pix d :
  1 <= ct -> 0 <= soff buf -> len pix mod 8 = 0 ->
  len pix <= 4 * slen buf -> soff buf + slen buf <= len (tmpBuf d) ->
  exists px, scatterRGBA64 ct buf pix d = Ok px d /\ len px = len pix.
Proof.
  intros Hct Hoff Hmod Hlen Hcap. unfold scatterRGBA64, for_.
  pose proof (Z.div_mod (len pix) 8 ltac:(lia)) as Hdm.
  destruct (forTo_total
              (fun i s => (ct - 1) * 2 <= i /\ i mod 2 = 0 /\ len s = len pix)
              (fun i p =>
                 let* b1 := index buf (2 * Z.quot i 8 + 1) in
                 let* p := setPix p i b1 in
                 let* b0 := index buf (2 * Z.quot i 8) in
                 setPix p (i + 1) b0)
              (len pix) 8 d ltac:(lia))
    with (fuel := Z.to_nat (len pix - (ct - 1) * 2)) (i := (ct - 1) * 2) (s := pix)
    as (i' & px & E & _ & _ & _ & Hl).
  - intros i s Hi (Hlo & Hm & Hl).
    pose proof (Z.div_mod i 8 ltac:(lia)). pose proof (Z.mod_pos_bound i 8 ltac:(lia)).
    pose proof (Z.div_mod i 2 ltac:(lia)).
    rewrite Z.quot_div_nonneg by lia.
    destruct (index_total buf (2 * (i / 8) + 1) d) as (b1 & Eb1); [lia|lia|lia|].
    destruct (index_total buf (2 * (i / 8)) d) as (b0 & Eb0); [lia|lia|lia|].
    exists (<[Z.to_nat (i + 1) := b0]> (<[Z.to_nat i := b1]> s)).
    rewrite (bind_eq_Ok _ _ _ _ _ Eb1).
    rewrite (bind_eq_Ok _ _ _ _ _ (setPix_ok s i b1 d ltac:(lia))).
    rewrite (bind_eq_Ok _ _ _ _ _ Eb0).
    split; [apply setPix_ok; rewrite len_insert; lia|].
    rewrite !len_insert. split; [lia|]. split; [|exact Hl].
    replace (i + 8) with (i + 4 * 2) by lia. rewrite Z.mod_add by lia. exact Hm.
  - lia.
  - split; [lia|]. split; [|reflexivity].
    apply Z.mod_mul. lia.
  - exists px. auto.
Qed.

Lemma scatterGray16_ok buf pix d :
  0 <= soff buf -> 0 <= slen buf -> slen buf mod 2 = 0 -> slen buf <= len pix ->
  soff buf + slen buf <= len (tmpBuf d) ->
  exists px, scatterGray16 buf pix d = Ok px d /\ len px = len pix.
Proof.
  intros Hoff Hnn Hmod Hlen Hcap. unfold scatterGray16, for_.
  pose proof (Z.div_mod (slen buf) 2 ltac:(lia)) as Hdm.
  destruct (forTo_total (fun i s => 0 <= i /\ i mod 2 = 0 /\ len s = len pix)
              (fun i p =>
                 let* b1 := index buf (i + 1) in
                 let* p := setPix p i b1 in
                 let* b0 := index buf i in
                 setPix p (i + 1) b0)
              (slen buf) 2 d ltac:(lia))
    with (fuel := Z.to_nat (slen buf - 0)) (i := 0) (s := pix)
    as (i' & px & E & _ & _ & _ & Hl).
  - intros i s Hi (Hlo & Hm & Hl).
    pose proof (Z.div_mod i 2 ltac:(lia)).
    destruct (index_total buf (i + 1) d) as (b1 & Eb1); [lia|lia|lia|].
    destruct (index_total buf i d) as (b0 & Eb0); [lia|lia|lia|].
    exists (<[Z.to_nat (i + 1) := b0]> (<[Z.to_nat i := b1]> s)).
    rewrite (bind_eq_Ok _ _ _ _ _ Eb1).
    rewrite (bind_eq_Ok _ _ _ _ _ (setPix_ok s i b1 d ltac:(lia))).
    rewrite (bind_eq_Ok _ _ _ _ _ Eb0).
    split; [apply setPix_ok; rewrite len_insert; lia|].
    rewrite !len_insert. split; [lia|]. split; [|exact Hl].
    replace (i + 2) with (i + 1 * 2) by lia. rewrite Z.mod_add by lia. exact Hm.
  - lia.
  - split; [lia|]. split; reflexivity.
  - exists px. auto.
Qed.

Lemma palStore_own p i b n d :
  (exists im px, p = Some im /\ PPix im = PixOwn px /\ len px = n) ->
  0 <= i < n ->
  exists p', palStore p i b d = Ok p' d /\
             exists im px, p' = Some im /\ PPix im = PixOwn px /\ len px = n.
Proof.
  intros (im & px & -> & Hp & Hl) Hi. unfold palStore. rewrite Hp.
  rewrite (bind_eq_Ok _ _ _ _ _ (setPix_ok px i b d ltac:(lia))).
  eexists. split; [reflexivity|].
  eexists _, _. split; [reflexivity|]. split; [reflexivity|].
  rewrite len_insert. exact Hl.
Qed.

Lemma scatterBits_ok buf p n d :
  (exists im px, p = Some im /\ PPix im = PixOwn px /\ len px = n) ->
  0 <= soff buf -> 8 * slen buf <= n ->
  soff buf + slen buf <= len (tmpBuf d) ->
  exists p', scatterBits buf p d = Ok p' d /\
             exists im px, p' = Some im /\ PPix im = PixOwn px /\ len px = n.
Proof.
  intros Hp Hoff Hn Hcap. unfold scatterBits, for_.
  destruct (forTo_total
              (fun i (s : option paletted) => 0 <= i /\
                 exists im px, s = Some im /\ PPix im = PixOwn px /\ len px = n)
              (fun i p =>
                 let* b := index buf i in
                 let* bp := forTo (Z.to_nat (8 - 0)) 0 8 1
                              (fun j (bp : byte * option paletted) =>
                                 let* p' := palStore (snd bp) (i * 8 + j)
                                              (z2b (Z.shiftr (b2z (fst bp)) 7)) in
                                 ret (z2b (Z.shiftl (b2z (fst bp)) 1), p'))
                              (b, p) in
                 ret (snd bp))
              (slen buf) 1 d ltac:(lia))
    with (fuel := Z.to_nat (slen buf - 0)) (i := 0) (s := p)
    as (i' & p' & E & _ & _ & Hp').
  - intros i s Hi (Hlo & Hs).
    destruct (index_total buf i d) as (b & Eb); [lia|lia|lia|].
    rewrite (bind_eq_Ok _ _ _ _ _ Eb).
    destruct (forTo_total
                (fun j (bp : byte * option paletted) => 0 <= j /\
                   exists im px, snd bp = Some im /\ PPix im = PixOwn px /\
                                 len px = n)
                (fun j (bp : byte * option paletted) =>
                   let* p' := palStore (snd bp) (i * 8 + j)
                                (z2b (Z.shiftr (b2z (fst bp)) 7)) in
                   ret (z2b (Z.shiftl (b2z (fst bp)) 1), p'))
                8 1 d ltac:(lia))
      with (fuel := Z.to_nat (8 - 0)) (i := 0) (s := (b, s))
      as (j' & bp & Ebp & _ & _ & Hbp).
    + intros j bp Hj (Hjlo & Hbp).
      destruct (palStore_own (snd bp) (i * 8 + j)
                  (z2b (Z.shiftr (b2z (fst bp)) 7)) n d Hbp ltac:(lia))
        as (p1 & E1 & H1).
      rewrite (bind_eq_Ok _ _ _ _ _ E1).
      eexists. split; [reflexivity|]. split; [lia|exact H1].
    + lia.
    + split; [lia|exact Hs].
    + rewrite (bind_eq_Ok _ _ _ _ _ Ebp).
      exists (snd bp). split; [reflexivity|]. split; [lia|exact Hbp].
  - lia.
  - split; [lia|exact Hp].
  - exists p'. auto.
Qed.

Lemma NewRGBA_ok q d :
  0 <= Dx q -> 0 <= Dy q -> 4 * (Dx q * Dy q) <= maxAlloc ->
  exists im, NewRGBA q d = Ok im d /\ len (Pix im) = 4 * (Dx q * Dy q).
Proof.
  intros Hx Hy Ha. unfold NewRGBA.
  pose proof (Z.mul_nonneg_nonneg _ _ Hx Hy) as Hxy.
  rewrite (bind_eq_Ok _ _ _ _ _ (pixelBufferLength_ok 4 q _ d Hx Hy Ha)).
  rewrite (bind_eq_Ok _ _ _ _ _ (make_ok (4 * (Dx q * Dy q)) d ltac:(lia))).
  eexists. split; [reflexivity|]. simpl. apply len_replicate. lia.
Qed.

Lemma NewRGBA64_ok q d :
  0 <= Dx q -> 0 <= Dy q -> 8 * (Dx q * Dy q) <= maxAlloc ->
  exists im, NewRGBA64 q d = Ok im d /\ len (Pix im) = 8 * (Dx q * Dy q).
Proof.
  intros Hx Hy Ha. unfold NewRGBA64.
  pose proof (Z.mul_nonneg_nonneg _ _ Hx Hy) as Hxy.
  rewrite (bind_eq_Ok _ _ _ _ _ (pixelBufferLength_ok 8 q _ d Hx Hy Ha)).
  rewrite (bind_eq_Ok _ _ _ _ _ (make_ok (8 * (Dx q * Dy q)) d ltac:(lia))).
  eexists. split; [reflexivity|]. simpl. apply len_replicate. lia.
Qed.

Lemma NewGray16_ok q d :
  0 <= Dx q -> 0 <= Dy q -> 2 * (Dx q * Dy q) <= maxAlloc ->
  exists im, NewGray16 q d = Ok im d /\ len (Pix im) = 2 * (Dx q * Dy q).
Proof.
  intros Hx Hy Ha. unfold NewGray16.
  pose proof (Z.mul_nonneg_nonneg _ _ Hx Hy) as Hxy.
  rewrite (bind_eq_Ok _ _ _ _ _ (pixelBufferLength_ok 2 q _ d Hx Hy Ha)).
  rewrite (bind_eq_Ok _ _ _ _ _ (make_ok (2 * (Dx q * Dy q)) d ltac:(lia))).
  eexists. split; [reflexivity|]. simpl. apply len_replicate. lia.
Qed.

Lemma NewPaletted_ok q pal d :
  0 <= Dx q -> 0 <= Dy q -> 1 * (Dx q * Dy q) <= maxAlloc ->
  exists im px, NewPaletted q pal d = Ok im d /\ PPix im = PixOwn px /\
                len px = Dx q * Dy q.
Proof.
  intros Hx Hy Ha. unfold NewPaletted.
  pose proof (Z.mul_nonneg_nonneg _ _ Hx Hy) as Hxy.
  rewrite (bind_eq_Ok _ _ _ _ _ (pixelBufferLength_ok 1 q _ d Hx Hy Ha)).
  rewrite (bind_eq_Ok _ _ _ _ _ (make_ok (1 * (Dx q * Dy q)) d ltac:(lia))).
  eexists _, _. split; [reflexivity|]. split; [reflexivity|].
  rewrite len_replicate; lia.
Qed.

Lemma wrapInt_small x : - 2 ^ 63 <= x < 2 ^ 63 -> wrapInt x = x.
Proof. intros Hx. unfold wrapInt. rewrite Z.mod_small; lia. Qed.

Section Planes.

Variable inflate : list byte -> Z -> inflated.

(** The scatter of a plane that the image takes: the image takes the next
    plane as well. *)
Lemma scatter_ok ct lc d :
  planeFits d lc ct -> layerBytes lc <= len (tmpBuf d) ->
  exists lc', scatter ct (mkSlice 0 (layerBytes lc)) lc d = Ok lc' d /\
              forall ct', 1 <= ct' -> planeFits d lc' ct'.
Proof.
  intros [Hlb Hfit] Hcap. unfold scatter, planeFits.
  destruct (imgRGBA lc) as [im|] eqn:E1.
  { destruct Hfit as [Hct Hl].
    destruct (scatterRGBA_ok ct (mkSlice 0 (layerBytes lc)) (Pix im) d)
      as (px & E & Hpx); cbn [soff slen]; try lia.
    rewrite (bind_eq_Ok _ _ _ _ _ E). eexists. split; [reflexivity|].
    intros ct' Hct'. simpl. rewrite Hpx. auto. }
  destruct (imgRGBA64 lc) as [im|] eqn:E2.
  { destruct Hfit as (Hct & Hl & Hm).
    destruct (scatterRGBA64_ok ct (mkSlice 0 (layerBytes lc)) (Pix im) d)
      as (px & E & Hpx); cbn [soff slen]; try lia.
    rewrite (bind_eq_Ok _ _ _ _ _ E). eexists. split; [reflexivity|].
    intros ct' Hct'. simpl. rewrite ?E1, Hpx. auto. }
  destruct (imgGray16 lc) as [im|] eqn:E3.
  { destruct Hfit as [Hl Hm].
    destruct (scatterGray16_ok (mkSlice 0 (layerBytes lc)) (Pix im) d)
      as (px & E & Hpx); cbn [soff slen]; try lia.
    rewrite (bind_eq_Ok _ _ _ _ _ E). eexists. split; [reflexivity|].
    intros ct' Hct'. simpl. rewrite ?E1, ?E2, Hpx. auto. }
  destruct (imgPaletted lc) as [im|] eqn:Ep; [|contradiction].
  unfold bind at 1, gets.
  destruct (Z.eqb_spec (bitDepth d) 1) as [Hb|Hb].
  - destruct (Hfit Hb) as (px & Hpx & Hl).
    destruct (scatterBits_ok (mkSlice 0 (layerBytes lc)) (Some im) (len px) d)
      as (p' & E & im' & px' & -> & Hpx' & Hl'); cbn [soff slen]; try lia.
    { exists im, px. auto. }
    rewrite (bind_eq_Ok _ _ _ _ _ E). eexists. split; [reflexivity|].
    intros ct' Hct'. simpl. rewrite ?E1, ?E2, ?E3. split; [exact Hlb|].
    intros _. exists px'. split; [exact Hpx'|lia].
  - unfold palAlias, bind, gets, ret. eexists. split; [reflexivity|].
    intros ct' Hct'. simpl. rewrite ?E1, ?E2, ?E3. split; [exact Hlb|].
    intros Hb'. contradiction.
Qed.

(** The images that a layer block makes the decoder allocate. *)
Lemma layerImage_ok lc l d :
  (channelCount l <> 0 ->
   bytesPerPixel d * (Dx (savedRect l) * Dy (savedRect l)) <= maxAlloc) ->
  0 <= Dx (savedRect l) -> 0 <= Dy (savedRect l) ->
  exists lc',
    (if channelCount l =? 0 then
       ret (mkLocals l (img lc) (imgRGBA lc) (imgRGBA64 lc) (imgGray16 lc)
              (imgPaletted lc) (layerBytes lc) (channel lc))
     else
       let area := wrapInt (Dx (savedRect l) * Dy (savedRect l)) in
       let* pal := gets palette in
       let* bd := gets bitDepth in
       match pal with
       | Some p =>
           let* im := NewPaletted (savedRect l) p in
           ret (mkLocals l (Some VarPaletted) (imgRGBA lc) (imgRGBA64 lc)
                  (imgGray16 lc) (Some im)
                  (if bd =? 1 then Z.quot area 8 else area) 0)
       | None =>
           if bd =? 16 then
             let* im := NewGray16 (savedRect l) in
             ret (mkLocals l (Some VarGray16) (imgRGBA lc) (imgRGBA64 lc)
                    (Some im) (imgPaletted lc) (wrapInt (area * 2)) 0)
           else if (bd =? 24) || (bd =? 32) then
             let* im := NewRGBA (savedRect l) in
             let* px := fillAlpha (Pix im) in
             ret (mkLocals l (Some VarRGBA)
                    (Some (mkPix px (Stride im) (Bounds im))) (imgRGBA64 lc)
                    (imgGray16 lc) (imgPaletted lc) area 0)
           else if (bd =? 48) || (bd =? 64) then
             let* im := NewRGBA64 (savedRect l) in
             let* px := fillAlpha64 (Pix im) in
             ret (mkLocals l (Some VarRGBA64) (imgRGBA lc)
                    (Some (mkPix px (Stride im) (Bounds im)))
                    (imgGray16 lc) (imgPaletted lc) (wrapInt (area * 2)) 0)
           else
             ret (mkLocals l (img lc) (imgRGBA lc) (imgRGBA64 lc) (imgGray16 lc)
                    (imgPaletted lc) (layerBytes lc) 0)
       end) d = Ok lc' d /\ layer lc' = l /\
    (channelCount l <> 0 -> bytesPerPixel d <> 0 -> oneKind d lc ->
     forall ct, 1 <= ct -> planeFits d lc' ct).
Proof.
  intros Ha Hx Hy.
  destruct (Z.eqb_spec (channelCount l) 0) as [Hz|Hz];
    [eexists; split; [reflexivity|]; split; [reflexivity|contradiction]|].
  specialize (Ha Hz). unfold oneKind, bytesPerPixel in *.
  pose proof (Z.mul_nonneg_nonneg _ _ Hx Hy) as Hxy.
  assert (Hmax : maxAlloc = 2 ^ 48) by reflexivity.
  cbv zeta. unfold bind at 1, gets. unfold bind at 1.
  destruct (palette d) as [p|].
  - destruct (NewPaletted_ok (savedRect l) p d Hx Hy Ha) as (im & px & E & Hpx & Hl).
    rewrite (bind_eq_Ok _ _ _ _ _ E). eexists; split; [reflexivity|].
    split; [reflexivity|]. intros _ _ (K1 & K2 & K3) ct Hct.
    unfold planeFits. simpl.
    rewrite K1, K2, K3 by lia. rewrite wrapInt_small by lia.
    pose proof (Z.mul_div_le (Dx (savedRect l) * Dy (savedRect l)) 8 ltac:(lia)).
    pose proof (Z.div_pos (Dx (savedRect l) * Dy (savedRect l)) 8 ltac:(lia) ltac:(lia)).
    rewrite Z.quot_div_nonneg by lia.
    split; [destruct (bitDepth d =? 1); lia|].
    intros Hb. rewrite Hb. simpl. exists px. split; [exact Hpx|lia].
  - destruct (bitDepth d =? 16).
    { destruct (NewGray16_ok (savedRect l) d Hx Hy Ha) as (im & E & Hl).
      rewrite (bind_eq_Ok _ _ _ _ _ E). eexists; split; [reflexivity|].
      split; [reflexivity|]. intros _ _ (K1 & K2 & K3) ct Hct.
      unfold planeFits. simpl. rewrite K1, K2 by lia.
      rewrite (wrapInt_small (Dx _ * Dy _)) by lia. rewrite wrapInt_small by lia.
      split; [lia|]. split; [lia|]. apply Z.mod_mul. lia. }
    destruct ((bitDepth d =? 24) || (bitDepth d =? 32)).
    { destruct (NewRGBA_ok (savedRect l) d Hx Hy Ha) as (im & E & Hl).
      rewrite (bind_eq_Ok _ _ _ _ _ E).
      destruct (fillAlpha_ok (Pix im) d) as (px & Ep & Hpx).
      rewrite (bind_eq_Ok _ _ _ _ _ Ep). eexists; split; [reflexivity|].
      split; [reflexivity|]. intros _ _ _ ct Hct.
      unfold planeFits. simpl. rewrite wrapInt_small by lia.
      split; [lia|]. split; [exact Hct|lia]. }
    destruct ((bitDepth d =? 48) || (bitDepth d =? 64)).
    { destruct (NewRGBA64_ok (savedRect l) d Hx Hy Ha) as (im & E & Hl).
      rewrite (bind_eq_Ok _ _ _ _ _ E).
      destruct (fillAlpha64_ok (Pix im) d) as (px & Ep & Hpx).
      { rewrite Hl, Z.mul_comm. apply Z.mod_mul. lia. }
      rewrite (bind_eq_Ok _ _ _ _ _ Ep). eexists; split; [reflexivity|].
      split; [reflexivity|]. intros _ _ (K1 & _) ct Hct.
      unfold planeFits. simpl. rewrite K1 by lia.
      rewrite (wrapInt_small (Dx _ * Dy _)) by lia. rewrite wrapInt_small by lia.
      split; [lia|]. split; [exact Hct|]. split; [lia|].
      rewrite Hpx, Hl, Z.mul_comm. apply Z.mod_mul. lia. }
    eexists; split; [reflexivity|]. split; [reflexivity|]. intros _ Hb. lia.
Qed.

Lemma bytesPerPixel_eq d d' :
  palette d' = palette d -> bitDepth d' = bitDepth d ->
  bytesPerPixel d' = bytesPerPixel d.
Proof. unfold bytesPerPixel. intros -> ->. reflexivity. Qed.

(** A layer block whose fields fill its declared length. *)
Lemma decodeLayersStep_layer lc d lead nm f1 x0 y0 x1 y1 f2 f3 cc rest :
  let k := KLayer lead nm f1 x0 y0 x1 y1 f2 f3 cc in
  blockOk d lc k ->
  len (blockBody (versionMajor d) k) < 2 ^ 32 ->
  14 <= len (tmpBuf d) ->
  r d = blockHdr (versionMajor d) layerBlock (len (blockBody (versionMajor d) k)) ++
        blockBody (versionMajor d) k ++ rest ->
  wp (decodeLayersStep inflate lc) d
     (fun x d' =>
        r d' = rest /\
        exists lc', x = inl lc' /\
          savedRect (layer lc') = Rect (int32 x0) (int32 y0) (int32 x1) (int32 y1) /\
          channelCount (layer lc') = cc /\
          (oneKind d lc -> cc <> 0 -> bytesPerPixel d <> 0 ->
           forall ct, 1 <= ct -> planeFits d' lc' ct)).
Proof.
  intros k (Ht16 & Hlead & Hnm & Hf1 & H0 & H1 & H2 & H3 & Hf2 & Hf3 & Hcc & Ha)
    Hl Ht Hr.
  unfold decodeLayersStep.
  pose proof (len_nonneg (blockBody (versionMajor d) k)).
  apply wp_bind.
  eapply wp_readBlockHeader; [exact Hr|unfold layerBlock; lia|lia|exact Ht|].
  intros bh d1 Hid Hdl Hr1 Hs1. rewrite Hid. simpl.
  pose proof (same_steady _ _ Hs1) as (Sv & Sb & Sc & Sp & Sl).
  apply wp_bind. unfold layerCase. apply wp_bind.
  unfold k, blockBody in Hr1. rewrite <- !app_assoc in Hr1.
  destruct (readLayer_fields d1 (layer lc) lead nm f1 x0 y0 x1 y1 f2 f3 cc rest)
    as (l & d2 & E2 & Hr2 & Hst2 & Hsr & Hc); rewrite ?Sv; try assumption.
  { lia. }
  { unfold countOf in *. rewrite Sp, Sb. exact Hcc. }
  exists l, d2. split; [exact E2|].
  destruct Hst2 as (Tv & Tb & Tc & Tp & Tl).
  assert (Hbpp : bytesPerPixel d2 = bytesPerPixel d)
    by (apply bytesPerPixel_eq; congruence).
  destruct (layerImage_ok lc l d2) as (lc' & E' & Hlay & Hfit).
  { rewrite Hc, Hsr, Hbpp. exact Ha. }
  { rewrite Hsr. apply Dx_Rect. }
  { rewrite Hsr. apply Dy_Rect. }
  exists lc', d2. split; [exact E'|]. apply wp_ret.
  split; [exact Hr2|]. exists lc'. rewrite Hlay.
  split; [reflexivity|]. split; [exact Hsr|]. split; [exact Hc|].
  intros Hone Hz Hb. apply Hfit; [congruence|congruence|].
  unfold oneKind in *. rewrite Hbpp. exact Hone.
Qed.

Lemma planeFits_bitDepth d d' lc ct :
  bitDepth d' = bitDepth d -> planeFits d lc ct -> planeFits d' lc ct.
Proof. unfold planeFits. intros ->. auto. Qed.

(** The plane of a channel block, taken as it is or unpacked, in a scratch
    buffer that holds it. *)
Lemma channelData_ok lc d cl payload rest :
  0 <= layerBytes lc <= len (tmpBuf d) ->
  r d = payload ++ rest ->
  (comp d = compressionNone /\ len payload = layerBytes lc) \/
  (comp d = compressionRLE /\
   exists ps, payload = flat_map encode ps /\ Forall packetOk ps /\
              covers cl ps /\ len (flat_map expand ps) <= layerBytes lc) ->
  wp (let buf := mkSlice 0 (layerBytes lc) in
      if comp d =? compressionLZ77 then lz77 inflate buf cl
      else if comp d =? compressionRLE then rle buf cl >> ret tt
      else if comp d =? compressionNone then read buf
      else ret tt) d
     (fun _ d' => r d' = rest /\ bitDepth d' = bitDepth d /\
                  len (tmpBuf d') = len (tmpBuf d)).
Proof.
  intros Hlb Hr [[Hc Hl]|(Hc & ps & -> & Hok & Hcov & Hfit)]; cbv zeta; rewrite Hc.
  - change (compressionNone =? compressionLZ77) with false.
    change (compressionNone =? compressionRLE) with false.
    change (compressionNone =? compressionNone) with true. cbv iota.
    eexists tt, _.
    split; [apply (read_ok d (mkSlice 0 (layerBytes lc)) payload rest Hr Hl)|].
    split; [reflexivity|]. split; [reflexivity|].
    unfold len. rewrite tmpBuf_set_tmpBuf, length_inserts. reflexivity.
  - change (compressionRLE =? compressionLZ77) with false.
    change (compressionRLE =? compressionRLE) with true. cbv iota.
    apply wp_bind. unfold rle.
    eexists _, _. split.
    { apply (rleLoop_packets (mkSlice 0 (layerBytes lc)) ps _ cl 0 d rest Hok Hcov Hr);
        cbn [soff slen]; try lia.
      rewrite Hr, length_app. pose proof (length_packets ps). lia. }
    apply wp_ret. split; [reflexivity|]. split; [reflexivity|].
    unfold len. rewrite tmpBuf_set_tmpBuf, length_inserts. reflexivity.
Qed.

(** The scratch buffer made as long as the plane. *)
Lemma growTmp_ok n d :
  0 <= n <= maxAlloc ->
  wp (if len (tmpBuf d) <? n then growTmp n else ret tt) d
     (fun _ d' => r d' = r d /\ comp d' = comp d /\ bitDepth d' = bitDepth d /\
                  n <= len (tmpBuf d')).
Proof.
  intros Hn. destruct (Z.ltb_spec (len (tmpBuf d)) n).
  - unfold growTmp. apply wp_bind. eexists _, _.
    split; [apply (make_ok n d Hn)|].
    eexists tt, _. split; [reflexivity|]. simpl.
    rewrite len_replicate by lia. repeat split; lia.
  - apply wp_ret. repeat split; lia.
Qed.

(** A channel block of the image bitmap whose plane fills its declared
    length. *)
Lemma decodeLayersStep_image lc d cl ul ct payload rest :
  r d = blockHdr (versionMajor d) channelBlock
          (len (channelInfo (versionMajor d) cl ul dibImage ct ++ payload)) ++
        channelInfo (versionMajor d) cl ul dibImage ct ++ payload ++ rest ->
  len (channelInfo (versionMajor d) cl ul dibImage ct ++ payload) < 2 ^ 32 ->
  0 <= cl < 2 ^ 32 -> 0 <= ul < 2 ^ 32 -> 0 <= ct < 2 ^ 16 ->
  14 <= len (tmpBuf d) ->
  planeFits d lc ct ->
  (comp d = compressionNone /\ len payload = layerBytes lc) \/
  (comp d = compressionRLE /\
   exists ps, payload = flat_map encode ps /\ Forall packetOk ps /\
              covers cl ps /\ len (flat_map expand ps) <= layerBytes lc) ->
  wp (decodeLayersStep inflate lc) d
     (fun x d' =>
        r d' = rest /\
        forall lc', x = inl lc' -> forall ct', 1 <= ct' -> planeFits d' lc' ct').
Proof.
  intros Hr Hl Hcl Hul Hct Ht Hfit Hpay.
  unfold decodeLayersStep.
  pose proof (len_nonneg (channelInfo (versionMajor d) cl ul dibImage ct ++ payload)).
  apply wp_bind.
  eapply wp_readBlockHeader; [exact Hr|unfold channelBlock; lia|lia|exact Ht|].
  intros bh d1 Hid Hdl Hr1 Hs1. rewrite Hid. simpl.
  pose proof (same_fields _ _ Hs1) as (Hv1 & _ & _ & _ & _ & _ & _ & _ & _ & _ & Ht1).
  unfold channelCase.
  apply wp_bind, wp_gets. rewrite Hv1.
  unfold channelInfo in Hr1. rewrite <- !app_assoc in Hr1.
  apply wp_bind.
  assert (Hhead : wp (if 4 <=? versionMajor d
                      then let* headerLen := readUint32 in
                           if negb (headerLen =? 16)
                           then error_ (FormatError "invalid channel block info len")
                           else ret tt
                      else ret tt) d1
                     (fun _ d2 => r d2 = le32 cl ++ le32 ul ++ le16 dibImage ++
                                         le16 ct ++ payload ++ rest /\
                                  same d d2)).
  { destruct (Z.leb_spec 4 (versionMajor d)).
    - apply wp_bind. eapply wp_readUint32; [exact Hr1|lia|lia|].
      intros d2 Hr2 Hs2. simpl. apply wp_ret. eauto using same_trans.
    - apply wp_ret. auto. }
  destruct Hhead as (u & d2 & E2 & Hr2 & Hs2). exists u, d2. split; [exact E2|].
  pose proof (same_fields _ _ Hs2) as (_ & _ & _ & _ & _ & _ & _ & _ & _ & _ & Ht2).
  apply wp_bind. eapply wp_readUint32; [exact Hr2|lia|lia|].
  intros d3 Hr3 Hs3.
  pose proof (same_fields _ _ Hs3) as (_ & _ & _ & _ & _ & _ & _ & _ & _ & _ & Ht3).
  apply wp_bind. eapply wp_readUint32; [exact Hr3|lia|lia|].
  intros d4 Hr4 Hs4.
  pose proof (same_fields _ _ Hs4) as (_ & _ & _ & _ & _ & _ & _ & _ & _ & _ & Ht4).
  apply wp_bind. eapply wp_readUint16; [exact Hr4|unfold dibImage; lia|lia|].
  intros d5 Hr5 Hs5.
  pose proof (same_fields _ _ Hs5) as (_ & _ & _ & _ & _ & _ & _ & _ & _ & _ & Ht5).
  apply wp_bind. eapply wp_readUint16; [exact Hr5|lia|lia|].
  intros d6 Hr6 Hs6.
  change (negb (dibImage =? dibImage)) with false. cbv iota.
  apply wp_bind, wp_printf. intros d7 Hr7 Hs7.
  apply wp_bind, wp_printf. intros d8 Hr8 Hs8.
  apply wp_bind, wp_printf. intros d9 Hr9 Hs9.
  apply wp_bind, wp_printf. intros d10 Hr10 Hs10.
  apply wp_bind, wp_printf. intros d11 Hr11 Hs11.
  assert (Hs : same d d11) by eauto 12 using same_trans.
  pose proof (same_fields _ _ Hs)
    as (_ & _ & _ & _ & _ & Hcomp & Hbd & _ & _ & _ & _).
  assert (Hr' : r d11 = payload ++ rest) by congruence.
  clear Hr7 Hr8 Hr9 Hr10 Hr11 Hs7 Hs8 Hs9 Hs10 Hs11.
  destruct Hfit as [Hlb Himg].
  apply wp_bind, wp_gets. apply wp_bind.
  destruct (growTmp_ok (layerBytes lc) d11 Hlb) as (u1 & dg & Eg & Hrg & Hcg & Hbg & Hlg).
  exists u1, dg. split; [exact Eg|].
  apply wp_bind. eexists _, dg.
  split; [apply (tmpSlice_ok dg 0 (layerBytes lc)); lia|].
  replace (layerBytes lc - 0) with (layerBytes lc) by lia.
  apply wp_bind, wp_gets. apply wp_bind.
  destruct (channelData_ok lc dg cl payload rest) as (u2 & dr & Er & Hrr & Hbr & Hlr).
  { lia. } { congruence. } { rewrite Hcg, Hcomp. exact Hpay. }
  exists u2, dr. split; [exact Er|].
  apply wp_bind.
  destruct (scatter_ok ct lc dr) as (lc' & Es & Hfit').
  { apply (planeFits_bitDepth d); [congruence|]. split; assumption. }
  { lia. }
  exists lc', dr. split; [exact Es|].
  apply wp_nextChannel. intros x Hx. split; [exact Hrr|].
  intros lc'' -> ct' Hct'. unfold nextChannel in Hx.
  destruct (_ =? _) in Hx.
  - unfold bind in Hx. destruct (imageOf _ dr); discriminate.
  - injection Hx as <-. exact (Hfit' ct' Hct').
Qed.

End Planes.

(** ** Every block and the stream position *)

(** C4, amended: in a well-formed stream the decoder advances the stream by
    exactly the declared length L from the first byte after the block header
    to the next block header for the image-attributes block, in every
    version, and for every block whose body is what the decoder reads of
    it: a block of the top level it has no case for, an extended-data or
    creator block whose chunks fill L, a color-palette block whose entries
    fill L, a layer block whose fields fill L, a channel block of the
    image bitmap whose plane, as it is or in run-length packets, fills L, a
    sub-block it has no case for, and a channel block that is not of the
    image bitmap in version 4 or later.  For the sub-block of id 33 it
    advances by L + n bytes, n being the 32-bit count that follows the L
    bytes of the body. *)
Theorem block_advance inflate :
  (forall d d',
      readHeader d = Ok tt d' ->
      exists sig hdr body,
        r d = sig ++ hdr ++ body ++ r d' /\ length sig = 36%nat /\
        length hdr = (if 3 <? versionMajor d' then 10%nat else 14%nat) /\
        decodeUint32 (drop (length hdr - 4) hdr) = Some (len body)) /\
  (forall k d lc rest,
      blockOk d lc k ->
      len (blockBody (versionMajor d) k) < 2 ^ 32 ->
      14 <= len (tmpBuf d) ->
      r d = blockHdr (versionMajor d) (blockId k)
              (len (blockBody (versionMajor d) k)) ++
            blockBody (versionMajor d) k ++ blockTrailer k ++ rest ->
      if topLevel k
      then wp (decodeStep inflate) d (fun x d' => x = None /\ r d' = rest)
      else wp (decodeLayersStep inflate lc) d
             (fun x d' =>
                r d' = rest /\
                match k with
                | KMask _ _ _ _ _ => nextChannel lc d' = Ok x d'
                | KLayer _ _ _ x0 y0 x1 y1 _ _ cc =>
                    exists lc', x = inl lc' /\
                      savedRect (layer lc') =
                        Rect (int32 x0) (int32 y0) (int32 x1) (int32 y1) /\
                      channelCount (layer lc') = cc /\
                      (oneKind d lc -> cc <> 0 -> bytesPerPixel d <> 0 ->
                       forall ct, 1 <= ct -> planeFits d' lc' ct)
                | KPlane _ _ _ _ | KPacked _ _ _ _ =>
                    forall lc', x = inl lc' ->
                      forall ct, 1 <= ct -> planeFits d' lc' ct
                | _ => x = inl lc
                end)).
Proof.
  split.
  - intros d d' H.
    destruct (readHeader_inv d d' H)
      as (sig & hdr & body & Hr & Hs & _ & _ & _ & Hh & _ & _ & Hdl & _).
    exists sig, hdr, body. auto.
  - intros k d lc rest Hok Hl Ht Hr.
    destruct k as [i body|cs|cs|tag es|i body|cl ul bt ct body|
                   lead nm f1 x0 y0 x1 y1 f2 f3 cc|cl ul ct data|cl ul ct ps|
                   body n extra];
      cbn [blockId blockTrailer topLevel] in *;
      try change ([] ++ rest) with rest in Hr.
    + cbn [blockOk blockBody] in *. destruct Hok as (Hi & N1 & N2 & N3 & N4).
      destruct (decodeStep_skips inflate d i _ body rest Hr eq_refl Hi Hl Ht N1 N2 N3 N4)
        as (x & d' & E & -> & Hr' & _).
      exists None, d'. auto.
    + cbn [blockOk blockBody] in *.
      destruct (decodeStep_extendedData inflate d cs rest Hok Hr Hl Ht)
        as (x & d' & E & -> & Hr' & _).
      exists None, d'. auto.
    + cbn [blockOk blockBody] in *.
      destruct (decodeStep_creator inflate d cs rest Hok Hr Hl Ht)
        as (x & d' & E & -> & Hr' & _).
      exists None, d'. auto.
    + cbn [blockOk blockBody] in *. destruct Hok as (Htag & Hn).
      exact (decodeStep_color inflate d tag es rest Htag Hn Hr Hl Ht).
    + cbn [blockOk blockBody] in *. destruct Hok as (Hi & N1 & N2 & N3).
      destruct (decodeLayersStep_skips inflate lc d i _ body rest Hr eq_refl Hi Hl Ht N1 N2 N3)
        as (x & d' & E & -> & Hr' & _).
      exists (inl lc), d'. auto.
    + cbn [blockOk blockBody] in *.
      destruct Hok as (Hv & Hcl & Hul & Hbt & Hct & Hmask).
      rewrite <- app_assoc in Hr.
      assert (Hlen : len (channelInfo (versionMajor d) cl ul bt ct ++ body)
                     = 16 + len body).
      { rewrite len_app. unfold channelInfo.
        destruct (Z.leb_spec 4 (versionMajor d)); [|lia].
        unfold len. simpl. lia. }
      destruct (decodeLayersStep_mask inflate lc d _ cl ul bt ct body rest Hv Hr Hlen
                  Hl Hcl Hul Hbt Hct Hmask Ht)
        as (x & d' & E & Hx & Hr' & _).
      exists x, d'. auto.
    + exact (decodeLayersStep_layer inflate lc d lead nm f1 x0 y0 x1 y1 f2 f3 cc
               rest Hok Hl Ht Hr).
    + cbn [blockOk blockBody] in *.
      destruct Hok as (Hcl & Hul & Hct & Hc & Hd & Hfit).
      rewrite <- app_assoc in Hr.
      destruct (decodeLayersStep_image inflate lc d cl ul ct data rest Hr Hl Hcl Hul
                  Hct Ht Hfit (or_introl (conj Hc Hd)))
        as (x & d' & E & Hr' & Hx).
      exists x, d'. auto.
    + cbn [blockOk blockBody] in *.
      destruct Hok as (Hcl & Hul & Hct & Hc & Hps & Hcov & Hexp & Hfit).
      rewrite <- app_assoc in Hr.
      destruct (decodeLayersStep_image inflate lc d cl ul ct (flat_map encode ps)
                  rest Hr Hl Hcl Hul Hct Ht Hfit)
        as (x & d' & E & Hr' & Hx).
      { right. split; [exact Hc|]. exists ps. auto. }
      exists x, d'. auto.
    + cbn [blockOk blockBody] in *.
      destruct Hok as (Hn & He). rewrite <- app_assoc in Hr.
      destruct (decodeLayersStep_33 inflate lc d _ body n extra rest Hr eq_refl Hl Hn He Ht)
        as (x & d' & E & -> & Hr' & _).
      exists (inl lc), d'. auto.
Qed.

Lemma block_advance_witness :
  (exists sig hdr body,
      fileHdr 4 2 1 0 24 0 ++ [Byte.x09] = sig ++ hdr ++ body ++ [Byte.x09] /\
      length sig = 36%nat /\ length hdr = 10%nat /\
      decodeUint32 (drop (length hdr - 4) hdr) = Some (len body)) /\
  wp (decodeLayersStep noInflate zeroLocals)
     (set_version
        (initDecoder (blockHdr 4 33 2 ++ [Byte.x01; Byte.x02] ++
                      le32 6 ++ [Byte.x03; Byte.x04] ++ [Byte.x09]))
        4 0)
     (fun x d' => r d' = [Byte.x09] /\ x = inl zeroLocals) /\
  wp (decodeStep noInflate)
     (set_version
        (initDecoder (blockHdr 4 9 2 ++ [Byte.x01; Byte.x02] ++ [Byte.x09]))
        4 0)
     (fun x d' => x = None /\ r d' = [Byte.x09]) /\
  wp (decodeLayersStep noInflate zeroLocals)
     (afterHeader (fileHdr 4 2 1 0 24 0 ++
                   layerBlk 4 2 1 3 [Byte.x41; Byte.x42] ++ [Byte.x09]))
     (fun x d' =>
        r d' = [Byte.x09] /\
        exists lc', x = inl lc' /\
          savedRect (layer lc') = Rect (int32 0) (int32 0) (int32 2) (int32 1) /\
          channelCount (layer lc') = 3 /\
          (oneKind (afterHeader (fileHdr 4 2 1 0 24 0 ++
                                 layerBlk 4 2 1 3 [Byte.x41; Byte.x42] ++
                                 [Byte.x09])) zeroLocals ->
           3 <> 0 ->
           bytesPerPixel (afterHeader (fileHdr 4 2 1 0 24 0 ++
                                       layerBlk 4 2 1 3 [Byte.x41; Byte.x42] ++
                                       [Byte.x09])) <> 0 ->
           forall ct, 1 <= ct -> planeFits d' lc' ct)) /\
  wp (decodeLayersStep noInflate rgbLocals)
     (afterHeader (fileHdr 4 2 1 0 24 0 ++
                   channelBlk 4 0 1 2 [Byte.x01; Byte.x02] ++ [Byte.x09]))
     (fun x d' => r d' = [Byte.x09] /\
                  forall lc', x = inl lc' ->
                    forall ct, 1 <= ct -> planeFits d' lc' ct) /\
  wp (decodeLayersStep noInflate rgbLocals)
     (afterHeader (fileHdr 4 2 1 1 24 0 ++
                   channelBlk 4 0 1 2 (encode (Run 2 Byte.x07)) ++ [Byte.x09]))
     (fun x d' => r d' = [Byte.x09] /\
                  forall lc', x = inl lc' ->
                    forall ct, 1 <= ct -> planeFits d' lc' ct).
Proof.
  split; [|split; [|split; [|split; [|split]]]].
  - refine (proj1 (block_advance noInflate)
              (initDecoder (fileHdr 4 2 1 0 24 0 ++ [Byte.x09]))
              (set_stdout
                 (set_colorModel
                    (set_attrs
                       (set_version
                          (set_tmpBuf (initDecoder [Byte.x09]) _) 4 0)
                       _ _ _ _ _ _ _ _ _ _ _ _) _) _) _).
    vm_compute. reflexivity.
  - refine (proj2 (block_advance noInflate)
              (KQuirk33 [Byte.x01; Byte.x02] 6 [Byte.x03; Byte.x04])
              _ zeroLocals [Byte.x09] _ _ _ _).
    + simpl. unfold len. simpl. lia.
    + vm_compute. reflexivity.
    + vm_compute. discriminate.
    + reflexivity.
  - refine (proj2 (block_advance noInflate)
              (KSkipped 9 [Byte.x01; Byte.x02])
              _ zeroLocals [Byte.x09] _ _ _ _).
    + vm_compute. repeat split; discriminate.
    + vm_compute. reflexivity.
    + vm_compute. discriminate.
    + reflexivity.
  - refine (proj2 (block_advance noInflate)
              (KLayer (le32 0) [Byte.x41; Byte.x42]
                 ([Byte.x00] ++ rectBytes 0 0 2 1) 0 0 2 1
                 ([Byte.xff; Byte.x00; Byte.x01; Byte.x00; Byte.x00] ++
                  rectBytes 0 0 0 0 ++ rectBytes 0 0 0 0 ++
                  [Byte.x00; Byte.x00; Byte.x00] ++ le16 0 ++ zeros 40)
                 (zeros 4 ++ le16 1) 3)
              _ zeroLocals [Byte.x09] _ _ _ _).
    + vm_compute. repeat split; try discriminate; try reflexivity.
    + vm_compute. reflexivity.
    + vm_compute. discriminate.
    + vm_compute. reflexivity.
  - refine (proj2 (block_advance noInflate)
              (KPlane 2 2 1 [Byte.x01; Byte.x02])
              _ rgbLocals [Byte.x09] _ _ _ _).
    + vm_compute. repeat split; try discriminate; try reflexivity.
    + vm_compute. reflexivity.
    + vm_compute. discriminate.
    + vm_compute. reflexivity.
  - refine (proj2 (block_advance noInflate)
              (KPacked 2 2 1 [Run 2 Byte.x07])
              _ rgbLocals [Byte.x09] _ _ _ _).
    + cbn [blockOk]. split; [lia|]. split; [lia|]. split; [lia|].
      split; [vm_compute; reflexivity|].
      split; [repeat constructor; simpl; lia|].
      split; [simpl; unfold len; simpl; lia|].
      split; [vm_compute; discriminate|].
      vm_compute. repeat split; discriminate.
    + vm_compute. reflexivity.
    + vm_compute. discriminate.
    + vm_compute. reflexivity.
Defined.

(** ** The plane of a paletted image *)

(** The pixels of a paletted image are the scratch buffer itself, into
    which the decoder reads every header: the plane 01 00 is gone from the
    image once the decoder has read the header of the mask channel that
    follows it. *)
Lemma mask_channel_overwrites_paletted_plane :
  Decode noInflate palMaskFile =
  Returns (Some (ImPaletted (mkPix [Byte.x00; Byte.x00] 2 (mkRect 0 0 2 1))
                   [mkRGBA Byte.x30 Byte.x20 Byte.x10 Byte.xff;
                    mkRGBA Byte.x60 Byte.x50 Byte.x40 Byte.xff])) None.
Proof. vm_compute. reflexivity. Qed.
